(** * Move search of the tablebase: a shallow embedding of [move_search.h]

    The development follows the header top to bottom: gravity timing, the
    tap table, the phase-1 table generator, the column/frame codec, the
    lock-row bit trick, the tuck masks, the two search phases and the
    driver.  C++ [int] values are integers of [Z]; the unsigned 32 and 64
    bit values ([Column], [Frames]) are integers of [Z] reduced with [u32]
    and [u64] wherever the C++ operation can leave the range. *)

From Stdlib Require Import ZArith List Bool Lia Sorted.
Import ListNotations.
Local Open Scope Z_scope.

(** ** Machine integers *)

Definition u8 (x : Z) : Z := x mod 2 ^ 8.
Definition u32 (x : Z) : Z := x mod 2 ^ 32.
Definition u64 (x : Z) : Z := x mod 2 ^ 64.

(** [~x] on a 32 bit unsigned value. *)
Definition not32 (x : Z) : Z := u32 (Z.lnot x).

(** The half-open integer range [lo, lo + 1, ..., lo + n - 1]: the index
    sequence of a C++ [for (int i = lo; i < hi; i++)] loop. *)
Fixpoint Zseq (lo : Z) (n : nat) : list Z :=
  match n with
  | O => []
  | S n' => lo :: Zseq (lo + 1) n'
  end.

Definition Zrange (lo hi : Z) : list Z := Zseq lo (Z.to_nat (hi - lo)).

(** ** Gravity *)

Inductive Level : Type := kLevel18 | kLevel19 | kLevel29 | kLevel39.

Definition GetRow (frame : Z) (level : Level) : Z :=
  match level with
  | kLevel18 => Z.quot frame 3
  | kLevel19 => Z.quot frame 2
  | kLevel29 => frame
  | kLevel39 => frame * 2
  end.

Definition IsDropFrame (frame : Z) (level : Level) : bool :=
  match level with
  | kLevel18 => Z.rem frame 3 =? 2
  | kLevel19 => Z.rem frame 2 =? 1
  | _ => true
  end.

Definition NumDrops (frame : Z) (level : Level) : Z :=
  if negb (IsDropFrame frame level) then 0
  else match level with
       | kLevel39 => 2
       | _ => 1
       end.

Definition GetFirstFrameOnRow (row : Z) (level : Level) : Z :=
  match level with
  | kLevel18 => row * 3
  | kLevel19 => row * 2
  | kLevel29 => row
  | kLevel39 => Z.quot (row + 1) 2
  end.

Definition GetLastFrameOnRow (row : Z) (level : Level) : Z :=
  match level with
  | kLevel18 => row * 3 + 2
  | kLevel19 => row * 2 + 1
  | kLevel29 => row
  | kLevel39 => Z.quot row 2
  end.

(** ** Tap table

    [TapTable<tap1, ..., tap10>] stores the running sums of its ten
    template arguments.  [mkTapTable] is the constructor's loop
    [t[i] += t[i - 1]]; [taps_ok] is its [static_assert]. *)

Fixpoint running_sum (acc : Z) (deltas : list Z) : list Z :=
  match deltas with
  | [] => []
  | d :: ds => (acc + d) :: running_sum (acc + d) ds
  end.

Definition TapTable : Type := list Z.

Definition mkTapTable (deltas : list Z) : TapTable := running_sum 0 deltas.

Definition taps_ok (deltas : list Z) : Prop :=
  length deltas = 10%nat /\
  0 <= nth 0 deltas 0 /\
  forall i, (1 <= i < 10)%nat -> 2 <= nth i deltas 0.

(** [taps[x]]. *)
Definition tap_at (t : TapTable) (x : Z) : Z := nth (Z.to_nat x) t 0.

Definition Tap30Hz : TapTable := mkTapTable [0; 2; 2; 2; 2; 2; 2; 2; 2; 2].
Definition Tap20Hz : TapTable := mkTapTable [0; 3; 3; 3; 3; 3; 3; 3; 3; 3].
Definition Tap15Hz : TapTable := mkTapTable [0; 4; 4; 4; 4; 4; 4; 4; 4; 4].
Definition Tap12Hz : TapTable := mkTapTable [0; 5; 5; 5; 5; 5; 5; 5; 5; 5].

Definition abs (x : Z) : Z := if x <? 0 then - x else x.
Definition sgn (x : Z) : Z := if x =? 0 then 0 else if x >? 0 then 1 else -1.

(** ** Bit intrinsics *)

(** Modelled from the spec: [pdep] of [constexpr_helpers.h], which is not
    among the sources.  It is the bit deposit operation that the frame
    codec's design names ("hardware bit-deposit/extract"): the low bits of
    [src] go, in order, to the positions of the set bits of [mask].
    [pdep_bits n] walks the [n] low positions of the mask. *)
Fixpoint pdep_bits (n : nat) (src mask : Z) : Z :=
  match n with
  | O => 0
  | S n' =>
      if Z.odd mask
      then Z.b2z (Z.odd src) + 2 * pdep_bits n' (Z.div2 src) (Z.div2 mask)
      else 2 * pdep_bits n' src (Z.div2 mask)
  end.

(** Modelled from the spec: [pext] of [constexpr_helpers.h], which is not
    among the sources.  It is the bit extract operation of the same design:
    the bits of [src] at the positions of the set bits of [mask] are packed,
    in order, into the low bits of the result. *)
Fixpoint pext_bits (n : nat) (src mask : Z) : Z :=
  match n with
  | O => 0
  | S n' =>
      if Z.odd mask
      then Z.b2z (Z.odd src) + 2 * pext_bits n' (Z.div2 src) (Z.div2 mask)
      else pext_bits n' (Z.div2 src) (Z.div2 mask)
  end.

Definition pdep64 (src mask : Z) : Z := pdep_bits 64 (u64 src) (u64 mask).
Definition pdep32 (src mask : Z) : Z := pdep_bits 32 (u32 src) (u32 mask).
Definition pext64 (src mask : Z) : Z := pext_bits 64 (u64 src) (u64 mask).
Definition pext32 (src mask : Z) : Z := pext_bits 32 (u32 src) (u32 mask).

(** Modelled from the spec: [clz<uint32_t>] of [constexpr_helpers.h], which
    is not among the sources; the lock-row design reads it as
    [31 - highbit].  It counts the leading zero bits of a 32 bit value, 32
    on zero. *)
Definition clz32 (x : Z) : Z :=
  if u32 x =? 0 then 32 else 31 - Z.log2 (u32 x).

Fixpoint pos_ctz (p : positive) : Z :=
  match p with
  | xO q => 1 + pos_ctz q
  | _ => 0
  end.

(** Modelled from the spec: [ctz] of [constexpr_helpers.h], which is not
    among the sources.  It counts the trailing zero bits of a 32 bit value
    (the index of its lowest set bit), 32 on zero. *)
Definition ctz (x : Z) : Z :=
  match u32 x with
  | Zpos p => pos_ctz p
  | _ => 32
  end.

(** ** Column / frame codec *)

Definition Column : Type := Z.
Definition Frames : Type := Z.

Definition kMask18 : Z := 0x249249249249249.
Definition kMask19 : Z := 0x5555555555.
Definition kMask39 : Z := 0x55555.

Definition ColumnToNormalFrameMask (level : Level) (col : Column) : Frames :=
  match level with
  | kLevel18 =>
      let expanded := pdep64 col kMask18 in
      Z.lor (Z.lor expanded (u64 (Z.shiftl expanded 1)))
            (u64 (Z.shiftl expanded 2))
  | kLevel19 =>
      let expanded := pdep64 col kMask19 in
      Z.lor expanded (u64 (Z.shiftl expanded 1))
  | kLevel29 => u32 col
  | kLevel39 => pext32 col kMask39
  end.

Definition ColumnToDropFrameMask (level : Level) (col : Column) : Frames :=
  match level with
  | kLevel39 =>
      pext32 (Z.land (Z.land (u32 col) (Z.shiftr (u32 col) 1))
                     (Z.shiftr (u32 col) 2)) kMask39
  | _ =>
      let mask := ColumnToNormalFrameMask level col in
      Z.land mask (Z.shiftr mask 1)
  end.

Definition FramesToColumn (level : Level) (frames : Frames) : Column :=
  match level with
  | kLevel18 =>
      u32 (pext64 (Z.lor (Z.lor frames (Z.shiftr frames 1))
                         (Z.shiftr frames 2)) kMask18)
  | kLevel19 =>
      u32 (pext64 (Z.lor frames (Z.shiftr frames 1)) kMask19)
  | kLevel29 => u32 frames
  | kLevel39 => pdep32 frames kMask39
  end.

(** [31 - clz(col ^ (col + (1 << start_row))) - 1], on 32 bit values. *)
Definition FindLockRow (col : Z) (start_row : Z) : Z :=
  31 - clz32 (Z.lxor (u32 col) (u32 (u32 col + Z.shiftl 1 start_row))) - 1.

(** ** Boards and positions *)

(** Modelled from the spec: the class [Board] of [board.h], which is not
    among the sources.  A board is a 20 x 10 grid of bits; it is kept as
    one integer with the cell of row [row] and column [col] at bit
    [20 * col + row], so that [Column] reads twenty adjacent bits with the
    top row as least significant bit.  [Board_zero] is [Board(0, 0, 0, 0)],
    [Board_Set] is [Set(row, col)], [Board_Column] is [Column(c)],
    [Board_and] and [Board_eqb] are the operators [&] and [==]. *)
Definition Board : Type := Z.

Definition Board_zero : Board := 0.

Definition Board_Set (b : Board) (row col : Z) : Board :=
  Z.lor b (Z.shiftl 1 (20 * col + row)).

Definition Board_Column (b : Board) (c : Z) : Column :=
  Z.land (Z.shiftr b (20 * c)) 0xFFFFF.

Definition Board_and (a b : Board) : Board := Z.land a b.
Definition Board_eqb (a b : Board) : bool := a =? b.

(** Modelled from the spec: the struct [Position] of [position.h], which is
    not among the sources.  It is the triple of rotation [r], row [x] and
    column [y] (the names that [inspect.cpp] prints). *)
Record Position : Type := mkPosition { r : Z; x : Z; y : Z }.

(** ** Arrays

    The scratch arrays of the generator and of the search are local,
    zero-initialised C arrays; they are kept as total maps from indices to
    values.  [std::array<Board, R>] values that are stored in table entries
    or passed to the search are lists of [R] boards. *)

Definition aset {X : Type} (a : Z -> X) (i : Z) (v : X) : Z -> X :=
  fun k => if k =? i then v else a k.

Definition aset2 {X : Type} (a : Z -> Z -> X) (i j : Z) (v : X)
  : Z -> Z -> X :=
  fun k l => if (k =? i) && (l =? j) then v else a k l.

Definition BoardArr : Type := list Board.

Definition board_at (b : BoardArr) (i : Z) : Board := nth (Z.to_nat i) b 0.

(** Check each bit in mask is set in board. *)
Definition Contains (R : Z) (board mask : BoardArr) : bool :=
  fold_left
    (fun ret i =>
       ret && Board_eqb (Board_and (board_at board i) (board_at mask i))
                        (board_at mask i))
    (Zrange 0 R) true.

(** ** Phase-1 table *)

Record TableEntry : Type := mkTableEntry {
  rot : Z;
  col : Z;
  prev : Z;
  num_taps : Z;
  cannot_finish : bool;
  masks : BoardArr;
  masks_nodrop : BoardArr
}.

Definition kA : Z := 1.
Definition kB : Z := 2.
Definition kL : Z := 4.
Definition kR : Z := 8.

(** The five scratch arrays of [Phase1TableGen], indexed by [rot] and
    [col]; a cell of [ga_masks] is itself an array of [R] boards. *)
Record GenArrays : Type := mkGenArrays {
  ga_masks : Z -> Z -> Z -> Board;
  ga_masks_nodrop : Z -> Z -> Z -> Board;
  ga_last_tap : Z -> Z -> Z;
  ga_cannot_reach : Z -> Z -> bool;
  ga_cannot_finish : Z -> Z -> bool
}.

Definition gen_init : GenArrays :=
  mkGenArrays (fun _ _ _ => Board_zero) (fun _ _ _ => Board_zero)
              (fun _ _ => 0) (fun _ _ => false) (fun _ _ => false).

Section Phase1TableGen.

Variable level : Level.
Variable R : Z.
Variable taps : TapTable.
Variables initial_frame initial_rot initial_col : Z.

(** The cells stamped by one frame of the inner loop over
    [start_frame <= frame < end_frame]. *)
Definition stamp_frame (rot col : Z) (cur : Z -> Board) (frame : Z)
  : Z -> Board :=
  let row := GetRow frame level in
  let cur := aset cur rot (Board_Set (cur rot) row col) in
  if IsDropFrame frame level then
    let cur := aset cur rot (Board_Set (cur rot) (row + 1) col) in
    match level with
    | kLevel39 => aset cur rot (Board_Set (cur rot) (row + 2) col)
    | _ => cur
    end
  else cur.

(** One iteration of the loop over [col] and [delta_rot]. *)
Definition gen_body (g : GenArrays) (col delta_rot : Z) : GenArrays :=
  if (R =? 1) && negb (delta_rot =? 0) then g
  else if (R =? 2) && (delta_rot >=? 2) then g
  else
    let rot := Z.rem (initial_rot + delta_rot) R in
    let num_lr_tap := abs (col - initial_col) in
    let num_ab_tap := if delta_rot =? 3 then 1 else delta_rot in
    let num_tap := Z.max num_ab_tap num_lr_tap in
    let start_frame :=
      (if num_tap =? 0 then 0 else tap_at taps (num_tap - 1))
      + initial_frame in
    let end_frame := tap_at taps num_tap + initial_frame in
    let last0 := ga_last_tap g rot col in
    let last1 :=
      if negb (num_tap =? 0) && (num_tap =? num_lr_tap)
      then Z.lor last0 (if col >? initial_col then kR else kL)
      else last0 in
    let last2 :=
      if negb (num_tap =? 0) && (num_tap =? num_ab_tap)
      then Z.lor last1 (if delta_rot =? 3 then kB else kA)
      else last1 in
    let last_tap := aset2 (ga_last_tap g) rot col last2 in
    let start_row := GetRow start_frame level in
    if start_row >=? 20 then
      mkGenArrays (ga_masks g) (ga_masks_nodrop g) last_tap
                  (aset2 (ga_cannot_reach g) rot col true)
                  (ga_cannot_finish g)
    else
      let start_col :=
        if num_tap =? num_lr_tap then col - sgn (col - initial_col)
        else col in
      let start_rot :=
        if num_tap =? num_ab_tap
        then Z.rem ((if delta_rot =? 2 then 1 else 0) + initial_rot) R
        else rot in
      let cur := ga_masks g rot col in
      let cur :=
        aset cur start_rot (Board_Set (cur start_rot) start_row start_col) in
      let cur :=
        aset cur start_rot (Board_Set (cur start_rot) start_row col) in
      let cur := aset cur rot (Board_Set (cur rot) start_row col) in
      let masks_nodrop := aset2 (ga_masks_nodrop g) rot col cur in
      if GetRow end_frame level >=? 20 then
        mkGenArrays (aset2 (ga_masks g) rot col cur) masks_nodrop last_tap
                    (ga_cannot_reach g)
                    (aset2 (ga_cannot_finish g) rot col true)
      else
        let cur :=
          fold_left (stamp_frame rot col) (Zrange start_frame end_frame)
                    cur in
        mkGenArrays (aset2 (ga_masks g) rot col cur) masks_nodrop last_tap
                    (ga_cannot_reach g) (ga_cannot_finish g).

Definition gen_arrays : GenArrays :=
  fold_left
    (fun g col => fold_left (fun g dr => gen_body g col dr) (Zrange 0 4) g)
    (Zrange 0 10) gen_init.

(** The lambda [Push]; its four parameters are [uint8_t]. *)
Definition Push (g : GenArrays) (entries : list TableEntry)
           (rot col prev num_taps : Z) : list TableEntry :=
  let rot := u8 rot in
  let col := u8 col in
  let prev := u8 prev in
  let num_taps := u8 num_taps in
  if negb (ga_cannot_reach g rot col) then
    entries ++
      [mkTableEntry rot col prev num_taps (ga_cannot_finish g rot col)
         (map (ga_masks g rot col) (Zrange 0 R))
         (map (ga_masks_nodrop g rot col) (Zrange 0 R))]
  else entries.

Definition dummy_entry : TableEntry :=
  mkTableEntry 0 0 0 0 false [] [].

Definition entry_at (entries : list TableEntry) (i : Z) : TableEntry :=
  nth (Z.to_nat i) entries dummy_entry.

(** The body of the loop [for (int cur = 0; cur < sz; cur++)]. *)
Definition expand (g : GenArrays) (entries : list TableEntry) (cur : Z)
  : list TableEntry :=
  let rot := rot (entry_at entries cur) in
  let col := col (entry_at entries cur) in
  let taps := num_taps (entry_at entries cur) in
  let last := ga_last_tap g rot col in
  let should_l :=
    (col >? 0) && ((taps =? 0) || negb (Z.land last kL =? 0)) in
  let should_r :=
    (col <? 9) && ((taps =? 0) || negb (Z.land last kR =? 0)) in
  let should_a :=
    ((R >? 1) && (taps =? 0))
    || ((R =? 4) && (taps =? 1) && negb (Z.land last kA =? 0)) in
  let should_b := (R =? 4) && (taps =? 0) in
  let es := entries in
  let es := if should_l then Push g es rot (col - 1) cur (taps + 1) else es in
  let es := if should_r then Push g es rot (col + 1) cur (taps + 1) else es in
  let es :=
    if should_a then
      let nrot := Z.rem (rot + 1) R in
      let es := Push g es nrot col cur (taps + 1) in
      let es :=
        if should_l then Push g es nrot (col - 1) cur (taps + 1) else es in
      if should_r then Push g es nrot (col + 1) cur (taps + 1) else es
    else es in
  if should_b then
    let nrot := Z.rem (rot + 3) R in
    let es := Push g es nrot col cur (taps + 1) in
    let es :=
      if should_l then Push g es nrot (col - 1) cur (taps + 1) else es in
    if should_r then Push g es nrot (col + 1) cur (taps + 1) else es
  else es.

(** The loop itself: it runs while [cur < sz], and [sz] grows as the
    body pushes.  [fuel] bounds the number of iterations. *)
Fixpoint bfs (fuel : nat) (g : GenArrays) (entries : list TableEntry)
         (cur : Z) : list TableEntry :=
  match fuel with
  | O => entries
  | S fuel' =>
      if cur <? Z.of_nat (length entries)
      then bfs fuel' g (expand g entries cur) (cur + 1)
      else entries
  end.

(** The entries written to [entries[0 .. sz)]; the returned [sz] is
    the length of the list.  Every iteration consumes one entry, and the
    array of the caller holds [10 * R] of them. *)
Definition Phase1TableGen : list TableEntry :=
  let g := gen_arrays in
  bfs (Z.to_nat (10 * R) + 1) g (Push g [] initial_rot initial_col 0 0) 0.

End Phase1TableGen.

(** [Phase1Table<level, R, adj_frame, Taps>]; [start_col] stands for the
    constant [Position::Start.y]. *)
Record Phase1Table : Type := mkPhase1Table {
  initial : list TableEntry;
  adj : list (list TableEntry)
}.

Definition initial_N (t : Phase1Table) : Z := Z.of_nat (length (initial t)).

Definition adj_at (t : Phase1Table) (i : Z) : list TableEntry :=
  nth (Z.to_nat i) (adj t) [].

Definition adj_N (t : Phase1Table) (i : Z) : Z :=
  Z.of_nat (length (adj_at t i)).

Definition mkTable (level : Level) (R adj_frame : Z) (taps : TapTable)
           (start_col : Z) : Phase1Table :=
  let initial := Phase1TableGen level R taps 0 0 start_col in
  mkPhase1Table initial
    (map (fun e =>
            let frame_start := Z.max adj_frame (tap_at taps (num_taps e)) in
            Phase1TableGen level R taps frame_start (rot e) (col e))
         initial).

(** ** Tuck masks *)

Definition aset3 {X : Type} (a : Z -> Z -> Z -> X) (i j k : Z) (v : X)
  : Z -> Z -> Z -> X :=
  fun i' j' k' => if (i' =? i) && (j' =? j) && (k' =? k) then v else a i' j' k'.

Record FrameMasks : Type := mkFrameMasks {
  frame : Z -> Z -> Frames;
  drop : Z -> Z -> Frames
}.

Definition TuckMasks : Type := Z -> Z -> Z -> Frames.

Record TuckType : Type := mkTuckType {
  delta_rot : Z;
  delta_col : Z;
  delta_frame : Z
}.

(** Position of a search result in the caller's buffer is its position in
    the list; [Insert] appends. *)
Definition Insert (positions : list Position) (pos : Position)
  : list Position := positions ++ [pos].

Section Search.

(** [kDoubleTuckAllowed] comes from [game.h] and is true exactly when
    [DOUBLE_TUCK] is defined; [start_col] is [Position::Start.y]. *)
Variable kDoubleTuckAllowed : bool.
Variable level : Level.
Variable R : Z.
Variable adj_frame : Z.
Variable taps : TapTable.
Variable start_col : Z.

Definition TuckTypes : Z :=
  (if R =? 1 then 2 else if R =? 2 then 7 else 12)
  + (if kDoubleTuckAllowed then 2 else 0).

Definition TuckTypeTable : Z -> TuckType :=
  let table := fun _ : Z => mkTuckType 0 0 0 in
  let table := aset table 0 (mkTuckType 0 (-1) 0) in
  let table := aset table 1 (mkTuckType 0 1 0) in
  let table :=
    if kDoubleTuckAllowed
    then aset (aset table 2 (mkTuckType 0 (-2) 2)) 3 (mkTuckType 0 2 2)
    else table in
  let x := if kDoubleTuckAllowed then 2 else 0 in
  if R =? 1 then table
  else
    let table := aset table (x + 2) (mkTuckType 1 0 0) in
    let table := aset table (x + 3) (mkTuckType 1 (-1) 0) in
    let table := aset table (x + 4) (mkTuckType 1 1 0) in
    let table := aset table (x + 5) (mkTuckType 1 (-1) 1) in
    let table := aset table (x + 6) (mkTuckType 1 1 1) in
    if R =? 2 then table
    else
      let table := aset table (x + 7) (mkTuckType 3 0 0) in
      let table := aset table (x + 8) (mkTuckType 3 (-1) 0) in
      let table := aset table (x + 9) (mkTuckType 3 1 0) in
      let table := aset table (x + 10) (mkTuckType 3 (-1) 1) in
      aset table (x + 11) (mkTuckType 3 1 1).

(** The loop nest [for rot < R, for col < 10] around a body. *)
Definition for_rot_col {S : Type} (body : S -> Z -> Z -> S) (s : S) : S :=
  fold_left
    (fun s rot => fold_left (fun s col => body s rot col) (Zrange 0 10) s)
    (Zrange 0 R) s.

Definition tuck_lr (m : FrameMasks) (ret : TuckMasks) (rot col : Z)
  : TuckMasks :=
  let ret :=
    if col >? 0
    then aset3 ret 0 rot col
               (Z.land (frame m rot col) (frame m rot (col - 1)))
    else ret in
  let ret :=
    if col <? 9
    then aset3 ret 1 rot col
               (Z.land (frame m rot col) (frame m rot (col + 1)))
    else ret in
  if kDoubleTuckAllowed then
    let ret :=
      if col >? 1
      then aset3 ret 2 rot col
             (Z.land (Z.land (Z.land (frame m rot col) (drop m rot (col - 1)))
                             (Z.shiftr (drop m rot (col - 1)) 1))
                     (Z.shiftr (frame m rot (col - 2)) 2))
      else ret in
    if col <? 8
    then aset3 ret 3 rot col
           (Z.land (Z.land (Z.land (frame m rot col) (drop m rot (col + 1)))
                           (Z.shiftr (drop m rot (col + 1)) 1))
                   (Z.shiftr (frame m rot (col + 2)) 2))
    else ret
  else ret.

(** The second and third loop nests differ in the rotation step [d]
    (1 for A, 3 for B) and the first index [b] ([x+2] or [x+7]). *)
Definition tuck_rot (m : FrameMasks) (d b : Z) (ret : TuckMasks)
           (rot col : Z) : TuckMasks :=
  let nrot := Z.rem (rot + d) R in
  let ret :=
    aset3 ret b rot col (Z.land (frame m rot col) (frame m nrot col)) in
  let ret :=
    if col >? 0
    then aset3 ret (b + 1) rot col
               (Z.land (ret 0 rot col) (frame m nrot (col - 1)))
    else ret in
  let ret :=
    if col <? 9
    then aset3 ret (b + 2) rot col
               (Z.land (ret 1 rot col) (frame m nrot (col + 1)))
    else ret in
  let ret :=
    if col >? 0
    then aset3 ret (b + 3) rot col
           (Z.land (Z.land (frame m rot col)
                           (Z.lor (drop m nrot col) (drop m rot (col - 1))))
                   (Z.shiftr (frame m nrot (col - 1)) 1))
    else ret in
  if col <? 9
  then aset3 ret (b + 4) rot col
         (Z.land (Z.land (frame m rot col)
                         (Z.lor (drop m nrot col) (drop m rot (col + 1))))
                 (Z.shiftr (frame m nrot (col + 1)) 1))
  else ret.

Definition GetTuckMasks (m : FrameMasks) : TuckMasks :=
  let x := if kDoubleTuckAllowed then 2 else 0 in
  let ret := fun _ _ _ : Z => 0 in
  let ret := for_rot_col (tuck_lr m) ret in
  if R =? 1 then ret
  else
    let ret := for_rot_col (tuck_rot m 1 (x + 2)) ret in
    if R =? 2 then ret
    else for_rot_col (tuck_rot m 3 (x + 7)) ret.

(** ** Phase 2 *)

(** The loop [while (tuck_lock_positions) { ... }]: it removes the
    lowest set bit on every turn, so 32 turns exhaust a 32 bit value. *)
Fixpoint emit_rows (fuel : nat) (tuck_lock_positions : Z) (rot col : Z)
         (positions : list Position) : list Position :=
  match fuel with
  | O => positions
  | S fuel' =>
      if tuck_lock_positions =? 0 then positions
      else
        let row := ctz tuck_lock_positions in
        emit_rows fuel'
          (Z.lxor tuck_lock_positions (u32 (Z.shiftl 1 row))) rot col
          (Insert positions (mkPosition rot row col))
  end.

Definition tuck_accumulate (tuck_masks : TuckMasks)
           (can_tuck_frame_masks : Z -> Z -> Frames)
           (tuck_result : Z -> Z -> Frames) (i : Z) : Z -> Z -> Frames :=
  let tuck := TuckTypeTable i in
  let start_col := Z.max 0 (- delta_col tuck) in
  let end_col := Z.min 10 (10 - delta_col tuck) in
  fold_left
    (fun res rot =>
       let nrot := Z.rem (rot + delta_rot tuck) R in
       fold_left
         (fun res col =>
            aset2 res nrot (col + delta_col tuck)
              (Z.lor (res nrot (col + delta_col tuck))
                 (u64 (Z.shiftl
                         (Z.land (tuck_masks i rot col)
                                 (can_tuck_frame_masks rot col))
                         (delta_frame tuck)))))
         (Zrange start_col end_col) res)
    (Zrange 0 R) tuck_result.

Definition tuck_lock_positions_of (cols : Z -> Z -> Column)
           (lock_positions_without_tuck : Z -> Z -> Column)
           (tuck_result : Z -> Z -> Frames) (rot col : Z) : Column :=
  let after_tuck_positions := FramesToColumn level (tuck_result rot col) in
  let cur := cols rot col in
  Z.land
    (Z.land (Z.shiftr (u32 (after_tuck_positions + cur)) 1)
            (Z.land cur (Z.shiftr (not32 cur) 1)))
    (not32 (lock_positions_without_tuck rot col)).

Definition RunPhase2 (cols : Z -> Z -> Column) (tuck_masks : TuckMasks)
           (lock_positions_without_tuck : Z -> Z -> Column)
           (can_tuck_frame_masks : Z -> Z -> Frames)
           (positions : list Position) : list Position :=
  let tuck_result :=
    fold_left (tuck_accumulate tuck_masks can_tuck_frame_masks)
              (Zrange 0 TuckTypes) (fun _ _ => 0) in
  for_rot_col
    (fun positions rot col =>
       emit_rows 32
         (tuck_lock_positions_of cols lock_positions_without_tuck
                                 tuck_result rot col)
         rot col positions)
    positions.

(** ** Phase 1 and one search *)

Definition table : Phase1Table := mkTable level R adj_frame taps start_col.

Definition total_frames : Z := GetLastFrameOnRow 19 level + 1.

Record SearchState : Type := mkSearchState {
  can_adj : Z -> bool;
  positions : list Position;
  can_tuck_frame_masks : Z -> Z -> Frames;
  lock_positions_without_tuck : Z -> Z -> Column;
  phase_2_possible : bool
}.

Section DoOneSearch.

Variable is_adj : bool.
Variable initial_id : Z.
Variable board : BoardArr.
Variable cols : Z -> Z -> Column.
Variable tuck_masks : TuckMasks.

Definition search_entries : list TableEntry :=
  if is_adj then adj_at table initial_id else initial table.

Definition search_N : Z := Z.of_nat (length search_entries).

Definition search_initial_frame : Z :=
  if is_adj
  then Z.max adj_frame
             (tap_at taps (num_taps (entry_at (initial table) initial_id)))
  else 0.

(** The body of [For<N>]: the pair is ([can_continue], [can_reach]). *)
Definition reach_step (s : (Z -> bool) * (Z -> bool)) (i : Z)
  : (Z -> bool) * (Z -> bool) :=
  let '(can_continue, can_reach) := s in
  let entry := entry_at search_entries i in
  if negb (i =? 0) && negb (can_continue (prev entry)) then s
  else if negb (cannot_finish entry) && Contains R board (masks entry)
  then (aset can_continue i true, aset can_reach i true)
  else if negb (Contains R board (masks_nodrop entry)) then s
  else (can_continue, aset can_reach i true).

Definition can_reach_of : Z -> bool :=
  snd (fold_left reach_step (Zrange 0 search_N)
                 (fun _ => false, fun _ => false)).

Definition entry_start_row (entry : TableEntry) : Z :=
  let start_frame :=
    (if num_taps entry =? 0 then 0 else tap_at taps (num_taps entry - 1))
    + search_initial_frame in
  GetRow start_frame level.

Definition entry_end_frame (entry : TableEntry) : Z :=
  if is_adj then total_frames
  else Z.max adj_frame (tap_at taps (num_taps entry)).

Definition entry_lock_row (entry : TableEntry) : Z :=
  FindLockRow (cols (rot entry) (col entry)) (entry_start_row entry).

Definition entry_lock_frame (entry : TableEntry) : Z :=
  GetLastFrameOnRow (entry_lock_row entry) level + 1.

(** The body of [for (int i = 0; i < N; i++)]. *)
Definition lock_step (can_reach : Z -> bool) (s : SearchState) (i : Z)
  : SearchState :=
  if negb (can_reach i) then s
  else
    let entry := entry_at search_entries i in
    let end_frame := entry_end_frame entry in
    let lock_row := entry_lock_row entry in
    let lock_frame := entry_lock_frame entry in
    let adjustable := negb is_adj && (lock_frame >? end_frame) in
    let can_adj' :=
      if adjustable then aset (can_adj s) i true else can_adj s in
    let positions' :=
      if adjustable then positions s
      else Insert (positions s)
                  (mkPosition (rot entry) lock_row (col entry)) in
    let first_tuck_frame :=
      search_initial_frame + tap_at taps (num_taps entry) in
    let last_tuck_frame := Z.min lock_frame end_frame in
    let lock' :=
      aset2 (lock_positions_without_tuck s) (rot entry) (col entry)
            (Z.lor (lock_positions_without_tuck s (rot entry) (col entry))
                   (u32 (Z.shiftl 1 lock_row))) in
    if last_tuck_frame >? first_tuck_frame then
      mkSearchState can_adj' positions'
        (aset2 (can_tuck_frame_masks s) (rot entry) (col entry)
               (u64 (Z.shiftl 1 last_tuck_frame
                     - Z.shiftl 1 first_tuck_frame)))
        lock' true
    else
      mkSearchState can_adj' positions' (can_tuck_frame_masks s) lock'
                    (phase_2_possible s).

Definition search_init (can_adj : Z -> bool) : SearchState :=
  mkSearchState can_adj [] (fun _ _ => 0) (fun _ _ => 0) false.

Definition RunPhase1 (can_adj : Z -> bool) : SearchState :=
  fold_left (lock_step can_reach_of) (Zrange 0 search_N)
            (search_init can_adj).

(** Entry [i] seen by the loop: the placement it locks into without a
    tuck, whether it outlives the end frame of the initial search
    (which makes it an anchor, not a placement), and its tuck window
    with the mask of the window's frames. *)
Definition lock_position (i : Z) : Position :=
  let entry := entry_at search_entries i in
  mkPosition (rot entry) (entry_lock_row entry) (col entry).

Definition survives (i : Z) : bool :=
  let entry := entry_at search_entries i in
  negb is_adj && (entry_lock_frame entry >? entry_end_frame entry).

Definition first_tuck_frame (i : Z) : Z :=
  search_initial_frame
  + tap_at taps (num_taps (entry_at search_entries i)).

Definition last_tuck_frame (i : Z) : Z :=
  let entry := entry_at search_entries i in
  Z.min (entry_lock_frame entry) (entry_end_frame entry).

Definition window_mask (i : Z) : Frames :=
  u64 (Z.shiftl 1 (last_tuck_frame i) - Z.shiftl 1 (first_tuck_frame i)).

(** The state of the loop when it arrives at entry [i]. *)
Definition state_before (can_reach : Z -> bool) (can_adj0 : Z -> bool)
           (i : Z) : SearchState :=
  fold_left (lock_step can_reach) (Zrange 0 i) (search_init can_adj0).

(** The loop body with the tuck mask accumulated by [|=] where the
    source assigns it: this follows the words of the specification
    and is compared with [lock_step]. *)
Definition lock_step_or (can_reach : Z -> bool) (s : SearchState) (i : Z)
  : SearchState :=
  if negb (can_reach i) then s
  else
    let entry := entry_at search_entries i in
    let can_adj' :=
      if survives i then aset (can_adj s) i true else can_adj s in
    let positions' :=
      if survives i then positions s
      else Insert (positions s) (lock_position i) in
    let lock' :=
      aset2 (lock_positions_without_tuck s) (rot entry) (col entry)
            (Z.lor (lock_positions_without_tuck s (rot entry) (col entry))
                   (u32 (Z.shiftl 1 (entry_lock_row entry)))) in
    if last_tuck_frame i >? first_tuck_frame i then
      mkSearchState can_adj' positions'
        (aset2 (can_tuck_frame_masks s) (rot entry) (col entry)
               (Z.lor (can_tuck_frame_masks s (rot entry) (col entry))
                      (window_mask i)))
        lock' true
    else
      mkSearchState can_adj' positions' (can_tuck_frame_masks s) lock'
                    (phase_2_possible s).

Definition RunPhase1_or (can_adj : Z -> bool) : SearchState :=
  fold_left (lock_step_or can_reach_of) (Zrange 0 search_N)
            (search_init can_adj).

(** The result is the updated [can_adj] and the positions written to
    the buffer; the returned [sz] is the length of that list. *)
Definition DoOneSearch (can_adj0 : Z -> bool)
  : (Z -> bool) * list Position :=
  if search_initial_frame >=? total_frames then (can_adj0, [])
  else if is_adj && negb (can_adj0 initial_id) then (can_adj0, [])
  else
    let s := RunPhase1 can_adj0 in
    if phase_2_possible s
    then (can_adj s,
          RunPhase2 cols tuck_masks (lock_positions_without_tuck s)
                    (can_tuck_frame_masks s) (positions s))
    else (can_adj s, positions s).

End DoOneSearch.

End Search.

(** ** The result and its normal form

    [std::sort] over a total order and [std::unique] determine their
    results; [sort_by] is the sorted arrangement, written as an insertion
    sort, and [unique_by] keeps the first element of every run of equal
    neighbours, as [std::unique] does. *)

Section Sorting.

Context {A : Type}.
Variable ltb : A -> A -> bool.
Variable eqb : A -> A -> bool.

Fixpoint insert_by (a : A) (l : list A) : list A :=
  match l with
  | [] => [a]
  | h :: t => if ltb h a then h :: insert_by a t else a :: h :: t
  end.

Fixpoint sort_by (l : list A) : list A :=
  match l with
  | [] => []
  | a :: t => insert_by a (sort_by t)
  end.

(** [unique_from last l]: the elements of [l] that [std::unique] keeps
    once [last] has been kept. *)
Fixpoint unique_from (last : A) (l : list A) : list A :=
  match l with
  | [] => []
  | b :: t => if eqb last b then unique_from last t else b :: unique_from b t
  end.

Definition unique_by (l : list A) : list A :=
  match l with
  | [] => []
  | a :: t => a :: unique_from a t
  end.

(** [a] is not after [b]; [a] and [b] differ. *)
Definition not_after (a b : A) : Prop := ltb b a = false.
Definition differ (a b : A) : Prop := eqb a b = false.

(** [std::lexicographical_compare]. *)
Fixpoint lex_ltb (l1 l2 : list A) : bool :=
  match l1, l2 with
  | _, [] => false
  | [], _ :: _ => true
  | a :: t1, b :: t2 => ltb a b || (negb (ltb b a) && lex_ltb t1 t2)
  end.

End Sorting.

(** Modelled from the spec: [operator<] and [operator==] of [Position], in
    [position.h], which is not among the sources: the natural
    lexicographic order of (rot, row, col), and equality of the three
    fields. *)
Definition Position_ltb (a b : Position) : bool :=
  (r a <? r b)
  || ((r a =? r b) && ((x a <? x b) || ((x a =? x b) && (y a <? y b)))).

Definition Position_eqb (a b : Position) : bool :=
  (r a =? r b) && (x a =? x b) && (y a =? y b).

(** [operator<] of [std::pair<Position, std::vector<Position>>]. *)
Definition anchor_ltb (p q : Position * list Position) : bool :=
  Position_ltb (fst p) (fst q)
  || (negb (Position_ltb (fst q) (fst p))
      && lex_ltb Position_ltb (snd p) (snd q)).

Module PossibleMoves.

Record t : Type := mk {
  non_adj : list Position;
  adj : list (Position * list Position)
}.

(** The flag [unique] is not read. *)
Definition UniqueVector_ (p : list Position) (unique : bool)
  : list Position :=
  unique_by Position_eqb (sort_by Position_ltb p).

Definition Normalize (m : t) (unique : bool) : t :=
  mk (UniqueVector_ (non_adj m) unique)
     (sort_by anchor_ltb
        (map (fun i => (fst i, UniqueVector_ (snd i) unique)) (adj m))).

End PossibleMoves.

(** ** The driver *)

Section MoveSearch.

Variable kDoubleTuckAllowed : bool.
Variable level : Level.
Variable R : Z.
Variable adj_frame : Z.
Variable taps : TapTable.
Variable start_col : Z.

Definition load_columns (board : BoardArr)
  : (Z -> Z -> Column) * FrameMasks :=
  for_rot_col R
    (fun s rot col =>
       let cols := aset2 (fst s) rot col
                         (Board_Column (board_at board rot) col) in
       (cols,
        mkFrameMasks
          (aset2 (frame (snd s)) rot col
                 (ColumnToNormalFrameMask level (cols rot col)))
          (aset2 (drop (snd s)) rot col
                 (ColumnToDropFrameMask level (cols rot col)))))
    (fun _ _ => 0, mkFrameMasks (fun _ _ => 0) (fun _ _ => 0)).

(** [Position buf[256]] of [MoveSearch]: every search writes its
    placements to [buf] from index 0, through [positions[sz++] = pos], which
    does not look at the size of the buffer.  A search that finds more than
    256 placements writes past the end of [buf]; the behaviour of the
    program is then undefined, and [MoveSearch] has no result. *)
Definition buf_size : Z := 256.

Definition fits_buf (positions : list Position) : bool :=
  Z.of_nat (length positions) <=? buf_size.

(** The body of [For<initial_N>] in [MoveSearch]: the state is the pair of
    [can_adj] and [ret.adj], or [None] once a search has overrun [buf]. *)
Definition adj_step (board : BoardArr) (cols : Z -> Z -> Column)
           (tuck_masks : TuckMasks)
           (s : option ((Z -> bool) * list (Position * list Position)))
           (initial_id : Z)
  : option ((Z -> bool) * list (Position * list Position)) :=
  match s with
  | None => None
  | Some s =>
      let tbl := table level R adj_frame taps start_col in
      let entry := entry_at (initial tbl) initial_id in
      let res :=
        DoOneSearch kDoubleTuckAllowed level R adj_frame taps start_col
                    true initial_id board cols tuck_masks (fst s) in
      if negb (fits_buf (snd res)) then None
      else if negb (Z.of_nat (length (snd res)) =? 0) then
        let row :=
          GetRow (Z.max adj_frame (tap_at taps (num_taps entry))) level in
        Some (fst res,
              snd s ++ [(mkPosition (rot entry) row (col entry), snd res)])
      else Some (fst res, snd s)
  end.

Definition MoveSearch (board : BoardArr) : option PossibleMoves.t :=
  let tbl := table level R adj_frame taps start_col in
  let '(cols, frame_masks) := load_columns board in
  let tuck_masks := GetTuckMasks kDoubleTuckAllowed R frame_masks in
  let res :=
    DoOneSearch kDoubleTuckAllowed level R adj_frame taps start_col
                false 0 board cols tuck_masks (fun _ => false) in
  if negb (fits_buf (snd res)) then None
  else
    match fold_left (adj_step board cols tuck_masks)
                    (Zrange 0 (initial_N tbl)) (Some (fst res, [])) with
    | None => None
    | Some s => Some (PossibleMoves.mk (snd res) (snd s))
    end.

End MoveSearch.

(** ** Auxiliary definitions of the proofs *)

(** The mask with [n] bits set, [k] positions apart, from bit 0:
    [kMask18] is [stride_mask 3 20], [kMask19] is [stride_mask 2 20] and
    [kMask39] is [stride_mask 2 10]. *)
Fixpoint stride_mask (k : Z) (n : nat) : Z :=
  match n with
  | O => 0
  | S n' => 1 + 2 ^ k * stride_mask k n'
  end.

(** What [pdep] and [pext] compute on a stride mask. *)
Fixpoint deposit (k : Z) (n : nat) (src : Z) : Z :=
  match n with
  | O => 0
  | S n' => Z.b2z (Z.odd src) + 2 ^ k * deposit k n' (Z.div2 src)
  end.

Fixpoint extract (k : Z) (n : nat) (src : Z) : Z :=
  match n with
  | O => 0
  | S n' => Z.b2z (Z.odd src) + 2 * extract k n' (Z.shiftr src k)
  end.

(** The two readings of a lock row [r] below the start row [s] of a column
    [c]: the run of rows [s .. r] is made of clear bits and ends on a set
    bit or on the floor, or it is made of set bits and ends on a clear bit
    (bit 20, below the floor, is clear in every column). *)
Definition lock_row_of_clear_run (c s r : Z) : Prop :=
  s <= r /\
  (forall i, s <= i <= r -> Z.testbit c i = false) /\
  (Z.testbit c (r + 1) = true \/ r = 19).

Definition lock_row_of_set_run (c s r : Z) : Prop :=
  s <= r <= 19 /\
  (forall i, s <= i <= r -> Z.testbit c i = true) /\
  Z.testbit c (r + 1) = false.

(** *** The generator, seen from its arrays

    [last_tap_step] is what one iteration of the generator's first loop
    does to [last_tap]; it reads neither the level, nor the taps, nor the
    initial frame.  [num_tap_of] is the [num_tap] that the iteration of
    rotation [rt] and column [cl] computes.  [pushes] lists the arguments
    [(rot, col)] of the calls of [Push] that [expand] makes, in order. *)

Definition last_tap_step (R initial_rot initial_col : Z)
           (last_tap : Z -> Z -> Z) (col delta_rot : Z) : Z -> Z -> Z :=
  if (R =? 1) && negb (delta_rot =? 0) then last_tap
  else if (R =? 2) && (delta_rot >=? 2) then last_tap
  else
    let rot := Z.rem (initial_rot + delta_rot) R in
    let num_lr_tap := abs (col - initial_col) in
    let num_ab_tap := if delta_rot =? 3 then 1 else delta_rot in
    let num_tap := Z.max num_ab_tap num_lr_tap in
    let last0 := last_tap rot col in
    let last1 :=
      if negb (num_tap =? 0) && (num_tap =? num_lr_tap)
      then Z.lor last0 (if col >? initial_col then kR else kL)
      else last0 in
    let last2 :=
      if negb (num_tap =? 0) && (num_tap =? num_ab_tap)
      then Z.lor last1 (if delta_rot =? 3 then kB else kA)
      else last1 in
    aset2 last_tap rot col last2.

Definition last_tap_table (R initial_rot initial_col : Z) : Z -> Z -> Z :=
  fold_left
    (fun lt col =>
       fold_left (fun lt dr => last_tap_step R initial_rot initial_col lt col dr)
                 (Zrange 0 4) lt)
    (Zrange 0 10) (fun _ _ => 0).

Definition delta_rot_of (R initial_rot rt : Z) : Z := (rt - initial_rot) mod R.

Definition num_tap_of (R initial_rot initial_col rt cl : Z) : Z :=
  let delta_rot := delta_rot_of R initial_rot rt in
  Z.max (if delta_rot =? 3 then 1 else delta_rot) (abs (cl - initial_col)).

Definition pushes (R last rot col taps : Z) : list (Z * Z) :=
  let should_l :=
    (col >? 0) && ((taps =? 0) || negb (Z.land last kL =? 0)) in
  let should_r :=
    (col <? 9) && ((taps =? 0) || negb (Z.land last kR =? 0)) in
  let should_a :=
    ((R >? 1) && (taps =? 0))
    || ((R =? 4) && (taps =? 1) && negb (Z.land last kA =? 0)) in
  let should_b := (R =? 4) && (taps =? 0) in
  let around nrot :=
    [(nrot, col)]
    ++ (if should_l then [(nrot, col - 1)] else [])
    ++ (if should_r then [(nrot, col + 1)] else []) in
  (if should_l then [(rot, col - 1)] else [])
  ++ (if should_r then [(rot, col + 1)] else [])
  ++ (if should_a then around (Z.rem (rot + 1) R) else [])
  ++ (if should_b then around (Z.rem (rot + 3) R) else []).

Definition key (e : TableEntry) : Z * Z := (rot e, col e).

Definition key_eqb (a b : Z * Z) : bool :=
  (fst a =? fst b) && (snd a =? snd b).

Fixpoint nodupb (l : list (Z * Z)) : bool :=
  match l with
  | [] => true
  | a :: t => negb (existsb (key_eqb a) t) && nodupb t
  end.

(** All [(rot, col)] with [0 <= rot < R] and [0 <= col < 10]. *)
Definition cells (R : Z) : list (Z * Z) :=
  flat_map (fun rt => map (fun cl => (rt, cl)) (Zrange 0 10)) (Zrange 0 R).

(** The pushes that the entry for cell [k] makes when its tap count is the
    [num_tap] of the cell. *)
Definition pushes_of (R initial_rot initial_col : Z) (k : Z * Z)
  : list (Z * Z) :=
  pushes R (last_tap_table R initial_rot initial_col (fst k) (snd k))
         (fst k) (snd k)
         (num_tap_of R initial_rot initial_col (fst k) (snd k)).

(** The shape of the search tree for one [R] and one start cell: every
    push stays on the board and costs one tap more than its parent, and no
    cell is pushed from two places. *)
Definition tree_ok (R initial_rot initial_col : Z) : bool :=
  (num_tap_of R initial_rot initial_col initial_rot initial_col =? 0)
  && forallb
       (fun k =>
          forallb
            (fun k' =>
               (0 <=? fst k') && (fst k' <? R)
               && (0 <=? snd k') && (snd k' <? 10)
               && (num_tap_of R initial_rot initial_col (fst k') (snd k')
                   =? num_tap_of R initial_rot initial_col (fst k) (snd k) + 1))
            (pushes_of R initial_rot initial_col k))
       (cells R)
  && nodupb (flat_map (pushes_of R initial_rot initial_col) (cells R)).

Definition trees_ok : bool :=
  forallb
    (fun R =>
       forallb
         (fun r0 => forallb (fun c0 => tree_ok R r0 c0) (Zrange 0 10))
         (Zrange 0 R))
    [1; 2; 4].

(** The entry that [Push] appends for the cell [(rt, cl)]. *)
Definition entry_of (R : Z) (g : GenArrays) (rt cl pv nt : Z) : TableEntry :=
  mkTableEntry rt cl pv nt (ga_cannot_finish g rt cl)
    (map (ga_masks g rt cl) (Zrange 0 R))
    (map (ga_masks_nodrop g rt cl) (Zrange 0 R)).

(** What holds of every entry of a table, of every entry but the root, and
    of the table while entry [cur] is being expanded and the pushes [done]
    have been made. *)
Definition entry_ok (R r0 c0 : Z) (g : GenArrays) (e : TableEntry) : Prop :=
  In (key e) (cells R) /\
  num_taps e = num_tap_of R r0 c0 (rot e) (col e) /\
  ga_cannot_reach g (rot e) (col e) = false /\
  e = entry_of R g (rot e) (col e) (prev e) (num_taps e).

Definition child_ok (R r0 c0 : Z) (es : list TableEntry) (cur : Z)
           (done : list (Z * Z)) (j : nat) (e : TableEntry) : Prop :=
  0 <= prev e < Z.of_nat j /\
  (prev e < cur \/ (prev e = cur /\ In (key e) done)) /\
  exists ep, nth_error es (Z.to_nat (prev e)) = Some ep /\
             In (key e) (pushes_of R r0 c0 (key ep)).

Record table_inv (R r0 c0 : Z) (g : GenArrays) (es : list TableEntry)
       (cur : Z) (done : list (Z * Z)) : Prop := mk_table_inv {
  inv_entries : forall e, In e es -> entry_ok R r0 c0 g e;
  inv_nodup : NoDup (map key es);
  inv_child : forall j e, nth_error es j = Some e -> j <> O ->
                          child_ok R r0 c0 es cur done j e;
  inv_root : forall e, nth_error es 0 = Some e ->
                       key e = (r0, c0) /\ prev e = 0
}.

(** The board array in which every cell of every rotation is free, and the
    columns read from a board array by [MoveSearch]. *)
Definition Board_ones : Board := 2 ^ 200 - 1.

Definition free_boards (R : Z) : BoardArr :=
  map (fun _ => Board_ones) (Zrange 0 R).

Definition columns_of (level : Level) (R : Z) (board : BoardArr)
  : Z -> Z -> Column := fst (load_columns level R board).

(** The tuck masks and the [can_adj] array that the adjustment searches of
    [MoveSearch] receive: the ones left by the initial search. *)
Definition tuck_masks_of (kDoubleTuckAllowed : bool) (level : Level) (R : Z)
           (board : BoardArr) : TuckMasks :=
  GetTuckMasks kDoubleTuckAllowed R (snd (load_columns level R board)).

Definition can_adj_of (kDoubleTuckAllowed : bool) (level : Level)
           (R adj_frame : Z) (taps : TapTable) (start_col : Z)
           (board : BoardArr) : Z -> bool :=
  fst (DoOneSearch kDoubleTuckAllowed level R adj_frame taps start_col
                   false 0 board (columns_of level R board)
                   (tuck_masks_of kDoubleTuckAllowed level R board)
                   (fun _ => false)).

(** Modelled from the spec: the rotation board array of the T piece
    ("piece = T, R=4" in the scenarios), which [board.h] computes from the
    field and which is not among the sources.  A field is a board whose set
    bits are its empty cells.  The T piece has three cells in a row, with
    the centre in the middle, and a stem: in rotation 0, the orientation in
    which the piece enters the field, the stem points down; in rotations 1,
    2 and 3 it points left, up and right.  [T_shape] lists the cells of
    each rotation as (row, column) offsets from the centre.  The piece fits
    with its centre in a cell when each of its cells is within the ten
    columns, above the floor, and either above the top row or empty in the
    field; the board of a rotation has the bit of every cell where the
    piece fits. *)
Definition T_shape : list (list (Z * Z)) :=
  [[(0, -1); (0, 0); (0, 1); (1, 0)];
   [(-1, 0); (0, -1); (0, 0); (1, 0)];
   [(0, -1); (0, 0); (0, 1); (-1, 0)];
   [(-1, 0); (0, 0); (0, 1); (1, 0)]].

Definition cell_free (field : Board) (row col : Z) : bool :=
  (0 <=? col) && (col <? 10) && (row <? 20)
  && ((row <? 0) || Z.testbit field (20 * col + row)).

Definition fits_at (field : Board) (shape : list (Z * Z)) (row col : Z)
  : bool :=
  forallb (fun d => cell_free field (row + fst d) (col + snd d)) shape.

Definition piece_board (field : Board) (shape : list (Z * Z)) : Board :=
  fold_left
    (fun b col =>
       fold_left
         (fun b row =>
            if fits_at field shape row col then Board_Set b row col else b)
         (Zrange 0 20) b)
    (Zrange 0 10) Board_zero.

Definition piece_map (field : Board) (shapes : list (list (Z * Z)))
  : BoardArr := map (piece_board field) shapes.

(** The T piece on the empty field. *)
Definition T_empty : BoardArr := piece_map Board_ones T_shape.


(** The row in which the generator and the search place the piece when the
    tap that reaches an entry with [nt] taps is made, and what the
    generator's arrays say about a reachable cell [(rt, cl)]: the start row
    is on the board and its cell is stamped in both masks of rotation
    [rt]. *)
Definition start_row_of (level : Level) (taps : TapTable) (f0 nt : Z) : Z :=
  GetRow ((if nt =? 0 then 0 else tap_at taps (nt - 1)) + f0) level.

Definition cell_ok (level : Level) (taps : TapTable) (f0 : Z) (g : GenArrays)
           (rt cl nt : Z) : Prop :=
  ga_cannot_reach g rt cl = false ->
  start_row_of level taps f0 nt < 20 /\
  Z.testbit (ga_masks_nodrop g rt cl rt)
            (20 * cl + start_row_of level taps f0 nt) = true /\
  Z.testbit (ga_masks g rt cl rt)
            (20 * cl + start_row_of level taps f0 nt) = true.

(** A placement is in play on a board array: it is on the board and the
    bit of its cell is set, which is how a board says that the piece
    fits there. *)
Definition in_play (R : Z) (board : BoardArr) (p : Position) : Prop :=
  0 <= x p < 20 /\ 0 <= y p < 10 /\ 0 <= r p < R /\
  Z.testbit (Board_Column (board_at board (r p)) (y p)) (x p) = true.

(** The anchor and the moves that [MoveSearch] records for entry [id] of
    the initial table when the adjustment search of that entry finds a
    placement. *)
Definition anchor_of (level : Level) (R adj_frame : Z) (taps : TapTable)
           (start_col id : Z) : Position :=
  let entry := entry_at (initial (table level R adj_frame taps start_col)) id in
  mkPosition (rot entry)
             (GetRow (Z.max adj_frame (tap_at taps (num_taps entry))) level)
             (col entry).

Definition adj_moves_of (kDoubleTuckAllowed : bool) (level : Level)
           (R adj_frame : Z) (taps : TapTable) (start_col : Z)
           (board : BoardArr) (id : Z) : list Position :=
  snd (DoOneSearch kDoubleTuckAllowed level R adj_frame taps start_col
                   true id board (columns_of level R board)
                   (tuck_masks_of kDoubleTuckAllowed level R board)
                   (can_adj_of kDoubleTuckAllowed level R adj_frame taps
                               start_col board)).

(** What the initial search writes to the buffer, and the lists that the
    searches of [MoveSearch] produce: [MoveSearch] returns them when every
    search fits the buffer, which [searches_fit] says. *)
Definition non_adj_of (kDoubleTuckAllowed : bool) (level : Level)
           (R adj_frame : Z) (taps : TapTable) (start_col : Z)
           (board : BoardArr) : list Position :=
  snd (DoOneSearch kDoubleTuckAllowed level R adj_frame taps start_col
                   false 0 board (columns_of level R board)
                   (tuck_masks_of kDoubleTuckAllowed level R board)
                   (fun _ => false)).

Definition search_lists (kDoubleTuckAllowed : bool) (level : Level)
           (R adj_frame : Z) (taps : TapTable) (start_col : Z)
           (board : BoardArr) : PossibleMoves.t :=
  PossibleMoves.mk
    (non_adj_of kDoubleTuckAllowed level R adj_frame taps start_col board)
    (map (fun id =>
            (anchor_of level R adj_frame taps start_col id,
             adj_moves_of kDoubleTuckAllowed level R adj_frame taps start_col
                          board id))
         (filter (fun id =>
                    negb (Z.of_nat
                            (length (adj_moves_of kDoubleTuckAllowed level R
                                                  adj_frame taps start_col
                                                  board id)) =? 0))
                 (Zrange 0 (initial_N (table level R adj_frame taps
                                             start_col))))).

Definition searches_fit (kDoubleTuckAllowed : bool) (level : Level)
           (R adj_frame : Z) (taps : TapTable) (start_col : Z)
           (board : BoardArr) : bool :=
  fits_buf (non_adj_of kDoubleTuckAllowed level R adj_frame taps start_col
                       board)
  && forallb (fun id =>
                fits_buf (adj_moves_of kDoubleTuckAllowed level R adj_frame
                                       taps start_col board id))
             (Zrange 0 (initial_N (table level R adj_frame taps start_col))).

(** A board array of four rotations on which the initial search finds more
    placements than the buffer holds: every column has the rows 0, 1 and
    the odd rows free, and in rotations 0 and 2 the columns 2, 5 and 8 are
    free in every row. *)
Definition striped_board (full : bool) : Board :=
  fold_left
    (fun b c =>
       Z.lor b (Z.shiftl (if full && ((c =? 2) || (c =? 5) || (c =? 8))
                          then 0xFFFFF else 0xAAAAB)
                         (20 * c)))
    (Zrange 0 10) Board_zero.

Definition striped_boards : BoardArr :=
  [striped_board true; striped_board false;
   striped_board true; striped_board false].

(** *** The generator, cell by cell

    [gen_cell] is the state of the scratch arrays after the one iteration
    of the generator's first loop that writes the cell [(rt, cl)], run on
    fresh arrays; [same_cell] says that two states of the arrays agree on
    that cell.  [end_row_of] is the row of the frame on which the next
    input is allowed, [GetRow(end_frame)]. *)
Definition gen_cell (level : Level) (R : Z) (taps : TapTable)
           (f0 r0 c0 rt cl : Z) : GenArrays :=
  gen_body level R taps f0 r0 c0 gen_init cl (delta_rot_of R r0 rt).

Definition same_cell (a b : GenArrays) (rt cl : Z) : Prop :=
  ga_cannot_reach a rt cl = ga_cannot_reach b rt cl /\
  ga_cannot_finish a rt cl = ga_cannot_finish b rt cl /\
  ga_masks a rt cl = ga_masks b rt cl /\
  ga_masks_nodrop a rt cl = ga_masks_nodrop b rt cl.

Definition end_row_of (level : Level) (taps : TapTable) (f0 nt : Z) : Z :=
  GetRow (tap_at taps nt + f0) level.

(** Every cell but the start cell is pushed from some cell: with
    [tree_ok], the pushes form a tree that spans the board. *)
Definition tree_covers (R initial_rot initial_col : Z) : bool :=
  let all := flat_map (pushes_of R initial_rot initial_col) (cells R) in
  forallb
    (fun k => key_eqb k (initial_rot, initial_col) || existsb (key_eqb k) all)
    (cells R).

Definition trees_cover : bool :=
  forallb
    (fun R =>
       forallb
         (fun r0 => forallb (fun c0 => tree_covers R r0 c0) (Zrange 0 10))
         (Zrange 0 R))
    [1; 2; 4].

(** *** Phase 2, seen from its arrays

    [tuck_result_of] is the local array [tuck_result] of [RunPhase2] once
    its first loop nest has run; [set_rows] lists the rows that the
    [while] loop of [RunPhase2] takes out of a value, lowest first. *)
Definition tuck_result_of (kDoubleTuckAllowed : bool) (R : Z)
           (tuck_masks : TuckMasks) (can_tuck_frame_masks : Z -> Z -> Frames)
  : Z -> Z -> Frames :=
  fold_left (tuck_accumulate kDoubleTuckAllowed R tuck_masks
                             can_tuck_frame_masks)
            (Zrange 0 (TuckTypes kDoubleTuckAllowed R)) (fun _ _ => 0).

Definition set_rows (v : Z) : list Z := filter (Z.testbit v) (Zrange 0 32).

(** ** Normalisation *)

Section SortingFacts.

Context {A : Type}.
Variable ltb : A -> A -> bool.
Variable eqb : A -> A -> bool.
Hypothesis ltb_asym : forall a b, ltb a b = true -> ltb b a = false.
Hypothesis eqb_eq : forall a b, eqb a b = true -> a = b.

Lemma insert_by_hd (a : A) (l : list A) (h : A) :
  (not_after ltb) h a -> HdRel (not_after ltb) h l -> HdRel (not_after ltb) h (insert_by ltb a l).
Proof.
  intros Ha Hl. destruct l as [|b t]; simpl.
  - constructor. exact Ha.
  - destruct (ltb b a); constructor; inversion Hl; assumption.
Qed.

Lemma insert_by_sorted (a : A) (l : list A) :
  Sorted (not_after ltb) l -> Sorted (not_after ltb) (insert_by ltb a l).
Proof.
  induction 1 as [|h t Ht IH Hh]; simpl.
  - repeat constructor.
  - destruct (ltb h a) eqn:E.
    + constructor; [exact IH|]. apply insert_by_hd; [|exact Hh].
      apply ltb_asym, E.
    + constructor; [constructor; assumption|]. constructor. exact E.
Qed.

Lemma sort_by_sorted (l : list A) : Sorted (not_after ltb) (sort_by ltb l).
Proof.
  induction l as [|a t IH]; simpl; [constructor|].
  apply insert_by_sorted, IH.
Qed.

Lemma sort_by_fixed (l : list A) : Sorted (not_after ltb) l -> sort_by ltb l = l.
Proof.
  induction 1 as [|h t Ht IH Hh]; simpl; [reflexivity|].
  rewrite IH. destruct Hh as [|b t' Hb]; simpl; [reflexivity|].
  unfold not_after in Hb. rewrite Hb. reflexivity.
Qed.

Lemma insert_by_in (e a : A) (l : list A) :
  In e (insert_by ltb a l) -> e = a \/ In e l.
Proof.
  induction l as [|h t IH]; simpl.
  - intros [H|[]]; auto.
  - destruct (ltb h a); simpl; intros [H|H]; auto.
    destruct (IH H); auto.
Qed.

Lemma sort_by_in (e : A) (l : list A) : In e (sort_by ltb l) -> In e l.
Proof.
  induction l as [|a t IH]; simpl; [tauto|].
  intros H. destruct (insert_by_in _ _ _ H); auto.
Qed.

Lemma unique_from_sorted (a : A) (t : list A) :
  Sorted (not_after ltb) (a :: t) -> Sorted (not_after ltb) (a :: unique_from eqb a t).
Proof.
  revert a. induction t as [|b t IH]; intros a Hs; simpl; [exact Hs|].
  inversion Hs as [|? ? Ht Hh]; subst. inversion Hh; subst.
  destruct (eqb a b) eqn:E.
  - apply eqb_eq in E. subst b. apply IH, Ht.
  - constructor; [apply IH, Ht|]. constructor. assumption.
Qed.

Lemma unique_by_sorted (l : list A) :
  Sorted (not_after ltb) l -> Sorted (not_after ltb) (unique_by eqb l).
Proof.
  destruct l as [|a t]; simpl; [auto|]. apply unique_from_sorted.
Qed.

Lemma unique_from_differ (a : A) (t : list A) :
  Sorted (differ eqb) (a :: unique_from eqb a t).
Proof.
  revert a. induction t as [|b t IH]; intros a; simpl.
  - repeat constructor.
  - destruct (eqb a b) eqn:E; [apply IH|].
    constructor; [apply IH|]. constructor. exact E.
Qed.

Lemma unique_from_fixed (a : A) (t : list A) :
  Sorted (differ eqb) (a :: t) -> unique_from eqb a t = t.
Proof.
  revert a. induction t as [|b t IH]; intros a Hs; simpl; [reflexivity|].
  inversion Hs as [|? ? Ht Hh]; subst. inversion Hh as [|? ? E]; subst.
  unfold differ in E. rewrite E, (IH b Ht). reflexivity.
Qed.

Lemma unique_by_fixed (l : list A) :
  unique_by eqb (unique_by eqb l) = unique_by eqb l.
Proof.
  destruct l as [|a t]; simpl; [reflexivity|].
  rewrite unique_from_fixed; [reflexivity|apply unique_from_differ].
Qed.

(** Sorting and removing duplicates a second time changes nothing. *)
Lemma unique_sort_fixed (l : list A) :
  unique_by eqb (sort_by ltb (unique_by eqb (sort_by ltb l)))
  = unique_by eqb (sort_by ltb l).
Proof.
  rewrite sort_by_fixed.
  - apply unique_by_fixed.
  - apply unique_by_sorted, sort_by_sorted.
Qed.

Lemma lex_ltb_asym (l1 l2 : list A) :
  lex_ltb ltb l1 l2 = true -> lex_ltb ltb l2 l1 = false.
Proof.
  revert l2. induction l1 as [|a t1 IH]; intros [|b t2]; simpl;
    try (intros; congruence).
  intros H. apply orb_true_iff in H. destruct H as [H|H].
  { rewrite (ltb_asym _ _ H), H. reflexivity. }
  apply andb_true_iff in H. destruct H as [Hba Hl].
  apply negb_true_iff in Hba. rewrite Hba. simpl.
  rewrite (IH _ Hl). apply andb_false_r.
Qed.


End SortingFacts.

Lemma Position_ltb_asym (a b : Position) :
  Position_ltb a b = true -> Position_ltb b a = false.
Proof.
  unfold Position_ltb. intros H.
  destruct (Z.ltb_spec (r a) (r b)), (Z.ltb_spec (r b) (r a)),
    (Z.eqb_spec (r a) (r b)), (Z.eqb_spec (r b) (r a)),
    (Z.ltb_spec (x a) (x b)), (Z.ltb_spec (x b) (x a)),
    (Z.eqb_spec (x a) (x b)), (Z.eqb_spec (x b) (x a)),
    (Z.ltb_spec (y a) (y b)), (Z.ltb_spec (y b) (y a));
    simpl in *; try reflexivity; try discriminate; lia.
Qed.

Lemma Position_eqb_eq (a b : Position) : Position_eqb a b = true -> a = b.
Proof.
  unfold Position_eqb. destruct a, b; simpl. intros H.
  apply andb_true_iff in H. destruct H as [H Hy].
  apply andb_true_iff in H. destruct H as [Hr Hx].
  apply Z.eqb_eq in Hr, Hx, Hy. congruence.
Qed.

Lemma anchor_ltb_asym (p q : Position * list Position) :
  anchor_ltb p q = true -> anchor_ltb q p = false.
Proof.
  unfold anchor_ltb. intros H. apply orb_true_iff in H. destruct H as [H|H].
  - rewrite (Position_ltb_asym _ _ H), H. reflexivity.
  - apply andb_true_iff in H. destruct H as [Hn Hl].
    apply negb_true_iff in Hn. rewrite Hn. simpl.
    rewrite (lex_ltb_asym _ Position_ltb_asym _ _ Hl). apply andb_false_r.
Qed.

Lemma UniqueVector_fixed (p : list Position) (u v : bool) :
  PossibleMoves.UniqueVector_ (PossibleMoves.UniqueVector_ p u) v
  = PossibleMoves.UniqueVector_ p u.
Proof.
  unfold PossibleMoves.UniqueVector_.
  apply unique_sort_fixed; [apply Position_ltb_asym|apply Position_eqb_eq].
Qed.

Section SortingKeeps.

Context {A : Type}.
Variable ltb : A -> A -> bool.

Lemma insert_by_mem (e a : A) (l : list A) :
  In e (insert_by ltb a l) <-> e = a \/ In e l.
Proof.
  induction l as [|h t IH]; simpl.
  - intuition.
  - destruct (ltb h a); simpl; [rewrite IH|]; intuition.
Qed.

Lemma sort_by_mem (e : A) (l : list A) : In e (sort_by ltb l) <-> In e l.
Proof.
  induction l as [|a t IH]; simpl; [tauto|].
  rewrite insert_by_mem, IH. intuition.
Qed.

Lemma insert_by_length (a : A) (l : list A) :
  length (insert_by ltb a l) = S (length l).
Proof.
  induction l as [|h t IH]; simpl; [reflexivity|].
  destruct (ltb h a); simpl; [rewrite IH|]; reflexivity.
Qed.

Lemma sort_by_length (l : list A) : length (sort_by ltb l) = length l.
Proof.
  induction l as [|a t IH]; simpl; [reflexivity|].
  rewrite insert_by_length, IH. reflexivity.
Qed.

Lemma insert_by_NoDup (a : A) (l : list A) :
  ~ In a l -> NoDup l -> NoDup (insert_by ltb a l).
Proof.
  induction l as [|h t IH]; intros Ha Hl; simpl.
  - constructor; [intros []|constructor].
  - destruct (ltb h a).
    + inversion Hl as [|? ? Hh Ht]; subst. constructor.
      * rewrite insert_by_mem. intros [->|Hin]; [apply Ha; left; reflexivity|].
        exact (Hh Hin).
      * apply IH; [|exact Ht]. intros Hin. apply Ha. right. exact Hin.
    + constructor; assumption.
Qed.

Lemma sort_by_NoDup (l : list A) : NoDup l -> NoDup (sort_by ltb l).
Proof.
  induction l as [|a t IH]; intros Hl; simpl; [constructor|].
  inversion Hl; subst. apply insert_by_NoDup; [|auto].
  rewrite sort_by_mem. assumption.
Qed.

End SortingKeeps.

Section UniqueKeeps.

Context {A : Type}.
Variable eqb : A -> A -> bool.
Hypothesis eqb_eq : forall a b, eqb a b = true -> a = b.

Lemma unique_from_mem (e a : A) (t : list A) :
  In e (a :: unique_from eqb a t) <-> In e (a :: t).
Proof.
  revert a. induction t as [|b t IH]; intros a; simpl; [tauto|].
  destruct (eqb a b) eqn:E.
  - apply eqb_eq in E. subst b. specialize (IH a). simpl in IH.
    rewrite IH. tauto.
  - specialize (IH b). simpl in *. rewrite IH. tauto.
Qed.

Lemma unique_by_mem (e : A) (l : list A) :
  In e (unique_by eqb l) <-> In e l.
Proof.
  destruct l as [|a t]; [simpl; tauto|]. apply unique_from_mem.
Qed.

Lemma NoDup_differ (l : list A) : NoDup l -> Sorted (differ eqb) l.
Proof.
  induction 1 as [|a l Ha Hl IH]; constructor; [exact IH|].
  destruct l as [|b t]; constructor.
  unfold differ. destruct (eqb a b) eqn:E; [|reflexivity].
  apply eqb_eq in E. subst b. exfalso. apply Ha. left. reflexivity.
Qed.

Lemma unique_by_NoDup (l : list A) : NoDup l -> unique_by eqb l = l.
Proof.
  intros Hl. destruct l as [|a t]; [reflexivity|]. simpl. f_equal.
  apply unique_from_fixed, NoDup_differ, Hl.
Qed.

End UniqueKeeps.

Lemma UniqueVector_mem (p : list Position) (u : bool) (e : Position) :
  In e (PossibleMoves.UniqueVector_ p u) <-> In e p.
Proof.
  unfold PossibleMoves.UniqueVector_.
  rewrite (unique_by_mem Position_eqb Position_eqb_eq), sort_by_mem.
  tauto.
Qed.

Lemma UniqueVector_NoDup_length (p : list Position) (u : bool) :
  NoDup p -> length (PossibleMoves.UniqueVector_ p u) = length p.
Proof.
  intros Hp. unfold PossibleMoves.UniqueVector_.
  rewrite (unique_by_NoDup Position_eqb Position_eqb_eq)
    by (apply sort_by_NoDup, Hp).
  apply sort_by_length.
Qed.

(** The order of [Position] is total and transitive. *)
Lemma Position_ltb_total (a b : Position) :
  Position_ltb b a = false -> Position_eqb a b = false ->
  Position_ltb a b = true.
Proof.
  unfold Position_ltb, Position_eqb. intros Hlt Heq.
  destruct (Z.ltb_spec (r a) (r b)), (Z.ltb_spec (r b) (r a)),
    (Z.eqb_spec (r a) (r b)), (Z.eqb_spec (r b) (r a)),
    (Z.ltb_spec (x a) (x b)), (Z.ltb_spec (x b) (x a)),
    (Z.eqb_spec (x a) (x b)), (Z.eqb_spec (x b) (x a)),
    (Z.ltb_spec (y a) (y b)), (Z.ltb_spec (y b) (y a)),
    (Z.eqb_spec (y a) (y b));
    simpl in *; try reflexivity; try discriminate; lia.
Qed.

Lemma Position_ltb_lt (a b : Position) :
  Position_ltb a b = true <->
  r a < r b \/ (r a = r b /\ (x a < x b \/ (x a = x b /\ y a < y b))).
Proof.
  unfold Position_ltb.
  rewrite !orb_true_iff, !andb_true_iff, !orb_true_iff, !andb_true_iff,
    !Z.ltb_lt, !Z.eqb_eq.
  tauto.
Qed.

Lemma Position_ltb_trans (a b c : Position) :
  Position_ltb a b = true -> Position_ltb b c = true ->
  Position_ltb a c = true.
Proof. rewrite !Position_ltb_lt. lia. Qed.

Lemma Position_ltb_irrefl (a : Position) : Position_ltb a a = false.
Proof.
  destruct (Position_ltb a a) eqn:E; [|reflexivity].
  apply Position_ltb_lt in E. lia.
Qed.

Lemma Sorted_both {A : Type} (P Q : A -> A -> Prop) (l : list A) :
  Sorted P l -> Sorted Q l -> Sorted (fun a b => P a b /\ Q a b) l.
Proof.
  induction l as [|a l IH]; intros HP HQ; [constructor|].
  inversion HP as [|? ? HP' HdP]; subst.
  inversion HQ as [|? ? HQ' HdQ]; subst.
  constructor; [apply IH; assumption|].
  destruct l as [|b t]; constructor.
  inversion HdP; inversion HdQ; subst. split; assumption.
Qed.

Lemma Sorted_weaken {A : Type} (P Q : A -> A -> Prop) (l : list A) :
  (forall a b, P a b -> Q a b) -> Sorted P l -> Sorted Q l.
Proof.
  intros Himp. induction 1 as [|a l Hl IH Hd]; constructor; [exact IH|].
  destruct Hd; constructor. apply Himp. assumption.
Qed.

(** A list in strictly ascending order has no element twice. *)
Lemma ascending_NoDup (l : list Position) :
  Sorted (fun a b => Position_ltb a b = true) l -> NoDup l.
Proof.
  intros Hs. apply Sorted_StronglySorted in Hs.
  - induction Hs as [|a l Hl IH Ha]; constructor; [|exact IH].
    intros Hin. rewrite Forall_forall in Ha. specialize (Ha a Hin).
    rewrite Position_ltb_irrefl in Ha. discriminate.
  - intros a b c. apply Position_ltb_trans.
Qed.

(** [UniqueVector_] returns the elements of its argument in strictly
    ascending order. *)
Lemma UniqueVector_ascending (p : list Position) (u : bool) :
  Sorted (fun a b => Position_ltb a b = true) (PossibleMoves.UniqueVector_ p u).
Proof.
  unfold PossibleMoves.UniqueVector_.
  pose proof (sort_by_sorted Position_ltb Position_ltb_asym p) as Hs.
  pose proof (unique_by_sorted Position_ltb Position_eqb Position_eqb_eq _ Hs)
    as Hu.
  assert (Hd : Sorted (differ Position_eqb)
                      (unique_by Position_eqb (sort_by Position_ltb p))).
  { destruct (sort_by Position_ltb p) as [|a t]; [constructor|].
    apply unique_from_differ. }
  apply (Sorted_weaken _ _ _ (fun a b H =>
           Position_ltb_total a b (proj1 H) (proj2 H))).
  apply Sorted_both; assumption.
Qed.

(** C9: [PossibleMoves::Normalize] is idempotent: normalising a normalised
    value, whatever the flags, returns it unchanged.  The normal form is
    sorted with the duplicates removed: [non_adj] and the moves of every
    element of [adj] are in strictly ascending order, with the placements
    they had before; [adj] has the anchors it had, each with its moves,
    sorted by the order of pairs, so that the anchors never descend. *)
Theorem Normalize_idempotent (m : PossibleMoves.t) (u v : bool) :
  let n := PossibleMoves.Normalize m u in
  PossibleMoves.Normalize n v = n
  /\ (Sorted (fun a b => Position_ltb a b = true) (PossibleMoves.non_adj n)
      /\ NoDup (PossibleMoves.non_adj n)
      /\ forall p, In p (PossibleMoves.non_adj n)
                   <-> In p (PossibleMoves.non_adj m))
  /\ (forall b, In b (PossibleMoves.adj n) ->
                Sorted (fun a b => Position_ltb a b = true) (snd b)
                /\ NoDup (snd b))
  /\ (forall b, In b (PossibleMoves.adj n) <->
                exists a, In a (PossibleMoves.adj m) /\
                          b = (fst a, PossibleMoves.UniqueVector_ (snd a) u))
  /\ (forall a p, In p (PossibleMoves.UniqueVector_ a u) <-> In p a)
  /\ length (PossibleMoves.adj n) = length (PossibleMoves.adj m)
  /\ Sorted (not_after anchor_ltb) (PossibleMoves.adj n)
  /\ Sorted (fun a b => Position_ltb (fst b) (fst a) = false)
            (PossibleMoves.adj n).
Proof.
  intros n.
  assert (Hadj : forall b, In b (PossibleMoves.adj n) <->
                   exists a, In a (PossibleMoves.adj m) /\
                             b = (fst a, PossibleMoves.UniqueVector_ (snd a) u)).
  { intros b. unfold n, PossibleMoves.Normalize. cbn [PossibleMoves.adj].
    rewrite sort_by_mem, in_map_iff. split.
    - intros [a [<- Ha]]. exists a. auto.
    - intros [a [Ha ->]]. exists a. auto. }
  assert (Hsorted : Sorted (not_after anchor_ltb) (PossibleMoves.adj n)).
  { unfold n, PossibleMoves.Normalize. cbn [PossibleMoves.adj].
    apply sort_by_sorted, anchor_ltb_asym. }
  split.
  { unfold n, PossibleMoves.Normalize; simpl. f_equal.
    - apply UniqueVector_fixed.
    - set (f := fun w (i : Position * list Position) =>
                  (fst i, PossibleMoves.UniqueVector_ (snd i) w)).
      change (sort_by anchor_ltb
                (map (f v)
                     (sort_by anchor_ltb (map (f u) (PossibleMoves.adj m))))
              = sort_by anchor_ltb (map (f u) (PossibleMoves.adj m))).
      assert (Hmap : map (f v) (sort_by anchor_ltb
                                        (map (f u) (PossibleMoves.adj m)))
                     = sort_by anchor_ltb (map (f u) (PossibleMoves.adj m))).
      { rewrite <- (map_id (sort_by anchor_ltb
                                    (map (f u) (PossibleMoves.adj m)))) at 2.
        apply map_ext_in. intros e He. apply sort_by_in in He.
        apply in_map_iff in He. destruct He as [i [<- _]].
        unfold f; simpl. rewrite UniqueVector_fixed. reflexivity. }
      rewrite Hmap. apply sort_by_fixed with (ltb := anchor_ltb).
      apply sort_by_sorted, anchor_ltb_asym. }
  split.
  { unfold n, PossibleMoves.Normalize. cbn [PossibleMoves.non_adj].
    split; [apply UniqueVector_ascending|].
    split; [apply ascending_NoDup, UniqueVector_ascending|].
    intros p. apply UniqueVector_mem. }
  split.
  { intros b Hb. apply Hadj in Hb. destruct Hb as [a [_ ->]]. cbn [snd].
    split; [apply UniqueVector_ascending|].
    apply ascending_NoDup, UniqueVector_ascending. }
  split; [exact Hadj|].
  split; [intros a p; apply UniqueVector_mem|].
  split.
  { unfold n, PossibleMoves.Normalize. cbn [PossibleMoves.adj].
    rewrite sort_by_length, length_map. reflexivity. }
  split; [exact Hsorted|].
  apply (Sorted_weaken (not_after anchor_ltb)); [|exact Hsorted].
  intros a b Hab. unfold not_after, anchor_ltb in Hab.
  apply orb_false_iff in Hab. apply Hab.
Qed.

(** ** Bit deposit and extract on stride masks *)

Lemma odd_cons (b : bool) (z : Z) : Z.odd (Z.b2z b + 2 * z) = b.
Proof.
  rewrite Z.odd_add_mul_2. destruct b; reflexivity.
Qed.

Lemma div2_cons (b : bool) (z : Z) : Z.div2 (Z.b2z b + 2 * z) = z.
Proof.
  rewrite Z.div2_div. apply Z.add_b2z_double_div2.
Qed.

Lemma cons_div2 (z : Z) : z = Z.b2z (Z.odd z) + 2 * Z.div2 z.
Proof.
  rewrite Z.add_comm. apply Z.div2_odd.
Qed.

Lemma testbit_cons_0 (b : bool) (z : Z) : Z.testbit (Z.b2z b + 2 * z) 0 = b.
Proof.
  rewrite Z.add_comm. apply Z.testbit_0_r.
Qed.

Lemma testbit_cons_succ (b : bool) (z n : Z) :
  0 <= n -> Z.testbit (Z.b2z b + 2 * z) (Z.succ n) = Z.testbit z n.
Proof.
  intros Hn. rewrite Z.add_comm. apply Z.testbit_succ_r, Hn.
Qed.

Lemma lor_cons (a b : bool) (u v : Z) :
  Z.lor (Z.b2z a + 2 * u) (Z.b2z b + 2 * v)
  = Z.b2z (a || b) + 2 * Z.lor u v.
Proof.
  apply Z.bits_inj'. intros n Hn. rewrite Z.lor_spec.
  destruct (Z.eq_dec n 0) as [->|Hne].
  - rewrite !testbit_cons_0. reflexivity.
  - replace n with (Z.succ (n - 1)) by lia.
    rewrite !testbit_cons_succ by lia. symmetry. apply Z.lor_spec.
Qed.

Lemma land_cons (a b : bool) (u v : Z) :
  Z.land (Z.b2z a + 2 * u) (Z.b2z b + 2 * v)
  = Z.b2z (a && b) + 2 * Z.land u v.
Proof.
  apply Z.bits_inj'. intros n Hn. rewrite Z.land_spec.
  destruct (Z.eq_dec n 0) as [->|Hne].
  - rewrite !testbit_cons_0. reflexivity.
  - replace n with (Z.succ (n - 1)) by lia.
    rewrite !testbit_cons_succ by lia. symmetry. apply Z.land_spec.
Qed.

Lemma pdep_bits_zero (f : nat) (c : Z) : pdep_bits f c 0 = 0.
Proof.
  revert c. induction f as [|f IH]; intros c; simpl; [reflexivity|].
  rewrite IH. reflexivity.
Qed.

Lemma pext_bits_zero (f : nat) (c : Z) : pext_bits f c 0 = 0.
Proof.
  revert c. induction f as [|f IH]; intros c; simpl; [reflexivity|apply IH].
Qed.

(** [j] low zero bits of the mask delay the deposit by [j] positions. *)
Lemma pdep_bits_shift (j f : nat) (c M : Z) :
  pdep_bits (j + f) c (2 ^ Z.of_nat j * M) = 2 ^ Z.of_nat j * pdep_bits f c M.
Proof.
  induction j as [|j IH].
  - change (2 ^ Z.of_nat 0) with 1. rewrite !Z.mul_1_l. reflexivity.
  - replace (2 ^ Z.of_nat (S j) * M) with (Z.b2z false + 2 * (2 ^ Z.of_nat j * M)).
    + cbn [Nat.add pdep_bits]. rewrite odd_cons, div2_cons, IH.
      rewrite Nat2Z.inj_succ, Z.pow_succ_r by lia. ring.
    + rewrite Nat2Z.inj_succ, Z.pow_succ_r by lia. simpl Z.b2z. ring.
Qed.

Lemma pext_bits_shift (j f : nat) (y M : Z) :
  pext_bits (j + f) y (2 ^ Z.of_nat j * M)
  = pext_bits f (Z.shiftr y (Z.of_nat j)) M.
Proof.
  revert y. induction j as [|j IH]; intros y.
  - change (2 ^ Z.of_nat 0) with 1. change (Z.of_nat 0) with 0.
    rewrite Z.mul_1_l, Z.shiftr_0_r. reflexivity.
  - replace (2 ^ Z.of_nat (S j) * M) with (Z.b2z false + 2 * (2 ^ Z.of_nat j * M)).
    + cbn [Nat.add pext_bits]. rewrite odd_cons, div2_cons, IH.
      rewrite Z.div2_spec, Z.shiftr_shiftr by lia.
      replace (1 + Z.of_nat j) with (Z.of_nat (S j)) by lia. reflexivity.
    + rewrite Nat2Z.inj_succ, Z.pow_succ_r by lia. simpl Z.b2z. ring.
Qed.

Lemma stride_mask_succ (j n : nat) :
  stride_mask (Z.of_nat (S j)) (S n)
  = Z.b2z true + 2 * (2 ^ Z.of_nat j * stride_mask (Z.of_nat (S j)) n).
Proof.
  cbn [stride_mask Z.b2z]. rewrite Nat2Z.inj_succ, Z.pow_succ_r by lia. ring.
Qed.

Lemma pdep_bits_stride (j n f : nat) (c : Z) :
  (S j * n <= f)%nat ->
  pdep_bits f c (stride_mask (Z.of_nat (S j)) n) = deposit (Z.of_nat (S j)) n c.
Proof.
  revert f c. induction n as [|n IH]; intros f c Hf.
  - apply pdep_bits_zero.
  - replace f with (S (j + (f - S j)))%nat by lia.
    rewrite stride_mask_succ. cbn [pdep_bits]. rewrite odd_cons, div2_cons.
    rewrite pdep_bits_shift, IH by lia. cbn [deposit].
    rewrite Nat2Z.inj_succ, Z.pow_succ_r by lia. ring.
Qed.

Lemma pext_bits_stride (j n f : nat) (y : Z) :
  (S j * n <= f)%nat ->
  pext_bits f y (stride_mask (Z.of_nat (S j)) n) = extract (Z.of_nat (S j)) n y.
Proof.
  revert f y. induction n as [|n IH]; intros f y Hf.
  - apply pext_bits_zero.
  - replace f with (S (j + (f - S j)))%nat by lia.
    rewrite stride_mask_succ. cbn [pext_bits]. rewrite odd_cons, div2_cons.
    rewrite pext_bits_shift, IH by lia. cbn [extract].
    rewrite Z.div2_spec, Z.shiftr_shiftr by lia.
    replace (1 + Z.of_nat j) with (Z.of_nat (S j)) by lia. reflexivity.
Qed.

Lemma deposit_bounds (k : Z) (n : nat) (c : Z) :
  0 <= k -> 0 <= deposit k n c <= stride_mask k n.
Proof.
  intros Hk. revert c. induction n as [|n IH]; intros c; cbn [deposit stride_mask]; [lia|].
  specialize (IH (Z.div2 c)).
  assert (Hp : 0 < 2 ^ k) by (apply Z.pow_pos_nonneg; lia).
  set (p := 2 ^ k) in *. set (d := deposit k n (Z.div2 c)) in *.
  set (m := stride_mask k n) in *.
  assert (0 <= p * d <= p * m) by (split; [apply Z.mul_nonneg_nonneg|apply Z.mul_le_mono_nonneg_l]; lia).
  destruct (Z.odd c); simpl Z.b2z; lia.
Qed.

Lemma extract_bounds (k : Z) (n : nat) (y : Z) :
  0 <= extract k n y < 2 ^ Z.of_nat n.
Proof.
  revert y. induction n as [|n IH]; intros y; [simpl; lia|].
  cbn [extract]. rewrite Nat2Z.inj_succ, Z.pow_succ_r by lia.
  specialize (IH (Z.shiftr y k)). destruct (Z.odd y); simpl Z.b2z; lia.
Qed.

(** ** Round trip at levels 18 and 19: every row is spread over [k] frames
    and gathered back. *)

Lemma spread3_deposit (n : nat) (c : Z) :
  Z.lor (Z.lor (deposit 3 n c) (2 * deposit 3 n c)) (4 * deposit 3 n c)
  = 7 * deposit 3 n c.
Proof.
  revert c. induction n as [|n IH]; intros c; [reflexivity|].
  cbn [deposit]. set (b := Z.odd c). set (e := deposit 3 n (Z.div2 c)).
  specialize (IH (Z.div2 c)). fold e in IH.
  replace (Z.b2z b + 2 ^ 3 * e)
    with (Z.b2z b + 2 * (Z.b2z false + 2 * (Z.b2z false + 2 * e)))
    by (simpl Z.b2z; lia).
  replace (2 * (Z.b2z b + 2 * (Z.b2z false + 2 * (Z.b2z false + 2 * e))))
    with (Z.b2z false + 2 * (Z.b2z b + 2 * (Z.b2z false + 2 * (2 * e))))
    by (simpl Z.b2z; lia).
  replace (4 * (Z.b2z b + 2 * (Z.b2z false + 2 * (Z.b2z false + 2 * e))))
    with (Z.b2z false + 2 * (Z.b2z false + 2 * (Z.b2z b + 2 * (4 * e))))
    by (simpl Z.b2z; lia).
  rewrite !lor_cons, IH. destruct b; simpl Z.b2z; lia.
Qed.

Lemma spread2_deposit (n : nat) (c : Z) :
  Z.lor (deposit 2 n c) (2 * deposit 2 n c) = 3 * deposit 2 n c.
Proof.
  revert c. induction n as [|n IH]; intros c; [reflexivity|].
  cbn [deposit]. set (b := Z.odd c). set (e := deposit 2 n (Z.div2 c)).
  specialize (IH (Z.div2 c)). fold e in IH.
  replace (Z.b2z b + 2 ^ 2 * e)
    with (Z.b2z b + 2 * (Z.b2z false + 2 * e)) by (simpl Z.b2z; lia).
  replace (2 * (Z.b2z b + 2 * (Z.b2z false + 2 * e)))
    with (Z.b2z false + 2 * (Z.b2z b + 2 * (2 * e)))
    by (simpl Z.b2z; lia).
  rewrite !lor_cons, IH. destruct b; simpl Z.b2z; lia.
Qed.

Lemma mod_pow2_cons (n : nat) (c : Z) :
  Z.b2z (Z.odd c) + 2 * (Z.div2 c mod 2 ^ Z.of_nat n)
  = c mod 2 ^ Z.of_nat (S n).
Proof.
  rewrite Nat2Z.inj_succ, Z.pow_succ_r by lia.
  assert (Hp : 0 < 2 ^ Z.of_nat n) by (apply Z.pow_pos_nonneg; lia).
  set (p := 2 ^ Z.of_nat n) in *.
  apply Z.mod_unique with (q := Z.div2 c / p).
  - left. pose proof (Z.mod_pos_bound (Z.div2 c) p Hp).
    destruct (Z.odd c); simpl Z.b2z; lia.
  - rewrite (cons_div2 c) at 1.
    rewrite (Z.div_mod (Z.div2 c) p) at 1 by lia. ring.
Qed.

Lemma gather3_extract (n : nat) (c : Z) :
  extract 3 n
    (Z.lor (Z.lor (7 * deposit 3 n c) (Z.shiftr (7 * deposit 3 n c) 1))
           (Z.shiftr (7 * deposit 3 n c) 2))
  = c mod 2 ^ Z.of_nat n.
Proof.
  revert c. induction n as [|n IH]; intros c.
  - simpl. rewrite Z.mod_1_r. reflexivity.
  - rewrite <- mod_pow2_cons.
    cbn [deposit extract]. set (b := Z.odd c).
    set (e := deposit 3 n (Z.div2 c)). specialize (IH (Z.div2 c)). fold e in IH.
    set (y := 7 * (Z.b2z b + 2 ^ 3 * e)).
    assert (Hy : y = Z.b2z b + 2 * (Z.b2z b + 2 * (Z.b2z b + 2 * (7 * e))))
      by (unfold y; destruct b; simpl Z.b2z; lia).
    assert (Hodd : Z.odd (Z.lor (Z.lor y (Z.shiftr y 1)) (Z.shiftr y 2)) = b).
    { rewrite <- Z.bit0_odd, !Z.lor_spec, !Z.shiftr_spec by lia. simpl Z.add.
      rewrite Hy. rewrite testbit_cons_0.
      change 1 with (Z.succ 0). rewrite testbit_cons_succ, testbit_cons_0 by lia.
      change 2 with (Z.succ (Z.succ 0)).
      rewrite !testbit_cons_succ, testbit_cons_0 by lia.
      destruct b; reflexivity. }
    assert (Hsh : Z.shiftr y 3 = 7 * e).
    { rewrite Z.shiftr_div_pow2 by lia. unfold y. symmetry.
      apply Z.div_unique with (r := 7 * Z.b2z b); destruct b; simpl Z.b2z; lia. }
    rewrite Hodd, !Z.shiftr_lor, !Z.shiftr_shiftr by lia.
    replace (1 + 3) with (3 + 1) by lia. replace (2 + 3) with (3 + 2) by lia.
    rewrite <- !Z.shiftr_shiftr, Hsh, IH by lia. reflexivity.
Qed.

Lemma gather2_extract (n : nat) (c : Z) :
  extract 2 n (Z.lor (3 * deposit 2 n c) (Z.shiftr (3 * deposit 2 n c) 1))
  = c mod 2 ^ Z.of_nat n.
Proof.
  revert c. induction n as [|n IH]; intros c.
  - simpl. rewrite Z.mod_1_r. reflexivity.
  - rewrite <- mod_pow2_cons.
    cbn [deposit extract]. set (b := Z.odd c).
    set (e := deposit 2 n (Z.div2 c)). specialize (IH (Z.div2 c)). fold e in IH.
    set (y := 3 * (Z.b2z b + 2 ^ 2 * e)).
    assert (Hy : y = Z.b2z b + 2 * (Z.b2z b + 2 * (3 * e)))
      by (unfold y; destruct b; simpl Z.b2z; lia).
    assert (Hodd : Z.odd (Z.lor y (Z.shiftr y 1)) = b).
    { rewrite <- Z.bit0_odd, !Z.lor_spec, !Z.shiftr_spec by lia. simpl Z.add.
      rewrite Hy. rewrite testbit_cons_0.
      change 1 with (Z.succ 0). rewrite testbit_cons_succ, testbit_cons_0 by lia.
      destruct b; reflexivity. }
    assert (Hsh : Z.shiftr y 2 = 3 * e).
    { rewrite Z.shiftr_div_pow2 by lia. unfold y. symmetry.
      apply Z.div_unique with (r := 3 * Z.b2z b); destruct b; simpl Z.b2z; lia. }
    rewrite Hodd, !Z.shiftr_lor, !Z.shiftr_shiftr by lia.
    replace (1 + 2) with (2 + 1) by lia.
    rewrite <- !Z.shiftr_shiftr, Hsh, IH by lia. reflexivity.
Qed.

(** ** Level 39: only the even rows come back. *)

Lemma land_stride2 (c M : Z) :
  Z.land c (1 + 2 ^ 2 * M)
  = Z.b2z (Z.odd c) + 2 ^ 2 * Z.land (Z.shiftr c 2) M.
Proof.
  replace (Z.shiftr c 2) with (Z.div2 (Z.div2 c))
    by (rewrite !Z.div2_spec, Z.shiftr_shiftr by lia; reflexivity).
  set (b0 := Z.odd c). set (b1 := Z.odd (Z.div2 c)).
  set (c2 := Z.div2 (Z.div2 c)).
  replace (Z.land c (1 + 2 ^ 2 * M))
    with (Z.land (Z.b2z b0 + 2 * (Z.b2z b1 + 2 * c2))
                 (Z.b2z true + 2 * (Z.b2z false + 2 * M))).
  - rewrite !land_cons, andb_true_r, andb_false_r. simpl Z.b2z. ring.
  - f_equal.
    + unfold b0, b1, c2. rewrite <- !cons_div2. reflexivity.
    + simpl Z.b2z. ring.
Qed.

Lemma deposit_extract2 (n : nat) (c : Z) :
  deposit 2 n (extract 2 n c) = Z.land c (stride_mask 2 n).
Proof.
  revert c. induction n as [|n IH]; intros c.
  - simpl. rewrite Z.land_0_r. reflexivity.
  - cbn [deposit extract stride_mask]. rewrite odd_cons, div2_cons, IH.
    symmetry. apply land_stride2.
Qed.

Lemma u64_small (z : Z) : 0 <= z < 2 ^ 64 -> u64 z = z.
Proof. apply Z.mod_small. Qed.

Lemma u32_small (z : Z) : 0 <= z < 2 ^ 32 -> u32 z = z.
Proof. apply Z.mod_small. Qed.

Lemma lor_below (n a b : Z) :
  0 <= n -> 0 <= a < 2 ^ n -> 0 <= b < 2 ^ n -> 0 <= Z.lor a b < 2 ^ n.
Proof.
  intros Hn Ha Hb.
  assert (H : Z.lor a b = Z.lor a b mod 2 ^ n).
  { rewrite <- Z.land_ones, Z.land_lor_distr_l, !Z.land_ones by lia.
    rewrite !Z.mod_small by lia. reflexivity. }
  rewrite H. apply Z.mod_pos_bound. apply Z.pow_pos_nonneg; lia.
Qed.

Lemma shiftr_below (n a k : Z) :
  0 <= k -> 0 <= a < 2 ^ n -> 0 <= Z.shiftr a k < 2 ^ n.
Proof.
  intros Hk Ha. rewrite Z.shiftr_div_pow2 by lia.
  assert (0 < 2 ^ k) by (apply Z.pow_pos_nonneg; lia).
  split; [apply Z.div_pos; lia|].
  apply Z.le_lt_trans with a; [|lia].
  apply Z.div_le_upper_bound; [lia|]. nia.
Qed.

Lemma roundtrip18 (c : Z) :
  0 <= c < 2 ^ 20 ->
  FramesToColumn kLevel18 (ColumnToNormalFrameMask kLevel18 c) = c.
Proof.
  intros Hc. unfold FramesToColumn, ColumnToNormalFrameMask, pdep64, pext64.
  rewrite (u64_small c) by lia. rewrite (u64_small kMask18) by (unfold kMask18; lia).
  change kMask18 with (stride_mask (Z.of_nat 3) 20).
  rewrite pdep_bits_stride by (simpl; lia). change (Z.of_nat 3) with 3.
  pose proof (deposit_bounds 3 20 c ltac:(lia)) as Hd.
  change (stride_mask 3 20) with 0x249249249249249 in Hd.
  set (e := deposit 3 20 c) in *.
  rewrite !Z.shiftl_mul_pow2 by lia.
  rewrite (u64_small (e * 2 ^ 1)), (u64_small (e * 2 ^ 2)) by lia.
  replace (e * 2 ^ 1) with (2 * e) by lia. replace (e * 2 ^ 2) with (4 * e) by lia.
  unfold e. rewrite !spread3_deposit. fold e.
  set (y := 7 * e).
  assert (Hy : 0 <= y < 2 ^ 64) by (unfold y; lia).
  rewrite u64_small.
  - change (stride_mask 3 20) with (stride_mask (Z.of_nat 3) 20).
    rewrite pext_bits_stride by (simpl; lia). change (Z.of_nat 3) with 3.
    unfold y, e. rewrite gather3_extract.
    change (Z.of_nat 20) with 20. rewrite Z.mod_small by lia.
    apply u32_small. lia.
  - repeat apply lor_below; try apply shiftr_below; lia.
Qed.

Lemma roundtrip19 (c : Z) :
  0 <= c < 2 ^ 20 ->
  FramesToColumn kLevel19 (ColumnToNormalFrameMask kLevel19 c) = c.
Proof.
  intros Hc. unfold FramesToColumn, ColumnToNormalFrameMask, pdep64, pext64.
  rewrite (u64_small c) by lia. rewrite (u64_small kMask19) by (unfold kMask19; lia).
  change kMask19 with (stride_mask (Z.of_nat 2) 20).
  rewrite pdep_bits_stride by (simpl; lia). change (Z.of_nat 2) with 2.
  pose proof (deposit_bounds 2 20 c ltac:(lia)) as Hd.
  change (stride_mask 2 20) with 0x5555555555 in Hd.
  set (e := deposit 2 20 c) in *.
  rewrite !Z.shiftl_mul_pow2 by lia.
  rewrite (u64_small (e * 2 ^ 1)) by lia.
  replace (e * 2 ^ 1) with (2 * e) by lia.
  unfold e. rewrite !spread2_deposit. fold e.
  set (y := 3 * e).
  assert (Hy : 0 <= y < 2 ^ 64) by (unfold y; lia).
  rewrite u64_small.
  - change (stride_mask 2 20) with (stride_mask (Z.of_nat 2) 20).
    rewrite pext_bits_stride by (simpl; lia). change (Z.of_nat 2) with 2.
    unfold y, e. rewrite gather2_extract.
    change (Z.of_nat 20) with 20. rewrite Z.mod_small by lia.
    apply u32_small. lia.
  - repeat apply lor_below; try apply shiftr_below; lia.
Qed.

Lemma roundtrip39 (c : Z) :
  0 <= c < 2 ^ 20 ->
  FramesToColumn kLevel39 (ColumnToNormalFrameMask kLevel39 c)
  = Z.land c kMask39.
Proof.
  intros Hc. unfold FramesToColumn, ColumnToNormalFrameMask, pdep32, pext32.
  rewrite (u32_small c) by lia. rewrite (u32_small kMask39) by (unfold kMask39; lia).
  change kMask39 with (stride_mask (Z.of_nat 2) 10).
  rewrite pext_bits_stride by (simpl; lia).
  pose proof (extract_bounds (Z.of_nat 2) 10 c) as He.
  change (2 ^ Z.of_nat 10) with 1024 in He.
  rewrite u32_small by lia.
  rewrite pdep_bits_stride by (simpl; lia).
  change (Z.of_nat 2) with 2. apply deposit_extract2.
Qed.

(** C2, as the code has it: the codec returns every 20 bit column
    unchanged at levels 18, 19 and 29; at level 39, where a frame covers two
    rows, it returns the even rows of the column and clears the odd ones. *)
Theorem codec_roundtrip (level : Level) (c : Z) :
  0 <= c < 2 ^ 20 ->
  FramesToColumn level (ColumnToNormalFrameMask level c)
  = match level with
    | kLevel39 => Z.land c kMask39
    | _ => c
    end.
Proof.
  intros Hc. destruct level.
  - apply roundtrip18, Hc.
  - apply roundtrip19, Hc.
  - unfold FramesToColumn, ColumnToNormalFrameMask.
    rewrite !u32_small; [reflexivity|lia|rewrite u32_small; lia].
  - apply roundtrip39, Hc.
Qed.

Lemma codec_roundtrip_witness :
  0 <= 0xABCDE < 2 ^ 20 /\
  FramesToColumn kLevel18 (ColumnToNormalFrameMask kLevel18 0xABCDE) = 0xABCDE.
Proof.
  split; [lia|]. apply (codec_roundtrip kLevel18 0xABCDE). lia.
Defined.

(** C2, as stated, fails at level 39: the column with only row 1 set does
    not come back. *)
Lemma codec_roundtrip_level39_fails :
  0 <= 2 < 2 ^ 20 /\
  FramesToColumn kLevel39 (ColumnToNormalFrameMask kLevel39 2) <> 2.
Proof.
  split; [lia|]. vm_compute. discriminate.
Qed.

(** ** The lock row *)

Lemma mod_pow2_succ (c n : Z) :
  0 <= n ->
  c mod 2 ^ (n + 1) = c mod 2 ^ n + 2 ^ n * Z.b2z (Z.testbit c n).
Proof.
  intros Hn. rewrite Z.testbit_spec' by lia.
  rewrite Z.pow_add_r, Z.pow_1_r by lia.
  apply Z.rem_mul_r; [|lia].
  apply Z.pow_nonzero; lia.
Qed.

(** A run of set bits from [s] to [r] makes the low [r + 1] bits large. *)
Lemma set_run_mod (c s : Z) (k : nat) :
  0 <= s ->
  (forall i, s <= i < s + Z.of_nat k -> Z.testbit c i = true) ->
  2 ^ (s + Z.of_nat k) - 2 ^ s <= c mod 2 ^ (s + Z.of_nat k).
Proof.
  intros Hs. induction k as [|k IH]; intros Hrun.
  - rewrite Z.add_0_r.
    assert (0 < 2 ^ s) by (apply Z.pow_pos_nonneg; lia).
    pose proof (Z.mod_pos_bound c (2 ^ s)). lia.
  - replace (s + Z.of_nat (S k)) with ((s + Z.of_nat k) + 1) by lia.
    rewrite mod_pow2_succ by lia.
    rewrite (Hrun (s + Z.of_nat k)) by lia.
    rewrite Z.pow_add_r, Z.pow_1_r by lia. simpl Z.b2z.
    assert (2 ^ (s + Z.of_nat k) - 2 ^ s <= c mod 2 ^ (s + Z.of_nat k))
      by (apply IH; intros; apply Hrun; lia).
    lia.
Qed.

(** Adding [2 ^ s] to a column whose bits [s .. r] are set carries into
    bit [r + 1]. *)
Lemma set_run_carry (c s r : Z) :
  0 <= s <= r ->
  (forall i, s <= i <= r -> Z.testbit c i = true) ->
  (c + 2 ^ s) / 2 ^ (r + 1) = c / 2 ^ (r + 1) + 1.
Proof.
  intros Hsr Hrun.
  assert (Hp : 0 < 2 ^ (r + 1)) by (apply Z.pow_pos_nonneg; lia).
  assert (Hs : 0 < 2 ^ s) by (apply Z.pow_pos_nonneg; lia).
  assert (Hle : 2 ^ s <= 2 ^ (r + 1)) by (apply Z.pow_le_mono_r; lia).
  pose proof (set_run_mod c s (Z.to_nat (r + 1 - s)) ltac:(lia)) as Hm.
  replace (s + Z.of_nat (Z.to_nat (r + 1 - s))) with (r + 1) in Hm by lia.
  specialize (Hm ltac:(intros; apply Hrun; lia)).
  pose proof (Z.mod_pos_bound c (2 ^ (r + 1)) Hp) as Hb.
  pose proof (Z.div_mod c (2 ^ (r + 1)) ltac:(lia)) as Hd.
  symmetry.
  apply Z.div_unique with (r := c mod 2 ^ (r + 1) + 2 ^ s - 2 ^ (r + 1)); lia.
Qed.

Lemma testbit_high (x n m : Z) :
  0 <= n -> 0 <= m -> Z.testbit x (n + m) = Z.testbit (x / 2 ^ n) m.
Proof.
  intros Hn Hm. rewrite Z.div_pow2_bits by lia. f_equal. lia.
Qed.

(** The exclusive or of the bit trick has its highest set bit at the first
    clear bit above the run. *)
Lemma lock_xor_log2 (c s r : Z) :
  0 <= c -> 0 <= s <= r ->
  (forall i, s <= i <= r -> Z.testbit c i = true) ->
  Z.testbit c (r + 1) = false ->
  Z.log2 (Z.lxor c (c + 2 ^ s)) = r + 1.
Proof.
  intros Hc Hsr Hrun Hclear.
  pose proof (set_run_carry c s r Hsr Hrun) as Hcarry.
  set (q := c / 2 ^ (r + 1)) in *.
  assert (Hq0 : Z.testbit q 0 = false).
  { unfold q. rewrite <- testbit_high by lia. rewrite Z.add_0_r. exact Hclear. }
  assert (Hq : q = Z.b2z false + 2 * Z.div2 q).
  { rewrite (cons_div2 q) at 1. rewrite <- Z.bit0_odd, Hq0. reflexivity. }
  assert (Hq1 : q + 1 = Z.b2z true + 2 * Z.div2 q) by (simpl Z.b2z in *; lia).
  apply Z.log2_bits_unique.
  - rewrite Z.lxor_spec, Hclear.
    replace (r + 1) with ((r + 1) + 0) at 1 by lia.
    rewrite testbit_high, Hcarry, Hq1, testbit_cons_0 by lia. reflexivity.
  - intros m Hm. rewrite Z.lxor_spec.
    replace m with ((r + 1) + Z.succ (m - (r + 2))) by lia.
    rewrite !testbit_high by lia. fold q. rewrite Hcarry, Hq1.
    rewrite Hq at 1. rewrite !testbit_cons_succ by lia.
    apply xorb_nilpotent.
Qed.

(** Above a set bit of a 20 bit column there is a first clear bit. *)
Lemma set_run_end (c s : Z) (k : nat) :
  0 <= c < 2 ^ 20 -> 0 <= s -> s + Z.of_nat k = 20 ->
  Z.testbit c s = true ->
  exists r, lock_row_of_set_run c s r.
Proof.
  intros Hc. revert s. induction k as [|k IH]; intros s Hs Hk Hbit.
  - exfalso. replace s with 20 in Hbit by lia.
    destruct (Z.eq_dec c 0) as [->|Hne]; [discriminate|].
    rewrite Z.bits_above_log2 in Hbit; [discriminate|lia|].
    apply Z.log2_lt_pow2; lia.
  - destruct (Z.testbit c (s + 1)) eqn:Hnext.
    + destruct (IH (s + 1) ltac:(lia) ltac:(lia) Hnext) as [r [Hr [Hrun Hend]]].
      exists r. split; [lia|]. split; [|exact Hend].
      intros i Hi. destruct (Z.eq_dec i s) as [->|Hne]; [exact Hbit|].
      apply Hrun. lia.
    + exists s. split; [lia|]. split; [|exact Hnext].
      intros i Hi. replace i with s by lia. exact Hbit.
Qed.

Lemma FindLockRow_set_run (c s r : Z) :
  0 <= c < 2 ^ 20 -> 0 <= s ->
  lock_row_of_set_run c s r -> FindLockRow c s = r.
Proof.
  intros Hc Hs [Hr [Hrun Hend]].
  assert (Hps : 0 < 2 ^ s <= 2 ^ 19)
    by (split; [apply Z.pow_pos_nonneg|apply Z.pow_le_mono_r]; lia).
  unfold FindLockRow, clz32.
  rewrite Z.shiftl_mul_pow2, Z.mul_1_l by lia.
  rewrite (u32_small c) by lia. rewrite (u32_small (c + 2 ^ s)) by lia.
  pose proof (lock_xor_log2 c s r ltac:(lia) ltac:(lia) Hrun Hend) as Hlog.
  set (X := Z.lxor c (c + 2 ^ s)) in *.
  assert (HX0 : 0 <= X) by (apply Z.lxor_nonneg; lia).
  assert (HXpos : 0 < X).
  { destruct (Z.eq_dec X 0) as [E|E]; [|lia]. rewrite E in Hlog. simpl in Hlog. lia. }
  assert (HXlt : X < 2 ^ 32).
  { apply Z.log2_lt_pow2; lia. }
  rewrite u32_small by lia.
  destruct (Z.eqb_spec X 0); lia.
Qed.

(** From a set start bit, [FindLockRow] ends the run of set bits. *)
Lemma FindLockRow_ends_run (c s : Z) :
  0 <= c < 2 ^ 20 -> 0 <= s < 20 -> Z.testbit c s = true ->
  lock_row_of_set_run c s (FindLockRow c s) /\
  forall r', (forall i, s <= i <= r' -> Z.testbit c i = true) ->
             r' <= FindLockRow c s.
Proof.
  intros Hc Hs Hbit.
  destruct (set_run_end c s (Z.to_nat (20 - s)) Hc ltac:(lia) ltac:(lia) Hbit)
    as [r Hr].
  rewrite (FindLockRow_set_run c s r Hc ltac:(lia) Hr).
  split; [exact Hr|].
  intros r' Hrun. destruct Hr as [Hr [_ Hend]].
  destruct (Z_le_gt_dec r' r) as [Hle|Hgt]; [exact Hle|].
  rewrite (Hrun (r + 1)) in Hend by lia. discriminate.
Qed.

(** C3, as the code has it: a set bit of a column marks a row in which the
    piece fits.  From a start row [s] whose bit is set, [FindLockRow]
    returns the row [r] with [s <= r <= 19] that ends the run of set bits
    from [s]: bits [s .. r] are set and bit [r + 1] is clear; no run of set
    bits from [s] reaches further. *)
Theorem FindLockRow_spec (c s : Z) :
  0 <= c < 2 ^ 20 -> 0 <= s < 20 -> Z.testbit c s = true ->
  lock_row_of_set_run c s (FindLockRow c s) /\
  forall r', (forall i, s <= i <= r' -> Z.testbit c i = true) ->
             r' <= FindLockRow c s.
Proof.
  exact (FindLockRow_ends_run c s).
Qed.

Lemma FindLockRow_spec_witness :
  lock_row_of_set_run 0x3FF 3 (FindLockRow 0x3FF 3) /\
  forall r', (forall i, 3 <= i <= r' -> Z.testbit 0x3FF i = true) ->
             r' <= FindLockRow 0x3FF 3.
Proof.
  apply (FindLockRow_spec 0x3FF 3); [lia|lia|reflexivity].
Defined.

(** C3, as stated, fails: with rows 0 to 2 clear and row 3 set, the claim
    gives lock row 2 from start row 0, and the code returns -1. *)
Lemma FindLockRow_clear_run_fails :
  Z.testbit 8 0 = false /\ Z.testbit 8 3 = true /\
  lock_row_of_clear_run 8 0 2 /\
  FindLockRow 8 0 = -1 /\
  ~ lock_row_of_clear_run 8 0 (FindLockRow 8 0).
Proof.
  split; [reflexivity|]. split; [reflexivity|]. split.
  - split; [lia|]. split; [|left; reflexivity].
    intros i Hi.
    assert (Hcase : i = 0 \/ i = 1 \/ i = 2) by lia.
    destruct Hcase as [->|[->| ->]]; reflexivity.
  - split; [reflexivity|].
    change (FindLockRow 8 0) with (-1). intros [Hle _]. lia.
Qed.

(** ** Ranges and arrays *)

Lemma Zseq_In (z lo : Z) (n : nat) :
  In z (Zseq lo n) <-> lo <= z < lo + Z.of_nat n.
Proof.
  revert lo. induction n as [|n IH]; intros lo; simpl.
  - lia.
  - rewrite IH. lia.
Qed.

Lemma Zrange_In (z lo hi : Z) : In z (Zrange lo hi) <-> lo <= z < hi.
Proof.
  unfold Zrange. rewrite Zseq_In. lia.
Qed.

Lemma Zseq_length (lo : Z) (n : nat) : length (Zseq lo n) = n.
Proof.
  revert lo. induction n as [|n IH]; intros lo; simpl; [reflexivity|].
  rewrite IH. reflexivity.
Qed.

Lemma Zseq_NoDup (lo : Z) (n : nat) : NoDup (Zseq lo n).
Proof.
  revert lo. induction n as [|n IH]; intros lo; simpl; constructor.
  - rewrite Zseq_In. lia.
  - apply IH.
Qed.

Lemma Zseq_nth (lo : Z) (n i : nat) (d : Z) :
  (i < n)%nat -> nth i (Zseq lo n) d = lo + Z.of_nat i.
Proof.
  revert lo i. induction n as [|n IH]; intros lo i Hi; [lia|].
  destruct i as [|i]; simpl; [lia|]. rewrite IH by lia. lia.
Qed.

Lemma Zseq_snoc (lo : Z) (n : nat) :
  Zseq lo (S n) = Zseq lo n ++ [lo + Z.of_nat n].
Proof.
  revert lo. induction n as [|n IH]; intros lo.
  - simpl. rewrite Z.add_0_r. reflexivity.
  - change (Zseq lo (S (S n))) with (lo :: Zseq (lo + 1) (S n)).
    rewrite IH. simpl. do 3 f_equal. lia.
Qed.

Lemma aset_same {X : Type} (a : Z -> X) (i : Z) (v : X) : aset a i v i = v.
Proof. unfold aset. rewrite Z.eqb_refl. reflexivity. Qed.

Lemma aset_other {X : Type} (a : Z -> X) (i k : Z) (v : X) :
  k <> i -> aset a i v k = a k.
Proof.
  intros H. unfold aset. destruct (Z.eqb_spec k i); [contradiction|reflexivity].
Qed.

Lemma aset2_same {X : Type} (a : Z -> Z -> X) (i j : Z) (v : X) :
  aset2 a i j v i j = v.
Proof. unfold aset2. rewrite !Z.eqb_refl. reflexivity. Qed.

Lemma aset2_other {X : Type} (a : Z -> Z -> X) (i j k l : Z) (v : X) :
  k <> i \/ l <> j -> aset2 a i j v k l = a k l.
Proof.
  intros H. unfold aset2.
  destruct (Z.eqb_spec k i), (Z.eqb_spec l j); simpl; try reflexivity.
  exfalso. destruct H; contradiction.
Qed.

(** ** Reading the tree check *)

Lemma key_eqb_eq (a b : Z * Z) : key_eqb a b = true <-> a = b.
Proof.
  destruct a as [a1 a2], b as [b1 b2]. unfold key_eqb; simpl.
  rewrite andb_true_iff, !Z.eqb_eq. split.
  - intros [-> ->]. reflexivity.
  - intros H. inversion H. auto.
Qed.

Lemma nodupb_NoDup (l : list (Z * Z)) : nodupb l = true -> NoDup l.
Proof.
  induction l as [|a t IH]; simpl; intros H; constructor.
  - apply andb_true_iff in H. destruct H as [H _].
    apply negb_true_iff in H. intros Hin.
    assert (existsb (key_eqb a) t = true); [|congruence].
    apply existsb_exists. exists a. split; [exact Hin|apply key_eqb_eq; reflexivity].
  - apply IH. apply andb_true_iff in H. apply H.
Qed.

Lemma cells_In (R : Z) (k : Z * Z) :
  In k (cells R) <-> 0 <= fst k < R /\ 0 <= snd k < 10.
Proof.
  unfold cells. rewrite in_flat_map. split.
  - intros [rt [Hrt Hk]]. apply in_map_iff in Hk. destruct Hk as [cl [<- Hcl]].
    apply Zrange_In in Hrt, Hcl. simpl. lia.
  - intros [Hr Hc]. exists (fst k). split; [apply Zrange_In; lia|].
    apply in_map_iff. exists (snd k). split; [destruct k; reflexivity|].
    apply Zrange_In. lia.
Qed.

Lemma cells_length_from (lo : Z) (n : nat) :
  length (flat_map (fun rt => map (fun cl => (rt, cl)) (Zrange 0 10))
                   (Zseq lo n)) = (10 * n)%nat.
Proof.
  revert lo. induction n as [|n IH]; intros lo; [reflexivity|].
  cbn [Zseq flat_map]. rewrite length_app, length_map, IH.
  unfold Zrange. rewrite Zseq_length. simpl Z.to_nat. lia.
Qed.

Lemma cells_length (R : Z) : 0 <= R -> Z.of_nat (length (cells R)) = 10 * R.
Proof.
  intros HR. unfold cells. unfold Zrange at 2. rewrite cells_length_from. lia.
Qed.

Lemma NoDup_app_parts {A : Type} (l1 l2 : list A) :
  NoDup (l1 ++ l2) ->
  NoDup l1 /\ NoDup l2 /\ forall a, In a l1 -> ~ In a l2.
Proof.
  induction l1 as [|h t IH]; simpl; intros H.
  - split; [constructor|]. split; [exact H|]. intros a [].
  - inversion H as [|? ? Hnotin Hnd]; subst.
    destruct (IH Hnd) as [Ht [H2 Hdis]].
    split; [constructor; [|exact Ht]|split; [exact H2|]].
    + intros Hin. apply Hnotin, in_or_app. left. exact Hin.
    + intros a [->|Ha] Hin2; [|exact (Hdis a Ha Hin2)].
      apply Hnotin, in_or_app. right. exact Hin2.
Qed.

Lemma flat_map_NoDup_parent {A B : Type} (f : A -> list B) (l : list A)
      (a b : A) (k : B) :
  NoDup (flat_map f l) -> In a l -> In b l -> In k (f a) -> In k (f b) ->
  a = b.
Proof.
  induction l as [|h t IH]; simpl; intros Hnd Ha Hb Hka Hkb; [contradiction|].
  apply NoDup_app_parts in Hnd. destruct Hnd as [_ [Ht Hdis]].
  destruct Ha as [->|Ha], Hb as [->|Hb].
  - reflexivity.
  - exfalso. apply (Hdis k Hka). apply in_flat_map. exists b. auto.
  - exfalso. apply (Hdis k Hkb). apply in_flat_map. exists a. auto.
  - apply IH; assumption.
Qed.

Lemma flat_map_NoDup_each {A B : Type} (f : A -> list B) (l : list A) (a : A) :
  NoDup (flat_map f l) -> In a l -> NoDup (f a).
Proof.
  induction l as [|h t IH]; simpl; intros Hnd Ha; [contradiction|].
  apply NoDup_app_parts in Hnd. destruct Hnd as [Hh [Ht _]].
  destruct Ha as [->|Ha]; [exact Hh|apply IH; assumption].
Qed.

Lemma trees_ok_true : trees_ok = true.
Proof. vm_compute. reflexivity. Qed.

Section Tree.

Variables R r0 c0 : Z.
Hypothesis R_ok : R = 1 \/ R = 2 \/ R = 4.
Hypothesis r0_ok : 0 <= r0 < R.
Hypothesis c0_ok : 0 <= c0 < 10.

Lemma tree_ok_true : tree_ok R r0 c0 = true.
Proof.
  pose proof trees_ok_true as H. unfold trees_ok in H.
  rewrite forallb_forall in H. specialize (H R).
  rewrite forallb_forall in H.
  assert (HR : In R [1; 2; 4]) by (simpl; lia).
  specialize (H HR r0 ltac:(apply Zrange_In; lia)).
  rewrite forallb_forall in H. apply H. apply Zrange_In. lia.
Qed.

Lemma root_num_tap : num_tap_of R r0 c0 r0 c0 = 0.
Proof.
  pose proof tree_ok_true as H. unfold tree_ok in H.
  apply andb_true_iff in H. destruct H as [H _].
  apply andb_true_iff in H. destruct H as [H _].
  apply Z.eqb_eq, H.
Qed.

Lemma pushes_of_ok (k k' : Z * Z) :
  In k (cells R) -> In k' (pushes_of R r0 c0 k) ->
  In k' (cells R) /\
  num_tap_of R r0 c0 (fst k') (snd k')
  = num_tap_of R r0 c0 (fst k) (snd k) + 1.
Proof.
  intros Hk Hk'. pose proof tree_ok_true as H. unfold tree_ok in H.
  apply andb_true_iff in H. destruct H as [H _].
  apply andb_true_iff in H. destruct H as [_ H].
  rewrite forallb_forall in H. specialize (H k Hk).
  rewrite forallb_forall in H. specialize (H k' Hk').
  repeat (apply andb_true_iff in H; destruct H as [H ?]).
  rewrite cells_In. split; [|apply Z.eqb_eq; assumption]. lia.
Qed.

Lemma pushes_of_NoDup : NoDup (flat_map (pushes_of R r0 c0) (cells R)).
Proof.
  pose proof tree_ok_true as H. unfold tree_ok in H.
  apply andb_true_iff in H. destruct H as [_ H].
  apply nodupb_NoDup, H.
Qed.

Lemma num_tap_of_nonneg (rt cl : Z) : 0 <= num_tap_of R r0 c0 rt cl.
Proof.
  unfold num_tap_of, abs. destruct (cl - c0 <? 0) eqn:E; lia.
Qed.

End Tree.

(** ** The phase-1 table is a tree in breadth-first order *)

Lemma u8_small (z : Z) : 0 <= z < 256 -> u8 z = z.
Proof. apply Z.mod_small. Qed.

Lemma nth_error_key_inj (es : list TableEntry) (i j : nat) (a b : TableEntry) :
  NoDup (map key es) ->
  nth_error es i = Some a -> nth_error es j = Some b -> key a = key b ->
  i = j.
Proof.
  intros Hnd Ha Hb Hk. rewrite NoDup_nth_error in Hnd. apply Hnd.
  - rewrite length_map. apply nth_error_Some. congruence.
  - rewrite !nth_error_map, Ha, Hb. simpl. congruence.
Qed.

Section TableGen.

Variable level : Level.
Variable R : Z.
Variable taps : TapTable.
Variables f0 r0 c0 : Z.
Hypothesis R_ok : R = 1 \/ R = 2 \/ R = 4.
Hypothesis r0_ok : 0 <= r0 < R.
Hypothesis c0_ok : 0 <= c0 < 10.

Local Abbreviation g := (gen_arrays level R taps f0 r0 c0).

Lemma gen_body_last_tap (a : GenArrays) (cl dr : Z) :
  ga_last_tap (gen_body level R taps f0 r0 c0 a cl dr)
  = last_tap_step R r0 c0 (ga_last_tap a) cl dr.
Proof.
  unfold gen_body, last_tap_step.
  destruct ((R =? 1) && negb (dr =? 0)); [reflexivity|].
  destruct ((R =? 2) && (dr >=? 2)); [reflexivity|]. cbv zeta.
  destruct (GetRow _ level >=? 20); [reflexivity|].
  destruct (GetRow _ level >=? 20); reflexivity.
Qed.

Lemma gen_arrays_last_tap : ga_last_tap g = last_tap_table R r0 c0.
Proof.
  unfold gen_arrays, last_tap_table.
  change (fun _ _ : Z => 0) with (ga_last_tap gen_init).
  generalize gen_init as a. generalize (Zrange 0 10) as cols.
  induction cols as [|cl cols IH]; intros a; [reflexivity|].
  cbn [fold_left]. rewrite IH. f_equal.
  generalize a as b. generalize (Zrange 0 4) as drs.
  induction drs as [|dr drs IHd]; intros b; [reflexivity|].
  cbn [fold_left]. rewrite IHd, gen_body_last_tap. reflexivity.
Qed.

Lemma num_tap_of_bound (k : Z * Z) :
  In k (cells R) -> 0 <= num_tap_of R r0 c0 (fst k) (snd k) <= 9.
Proof.
  intros Hk. apply cells_In in Hk. unfold num_tap_of, delta_rot_of, abs.
  pose proof (Z.mod_pos_bound (fst k - r0) R ltac:(lia)).
  destruct (_ =? 3), (_ <? 0) eqn:E; lia.
Qed.

Lemma table_length (es : list TableEntry) (cur : Z) (done : list (Z * Z)) :
  table_inv R r0 c0 g es cur done -> Z.of_nat (length es) <= 10 * R.
Proof.
  intros H. rewrite <- cells_length by lia. rewrite <- (length_map key es).
  apply inj_le, NoDup_incl_length; [apply (inv_nodup _ _ _ _ _ _ _ H)|].
  intros k Hk. apply in_map_iff in Hk. destruct Hk as [e [<- He]].
  apply (inv_entries _ _ _ _ _ _ _ H e He).
Qed.

Lemma entry_pushes (es : list TableEntry) (cur : Z) (done : list (Z * Z))
      (e : TableEntry) :
  table_inv R r0 c0 g es cur done -> In e es ->
  pushes R (ga_last_tap g (rot e) (col e)) (rot e) (col e) (num_taps e)
  = pushes_of R r0 c0 (key e).
Proof.
  intros H He. destruct (inv_entries _ _ _ _ _ _ _ H e He) as [_ [Hn _]].
  unfold pushes_of, key; simpl. rewrite gen_arrays_last_tap, Hn. reflexivity.
Qed.

Lemma table_inv_done (es : list TableEntry) (cur : Z) (d d' : list (Z * Z)) :
  incl d d' -> table_inv R r0 c0 g es cur d -> table_inv R r0 c0 g es cur d'.
Proof.
  intros Hd [He Hn Hc Hr]. split; auto.
  intros j e Hj Hj0. destruct (Hc j e Hj Hj0) as [Hp [Hcur Hpar]].
  split; [exact Hp|]. split; [|exact Hpar].
  destruct Hcur as [?|[? ?]]; [left|right]; auto.
Qed.

(** One call of [Push] while entry [cur] is expanded. *)
Lemma Push_inv (es : list TableEntry) (cur : Z) (done : list (Z * Z))
      (ec : TableEntry) (k : Z * Z) :
  table_inv R r0 c0 g es cur done ->
  0 <= cur -> nth_error es (Z.to_nat cur) = Some ec ->
  In k (pushes_of R r0 c0 (key ec)) -> ~ In k done ->
  table_inv R r0 c0 g
            (Push R g es (fst k) (snd k) cur (num_taps ec + 1))
            cur (done ++ [k]).
Proof.
  intros Hinv Hcur Hec Hk Hfresh.
  assert (Hecin : In ec es) by (eapply nth_error_In; eassumption).
  destruct (inv_entries _ _ _ _ _ _ _ Hinv ec Hecin) as [Hcell [Hnt _]].
  destruct (pushes_of_ok R r0 c0 R_ok r0_ok c0_ok _ _ Hcell Hk) as [Hkcell Hknt].
  pose proof (num_tap_of_bound k Hkcell) as Hkb.
  pose proof (num_tap_of_nonneg R r0 c0 (rot ec) (col ec)) as Hnn.
  pose proof (table_length _ _ _ Hinv) as Hlen.
  assert (Hcurlt : cur < Z.of_nat (length es)).
  { assert (Z.to_nat cur < length es)%nat by (apply nth_error_Some; congruence). lia. }
  pose proof Hkcell as Hkr. apply cells_In in Hkr.
  unfold Push. simpl in Hknt.
  rewrite (u8_small (fst k)), (u8_small (snd k)), (u8_small cur),
    (u8_small (num_taps ec + 1)) by lia.
  destruct (ga_cannot_reach g (fst k) (snd k)) eqn:Hreach; simpl.
  { eapply table_inv_done; [|exact Hinv]. intros a Ha. apply in_or_app. auto. }
  fold (entry_of R g (fst k) (snd k) cur (num_taps ec + 1)).
  set (e' := entry_of R g (fst k) (snd k) cur (num_taps ec + 1)).
  assert (Hkey : key e' = k) by (destruct k; reflexivity).
  destruct Hinv as [He Hn Hc Hr]. split.
  - intros e Hin. apply in_app_or in Hin. destruct Hin as [Hin|[<-|[]]]; [auto|].
    split; [rewrite Hkey; exact Hkcell|]. split; [simpl; lia|].
    split; [exact Hreach|reflexivity].
  - rewrite map_app. simpl map. rewrite Hkey.
    apply NoDup_app; [exact Hn|repeat constructor; intros []|].
    intros a Ha [Ea|[]]. subst a. apply in_map_iff in Ha. destruct Ha as [e [Hke Hein]].
    apply In_nth_error in Hein. destruct Hein as [j Hj].
    destruct j as [|j].
    + destruct (Hr e Hj) as [Hroot _]. rewrite Hke in Hroot.
      rewrite Hroot in Hknt. simpl in Hknt.
      rewrite (root_num_tap R r0 c0 R_ok r0_ok c0_ok) in Hknt. lia.
    + destruct (Hc (S j) e Hj ltac:(discriminate)) as [Hp [Hside [ep [Hep Hpar]]]].
      assert (Hepin : In ep es) by (eapply nth_error_In; eassumption).
      rewrite Hke in Hpar.
      assert (Hsame : key ep = key ec).
      { apply (flat_map_NoDup_parent (pushes_of R r0 c0) (cells R) _ _ k).
        - apply pushes_of_NoDup; assumption.
        - apply (He ep Hepin).
        - exact Hcell.
        - exact Hpar.
        - exact Hk. }
      pose proof (nth_error_key_inj es _ _ _ _ Hn Hep Hec Hsame) as Hidx.
      destruct Hside as [Hlt|[_ Hdone]]; [lia|].
      apply Hfresh. rewrite <- Hke. exact Hdone.
  - intros j e Hj Hj0.
    destruct (Nat.lt_ge_cases j (length es)) as [Hlt|Hge].
    + rewrite nth_error_app1 in Hj by exact Hlt.
      destruct (Hc j e Hj Hj0) as [Hp [Hside [ep [Hep Hpar]]]].
      split; [exact Hp|]. split.
      * destruct Hside as [?|[? ?]]; [left; assumption|right].
        split; [assumption|]. apply in_or_app. auto.
      * exists ep. split; [|exact Hpar].
        rewrite nth_error_app1; [exact Hep|].
        apply nth_error_Some. congruence.
    + rewrite nth_error_app2 in Hj by exact Hge.
      destruct (j - length es)%nat as [|m] eqn:Hm; simpl in Hj;
        [|destruct m; discriminate].
      injection Hj as <-. assert (j = length es) by lia. subst j.
      split; [simpl; lia|]. split.
      * right. split; [reflexivity|]. rewrite Hkey. apply in_or_app.
        right. left. reflexivity.
      * exists ec. split; [|rewrite Hkey; exact Hk].
        simpl prev. rewrite nth_error_app1; [exact Hec|].
        apply nth_error_Some. congruence.
  - intros e He0. apply Hr. destruct es as [|h t]; [simpl in Hcurlt; lia|].
    exact He0.
Qed.

Lemma Push_nth (es : list TableEntry) (rt cl pv nt : Z) (j : nat)
      (e : TableEntry) :
  nth_error es j = Some e -> nth_error (Push R g es rt cl pv nt) j = Some e.
Proof.
  intros H. unfold Push. destruct (negb _); [|exact H].
  rewrite nth_error_app1; [exact H|]. apply nth_error_Some. congruence.
Qed.

Lemma expand_pushes (es : list TableEntry) (cur : Z) :
  expand R g es cur
  = let ec := entry_at es cur in
    fold_left
      (fun acc k => Push R g acc (fst k) (snd k) cur (num_taps ec + 1))
      (pushes R (ga_last_tap g (rot ec) (col ec)) (rot ec) (col ec)
              (num_taps ec))
      es.
Proof.
  unfold expand, pushes. cbv zeta.
  destruct ((col (entry_at es cur) >? 0) && _);
    destruct ((col (entry_at es cur) <? 9) && _);
    destruct ((R >? 1) && _ || _);
    destruct ((R =? 4) && (num_taps (entry_at es cur) =? 0));
    reflexivity.
Qed.

Lemma pushes_inv (ec : TableEntry) (cur : Z) (rest done : list (Z * Z))
      (es : list TableEntry) :
  0 <= cur ->
  NoDup (done ++ rest) ->
  (forall k, In k rest -> In k (pushes_of R r0 c0 (key ec))) ->
  table_inv R r0 c0 g es cur done ->
  nth_error es (Z.to_nat cur) = Some ec ->
  table_inv R r0 c0 g
    (fold_left
       (fun acc k => Push R g acc (fst k) (snd k) cur (num_taps ec + 1))
       rest es)
    cur (done ++ rest).
Proof.
  intros Hcur. revert done es.
  induction rest as [|k rest IH]; intros done es Hnd Hin Hinv Hec.
  - rewrite app_nil_r. exact Hinv.
  - cbn [fold_left].
    replace (done ++ k :: rest) with ((done ++ [k]) ++ rest)
      by (rewrite <- app_assoc; reflexivity).
    apply IH.
    + rewrite <- app_assoc. exact Hnd.
    + intros k' Hk'. apply Hin. right. exact Hk'.
    + apply Push_inv; auto.
      * apply Hin. left. reflexivity.
      * intros Hd. apply NoDup_remove_2 in Hnd. apply Hnd, in_or_app. auto.
    + apply Push_nth, Hec.
Qed.

(** One turn of the loop over [cur]. *)
Lemma expand_inv (es : list TableEntry) (cur : Z) :
  0 <= cur < Z.of_nat (length es) ->
  table_inv R r0 c0 g es cur [] ->
  table_inv R r0 c0 g (expand R g es cur) (cur + 1) [] /\
  (length es <= length (expand R g es cur))%nat.
Proof.
  intros Hcur Hinv.
  destruct (nth_error es (Z.to_nat cur)) as [ec|] eqn:Hec;
    [|apply nth_error_None in Hec; lia].
  assert (Hat : entry_at es cur = ec).
  { unfold entry_at. apply nth_error_nth. exact Hec. }
  assert (Hecin : In ec es) by (eapply nth_error_In; eassumption).
  rewrite expand_pushes. cbv zeta. rewrite Hat.
  rewrite (entry_pushes es cur [] ec Hinv Hecin).
  pose proof (pushes_inv ec cur (pushes_of R r0 c0 (key ec)) [] es
                ltac:(lia)) as Hp.
  simpl app in Hp. split.
  - assert (Hn : NoDup (pushes_of R r0 c0 (key ec))).
    { apply (flat_map_NoDup_each (pushes_of R r0 c0) (cells R)).
      - apply pushes_of_NoDup; assumption.
      - apply (inv_entries _ _ _ _ _ _ _ Hinv ec Hecin). }
    specialize (Hp Hn ltac:(auto) Hinv Hec).
    destruct Hp as [He Hnd Hc Hr]. split; auto.
    intros j e Hj Hj0. destruct (Hc j e Hj Hj0) as [Hpv [Hside Hpar]].
    split; [exact Hpv|]. split; [left; lia|exact Hpar].
  - generalize (pushes_of R r0 c0 (key ec)) as l. clear.
    intros l. revert es. induction l as [|k l IH]; intros es; simpl; [lia|].
    etransitivity; [|apply IH]. unfold Push.
    destruct (negb _); [rewrite length_app; simpl|]; lia.
Qed.

Lemma bfs_inv (n : nat) (es : list TableEntry) (cur : Z) :
  0 <= cur <= Z.of_nat (length es) ->
  table_inv R r0 c0 g es cur [] ->
  exists cur', table_inv R r0 c0 g (bfs R n g es cur) cur' [].
Proof.
  revert es cur. induction n as [|n IH]; intros es cur Hcur Hinv; simpl.
  - exists cur. exact Hinv.
  - destruct (Z.ltb_spec cur (Z.of_nat (length es))) as [Hlt|Hge].
    + destruct (expand_inv es cur ltac:(lia) Hinv) as [Hinv' Hlen].
      apply (IH _ (cur + 1)); [lia|exact Hinv'].
    + exists cur. exact Hinv.
Qed.

(** The loop leaves by its own test once [cur] has caught up with [sz]:
    more fuel than the [10 * R] cells does not change its result. *)
Lemma bfs_stable (n m : nat) (es : list TableEntry) (cur : Z) :
  0 <= cur <= Z.of_nat (length es) ->
  table_inv R r0 c0 g es cur [] ->
  10 * R - cur < Z.of_nat n -> (n <= m)%nat ->
  bfs R m g es cur = bfs R n g es cur.
Proof.
  revert m es cur. induction n as [|n IH]; intros m es cur Hcur Hinv Hn Hm.
  - pose proof (table_length _ _ _ Hinv) as Hlen.
    destruct m as [|m]; simpl; [reflexivity|].
    destruct (Z.ltb_spec cur (Z.of_nat (length es))); [lia|reflexivity].
  - destruct m as [|m]; [lia|]. simpl.
    destruct (Z.ltb_spec cur (Z.of_nat (length es))) as [Hlt|Hge];
      [|reflexivity].
    destruct (expand_inv es cur ltac:(lia) Hinv) as [Hinv' Hlen].
    apply IH; [lia|exact Hinv'|lia|lia].
Qed.

Lemma root_inv :
  table_inv R r0 c0 g (Push R g [] r0 c0 0 0) 0 [].
Proof.
  unfold Push. rewrite (u8_small r0), (u8_small c0), (u8_small 0) by lia.
  destruct (ga_cannot_reach g r0 c0) eqn:Hreach; simpl.
  - split.
    + intros e [].
    + constructor.
    + intros [|j] e Hj; discriminate.
    + intros e He. discriminate.
  - split.
    + intros e [<-|[]]. split; [apply cells_In; simpl; lia|].
      split; [simpl; symmetry; apply root_num_tap; assumption|].
      split; [exact Hreach|reflexivity].
    + repeat constructor. intros [].
    + intros [|[|j]] e Hj Hj0; try discriminate. contradiction.
    + intros e He. injection He as <-. split; reflexivity.
Qed.

Lemma root_length : (length (Push R g [] r0 c0 0 0) <= 1)%nat.
Proof.
  unfold Push. destruct (negb _); simpl; lia.
Qed.

Lemma Phase1TableGen_inv :
  exists cur,
    table_inv R r0 c0 g (Phase1TableGen level R taps f0 r0 c0) cur [].
Proof.
  unfold Phase1TableGen. cbv zeta.
  apply bfs_inv; [lia|apply root_inv].
Qed.

Lemma Phase1TableGen_fuel (m : nat) :
  (Z.to_nat (10 * R) + 1 <= m)%nat ->
  bfs R m g (Push R g [] r0 c0 0 0) 0 = Phase1TableGen level R taps f0 r0 c0.
Proof.
  intros Hm. unfold Phase1TableGen. cbv zeta.
  apply bfs_stable; [lia|apply root_inv|lia|exact Hm].
Qed.

Lemma Phase1TableGen_keys :
  NoDup (map key (Phase1TableGen level R taps f0 r0 c0)).
Proof.
  destruct Phase1TableGen_inv as [cur H]. apply (inv_nodup _ _ _ _ _ _ _ H).
Qed.

Lemma Phase1TableGen_length :
  Z.of_nat (length (Phase1TableGen level R taps f0 r0 c0)) <= 10 * R.
Proof.
  destruct Phase1TableGen_inv as [cur H]. apply (table_length _ _ _ H).
Qed.

Lemma Phase1TableGen_entry (e : TableEntry) :
  In e (Phase1TableGen level R taps f0 r0 c0) -> entry_ok R r0 c0 g e.
Proof.
  destruct Phase1TableGen_inv as [cur H]. apply (inv_entries _ _ _ _ _ _ _ H).
Qed.

Lemma Phase1TableGen_prev (j : nat) (e : TableEntry) :
  nth_error (Phase1TableGen level R taps f0 r0 c0) j = Some e ->
  j <> O -> 0 <= prev e < Z.of_nat j.
Proof.
  destruct Phase1TableGen_inv as [cur H]. intros Hj Hj0.
  apply (inv_child _ _ _ _ _ _ _ H j e Hj Hj0).
Qed.

End TableGen.

(** ** Phase 1 of a search *)

Section PhaseOne.

Variable level : Level.
Variable R : Z.
Variable adj_frame : Z.
Variable taps : TapTable.
Variable start_col : Z.
Variable is_adj : bool.
Variable initial_id : Z.
Variable board : BoardArr.
Variable cols : Z -> Z -> Column.

Local Abbreviation entries :=
  (search_entries level R adj_frame taps start_col is_adj initial_id).
Local Abbreviation step :=
  (lock_step level R adj_frame taps start_col is_adj initial_id cols).
Local Abbreviation lock_pos :=
  (lock_position level R adj_frame taps start_col is_adj initial_id cols).
Local Abbreviation outlives :=
  (survives level R adj_frame taps start_col is_adj initial_id cols).
Local Abbreviation first_frame :=
  (first_tuck_frame level R adj_frame taps start_col is_adj initial_id).
Local Abbreviation last_frame :=
  (last_tuck_frame level R adj_frame taps start_col is_adj initial_id cols).
Local Abbreviation mask_of :=
  (window_mask level R adj_frame taps start_col is_adj initial_id cols).
Local Abbreviation lock_row_of :=
  (entry_lock_row level R adj_frame taps start_col is_adj initial_id cols).

(** The loop body, field by field. *)
Lemma lock_step_skip (cr : Z -> bool) (s : SearchState) (i : Z) :
  cr i = false -> step cr s i = s.
Proof.
  intros H. unfold lock_step. rewrite H. reflexivity.
Qed.

Lemma lock_step_visit (cr : Z -> bool) (s : SearchState) (i : Z) :
  cr i = true ->
  step cr s i
  = mkSearchState
      (if outlives i then aset (can_adj s) i true else can_adj s)
      (if outlives i then positions s else Insert (positions s) (lock_pos i))
      (if last_frame i >? first_frame i
       then aset2 (can_tuck_frame_masks s) (rot (entry_at entries i))
                  (col (entry_at entries i)) (mask_of i)
       else can_tuck_frame_masks s)
      (aset2 (lock_positions_without_tuck s) (rot (entry_at entries i))
             (col (entry_at entries i))
             (Z.lor (lock_positions_without_tuck s (rot (entry_at entries i))
                                                 (col (entry_at entries i)))
                    (u32 (Z.shiftl 1 (lock_row_of (entry_at entries i))))))
      (if last_frame i >? first_frame i then true else phase_2_possible s).
Proof.
  intros H. unfold lock_step. rewrite H. cbv zeta. simpl negb. cbv iota.
  unfold survives, last_tuck_frame, first_tuck_frame, window_mask,
    last_tuck_frame, first_tuck_frame, lock_position. cbv zeta.
  destruct (Z.min _ _ >? _); reflexivity.
Qed.

Lemma lock_step_positions (cr : Z -> bool) (s : SearchState) (i : Z) :
  positions (step cr s i)
  = positions s
    ++ (if cr i && negb (outlives i) then [lock_pos i] else []).
Proof.
  destruct (cr i) eqn:H.
  - rewrite lock_step_visit by exact H. simpl.
    destruct (outlives i); simpl; [rewrite app_nil_r|]; reflexivity.
  - rewrite lock_step_skip by exact H. simpl. rewrite app_nil_r. reflexivity.
Qed.

Lemma lock_step_can_adj (cr : Z -> bool) (s : SearchState) (i : Z) :
  can_adj (step cr s i)
  = if cr i && outlives i then aset (can_adj s) i true else can_adj s.
Proof.
  destruct (cr i) eqn:H.
  - rewrite lock_step_visit by exact H. reflexivity.
  - rewrite lock_step_skip by exact H. reflexivity.
Qed.

Lemma lock_fold_positions (cr : Z -> bool) (l : list Z) (s : SearchState) :
  positions (fold_left (step cr) l s)
  = positions s
    ++ map lock_pos (filter (fun i => cr i && negb (outlives i)) l).
Proof.
  revert s. induction l as [|i l IH]; intros s; simpl.
  - rewrite app_nil_r. reflexivity.
  - rewrite IH, lock_step_positions, <- app_assoc.
    destruct (cr i && negb (outlives i)); reflexivity.
Qed.

Lemma lock_fold_can_adj (cr : Z -> bool) (l : list Z) (s : SearchState)
      (k : Z) :
  can_adj (fold_left (step cr) l s) k
  = can_adj s k || (existsb (Z.eqb k) l && cr k && outlives k).
Proof.
  revert s. induction l as [|i l IH]; intros s; simpl.
  - rewrite orb_false_r. reflexivity.
  - rewrite IH, lock_step_can_adj.
    destruct (Z.eqb_spec k i) as [->|Hne]; simpl.
    + destruct (cr i && outlives i) eqn:E.
      * rewrite aset_same. simpl.
        destruct (can_adj s i); reflexivity.
      * destruct (cr i); simpl in *; [rewrite E|];
          rewrite ?andb_false_r; reflexivity.
    + destruct (cr i && outlives i); [rewrite aset_other by exact Hne|];
        reflexivity.
Qed.

Lemma existsb_Zrange (k lo hi : Z) :
  existsb (Z.eqb k) (Zrange lo hi) = (lo <=? k) && (k <? hi).
Proof.
  destruct ((lo <=? k) && (k <? hi)) eqn:E.
  - apply existsb_exists. exists k. split; [|apply Z.eqb_refl].
    apply Zrange_In. lia.
  - destruct (existsb (Z.eqb k) (Zrange lo hi)) eqn:F; [|reflexivity].
    apply existsb_exists in F. destruct F as [z [Hz Ez]].
    apply Z.eqb_eq in Ez. subst z. apply Zrange_In in Hz. lia.
Qed.

End PhaseOne.

(** C4: in the phase-1 run of the initial search ([is_adj = false]), the
    placements emitted are, in index order, those [(rot, lock_row, col)] of
    the reachable entries whose lock frame
    [last_frame_on_row(lock_row) + 1] does not exceed the end frame
    [max(adj_frame, taps[num_taps])]; a reachable entry whose lock frame
    exceeds the end frame emits nothing and has [can_adj] set, and no other
    element of [can_adj] changes. *)
Theorem initial_phase1_emits (level : Level) (R adj_frame : Z)
        (taps : TapTable) (start_col initial_id : Z) (board : BoardArr)
        (cols : Z -> Z -> Column) (can_adj0 : Z -> bool) :
  let entry := entry_at (initial (table level R adj_frame taps start_col)) in
  let N := initial_N (table level R adj_frame taps start_col) in
  let reach :=
    can_reach_of level R adj_frame taps start_col false initial_id board in
  let initial_frame := 0 in
  let start_frame i :=
    (if num_taps (entry i) =? 0 then 0
     else tap_at taps (num_taps (entry i) - 1)) + initial_frame in
  let lock_row i :=
    FindLockRow (cols (rot (entry i)) (col (entry i)))
                (GetRow (start_frame i) level) in
  let lock_frame i := GetLastFrameOnRow (lock_row i) level + 1 in
  let end_frame i := Z.max adj_frame (tap_at taps (num_taps (entry i))) in
  let s :=
    RunPhase1 level R adj_frame taps start_col false initial_id board cols
              can_adj0 in
  positions s
  = map (fun i => mkPosition (rot (entry i)) (lock_row i) (col (entry i)))
        (filter (fun i => reach i && negb (lock_frame i >? end_frame i))
                (Zrange 0 N))
  /\ forall i,
      can_adj s i
      = can_adj0 i
        || ((0 <=? i) && (i <? N) && reach i && (lock_frame i >? end_frame i)).
Proof.
  intros entry N reach initial_frame start_frame lock_row lock_frame end_frame
         s. split.
  - unfold s, RunPhase1. rewrite lock_fold_positions. reflexivity.
  - intros i. unfold s, RunPhase1. rewrite lock_fold_can_adj.
    rewrite existsb_Zrange. reflexivity.
Qed.

(** ** The tables that a search walks *)

Section SearchTables.

Variable level : Level.
Variable R : Z.
Variable adj_frame : Z.
Variable taps : TapTable.
Variable start_col : Z.
Hypothesis R_ok : R = 1 \/ R = 2 \/ R = 4.
Hypothesis start_col_ok : 0 <= start_col < 10.

Local Abbreviation tbl := (table level R adj_frame taps start_col).

Lemma initial_entry_cell (e : TableEntry) :
  In e (initial tbl) -> In (key e) (cells R).
Proof.
  intros He.
  apply (Phase1TableGen_entry level R taps 0 0 start_col R_ok ltac:(lia)
           start_col_ok e He).
Qed.

Lemma adj_at_gen (id : Z) :
  adj_at tbl id = []
  \/ exists e, In e (initial tbl) /\
       nth_error (initial tbl) (Z.to_nat id) = Some e /\
       adj_at tbl id
       = Phase1TableGen level R taps
           (Z.max adj_frame (tap_at taps (num_taps e))) (rot e) (col e).
Proof.
  unfold adj_at. simpl adj.
  destruct (nth_error (initial tbl) (Z.to_nat id)) as [e|] eqn:He.
  - right. exists e. split; [eapply nth_error_In; eassumption|].
    split; [reflexivity|].
    apply nth_error_nth. rewrite nth_error_map.
    change (Phase1TableGen level R taps 0 0 start_col) with (initial tbl).
    rewrite He. reflexivity.
  - left. apply nth_overflow. rewrite length_map.
    apply nth_error_None. exact He.
Qed.

Lemma search_entries_keys (is_adj : bool) (id : Z) :
  NoDup (map key (search_entries level R adj_frame taps start_col is_adj id)).
Proof.
  unfold search_entries. destruct is_adj.
  - destruct (adj_at_gen id) as [->|[e [He [_ ->]]]]; [constructor|].
    pose proof (initial_entry_cell e He) as Hc. apply cells_In in Hc.
    apply Phase1TableGen_keys; [exact R_ok|apply Hc|apply Hc].
  - apply Phase1TableGen_keys; [exact R_ok|lia|exact start_col_ok].
Qed.

Lemma search_entries_length (is_adj : bool) (id : Z) :
  search_N level R adj_frame taps start_col is_adj id <= 10 * R.
Proof.
  unfold search_N, search_entries. destruct is_adj.
  - destruct (adj_at_gen id) as [->|[e [He [_ ->]]]]; [simpl length; lia|].
    pose proof (initial_entry_cell e He) as Hc. apply cells_In in Hc.
    apply Phase1TableGen_length; [exact R_ok|apply Hc|apply Hc].
  - apply Phase1TableGen_length; [exact R_ok|lia|exact start_col_ok].
Qed.

Variable is_adj : bool.
Variable initial_id : Z.
Variable cols : Z -> Z -> Column.

Local Abbreviation entries :=
  (search_entries level R adj_frame taps start_col is_adj initial_id).
Local Abbreviation N :=
  (search_N level R adj_frame taps start_col is_adj initial_id).
Local Abbreviation step :=
  (lock_step level R adj_frame taps start_col is_adj initial_id cols).
Local Abbreviation step_or :=
  (lock_step_or level R adj_frame taps start_col is_adj initial_id cols).

Lemma entry_at_nth (i : Z) :
  0 <= i < N -> nth_error entries (Z.to_nat i) = Some (entry_at entries i).
Proof.
  intros Hi. unfold entry_at. apply nth_error_nth'.
  unfold search_N in Hi. lia.
Qed.

Lemma entry_keys_differ (i j : Z) :
  0 <= i < N -> 0 <= j < N -> i <> j ->
  key (entry_at entries i) <> key (entry_at entries j).
Proof.
  intros Hi Hj Hne Hk.
  pose proof (nth_error_key_inj entries _ _ _ _
                (search_entries_keys is_adj initial_id)
                (entry_at_nth i Hi) (entry_at_nth j Hj) Hk).
  lia.
Qed.

(** Entries of other cells leave a cell of the tuck masks alone. *)
Lemma can_tuck_untouched (cr : Z -> bool) (l : list Z) (s : SearchState)
      (rt cl : Z) :
  (forall i, In i l -> key (entry_at entries i) <> (rt, cl)) ->
  can_tuck_frame_masks (fold_left (step cr) l s) rt cl
  = can_tuck_frame_masks s rt cl.
Proof.
  revert s. induction l as [|i l IH]; intros s Hl; [reflexivity|].
  cbn [fold_left]. rewrite IH by (intros; apply Hl; right; assumption).
  destruct (cr i) eqn:Hcr.
  - rewrite lock_step_visit by exact Hcr. simpl.
    destruct (_ >? _); [|reflexivity].
    apply aset2_other.
    assert (Hk : key (entry_at entries i) <> (rt, cl)) by (apply Hl; left; reflexivity).
    unfold key in Hk.
    destruct (Z.eq_dec rt (rot (entry_at entries i))) as [->|?]; [|auto].
    destruct (Z.eq_dec cl (col (entry_at entries i))) as [->|?]; [|auto].
    contradiction.
  - rewrite lock_step_skip by exact Hcr. reflexivity.
Qed.

(** No entry before [i] has written the tuck-mask cell of entry [i]. *)
Lemma can_tuck_fresh (cr : Z -> bool) (can_adj0 : Z -> bool) (i : Z) :
  0 <= i < N ->
  can_tuck_frame_masks
    (state_before level R adj_frame taps start_col is_adj initial_id cols
                  cr can_adj0 i)
    (rot (entry_at entries i)) (col (entry_at entries i)) = 0.
Proof.
  intros Hi. unfold state_before. rewrite can_tuck_untouched; [reflexivity|].
  intros j Hj. apply Zrange_In in Hj.
  apply (entry_keys_differ j i); lia.
Qed.

Lemma Zrange_snoc (i : Z) : 0 <= i -> Zrange 0 (i + 1) = Zrange 0 i ++ [i].
Proof.
  intros Hi. unfold Zrange. replace (Z.to_nat (i + 1 - 0)) with (S (Z.to_nat i)) by lia.
  rewrite Zseq_snoc. rewrite Z.sub_0_r. do 2 f_equal. lia.
Qed.

(** On the state in which the loop meets entry [i], accumulating the mask
    and assigning it are the same step. *)
Lemma lock_step_or_same (cr : Z -> bool) (can_adj0 : Z -> bool) (i : Z) :
  0 <= i < N ->
  step_or cr
    (state_before level R adj_frame taps start_col is_adj initial_id cols
                  cr can_adj0 i) i
  = step cr
      (state_before level R adj_frame taps start_col is_adj initial_id cols
                    cr can_adj0 i) i.
Proof.
  intros Hi. destruct (cr i) eqn:Hcr.
  - rewrite lock_step_visit by exact Hcr.
    unfold lock_step_or. rewrite Hcr. cbv zeta. simpl negb. cbv iota.
    rewrite (can_tuck_fresh cr can_adj0 i Hi), Z.lor_0_l.
    destruct (_ >? _); reflexivity.
  - rewrite lock_step_skip by exact Hcr.
    unfold lock_step_or. rewrite Hcr. reflexivity.
Qed.

Lemma fold_or_same (cr : Z -> bool) (can_adj0 : Z -> bool) (n : nat) :
  Z.of_nat n <= N ->
  fold_left (step_or cr) (Zrange 0 (Z.of_nat n)) (search_init can_adj0)
  = fold_left (step cr) (Zrange 0 (Z.of_nat n)) (search_init can_adj0).
Proof.
  induction n as [|n IH]; intros Hn; [reflexivity|].
  rewrite Nat2Z.inj_succ, <- Z.add_1_r, Zrange_snoc, !fold_left_app by lia.
  cbn [fold_left]. rewrite IH by lia.
  apply (lock_step_or_same cr can_adj0 (Z.of_nat n)). lia.
Qed.

Lemma RunPhase1_or_same (board : BoardArr) (can_adj0 : Z -> bool) :
  RunPhase1_or level R adj_frame taps start_col is_adj initial_id board cols
               can_adj0
  = RunPhase1 level R adj_frame taps start_col is_adj initial_id board cols
              can_adj0.
Proof.
  unfold RunPhase1_or, RunPhase1.
  pose proof (fold_or_same
                (can_reach_of level R adj_frame taps start_col is_adj
                              initial_id board)
                can_adj0 (Z.to_nat N)) as H.
  rewrite Z2Nat.id in H by (unfold search_N; lia). apply H. lia.
Qed.

End SearchTables.

(** C5, as the code has it: when the phase-1 loop of a search meets a
    reachable entry [i], with tuck window
    [[initial_frame + taps[num_taps], min(lock_frame, end_frame))], it sets
    bit [lock_row] in [lock_positions_without_tuck[rot][col]] whether the
    window is empty or not; exactly when the window is not empty it stores
    the window's mask in [can_tuck_frame_masks[rot][col]], which amounts to
    or-ing it in since the cell holds 0 until then, and marks phase 2
    possible; when the window is empty [can_tuck_frame_masks] is not
    modified.  No other cell of either array changes. *)
Theorem phase1_tuck_window (level : Level) (R adj_frame : Z) (taps : TapTable)
        (start_col : Z) (is_adj : bool) (initial_id : Z) (board : BoardArr)
        (cols : Z -> Z -> Column) (can_adj0 : Z -> bool) (i : Z) :
  R = 1 \/ R = 2 \/ R = 4 -> 0 <= start_col < 10 ->
  0 <= i < search_N level R adj_frame taps start_col is_adj initial_id ->
  can_reach_of level R adj_frame taps start_col is_adj initial_id board i
  = true ->
  let reach :=
    can_reach_of level R adj_frame taps start_col is_adj initial_id board in
  let entry :=
    entry_at (search_entries level R adj_frame taps start_col is_adj
                             initial_id) i in
  let initial_frame :=
    search_initial_frame level R adj_frame taps start_col is_adj initial_id in
  let lock_row :=
    entry_lock_row level R adj_frame taps start_col is_adj initial_id cols
                   entry in
  let lock_frame := GetLastFrameOnRow lock_row level + 1 in
  let end_frame :=
    if is_adj then total_frames level
    else Z.max adj_frame (tap_at taps (num_taps entry)) in
  let first := initial_frame + tap_at taps (num_taps entry) in
  let last := Z.min lock_frame end_frame in
  let mask := u64 (Z.shiftl 1 last - Z.shiftl 1 first) in
  let s :=
    state_before level R adj_frame taps start_col is_adj initial_id cols
                 reach can_adj0 i in
  let s' :=
    lock_step level R adj_frame taps start_col is_adj initial_id cols reach
              s i in
  lock_positions_without_tuck s' (rot entry) (col entry)
  = Z.lor (lock_positions_without_tuck s (rot entry) (col entry))
          (u32 (Z.shiftl 1 lock_row))
  /\ (first < last ->
      can_tuck_frame_masks s' (rot entry) (col entry) = mask /\
      can_tuck_frame_masks s' (rot entry) (col entry)
      = Z.lor (can_tuck_frame_masks s (rot entry) (col entry)) mask /\
      phase_2_possible s' = true)
  /\ (last <= first ->
      can_tuck_frame_masks s' = can_tuck_frame_masks s /\
      phase_2_possible s' = phase_2_possible s)
  /\ (forall rt cl, (rt, cl) <> (rot entry, col entry) ->
      lock_positions_without_tuck s' rt cl
      = lock_positions_without_tuck s rt cl /\
      can_tuck_frame_masks s' rt cl = can_tuck_frame_masks s rt cl).
Proof.
  intros HR Hsc Hi Hreach reach entry initial_frame lock_row lock_frame
         end_frame first last mask s s'.
  assert (Hs' : s' = lock_step level R adj_frame taps start_col is_adj
                       initial_id cols reach s i) by reflexivity.
  rewrite lock_step_visit in Hs' by exact Hreach.
  change (last_tuck_frame level R adj_frame taps start_col is_adj initial_id
                          cols i) with last in Hs'.
  change (first_tuck_frame level R adj_frame taps start_col is_adj initial_id i)
    with first in Hs'.
  change (window_mask level R adj_frame taps start_col is_adj initial_id cols i)
    with mask in Hs'.
  fold entry in Hs'. fold lock_row in Hs'.
  assert (Hzero : can_tuck_frame_masks s (rot entry) (col entry) = 0)
    by (apply can_tuck_fresh; assumption).
  rewrite Hs'. cbn [lock_positions_without_tuck can_tuck_frame_masks
                    phase_2_possible].
  split; [apply aset2_same|]. split; [|split].
  - intros Hw. destruct (Z.gtb_spec last first) as [_|?]; [|lia].
    rewrite aset2_same, Hzero, Z.lor_0_l. auto.
  - intros Hw. destruct (Z.gtb_spec last first) as [?|_]; [lia|]. auto.
  - intros rt cl Hne.
    assert (Hoth : rt <> rot entry \/ cl <> col entry).
    { destruct (Z.eq_dec rt (rot entry)) as [->|?]; [|auto].
      destruct (Z.eq_dec cl (col entry)) as [->|?]; [|auto].
      contradiction. }
    split; [apply aset2_other, Hoth|].
    destruct (last >? first); [apply aset2_other, Hoth|reflexivity].
Qed.

Lemma phase1_tuck_window_witness :
  let cols := columns_of kLevel39 1 (free_boards 1) in
  let reach := can_reach_of kLevel39 1 18 Tap30Hz 5 false 0 (free_boards 1) in
  let s :=
    state_before kLevel39 1 18 Tap30Hz 5 false 0 cols reach
                 (fun _ => false) 0 in
  lock_positions_without_tuck
    (lock_step kLevel39 1 18 Tap30Hz 5 false 0 cols reach s 0) 0 5
  = Z.lor (lock_positions_without_tuck s 0 5) (u32 (Z.shiftl 1 19)).
Proof.
  assert (HN : 0 <= 0 < search_N kLevel39 1 18 Tap30Hz 5 false 0)
    by (split; [lia|vm_compute; reflexivity]).
  assert (Hreach : can_reach_of kLevel39 1 18 Tap30Hz 5 false 0
                                (free_boards 1) 0 = true)
    by (vm_compute; reflexivity).
  exact (proj1 (phase1_tuck_window kLevel39 1 18 Tap30Hz 5 false 0
                  (free_boards 1) (columns_of kLevel39 1 (free_boards 1))
                  (fun _ => false) 0 ltac:(lia) ltac:(lia) HN Hreach)).
Defined.

(** C5, as stated, fails: at level 39 with [R = 1], the 30 Hz taps and every
    cell free, entry 9 (rotation 0, column 0, five taps) is reachable and
    its tuck window [[10, 10)] is empty, yet the loop sets bit 19 of
    [lock_positions_without_tuck[0][0]]. *)
Lemma phase1_empty_window_modifies :
  let cols := columns_of kLevel39 1 (free_boards 1) in
  let reach := can_reach_of kLevel39 1 18 Tap30Hz 5 false 0 (free_boards 1) in
  let s :=
    state_before kLevel39 1 18 Tap30Hz 5 false 0 cols reach
                 (fun _ => false) 9 in
  let s' := lock_step kLevel39 1 18 Tap30Hz 5 false 0 cols reach s 9 in
  reach 9 = true /\
  key (entry_at (search_entries kLevel39 1 18 Tap30Hz 5 false 0) 9) = (0, 0) /\
  first_tuck_frame kLevel39 1 18 Tap30Hz 5 false 0 9 = 10 /\
  last_tuck_frame kLevel39 1 18 Tap30Hz 5 false 0 cols 9 = 10 /\
  lock_positions_without_tuck s 0 0 = 0 /\
  lock_positions_without_tuck s' 0 0 = 2 ^ 19 /\
  lock_positions_without_tuck s' 0 0 <> lock_positions_without_tuck s 0 0.
Proof.
  vm_compute. repeat split; discriminate.
Qed.

(** C10: [Phase1TableGen] pushes every cell [(rot, col)] at most once, for
    any level, tap schedule and initial frame, [R] among 1, 2 and 4 and an
    initial rotation and column on the board.  Hence the returned size is
    at most [10 * R] (every write [entries[sz]] stays in the caller's
    array), the loop over [cur] ends by its own test within that many
    turns, no two entries of the table that a search walks target the same
    cell, and accumulating the tuck mask with an or gives the phase-1
    state that the plain assignment of the source gives. *)
Theorem Phase1TableGen_pushes_once (level : Level) (R : Z) (taps : TapTable)
        (initial_frame initial_rot initial_col : Z)
        (adj_frame start_col : Z) (is_adj : bool) (initial_id : Z)
        (board : BoardArr) (cols : Z -> Z -> Column) (can_adj0 : Z -> bool) :
  R = 1 \/ R = 2 \/ R = 4 ->
  0 <= initial_rot < R -> 0 <= initial_col < 10 -> 0 <= start_col < 10 ->
  let entries :=
    Phase1TableGen level R taps initial_frame initial_rot initial_col in
  NoDup (map key entries)
  /\ Z.of_nat (length entries) <= 10 * R
  /\ (forall fuel, (Z.to_nat (10 * R) + 1 <= fuel)%nat ->
      let g := gen_arrays level R taps initial_frame initial_rot initial_col in
      bfs R fuel g (Push R g [] initial_rot initial_col 0 0) 0 = entries)
  /\ NoDup (map key (search_entries level R adj_frame taps start_col is_adj
                                    initial_id))
  /\ RunPhase1_or level R adj_frame taps start_col is_adj initial_id board
                  cols can_adj0
     = RunPhase1 level R adj_frame taps start_col is_adj initial_id board
                 cols can_adj0.
Proof.
  intros HR Hr Hc Hs entries. split; [|split; [|split; [|split]]].
  - apply Phase1TableGen_keys; assumption.
  - apply Phase1TableGen_length; assumption.
  - intros fuel Hfuel g. apply Phase1TableGen_fuel; assumption.
  - apply search_entries_keys; assumption.
  - apply RunPhase1_or_same; assumption.
Qed.

Lemma Phase1TableGen_pushes_once_witness :
  NoDup (map key (Phase1TableGen kLevel18 4 Tap30Hz 0 0 5))
  /\ Z.of_nat (length (Phase1TableGen kLevel18 4 Tap30Hz 0 0 5)) <= 10 * 4.
Proof.
  destruct (Phase1TableGen_pushes_once kLevel18 4 Tap30Hz 0 0 5 18 5 false 0
              (free_boards 4) (columns_of kLevel18 4 (free_boards 4))
              (fun _ => false) ltac:(lia) ltac:(lia) ltac:(lia) ltac:(lia))
    as [H1 [H2 _]].
  split; [exact H1|exact H2].
Defined.

(** ** One forward sweep settles reachability *)

Section Sweep.

Variable level : Level.
Variable R : Z.
Variable adj_frame : Z.
Variable taps : TapTable.
Variable start_col : Z.
Hypothesis R_ok : R = 1 \/ R = 2 \/ R = 4.
Hypothesis start_col_ok : 0 <= start_col < 10.
Variable is_adj : bool.
Variable initial_id : Z.
Variable board : BoardArr.

Local Abbreviation entries :=
  (search_entries level R adj_frame taps start_col is_adj initial_id).
Local Abbreviation N :=
  (search_N level R adj_frame taps start_col is_adj initial_id).
Local Abbreviation sweep :=
  (reach_step level R adj_frame taps start_col is_adj initial_id board).
Local Abbreviation swept :=
  (fun n => fold_left sweep (Zrange 0 n) (fun _ : Z => false, fun _ : Z => false)).

Lemma search_entries_prev (i : Z) :
  0 < i < N -> 0 <= prev (entry_at entries i) < i.
Proof.
  intros Hi.
  pose proof (entry_at_nth level R adj_frame taps start_col is_adj initial_id
                i ltac:(lia)) as Hnth.
  assert (Hne : Z.to_nat i <> O) by lia.
  replace i with (Z.of_nat (Z.to_nat i)) at 3 by lia.
  revert Hnth Hne. generalize (entry_at entries i) as e.
  unfold search_entries. destruct is_adj.
  - destruct (adj_at_gen level R adj_frame taps start_col initial_id)
      as [E|[e0 [He0 [_ E]]]]; rewrite E.
    + intros e Hnth. destruct (Z.to_nat i); discriminate.
    + pose proof (initial_entry_cell level R adj_frame taps start_col R_ok
                    start_col_ok e0 He0) as Hc0.
      apply cells_In in Hc0. simpl in Hc0. intros e.
      apply Phase1TableGen_prev; (assumption || lia).
  - intros e. apply Phase1TableGen_prev; (assumption || lia).
Qed.

(** A turn of the sweep writes the two flags of its own entry only. *)
Lemma reach_step_other (s : (Z -> bool) * (Z -> bool)) (j k : Z) :
  k <> j ->
  fst (sweep s j) k = fst s k /\ snd (sweep s j) k = snd s k.
Proof.
  intros Hne. destruct s as [cc cr]. unfold reach_step.
  destruct (negb (j =? 0) && _); [auto|].
  destruct (negb (cannot_finish _) && _); cbn [fst snd].
  - rewrite !aset_other by exact Hne. auto.
  - destruct (negb (Contains _ _ _)); cbn [fst snd];
      rewrite ?aset_other by exact Hne; auto.
Qed.

Lemma swept_ahead (n : nat) (k : Z) :
  Z.of_nat n <= k ->
  fst (swept (Z.of_nat n)) k = false /\ snd (swept (Z.of_nat n)) k = false.
Proof.
  induction n as [|n IH]; intros Hk; [auto|].
  rewrite Nat2Z.inj_succ, <- Z.add_1_r, Zrange_snoc, fold_left_app by lia.
  cbn [fold_left].
  destruct (reach_step_other (swept (Z.of_nat n)) (Z.of_nat n) k ltac:(lia))
    as [-> ->].
  apply IH. lia.
Qed.

Lemma swept_settled (n m : nat) (k : Z) :
  k < Z.of_nat n -> (n <= m)%nat ->
  fst (swept (Z.of_nat m)) k = fst (swept (Z.of_nat n)) k /\
  snd (swept (Z.of_nat m)) k = snd (swept (Z.of_nat n)) k.
Proof.
  intros Hk Hm. induction m as [|m IH]; [replace n with O by lia; auto|].
  destruct (Nat.eq_dec n (S m)) as [->|Hne]; [auto|].
  rewrite Nat2Z.inj_succ, <- Z.add_1_r, Zrange_snoc, fold_left_app by lia.
  cbn [fold_left].
  destruct (reach_step_other (swept (Z.of_nat m)) (Z.of_nat m) k ltac:(lia))
    as [-> ->].
  apply IH. lia.
Qed.

(** The flags that the sweep leaves satisfy the equations of reachability
    along the [prev] links: an entry is arrived at when it is the root or
    its predecessor can continue; it can continue when its full mask is
    free, and it is reachable when its full mask or its no-drop mask is. *)
Lemma sweep_settles (i : Z) :
  0 <= i < N ->
  let e := entry_at entries i in
  let can_continue := fst (swept N) in
  let can_reach := snd (swept N) in
  let arrived := (i =? 0) || can_continue (prev e) in
  let full := negb (cannot_finish e) && Contains R board (masks e) in
  can_continue i = arrived && full /\
  can_reach i = arrived && (full || Contains R board (masks_nodrop e)).
Proof.
  intros Hi e can_continue can_reach arrived full.
  assert (HN : N = Z.of_nat (Z.to_nat N)) by (unfold search_N; lia).
  assert (Hown :
            can_continue i = fst (swept (Z.of_nat (S (Z.to_nat i)))) i /\
            can_reach i = snd (swept (Z.of_nat (S (Z.to_nat i)))) i).
  { unfold can_continue, can_reach. rewrite HN.
    apply swept_settled; lia. }
  assert (Hprev : i <> 0 ->
            can_continue (prev e) = fst (swept (Z.of_nat (Z.to_nat i))) (prev e)).
  { intros Hi0. pose proof (search_entries_prev i ltac:(lia)) as Hp. fold e in Hp.
    unfold can_continue. rewrite HN.
    apply swept_settled; lia. }
  destruct Hown as [Hc Hr]. rewrite Hc, Hr.
  rewrite Nat2Z.inj_succ, <- Z.add_1_r, Zrange_snoc, fold_left_app by lia.
  cbn [fold_left].
  destruct (swept_ahead (Z.to_nat i) i ltac:(lia)) as [Hc0 Hr0].
  rewrite Z2Nat.id in * by lia.
  destruct (swept i) as [cc cr] eqn:Hs. cbn [fst snd] in *.
  unfold reach_step. fold e. unfold arrived.
  destruct (Z.eqb_spec i 0) as [Hz|Hnz]; cbn [negb andb orb].
  - fold full. destruct full; cbn [fst snd andb orb].
    + rewrite !aset_same. auto.
    + destruct (Contains R board (masks_nodrop e)); cbn [negb fst snd];
        rewrite ?aset_same; auto.
  - rewrite (Hprev Hnz). destruct (cc (prev e)); cbn [negb andb orb fst snd]; [|auto].
    fold full. destruct full; cbn [fst snd andb orb].
    + rewrite !aset_same. auto.
    + destruct (Contains R board (masks_nodrop e)); cbn [negb fst snd];
        rewrite ?aset_same; auto.
Qed.

End Sweep.

(** C8: in every table that [Phase1TableGen] produces, for any level, tap
    schedule and initial frame, for [R] among 1, 2 and 4 and an initial
    rotation and column on the board, every entry other than the root at
    index 0 has [prev] strictly below its own index (and not negative).
    So the single forward sweep of a search over its table, initial or
    adjustment, settles reachability: the flags it leaves satisfy the
    equations of reachability along the [prev] links. *)
Theorem Phase1TableGen_prev_before (level : Level) (R : Z) (taps : TapTable)
        (initial_frame initial_rot initial_col : Z)
        (adj_frame start_col : Z) (is_adj : bool) (initial_id : Z)
        (board : BoardArr) :
  R = 1 \/ R = 2 \/ R = 4 ->
  0 <= initial_rot < R -> 0 <= initial_col < 10 -> 0 <= start_col < 10 ->
  (forall (i : nat) (e : TableEntry),
      nth_error
        (Phase1TableGen level R taps initial_frame initial_rot initial_col) i
      = Some e ->
      i <> O -> 0 <= prev e < Z.of_nat i)
  /\ (forall i,
      0 <= i < search_N level R adj_frame taps start_col is_adj initial_id ->
      let e :=
        entry_at (search_entries level R adj_frame taps start_col is_adj
                                 initial_id) i in
      let flags :=
        fold_left
          (reach_step level R adj_frame taps start_col is_adj initial_id board)
          (Zrange 0 (search_N level R adj_frame taps start_col is_adj
                              initial_id))
          (fun _ => false, fun _ => false) in
      let can_continue := fst flags in
      let can_reach := snd flags in
      let arrived := (i =? 0) || can_continue (prev e) in
      let full := negb (cannot_finish e) && Contains R board (masks e) in
      (i <> 0 -> 0 <= prev e < i) /\
      can_continue i = arrived && full /\
      can_reach i = arrived && (full || Contains R board (masks_nodrop e))).
Proof.
  intros HR Hr Hc Hs. split.
  - intros i e Hi Hi0.
    exact (Phase1TableGen_prev level R taps initial_frame initial_rot
             initial_col HR Hr Hc i e Hi Hi0).
  - intros i Hi e flags can_continue can_reach arrived full. split.
    + intros Hi0. apply search_entries_prev; (assumption || lia).
    + apply (sweep_settles level R adj_frame taps start_col HR Hs is_adj
                           initial_id board i Hi).
Qed.

Lemma Phase1TableGen_prev_before_witness :
  nth_error (Phase1TableGen kLevel18 4 Tap30Hz 0 0 5) 12
  = Some (entry_at (Phase1TableGen kLevel18 4 Tap30Hz 0 0 5) 12) /\
  0 <= prev (entry_at (Phase1TableGen kLevel18 4 Tap30Hz 0 0 5) 12) < 12.
Proof.
  assert (H : nth_error (Phase1TableGen kLevel18 4 Tap30Hz 0 0 5) 12
              = Some (entry_at (Phase1TableGen kLevel18 4 Tap30Hz 0 0 5) 12))
    by (vm_compute; reflexivity).
  split; [exact H|].
  apply (proj1 (Phase1TableGen_prev_before kLevel18 4 Tap30Hz 0 0 5 18 5 false
                  0 (free_boards 4) ltac:(lia) ltac:(lia) ltac:(lia)
                  ltac:(lia)) 12%nat _ H ltac:(discriminate)).
Defined.

(** ** The driver *)

Section Driver.

Variable kDoubleTuckAllowed : bool.
Variable level : Level.
Variable R : Z.
Variable adj_frame : Z.
Variable taps : TapTable.
Variable start_col : Z.
Variable board : BoardArr.

Local Abbreviation tbl := (table level R adj_frame taps start_col).
Local Abbreviation search :=
  (DoOneSearch kDoubleTuckAllowed level R adj_frame taps start_col).

(** An adjustment search reads [can_adj] and leaves it as it is. *)
Lemma adj_fold_can_adj (id : Z) (cols : Z -> Z -> Column) (cr : Z -> bool)
      (l : list Z) (s : SearchState) :
  can_adj (fold_left (lock_step level R adj_frame taps start_col true id cols cr)
                     l s)
  = can_adj s.
Proof.
  revert s. induction l as [|i l IH]; intros s; [reflexivity|].
  cbn [fold_left]. rewrite IH, lock_step_can_adj.
  unfold survives. simpl negb. cbv zeta. rewrite andb_false_r. reflexivity.
Qed.

Lemma DoOneSearch_adj_can_adj (id : Z) (cols : Z -> Z -> Column)
      (tuck_masks : TuckMasks) (ca : Z -> bool) :
  fst (search true id board cols tuck_masks ca) = ca.
Proof.
  unfold DoOneSearch.
  destruct (_ >=? _); [reflexivity|].
  destruct (true && negb (ca id)); [reflexivity|].
  destruct (phase_2_possible _); simpl; unfold RunPhase1;
    apply adj_fold_can_adj.
Qed.

(** The loop over the entries of the initial table appends, in index
    order, the anchor and the moves of every entry whose adjustment search
    returns a count that is not zero; it has no result when one of the
    searches overruns the buffer. *)
Lemma adj_fold_none (cols : Z -> Z -> Column) (tuck_masks : TuckMasks)
      (l : list Z) :
  fold_left (adj_step kDoubleTuckAllowed level R adj_frame taps start_col
                      board cols tuck_masks)
            l None
  = None.
Proof. induction l as [|id l IH]; [reflexivity|exact IH]. Qed.

Lemma adj_fold_exact (cols : Z -> Z -> Column) (tuck_masks : TuckMasks)
      (ca : Z -> bool) (l : list Z)
      (acc : list (Position * list Position)) :
  fold_left (adj_step kDoubleTuckAllowed level R adj_frame taps start_col
                      board cols tuck_masks)
            l (Some (ca, acc))
  = if forallb (fun id =>
                  fits_buf (snd (search true id board cols tuck_masks ca)))
               l
    then Some (ca,
               acc ++
               map (fun id => (anchor_of level R adj_frame taps start_col id,
                               snd (search true id board cols tuck_masks ca)))
                   (filter (fun id =>
                              negb (Z.of_nat
                                      (length (snd (search true id board cols
                                                           tuck_masks ca)))
                                    =? 0))
                           l))
    else None.
Proof.
  revert acc. induction l as [|id l IH]; intros acc.
  - simpl. rewrite app_nil_r. reflexivity.
  - cbn [fold_left filter forallb].
    assert (Hstep :
              adj_step kDoubleTuckAllowed level R adj_frame taps start_col
                       board cols tuck_masks (Some (ca, acc)) id
              = if negb (fits_buf (snd (search true id board cols tuck_masks
                                               ca)))
                then None
                else Some
                       (ca,
                        if negb (Z.of_nat
                                   (length (snd (search true id board cols
                                                        tuck_masks ca)))
                                 =? 0)
                        then acc ++
                             [(anchor_of level R adj_frame taps start_col id,
                               snd (search true id board cols tuck_masks ca))]
                        else acc)).
    { unfold adj_step. cbn [fst snd]. rewrite DoOneSearch_adj_can_adj.
      destruct (negb (fits_buf _)); [reflexivity|].
      destruct (negb (_ =? 0)); reflexivity. }
    rewrite Hstep.
    destruct (fits_buf (snd (search true id board cols tuck_masks ca)));
      cbn [negb andb]; [|apply adj_fold_none].
    rewrite IH. destruct (forallb _ l); [|reflexivity].
    destruct (negb (_ =? 0)); [|reflexivity].
    cbn [map]. rewrite <- app_assoc. reflexivity.
Qed.

End Driver.

(** [MoveSearch] returns the lists of its searches when every search fits
    the buffer, and has no result otherwise. *)
Lemma MoveSearch_searches (kDoubleTuckAllowed : bool) (level : Level)
      (R adj_frame : Z) (taps : TapTable) (start_col : Z) (board : BoardArr) :
  MoveSearch kDoubleTuckAllowed level R adj_frame taps start_col board
  = if searches_fit kDoubleTuckAllowed level R adj_frame taps start_col board
    then Some (search_lists kDoubleTuckAllowed level R adj_frame taps
                            start_col board)
    else None.
Proof.
  unfold MoveSearch, searches_fit, search_lists, non_adj_of, adj_moves_of,
    can_adj_of, tuck_masks_of, columns_of.
  cbv zeta.
  destruct (load_columns level R board) as [cols frame_masks]. cbn [fst snd].
  destruct (DoOneSearch kDoubleTuckAllowed level R adj_frame taps start_col
              false 0 board cols
              (GetTuckMasks kDoubleTuckAllowed R frame_masks)
              (fun _ => false)) as [ca res] eqn:Hinit.
  cbn [fst snd].
  destruct (fits_buf res); cbn [negb andb]; [|reflexivity].
  rewrite adj_fold_exact.
  destruct (forallb _ _); reflexivity.
Qed.

Lemma MoveSearch_Some (kDoubleTuckAllowed : bool) (level : Level)
      (R adj_frame : Z) (taps : TapTable) (start_col : Z) (board : BoardArr)
      (m : PossibleMoves.t) :
  MoveSearch kDoubleTuckAllowed level R adj_frame taps start_col board
  = Some m ->
  m = search_lists kDoubleTuckAllowed level R adj_frame taps start_col board.
Proof.
  rewrite MoveSearch_searches.
  destruct (searches_fit _ _ _ _ _ _ _); [|discriminate].
  intros H. injection H as <-. reflexivity.
Qed.

(** The buffer can be overrun: at level 18, with the 30 Hz taps and
    [adj_frame = 61], the initial search on [striped_boards] finds 298
    placements, and [MoveSearch] has no result. *)
Lemma MoveSearch_overruns_buf :
  length (non_adj_of false kLevel18 4 61 Tap30Hz 5 striped_boards) = 298%nat
  /\ MoveSearch false kLevel18 4 61 Tap30Hz 5 striped_boards = None.
Proof. split; vm_compute; reflexivity. Qed.

(** The [adj] list of the searches, element by element. *)
Lemma search_lists_adj (kDoubleTuckAllowed : bool) (level : Level)
      (R adj_frame : Z) (taps : TapTable) (start_col : Z) (board : BoardArr) :
  PossibleMoves.adj
    (search_lists kDoubleTuckAllowed level R adj_frame taps start_col board)
  = map (fun id =>
           (anchor_of level R adj_frame taps start_col id,
            adj_moves_of kDoubleTuckAllowed level R adj_frame taps start_col
                         board id))
        (filter (fun id =>
                   negb (Z.of_nat
                           (length (adj_moves_of kDoubleTuckAllowed level R
                                                 adj_frame taps start_col
                                                 board id)) =? 0))
                (Zrange 0 (initial_N (table level R adj_frame taps start_col)))).
Proof. reflexivity. Qed.

(** Where an element of [adj] comes from. *)
Lemma search_lists_adj_source (kDoubleTuckAllowed : bool) (level : Level)
      (R adj_frame : Z) (taps : TapTable) (start_col : Z) (board : BoardArr)
      (a : Position * list Position) :
  In a (PossibleMoves.adj
          (search_lists kDoubleTuckAllowed level R adj_frame taps start_col
                        board)) ->
  snd a <> [] /\
  exists id,
    0 <= id < initial_N (table level R adj_frame taps start_col) /\
    fst a = anchor_of level R adj_frame taps start_col id /\
    snd a = adj_moves_of kDoubleTuckAllowed level R adj_frame taps start_col
                         board id.
Proof.
  rewrite search_lists_adj. intros Ha.
  apply in_map_iff in Ha. destruct Ha as [id [<- Hid]].
  apply filter_In in Hid. destruct Hid as [Hid Hlen]. apply Zrange_In in Hid.
  cbn [fst snd]. split.
  - intros E. rewrite E in Hlen. discriminate.
  - exists id. auto.
Qed.

(** C6: when [MoveSearch] returns (no search overruns the 256 places of
    its buffer), the [adj] list it returns holds, in index order, one
    element for every entry [id] of the initial table whose adjustment
    search returns placements, and none for the others.  Hence every
    element has a moves sequence that is not empty, its anchor is
    [(entry.rot, row(max(adj_frame, taps[entry.num_taps])), entry.col)]
    for the entry of the initial table that produced it, and its moves are
    the result of the adjustment search of that entry. *)
Theorem MoveSearch_adj_anchor (kDoubleTuckAllowed : bool) (level : Level)
        (R adj_frame : Z) (taps : TapTable) (start_col : Z) (board : BoardArr)
        (m : PossibleMoves.t) (a : Position * list Position) :
  MoveSearch kDoubleTuckAllowed level R adj_frame taps start_col board
  = Some m ->
  In a (PossibleMoves.adj m) ->
  PossibleMoves.adj m
  = map (fun id =>
           (anchor_of level R adj_frame taps start_col id,
            adj_moves_of kDoubleTuckAllowed level R adj_frame taps start_col
                         board id))
        (filter (fun id =>
                   negb (Z.of_nat
                           (length (adj_moves_of kDoubleTuckAllowed level R
                                                 adj_frame taps start_col
                                                 board id)) =? 0))
                (Zrange 0 (initial_N (table level R adj_frame taps start_col))))
  /\ snd a <> []
  /\ exists id,
      0 <= id < initial_N (table level R adj_frame taps start_col) /\
      let entry :=
        entry_at (initial (table level R adj_frame taps start_col)) id in
      fst a = mkPosition (rot entry)
                         (GetRow (Z.max adj_frame
                                        (tap_at taps (num_taps entry))) level)
                         (col entry) /\
      snd a = snd (DoOneSearch kDoubleTuckAllowed level R adj_frame taps
                               start_col true id board
                               (columns_of level R board)
                               (tuck_masks_of kDoubleTuckAllowed level R board)
                               (can_adj_of kDoubleTuckAllowed level R adj_frame
                                           taps start_col board)).
Proof.
  intros Hm Ha. apply MoveSearch_Some in Hm. subst m.
  split; [apply search_lists_adj|].
  exact (search_lists_adj_source kDoubleTuckAllowed level R adj_frame taps
                                 start_col board a Ha).
Qed.

Lemma MoveSearch_adj_anchor_witness :
  snd (mkPosition 0 18 5,
       [mkPosition 0 19 5; mkPosition 0 19 4; mkPosition 0 19 6]) <> [].
Proof.
  refine (proj1 (proj2 (MoveSearch_adj_anchor false kLevel29 1 18 Tap30Hz 5
                   (free_boards 1) _
                   (mkPosition 0 18 5,
                    [mkPosition 0 19 5; mkPosition 0 19 4; mkPosition 0 19 6])
                   _ _))).
  - vm_compute. reflexivity.
  - left. reflexivity.
Defined.

(** ** Folds that establish a fact at one step and keep it afterwards *)

Lemma fold_keeps {S K : Type} (body : S -> K -> S) (Q : S -> Prop)
      (l : list K) :
  (forall s k, In k l -> Q s -> Q (body s k)) ->
  forall s, Q s -> Q (fold_left body l s).
Proof.
  induction l as [|h t IH]; intros Hk s Hs; [exact Hs|].
  cbn [fold_left]. apply IH.
  - intros s' k Hin. apply Hk. right. exact Hin.
  - apply Hk; [left; reflexivity|exact Hs].
Qed.

Lemma fold_establishes {S K : Type} (body : S -> K -> S) (Q : S -> Prop)
      (l : list K) (k : K) :
  (forall a b : K, {a = b} + {a <> b}) ->
  In k l ->
  (forall s, Q (body s k)) ->
  (forall s k', In k' l -> k' <> k -> Q s -> Q (body s k')) ->
  forall s, Q (fold_left body l s).
Proof.
  intros dec. induction l as [|h t IH]; intros Hin Hest Hkeep s; [contradiction|].
  cbn [fold_left]. destruct (in_dec dec k t) as [Ht|Ht].
  - apply IH; [exact Ht|exact Hest|].
    intros s' k' Hk'. apply Hkeep. right. exact Hk'.
  - destruct Hin as [->|Hin]; [|contradiction].
    apply fold_keeps; [|apply Hest].
    intros s' k' Hk' Hs'. apply Hkeep; [right; exact Hk'| |exact Hs'].
    intros ->. contradiction.
Qed.

(** ** Bits of a board *)

Lemma Board_Set_bit (b : Board) (row cl : Z) :
  0 <= 20 * cl + row ->
  Z.testbit (Board_Set b row cl) (20 * cl + row) = true.
Proof.
  intros H. unfold Board_Set. rewrite Z.lor_spec, Z.shiftl_spec by exact H.
  rewrite Z.sub_diag. apply orb_true_r.
Qed.

Lemma Board_Set_keeps (b : Board) (row cl n : Z) :
  Z.testbit b n = true -> Z.testbit (Board_Set b row cl) n = true.
Proof.
  intros H. unfold Board_Set. rewrite Z.lor_spec, H. reflexivity.
Qed.

Lemma Board_Column_bit (b : Board) (cl row : Z) :
  0 <= cl -> 0 <= row < 20 ->
  Z.testbit (Board_Column b cl) row = Z.testbit b (20 * cl + row).
Proof.
  intros Hc Hr. unfold Board_Column.
  change 0xFFFFF with (Z.ones 20).
  rewrite Z.land_spec, Z.shiftr_spec, Z.ones_spec_low by lia.
  rewrite andb_true_r. f_equal. lia.
Qed.

Lemma Board_Column_range (b : Board) (cl : Z) :
  0 <= Board_Column b cl < 2 ^ 20.
Proof.
  unfold Board_Column. change 0xFFFFF with (Z.ones 20).
  rewrite Z.land_ones by lia. apply Z.mod_pos_bound. lia.
Qed.

Lemma testbit_below (c n : Z) :
  0 <= c < 2 ^ 20 -> Z.testbit c n = true -> 0 <= n < 20.
Proof.
  intros Hc Hn. split.
  - destruct (Z_lt_le_dec n 0) as [Hneg|]; [|lia].
    rewrite Z.testbit_neg_r in Hn by exact Hneg. discriminate.
  - destruct (Z_lt_le_dec n 20) as [|Hge]; [lia|].
    rewrite <- (Z.mod_small c (2 ^ 20)) in Hn by lia.
    rewrite Z.mod_pow2_bits_high in Hn by lia. discriminate.
Qed.

Lemma GetRow_nonneg (frame : Z) (level : Level) :
  0 <= frame -> 0 <= GetRow frame level.
Proof.
  intros H. destruct level; simpl; try lia; apply Z.quot_pos; lia.
Qed.

(** ** The tap table *)

Lemma running_sum_nonneg (acc : Z) (deltas : list Z) (k : nat) :
  0 <= acc -> Forall (fun d => 0 <= d) deltas ->
  0 <= nth k (running_sum acc deltas) 0.
Proof.
  revert acc k. induction deltas as [|d ds IH]; intros acc k Hacc Hd.
  - destruct k; simpl; lia.
  - inversion Hd; subst. destruct k as [|k]; simpl; [lia|].
    apply IH; [lia|assumption].
Qed.

Lemma tap_at_nonneg (deltas : list Z) (k : Z) :
  taps_ok deltas -> 0 <= tap_at (mkTapTable deltas) k.
Proof.
  intros [Hlen [H0 Hrest]]. unfold tap_at, mkTapTable.
  apply running_sum_nonneg; [lia|].
  apply Forall_forall. intros d Hd. apply (In_nth _ _ 0) in Hd.
  destruct Hd as [i [Hi <-]]. destruct i as [|i]; [exact H0|].
  specialize (Hrest (S i) ltac:(lia)). lia.
Qed.

(** ** The generator's arrays, cell by cell *)

Section GenCells.

Variable level : Level.
Variable R : Z.
Variable taps : TapTable.
Variables f0 r0 c0 : Z.
Hypothesis R_ok : R = 1 \/ R = 2 \/ R = 4.
Hypothesis r0_ok : 0 <= r0 < R.
Hypothesis c0_ok : 0 <= c0 < 10.
Hypothesis f0_ok : 0 <= f0.
Hypothesis taps_nonneg : forall k, 0 <= tap_at taps k.

Local Abbreviation body := (gen_body level R taps f0 r0 c0).

Lemma stamp_frame_keeps (rt' cl' : Z) (cur : Z -> Board) (fr rt n : Z) :
  Z.testbit (cur rt) n = true ->
  Z.testbit (stamp_frame level rt' cl' cur fr rt) n = true.
Proof.
  intros H. unfold stamp_frame.
  assert (Hset : forall (a : Z -> Board) row,
             Z.testbit (a rt) n = true ->
             Z.testbit (aset a rt' (Board_Set (a rt') row cl') rt) n = true).
  { intros a row Ha. unfold aset. destruct (rt =? rt') eqn:E; [|exact Ha].
    apply Z.eqb_eq in E. subst rt'. apply Board_Set_keeps, Ha. }
  destruct (IsDropFrame fr level); [|apply Hset, H].
  destruct level; repeat apply Hset; exact H.
Qed.

Lemma stamp_frames_keep (rt' cl' : Z) (frames : list Z) (cur : Z -> Board)
      (rt n : Z) :
  Z.testbit (cur rt) n = true ->
  Z.testbit (fold_left (stamp_frame level rt' cl') frames cur rt) n = true.
Proof.
  revert cur. induction frames as [|fr frames IH]; intros cur H; [exact H|].
  cbn [fold_left]. apply IH, stamp_frame_keeps, H.
Qed.

(** The iteration of another cell, or a skipped one, leaves the cell
    [(rt, cl)] of the three arrays as it was. *)
Lemma gen_body_other (a : GenArrays) (cl' dr rt cl : Z) :
  ((R =? 1) && negb (dr =? 0) = true) \/ ((R =? 2) && (dr >=? 2) = true)
  \/ cl <> cl' \/ rt <> Z.rem (r0 + dr) R ->
  ga_cannot_reach (body a cl' dr) rt cl = ga_cannot_reach a rt cl /\
  ga_masks_nodrop (body a cl' dr) rt cl = ga_masks_nodrop a rt cl /\
  ga_masks (body a cl' dr) rt cl = ga_masks a rt cl.
Proof.
  intros H. unfold gen_body.
  destruct ((R =? 1) && negb (dr =? 0)) eqn:E1; [auto|].
  destruct ((R =? 2) && (dr >=? 2)) eqn:E2; [auto|].
  destruct H as [H|[H|H]]; try discriminate.
  assert (Hoth : rt <> Z.rem (r0 + dr) R \/ cl <> cl') by tauto.
  cbv zeta.
  destruct (GetRow _ level >=? 20); [|destruct (GetRow _ level >=? 20)];
    cbn [ga_cannot_reach ga_masks_nodrop ga_masks];
    rewrite ?(aset2_other _ _ _ _ _ _ Hoth); auto.
Qed.

(** The iteration of the cell itself. *)
Lemma gen_body_self (a : GenArrays) (cl dr : Z) :
  (R =? 1) && negb (dr =? 0) = false -> (R =? 2) && (dr >=? 2) = false ->
  0 <= cl -> 0 <= dr ->
  cell_ok level taps f0 (body a cl dr) (Z.rem (r0 + dr) R) cl
          (Z.max (if dr =? 3 then 1 else dr) (abs (cl - c0))).
Proof.
  intros E1 E2 Hcl Hdr. unfold cell_ok, start_row_of, gen_body.
  rewrite E1, E2. cbv zeta.
  set (rt := Z.rem (r0 + dr) R).
  set (nt := Z.max (if dr =? 3 then 1 else dr) (abs (cl - c0))).
  set (sf := (if nt =? 0 then 0 else tap_at taps (nt - 1)) + f0).
  assert (Hsf : 0 <= sf).
  { unfold sf. destruct (nt =? 0); [lia|]. pose proof (taps_nonneg (nt - 1)). lia. }
  pose proof (GetRow_nonneg sf level Hsf) as Hrow.
  destruct (Z.geb_spec (GetRow sf level) 20) as [Hge|Hlt].
  - cbn [ga_cannot_reach]. rewrite aset2_same. discriminate.
  - assert (Hbit : forall (cur : Z -> Board),
               Z.testbit (aset cur rt (Board_Set (cur rt) (GetRow sf level) cl) rt)
                         (20 * cl + GetRow sf level) = true).
    { intros cur. rewrite aset_same. apply Board_Set_bit. lia. }
    destruct (GetRow _ level >=? 20);
      cbn [ga_cannot_reach ga_masks_nodrop ga_masks]; rewrite !aset2_same;
      intros _; (split; [lia|]); (split; [apply Hbit|]).
    + apply Hbit.
    + apply stamp_frames_keep, Hbit.
Qed.

Lemma rot_of_delta (rt : Z) :
  0 <= rt < R -> Z.rem (r0 + delta_rot_of R r0 rt) R = rt.
Proof.
  intros Hrt. unfold delta_rot_of.
  destruct R_ok as [->|[->| ->]].
  - replace r0 with 0 by lia. replace rt with 0 by lia. reflexivity.
  - assert (Hr : r0 = 0 \/ r0 = 1) by lia.
    assert (Ht : rt = 0 \/ rt = 1) by lia.
    destruct Hr as [->| ->], Ht as [->| ->]; reflexivity.
  - assert (Hr : r0 = 0 \/ r0 = 1 \/ r0 = 2 \/ r0 = 3) by lia.
    assert (Ht : rt = 0 \/ rt = 1 \/ rt = 2 \/ rt = 3) by lia.
    destruct Hr as [->|[->|[->| ->]]], Ht as [->|[->|[->| ->]]]; reflexivity.
Qed.

Lemma delta_rot_of_range (rt : Z) :
  0 <= rt < R -> 0 <= delta_rot_of R r0 rt < R.
Proof.
  intros Hrt. apply Z.mod_pos_bound. lia.
Qed.

(** Two iterations of one column that are not skipped write different
    rotations. *)
Lemma other_delta (dr dr' : Z) :
  0 <= dr < R -> 0 <= dr' < 4 -> dr' <> dr ->
  ((R =? 1) && negb (dr' =? 0) = true) \/ ((R =? 2) && (dr' >=? 2) = true)
  \/ Z.rem (r0 + dr) R <> Z.rem (r0 + dr') R.
Proof.
  intros Hdr Hdr' Hne.
  destruct R_ok as [->|[->| ->]].
  - left. replace dr with 0 in * by lia.
    destruct (Z.eqb_spec dr' 0); [contradiction|reflexivity].
  - destruct (Z.geb_spec dr' 2) as [Hge|Hlt]; [right; left; reflexivity|].
    right. right.
    assert (Hr : r0 = 0 \/ r0 = 1) by lia.
    assert (Hd : dr = 0 \/ dr = 1) by lia.
    assert (Hd' : dr' = 0 \/ dr' = 1) by lia.
    destruct Hr as [->| ->], Hd as [->| ->], Hd' as [->| ->];
      try contradiction; discriminate.
  - right. right.
    assert (Hr : r0 = 0 \/ r0 = 1 \/ r0 = 2 \/ r0 = 3) by lia.
    assert (Hd : dr = 0 \/ dr = 1 \/ dr = 2 \/ dr = 3) by lia.
    assert (Hd' : dr' = 0 \/ dr' = 1 \/ dr' = 2 \/ dr' = 3) by lia.
    destruct Hr as [->|[->|[->| ->]]], Hd as [->|[->|[->| ->]]],
      Hd' as [->|[->|[->| ->]]]; try contradiction; discriminate.
Qed.

Lemma delta_not_skipped (dr : Z) :
  0 <= dr < R ->
  (R =? 1) && negb (dr =? 0) = false /\ (R =? 2) && (dr >=? 2) = false.
Proof.
  intros Hdr. destruct R_ok as [->|[->| ->]]; simpl.
  - replace dr with 0 by lia. auto.
  - split; [reflexivity|]. destruct (Z.geb_spec dr 2); [lia|reflexivity].
  - auto.
Qed.

(** Every cell of the board is described by the arrays that the generator
    leaves. *)
Lemma gen_arrays_cell (rt cl : Z) :
  0 <= rt < R -> 0 <= cl < 10 ->
  cell_ok level taps f0 (gen_arrays level R taps f0 r0 c0) rt cl
          (num_tap_of R r0 c0 rt cl).
Proof.
  intros Hrt Hcl. unfold gen_arrays, num_tap_of.
  pose proof (delta_rot_of_range rt Hrt) as Hdr.
  pose proof (rot_of_delta rt Hrt) as Hrot.
  set (dr := delta_rot_of R r0 rt) in *.
  set (nt := Z.max (if dr =? 3 then 1 else dr) (abs (cl - c0))).
  assert (Hkeep : forall a cl' dr',
             0 <= dr' < 4 -> cl' <> cl \/ dr' <> dr ->
             cell_ok level taps f0 a rt cl nt ->
             cell_ok level taps f0 (body a cl' dr') rt cl nt).
  { intros a cl' dr' Hdr' Hne Hok.
    destruct (gen_body_other a cl' dr' rt cl) as [H1 [H2 H3]].
    - destruct (Z.eq_dec cl cl') as [->|Hc]; [|tauto].
      destruct Hne as [?|Hd]; [contradiction|].
      destruct (other_delta dr dr' Hdr Hdr' Hd) as [?|[?|?]]; auto.
      right. right. right. rewrite <- Hrot. assumption.
    - unfold cell_ok in *. rewrite H1, H2, H3. exact Hok. }
  apply (fold_establishes
           (fun a cl' => fold_left (fun b dr' => body b cl' dr') (Zrange 0 4) a)
           (fun a => cell_ok level taps f0 a rt cl nt)
           (Zrange 0 10) cl Z.eq_dec); [apply Zrange_In; lia| |].
  - intros a.
    apply (fold_establishes
             (fun b dr' => body b cl dr')
             (fun a => cell_ok level taps f0 a rt cl nt)
             (Zrange 0 4) dr Z.eq_dec); [apply Zrange_In; lia| |].
    + intros b. rewrite <- Hrot.
      destruct (delta_not_skipped dr Hdr) as [E1 E2].
      apply gen_body_self; (assumption || lia).
    + intros b dr' Hin Hne. apply Zrange_In in Hin.
      apply Hkeep; [lia|right; exact Hne].
  - intros a cl' _ Hne Hok.
    apply (fold_keeps (fun b dr' => body b cl' dr')
                      (fun a => cell_ok level taps f0 a rt cl nt));
      [|exact Hok].
    intros b dr' Hin. apply Zrange_In in Hin.
    apply Hkeep; [lia|left; exact Hne].
Qed.

End GenCells.

(** ** Entries of a table and the board *)

Lemma board_at_map (f : Z -> Board) (R rt : Z) :
  0 <= rt < R -> board_at (map f (Zrange 0 R)) rt = f rt.
Proof.
  intros Hrt. unfold board_at, Zrange.
  rewrite (nth_indep _ 0 (f 0))
    by (rewrite length_map, Zseq_length; lia).
  rewrite map_nth, Zseq_nth by lia. f_equal. lia.
Qed.

Lemma fold_andb {K : Type} (f : K -> bool) (l : list K) (b : bool) :
  fold_left (fun ret i => ret && f i) l b = b && forallb f l.
Proof.
  revert b. induction l as [|h t IH]; intros b; simpl.
  - rewrite andb_true_r. reflexivity.
  - rewrite IH, andb_assoc. reflexivity.
Qed.

(** A bit of a contained mask is a bit of the board. *)
Lemma Contains_bit (R : Z) (board mask : BoardArr) (rt n : Z) :
  Contains R board mask = true -> 0 <= rt < R ->
  Z.testbit (board_at mask rt) n = true ->
  Z.testbit (board_at board rt) n = true.
Proof.
  unfold Contains. rewrite fold_andb. simpl andb. intros H Hrt Hbit.
  rewrite forallb_forall in H. specialize (H rt ltac:(apply Zrange_In; lia)).
  apply Z.eqb_eq in H. unfold Board_and in H.
  rewrite <- H, Z.land_spec in Hbit.
  apply andb_true_iff in Hbit. apply Hbit.
Qed.

Section TableCells.

Variable level : Level.
Variable R : Z.
Variable taps : TapTable.
Hypothesis R_ok : R = 1 \/ R = 2 \/ R = 4.
Hypothesis taps_nonneg : forall k, 0 <= tap_at taps k.

Lemma start_row_of_nonneg (f0 nt : Z) :
  0 <= f0 -> 0 <= start_row_of level taps f0 nt.
Proof.
  intros Hf. unfold start_row_of. apply GetRow_nonneg.
  destruct (nt =? 0); [lia|]. pose proof (taps_nonneg (nt - 1)). lia.
Qed.

(** What a search needs of an entry: its cell is on the board, its start
    row too, and both of its masks hold the cell of the start row. *)
Lemma Phase1TableGen_start (f0 r0 c0 : Z) (e : TableEntry) :
  0 <= r0 < R -> 0 <= c0 < 10 -> 0 <= f0 ->
  In e (Phase1TableGen level R taps f0 r0 c0) ->
  In (key e) (cells R) /\
  0 <= start_row_of level taps f0 (num_taps e) < 20 /\
  Z.testbit (board_at (masks e) (rot e))
            (20 * col e + start_row_of level taps f0 (num_taps e)) = true /\
  Z.testbit (board_at (masks_nodrop e) (rot e))
            (20 * col e + start_row_of level taps f0 (num_taps e)) = true.
Proof.
  intros Hr Hc Hf He.
  destruct (Phase1TableGen_entry level R taps f0 r0 c0 R_ok Hr Hc e He)
    as [Hcell [Hnt [Hreach Hpay]]].
  pose proof Hcell as Hrange. apply cells_In in Hrange. simpl in Hrange.
  destruct (gen_arrays_cell level R taps f0 r0 c0 R_ok Hr Hc Hf taps_nonneg
              (rot e) (col e) ltac:(lia) ltac:(lia) Hreach)
    as [Hlt [Hnodrop Hmasks]].
  rewrite <- Hnt in Hlt, Hnodrop, Hmasks.
  pose proof (start_row_of_nonneg f0 (num_taps e) Hf) as Hge.
  split; [exact Hcell|]. split; [lia|].
  rewrite Hpay. cbn [masks masks_nodrop rot col num_taps entry_of].
  rewrite !board_at_map by lia. split; assumption.
Qed.

Variable adj_frame : Z.
Variable start_col : Z.
Hypothesis start_col_ok : 0 <= start_col < 10.
Variable is_adj : bool.
Variable initial_id : Z.

Local Abbreviation entries :=
  (search_entries level R adj_frame taps start_col is_adj initial_id).

Lemma search_entry_start (e : TableEntry) :
  In e entries ->
  In (key e) (cells R) /\
  0 <= entry_start_row level R adj_frame taps start_col is_adj initial_id e
    < 20 /\
  Z.testbit (board_at (masks e) (rot e))
            (20 * col e
             + entry_start_row level R adj_frame taps start_col is_adj
                               initial_id e) = true /\
  Z.testbit (board_at (masks_nodrop e) (rot e))
            (20 * col e
             + entry_start_row level R adj_frame taps start_col is_adj
                               initial_id e) = true.
Proof.
  unfold search_entries, entry_start_row, search_initial_frame.
  destruct is_adj.
  - destruct (adj_at_gen level R adj_frame taps start_col initial_id)
      as [->|[e0 [He0 [Hnth ->]]]]; [intros []|].
    intros He.
    assert (Hat : entry_at (initial (table level R adj_frame taps start_col))
                           initial_id = e0).
    { unfold entry_at. apply nth_error_nth. exact Hnth. }
    rewrite Hat.
    pose proof (initial_entry_cell level R adj_frame taps start_col R_ok
                  start_col_ok e0 He0) as Hc0.
    apply cells_In in Hc0. simpl in Hc0.
    pose proof (taps_nonneg (num_taps e0)).
    apply (Phase1TableGen_start
             (Z.max adj_frame (tap_at taps (num_taps e0))) (rot e0) (col e0) e);
      (assumption || lia).
  - intros He.
    apply (Phase1TableGen_start 0 0 start_col e); (assumption || lia).
Qed.

Variable board : BoardArr.
Variable cols : Z -> Z -> Column.
Hypothesis cols_ok :
  forall rt cl, 0 <= rt < R -> 0 <= cl < 10 ->
                cols rt cl = Board_Column (board_at board rt) cl.

Local Abbreviation N :=
  (search_N level R adj_frame taps start_col is_adj initial_id).
Local Abbreviation reach :=
  (can_reach_of level R adj_frame taps start_col is_adj initial_id board).

(** An entry is marked reachable only by its own turn of the sweep, and
    only when the board contains one of its masks. *)
Lemma reach_fold (l : list Z) (s : (Z -> bool) * (Z -> bool)) (k : Z) :
  snd (fold_left (reach_step level R adj_frame taps start_col is_adj
                             initial_id board) l s) k = true ->
  snd s k = true \/
  (In k l /\
   (Contains R board (masks (entry_at entries k)) = true \/
    Contains R board (masks_nodrop (entry_at entries k)) = true)).
Proof.
  revert s. induction l as [|i l IH]; intros s H; [left; exact H|].
  cbn [fold_left] in H. destruct (IH _ H) as [Hs|[Hin Hc]].
  - destruct s as [cc cr]. unfold reach_step in Hs.
    destruct (negb (i =? 0) && negb (cc (prev (entry_at entries i))));
      [left; exact Hs|].
    destruct (negb (cannot_finish (entry_at entries i))
              && Contains R board (masks (entry_at entries i))) eqn:E1.
    + simpl in Hs. unfold aset in Hs. destruct (Z.eqb_spec k i) as [->|Hne].
      * right. split; [left; reflexivity|]. left.
        apply andb_true_iff in E1. apply E1.
      * left. exact Hs.
    + destruct (negb (Contains R board (masks_nodrop (entry_at entries i))))
        eqn:E2; [left; exact Hs|].
      simpl in Hs. unfold aset in Hs. destruct (Z.eqb_spec k i) as [->|Hne].
      * right. split; [left; reflexivity|]. right.
        apply negb_false_iff in E2. exact E2.
      * left. exact Hs.
  - right. split; [right; exact Hin|exact Hc].
Qed.

(** The placement that a reachable entry locks into is in play. *)
Lemma lock_position_in_play (i : Z) :
  reach i = true ->
  in_play R board
          (lock_position level R adj_frame taps start_col is_adj initial_id
                         cols i).
Proof.
  intros Hreach. unfold can_reach_of in Hreach.
  apply reach_fold in Hreach. cbn [snd] in Hreach.
  destruct Hreach as [?|[Hin Hcont]]; [discriminate|].
  apply Zrange_In in Hin.
  set (e := entry_at entries i) in *.
  assert (He : In e entries).
  { unfold e, entry_at. apply nth_In. unfold search_N in Hin. lia. }
  destruct (search_entry_start e He) as [Hcell [Hsr [Hm Hn]]].
  apply cells_In in Hcell. simpl in Hcell.
  set (sr := entry_start_row level R adj_frame taps start_col is_adj
                             initial_id e) in *.
  assert (Hbit : Z.testbit (board_at board (rot e)) (20 * col e + sr) = true).
  { destruct Hcont as [Hc|Hc];
      apply (Contains_bit R board _ (rot e) _ Hc); (assumption || lia). }
  rewrite <- Board_Column_bit, <- cols_ok in Hbit by lia.
  pose proof (Board_Column_range (board_at board (rot e)) (col e)) as Hrange.
  rewrite <- cols_ok in Hrange by lia.
  destruct (FindLockRow_ends_run (cols (rot e) (col e)) sr Hrange Hsr Hbit)
    as [[Hlr [Hrun _]] _].
  unfold in_play, lock_position. cbv zeta. fold e. cbn [r x y].
  unfold entry_lock_row. fold sr.
  set (lr := FindLockRow (cols (rot e) (col e)) sr) in *.
  split; [lia|]. split; [lia|]. split; [lia|].
  rewrite <- cols_ok by lia. apply Hrun. lia.
Qed.

End TableCells.

(** ** Phase 2 emits rows of the column *)

Lemma pos_ctz_bit (p : positive) :
  0 <= pos_ctz p /\ Z.testbit (Zpos p) (pos_ctz p) = true.
Proof.
  induction p as [p IH|p IH|]; cbn [pos_ctz]; try (split; [lia|reflexivity]).
  destruct IH as [Hge Hbit]. split; [lia|].
  change (Zpos p~0) with (2 * Zpos p).
  replace (1 + pos_ctz p) with (Z.succ (pos_ctz p)) by lia.
  rewrite Z.double_bits_succ. exact Hbit.
Qed.

Lemma ctz_bit (v : Z) :
  0 < v < 2 ^ 32 -> 0 <= ctz v /\ Z.testbit v (ctz v) = true.
Proof.
  intros Hv. unfold ctz. rewrite u32_small by lia.
  destruct v as [|p|p]; try lia. apply pos_ctz_bit.
Qed.

Lemma land_below (n a b : Z) :
  0 <= n -> 0 <= b < 2 ^ n -> 0 <= Z.land a b < 2 ^ n.
Proof.
  intros Hn Hb.
  assert (H : Z.land a b = Z.land a b mod 2 ^ n).
  { rewrite <- Z.land_ones, <- Z.land_assoc, Z.land_ones by lia.
    rewrite (Z.mod_small b) by lia. reflexivity. }
  rewrite H. apply Z.mod_pos_bound. apply Z.pow_pos_nonneg; lia.
Qed.

(** Clearing a set bit with an exclusive or takes its weight away. *)
Lemma lxor_clear_bit (v n : Z) :
  0 <= n -> Z.testbit v n = true -> Z.lxor v (2 ^ n) = v - 2 ^ n.
Proof.
  intros Hn Hbit.
  assert (Hland : Z.land (Z.lxor v (2 ^ n)) (2 ^ n) = 0).
  { apply Z.bits_inj'. intros m Hm.
    rewrite Z.land_spec, Z.lxor_spec, Z.pow2_bits_eqb, Z.bits_0 by lia.
    destruct (Z.eqb_spec n m) as [->|?]; [rewrite Hbit|]; simpl;
      rewrite ?andb_false_r; reflexivity. }
  apply Z.add_nocarry_lxor in Hland.
  rewrite Z.lxor_assoc, Z.lxor_nilpotent, Z.lxor_0_r in Hland. lia.
Qed.

Lemma testbit_below_32 (v n : Z) :
  0 <= v < 2 ^ 32 -> Z.testbit v n = true -> n < 32.
Proof.
  intros Hv Hbit. destruct (Z_lt_le_dec n 32) as [|Hhigh]; [assumption|].
  rewrite <- (Z.mod_small v (2 ^ 32)) in Hbit by lia.
  rewrite Z.mod_pow2_bits_high in Hbit by lia. discriminate.
Qed.

Lemma emit_rows_in (fuel : nat) (v rt cl : Z) (acc : list Position)
      (p : Position) :
  0 <= v < 2 ^ 32 ->
  In p (emit_rows fuel v rt cl acc) ->
  In p acc \/ (r p = rt /\ y p = cl /\ Z.testbit v (x p) = true).
Proof.
  revert v acc. induction fuel as [|fuel IH]; intros v acc Hv Hin;
    [left; exact Hin|].
  cbn [emit_rows] in Hin. destruct (Z.eqb_spec v 0) as [->|Hne];
    [left; exact Hin|].
  destruct (ctz_bit v ltac:(lia)) as [Hge Hbit].
  pose proof (testbit_below_32 v (ctz v) Hv Hbit) as Hrow.
  assert (Hpow : 0 < 2 ^ ctz v < 2 ^ 32).
  { split; [apply Z.pow_pos_nonneg; lia|apply Z.pow_lt_mono_r; lia]. }
  rewrite Z.shiftl_mul_pow2, Z.mul_1_l, u32_small in Hin by lia.
  rewrite lxor_clear_bit in Hin by assumption.
  assert (Hle : 2 ^ ctz v <= v).
  { pose proof (lxor_clear_bit v (ctz v) Hge Hbit) as E.
    assert (0 <= Z.lxor v (2 ^ ctz v)) by (apply Z.lxor_nonneg; lia). lia. }
  apply IH in Hin; [|lia].
  destruct Hin as [Hin|[Hr [Hy Hx]]].
  - unfold Insert in Hin. apply in_app_or in Hin.
    destruct Hin as [Hin|[<-|[]]]; [left; exact Hin|].
    right. cbn [r x y]. auto.
  - right. split; [exact Hr|]. split; [exact Hy|].
    rewrite <- lxor_clear_bit in Hx by assumption.
    rewrite Z.lxor_spec, Z.pow2_bits_eqb in Hx by lia.
    destruct (Z.eqb_spec (ctz v) (x p)) as [<-|?]; [exact Hbit|].
    rewrite xorb_false_r in Hx. exact Hx.
Qed.

(** Thirty-two turns exhaust a 32 bit value: the loop over the set bits
    ends by its own test, and more fuel changes nothing. *)
Lemma pos_ctz_odd (p : positive) :
  exists q, 0 <= q /\ Zpos p = 2 ^ pos_ctz p * (2 * q + 1).
Proof.
  induction p as [p IH|p IH|]; cbn [pos_ctz].
  - exists (Zpos p). split; lia.
  - destruct IH as [q [Hq E]]. exists q. split; [exact Hq|].
    pose proof (proj1 (pos_ctz_bit p)) as Hge.
    rewrite Z.pow_add_r, Z.pow_1_r by lia.
    change (Zpos p~0) with (2 * Zpos p). lia.
  - exists 0. split; [lia|reflexivity].
Qed.

Lemma ctz_odd (v : Z) :
  0 < v < 2 ^ 32 -> exists q, 0 <= q /\ v = 2 ^ ctz v * (2 * q + 1).
Proof.
  intros Hv. unfold ctz. rewrite u32_small by lia.
  destruct v as [|p|p]; try lia. apply pos_ctz_odd.
Qed.

Lemma ctz_double (u : Z) :
  0 < u -> 2 * u < 2 ^ 32 -> ctz (2 * u) = 1 + ctz u.
Proof.
  intros Hu Hlt. unfold ctz. rewrite !u32_small by lia.
  destruct u as [|p|p]; try lia. reflexivity.
Qed.

Lemma ctz_shift (j : nat) (w : Z) :
  0 < w -> 2 ^ Z.of_nat j * w < 2 ^ 32 ->
  ctz (2 ^ Z.of_nat j * w) = Z.of_nat j + ctz w.
Proof.
  intros Hw. induction j as [|j IH]; intros Hlt.
  - change (2 ^ Z.of_nat 0) with 1. rewrite Z.mul_1_l. reflexivity.
  - rewrite Nat2Z.inj_succ, Z.pow_succ_r in * by lia.
    assert (0 < 2 ^ Z.of_nat j) by (apply Z.pow_pos_nonneg; lia).
    rewrite <- Z.mul_assoc. rewrite ctz_double by nia.
    rewrite IH by nia. lia.
Qed.

Lemma emit_rows_settled (fuel extra : nat) (v rt cl : Z)
      (acc : list Position) :
  0 <= v < 2 ^ 32 -> v = 0 \/ 32 <= Z.of_nat fuel + ctz v ->
  emit_rows (fuel + extra) v rt cl acc = emit_rows fuel v rt cl acc.
Proof.
  revert v acc. induction fuel as [|fuel IH]; intros v acc Hv Hm.
  - assert (Hz : v = 0).
    { destruct Hm as [?|Hm]; [assumption|].
      destruct (Z.eq_dec v 0) as [?|Hne]; [assumption|]. exfalso.
      destruct (ctz_bit v ltac:(lia)) as [_ Hbit].
      pose proof (testbit_below_32 v (ctz v) Hv Hbit). lia. }
    subst v. destruct extra; reflexivity.
  - cbn [Nat.add emit_rows]. destruct (Z.eqb_spec v 0) as [?|Hne]; [reflexivity|].
    destruct (ctz_bit v ltac:(lia)) as [Hge Hbit].
    pose proof (testbit_below_32 v (ctz v) Hv Hbit) as Hrow.
    assert (Hpow : 0 < 2 ^ ctz v < 2 ^ 32).
    { split; [apply Z.pow_pos_nonneg; lia|apply Z.pow_lt_mono_r; lia]. }
    rewrite Z.shiftl_mul_pow2, Z.mul_1_l, u32_small by lia.
    rewrite lxor_clear_bit by assumption.
    destruct (ctz_odd v ltac:(lia)) as [q [Hq E]].
    apply IH; [nia|].
    destruct (Z.eq_dec q 0) as [->|Hq0]; [left; lia|]. right.
    assert (Hv' : v - 2 ^ ctz v = 2 ^ Z.of_nat (Z.to_nat (ctz v + 1)) * q).
    { rewrite Z2Nat.id, Z.pow_add_r, Z.pow_1_r by lia. lia. }
    rewrite Hv'. rewrite ctz_shift by (rewrite <- ?Hv'; nia).
    assert (Hq32 : 0 < q < 2 ^ 32) by nia.
    pose proof (proj1 (ctz_bit q Hq32)). lia.
Qed.

Lemma emit_rows_fuel (extra : nat) (v rt cl : Z) (acc : list Position) :
  0 <= v < 2 ^ 32 ->
  emit_rows (32 + extra) v rt cl acc = emit_rows 32 v rt cl acc.
Proof.
  intros Hv. apply emit_rows_settled; [exact Hv|].
  destruct (Z.eq_dec v 0) as [?|Hne]; [left; assumption|right].
  pose proof (proj1 (ctz_bit v ltac:(lia))). lia.
Qed.

Section PhaseTwo.

Variable kDoubleTuckAllowed : bool.
Variable level : Level.
Variable R : Z.
Variable board : BoardArr.
Variable cols : Z -> Z -> Column.
Hypothesis cols_ok :
  forall rt cl, 0 <= rt < R -> 0 <= cl < 10 ->
                cols rt cl = Board_Column (board_at board rt) cl.

Lemma tuck_lock_positions_bits (lock : Z -> Z -> Column)
      (tuck_result : Z -> Z -> Frames) (rt cl : Z) :
  0 <= rt < R -> 0 <= cl < 10 ->
  0 <= tuck_lock_positions_of level cols lock tuck_result rt cl < 2 ^ 32 /\
  forall n, Z.testbit (tuck_lock_positions_of level cols lock tuck_result rt cl)
                      n = true ->
            Z.testbit (cols rt cl) n = true.
Proof.
  intros Hrt Hcl. unfold tuck_lock_positions_of. cbv zeta.
  pose proof (Board_Column_range (board_at board rt) cl) as Hc.
  rewrite <- cols_ok in Hc by assumption.
  set (c := cols rt cl) in *.
  set (A := Z.shiftr _ 1). set (B := Z.shiftr (not32 c) 1).
  set (C := not32 _). split.
  - rewrite (Z.land_comm _ C).
    assert (H1 : 0 <= Z.land c B < 2 ^ 20).
    { rewrite Z.land_comm. apply land_below; lia. }
    assert (H2 : 0 <= Z.land A (Z.land c B) < 2 ^ 20)
      by (apply land_below; lia).
    pose proof (land_below 20 C _ ltac:(lia) H2). lia.
  - intros n Hn. rewrite !Z.land_spec in Hn.
    apply andb_true_iff in Hn. destruct Hn as [Hn _].
    apply andb_true_iff in Hn. destruct Hn as [_ Hn].
    apply andb_true_iff in Hn. apply Hn.
Qed.

Lemma for_rot_col_keeps {S : Type} (body : S -> Z -> Z -> S) (Q : S -> Prop) :
  (forall s rt cl, 0 <= rt < R -> 0 <= cl < 10 -> Q s -> Q (body s rt cl)) ->
  forall s, Q s -> Q (for_rot_col R body s).
Proof.
  intros Hbody s Hs. unfold for_rot_col.
  apply (fold_keeps
           (fun s rt => fold_left (fun s cl => body s rt cl) (Zrange 0 10) s) Q);
    [|exact Hs].
  intros s1 rt Hrt Hs1. apply Zrange_In in Hrt.
  apply (fold_keeps (fun s cl => body s rt cl) Q); [|exact Hs1].
  intros s2 cl Hcl Hs2. apply Zrange_In in Hcl. apply Hbody; (assumption || lia).
Qed.

Lemma RunPhase2_in_play (tuck_masks : TuckMasks) (lock : Z -> Z -> Column)
      (can_tuck : Z -> Z -> Frames) (acc : list Position) :
  (forall p, In p acc -> in_play R board p) ->
  forall p, In p (RunPhase2 kDoubleTuckAllowed level R cols tuck_masks lock
                            can_tuck acc) ->
            in_play R board p.
Proof.
  intros Hacc. unfold RunPhase2. cbv zeta.
  set (res := fold_left _ _ _).
  apply (for_rot_col_keeps
           (fun positions rt cl =>
              emit_rows 32 (tuck_lock_positions_of level cols lock res rt cl)
                        rt cl positions)
           (fun l => forall p, In p l -> in_play R board p)); [|exact Hacc].
  intros l rt cl Hrt Hcl Hl p Hp.
  destruct (tuck_lock_positions_bits lock res rt cl Hrt Hcl) as [Hv Hbits].
  apply emit_rows_in in Hp; [|exact Hv].
  destruct Hp as [Hp|[Hr [Hy Hx]]]; [apply Hl, Hp|].
  apply Hbits in Hx.
  pose proof (Board_Column_range (board_at board rt) cl) as Hc.
  rewrite cols_ok in Hx by assumption.
  pose proof (testbit_below _ _ Hc Hx).
  unfold in_play. rewrite Hr, Hy. auto.
Qed.

End PhaseTwo.

(** ** The columns that the driver loads *)

Lemma load_columns_cell (level : Level) (R : Z) (board : BoardArr) (rt cl : Z) :
  0 <= rt < R -> 0 <= cl < 10 ->
  columns_of level R board rt cl = Board_Column (board_at board rt) cl.
Proof.
  intros Hrt Hcl. unfold columns_of, load_columns, for_rot_col.
  set (body := fun (s : (Z -> Z -> Column) * FrameMasks) (rot col : Z) =>
         let cols := aset2 (fst s) rot col
                           (Board_Column (board_at board rot) col) in
         (cols,
          mkFrameMasks
            (aset2 (frame (snd s)) rot col
                   (ColumnToNormalFrameMask level (cols rot col)))
            (aset2 (drop (snd s)) rot col
                   (ColumnToDropFrameMask level (cols rot col))))).
  set (Q := fun s : (Z -> Z -> Column) * FrameMasks =>
              fst s rt cl = Board_Column (board_at board rt) cl).
  assert (Hkeep : forall s rt' cl', rt' <> rt \/ cl' <> cl -> Q s ->
                                    Q (body s rt' cl')).
  { intros s rt' cl' Hne Hs. unfold Q, body in *. cbn [fst].
    rewrite aset2_other by (destruct Hne; [left|right]; congruence).
    exact Hs. }
  apply (fold_establishes
           (fun s rot => fold_left (fun s col => body s rot col) (Zrange 0 10) s)
           Q (Zrange 0 R) rt Z.eq_dec); [apply Zrange_In; lia| |].
  - intros s.
    apply (fold_establishes (fun s col => body s rt col) Q (Zrange 0 10) cl
                            Z.eq_dec); [apply Zrange_In; lia| |].
    + intros s1. unfold Q, body. cbn [fst]. apply aset2_same.
    + intros s1 cl' _ Hne. apply Hkeep. right. exact Hne.
  - intros s rt' _ Hne Hs.
    apply (fold_keeps (fun s col => body s rt' col) Q); [|exact Hs].
    intros s1 cl' _. apply Hkeep. left. exact Hne.
Qed.

(** ** Every placement of a search is in play *)

Lemma DoOneSearch_in_play (kDoubleTuckAllowed : bool) (level : Level)
      (R adj_frame : Z) (taps : TapTable) (start_col : Z) (is_adj : bool)
      (initial_id : Z) (board : BoardArr) (cols : Z -> Z -> Column)
      (tuck_masks : TuckMasks) (can_adj0 : Z -> bool) (p : Position) :
  R = 1 \/ R = 2 \/ R = 4 -> (forall k, 0 <= tap_at taps k) ->
  0 <= start_col < 10 ->
  (forall rt cl, 0 <= rt < R -> 0 <= cl < 10 ->
                 cols rt cl = Board_Column (board_at board rt) cl) ->
  In p (snd (DoOneSearch kDoubleTuckAllowed level R adj_frame taps start_col
                         is_adj initial_id board cols tuck_masks can_adj0)) ->
  in_play R board p.
Proof.
  intros HR Htaps Hsc Hcols.
  assert (Hphase1 :
            forall q,
              In q (positions (RunPhase1 level R adj_frame taps start_col
                                         is_adj initial_id board cols can_adj0)) ->
              in_play R board q).
  { intros q Hq. unfold RunPhase1 in Hq. rewrite lock_fold_positions in Hq.
    simpl app in Hq. apply in_map_iff in Hq. destruct Hq as [i [<- Hi]].
    apply filter_In in Hi. destruct Hi as [_ Hi].
    apply andb_true_iff in Hi. destruct Hi as [Hreach _].
    apply lock_position_in_play; assumption. }
  unfold DoOneSearch.
  destruct (_ >=? _); [intros []|].
  destruct (is_adj && negb (can_adj0 initial_id)); [intros []|].
  cbv zeta. destruct (phase_2_possible _); cbn [snd].
  - apply RunPhase2_in_play; assumption.
  - apply Hphase1.
Qed.

(** C1: for every board array, level, [R] among 1, 2 and 4, adjustment
    frame and tap schedule that passes the static assertion of [TapTable]
    (and a start column on the board), when [MoveSearch] returns (no
    search overruns the 256 places of its buffer), every placement
    [(rot, row, col)] that it returns, in [non_adj] or in the moves of an
    element of [adj], has [0 <= row < 20], [0 <= col < 10], [0 <= rot < R],
    and the bit of its cell is set in the column of the board of its
    rotation: the piece fits there. *)
Theorem MoveSearch_in_play (kDoubleTuckAllowed : bool) (level : Level)
        (R adj_frame : Z) (deltas : list Z) (start_col : Z) (board : BoardArr)
        (m : PossibleMoves.t) (p : Position) :
  R = 1 \/ R = 2 \/ R = 4 -> taps_ok deltas -> 0 <= start_col < 10 ->
  MoveSearch kDoubleTuckAllowed level R adj_frame (mkTapTable deltas)
             start_col board = Some m ->
  In p (PossibleMoves.non_adj m)
  \/ (exists a, In a (PossibleMoves.adj m) /\ In p (snd a)) ->
  0 <= x p < 20 /\ 0 <= y p < 10 /\ 0 <= r p < R /\
  Z.testbit (Board_Column (board_at board (r p)) (y p)) (x p) = true.
Proof.
  intros HR Htaps Hsc Hm Hp. apply MoveSearch_Some in Hm. subst m.
  assert (Hnonneg : forall k, 0 <= tap_at (mkTapTable deltas) k)
    by (intros k; apply tap_at_nonneg, Htaps).
  change (in_play R board p).
  destruct Hp as [Hp|[a [Ha Hp]]].
  - unfold search_lists, non_adj_of in Hp. cbn [PossibleMoves.non_adj] in Hp.
    eapply DoOneSearch_in_play; try eassumption.
    apply load_columns_cell.
  - apply search_lists_adj_source in Ha.
    destruct Ha as [_ [id [_ [_ Hmoves]]]].
    rewrite Hmoves in Hp. unfold adj_moves_of in Hp.
    eapply DoOneSearch_in_play; try eassumption.
    apply load_columns_cell.
Qed.

Lemma MoveSearch_in_play_witness :
  0 <= x (mkPosition 0 19 4) < 20 /\ 0 <= y (mkPosition 0 19 4) < 10 /\
  0 <= r (mkPosition 0 19 4) < 1 /\
  Z.testbit (Board_Column (board_at (free_boards 1) (r (mkPosition 0 19 4)))
                          (y (mkPosition 0 19 4)))
            (x (mkPosition 0 19 4)) = true.
Proof.
  eapply (MoveSearch_in_play false kLevel39 1 18
                             [0; 2; 2; 2; 2; 2; 2; 2; 2; 2] 5 (free_boards 1)
                             _ (mkPosition 0 19 4)).
  - lia.
  - split; [reflexivity|]. split; [simpl; lia|].
    intros i Hi.
    assert (Hcase : (i = 1 \/ i = 2 \/ i = 3 \/ i = 4 \/ i = 5 \/ i = 6
                     \/ i = 7 \/ i = 8 \/ i = 9)%nat) by lia.
    repeat (destruct Hcase as [->|Hcase]; [simpl; lia|]). subst i. simpl. lia.
  - lia.
  - vm_compute. reflexivity.
  - left. right. left. reflexivity.
Defined.

(** ** The T piece on the empty field at level 39 *)




(** * Gravity timing *)

Lemma quot_step (f k : Z) :
  0 <= f -> 0 < k ->
  Z.quot (f + 1) k = Z.quot f k + (if Z.rem f k =? k - 1 then 1 else 0).
Proof.
  intros Hf Hk.
  rewrite !Z.quot_div_nonneg, Z.rem_mod_nonneg by lia.
  pose proof (Z.div_mod f k ltac:(lia)) as Hdm.
  pose proof (Z.mod_pos_bound f k Hk) as Hb.
  destruct (Z.eqb_spec (f mod k) (k - 1)) as [E|E].
  - symmetry. apply (Z.div_unique (f + 1) k (f / k + 1) 0); lia.
  - symmetry. apply (Z.div_unique (f + 1) k (f / k + 0) (f mod k + 1)); lia.
Qed.

Lemma GetRow_next (frame : Z) (level : Level) :
  0 <= frame ->
  GetRow (frame + 1) level = GetRow frame level + NumDrops frame level.
Proof.
  intros Hf. unfold NumDrops, IsDropFrame, GetRow. destruct level.
  - rewrite quot_step by lia. change (3 - 1) with 2.
    destruct (Z.rem frame 3 =? 2); reflexivity.
  - rewrite quot_step by lia. change (2 - 1) with 1.
    destruct (Z.rem frame 2 =? 1); reflexivity.
  - cbn. lia.
  - cbn. lia.
Qed.

Lemma GetRow_le_last (frame row : Z) (level : Level) :
  0 <= frame -> 0 <= row ->
  (GetRow frame level <= row <-> frame <= GetLastFrameOnRow row level).
Proof.
  intros Hf Hr. unfold GetRow, GetLastFrameOnRow. destruct level.
  - rewrite Z.quot_div_nonneg by lia.
    pose proof (Z.div_mod frame 3 ltac:(lia)).
    pose proof (Z.mod_pos_bound frame 3 ltac:(lia)). lia.
  - rewrite Z.quot_div_nonneg by lia.
    pose proof (Z.div_mod frame 2 ltac:(lia)).
    pose proof (Z.mod_pos_bound frame 2 ltac:(lia)). lia.
  - lia.
  - rewrite Z.quot_div_nonneg by lia.
    pose proof (Z.div_mod row 2 ltac:(lia)).
    pose proof (Z.mod_pos_bound row 2 ltac:(lia)). lia.
Qed.

Lemma GetRow_ge_first (frame row : Z) (level : Level) :
  0 <= frame -> 0 <= row ->
  (row <= GetRow frame level <-> GetFirstFrameOnRow row level <= frame).
Proof.
  intros Hf Hr. unfold GetRow, GetFirstFrameOnRow. destruct level.
  - rewrite Z.quot_div_nonneg by lia.
    pose proof (Z.div_mod frame 3 ltac:(lia)).
    pose proof (Z.mod_pos_bound frame 3 ltac:(lia)). lia.
  - rewrite Z.quot_div_nonneg by lia.
    pose proof (Z.div_mod frame 2 ltac:(lia)).
    pose proof (Z.mod_pos_bound frame 2 ltac:(lia)). lia.
  - lia.
  - rewrite Z.quot_div_nonneg by lia.
    pose proof (Z.div_mod (row + 1) 2 ltac:(lia)).
    pose proof (Z.mod_pos_bound (row + 1) 2 ltac:(lia)). lia.
Qed.

Lemma GetRow_mono (f f' : Z) (level : Level) :
  0 <= f <= f' -> GetRow f level <= GetRow f' level.
Proof.
  intros H. unfold GetRow. destruct level; try lia.
  - rewrite !Z.quot_div_nonneg by lia. apply Z.div_le_mono; lia.
  - rewrite !Z.quot_div_nonneg by lia. apply Z.div_le_mono; lia.
Qed.

(** X1: from one frame to the next the piece falls by [NumDrops] rows:
    [GetRow(frame + 1) = GetRow(frame) + NumDrops(frame)] at every level,
    for every frame that is not negative. *)
Theorem NumDrops_is_row_step (frame : Z) (level : Level) :
  0 <= frame ->
  GetRow (frame + 1) level = GetRow frame level + NumDrops frame level.
Proof. apply GetRow_next. Qed.

Lemma NumDrops_is_row_step_witness :
  GetRow (5 + 1) kLevel18 = GetRow 5 kLevel18 + NumDrops 5 kLevel18.
Proof. apply (NumDrops_is_row_step 5 kLevel18). lia. Defined.

(** X2: [GetLastFrameOnRow(row)] is the last frame on which the piece has
    not passed [row]: a frame is at or above the row exactly when it is not
    after that frame. *)
Theorem GetLastFrameOnRow_bounds_row (frame row : Z) (level : Level) :
  0 <= frame -> 0 <= row ->
  (GetRow frame level <= row <-> frame <= GetLastFrameOnRow row level).
Proof. apply GetRow_le_last. Qed.

Lemma GetLastFrameOnRow_bounds_row_witness :
  GetRow 4 kLevel39 <= 9 <-> 4 <= GetLastFrameOnRow 9 kLevel39.
Proof. apply (GetLastFrameOnRow_bounds_row 4 9 kLevel39); lia. Defined.

(** X3: [GetFirstFrameOnRow(row)] is the first frame on which the piece
    has come down to [row]: a frame is at or below the row exactly when it
    is not before that frame. *)
Theorem GetFirstFrameOnRow_bounds_row (frame row : Z) (level : Level) :
  0 <= frame -> 0 <= row ->
  (row <= GetRow frame level <-> GetFirstFrameOnRow row level <= frame).
Proof. apply GetRow_ge_first. Qed.

Lemma GetFirstFrameOnRow_bounds_row_witness :
  9 <= GetRow 5 kLevel39 <-> GetFirstFrameOnRow 9 kLevel39 <= 5.
Proof. apply (GetFirstFrameOnRow_bounds_row 5 9 kLevel39); lia. Defined.

(** * Tap table *)

Lemma running_sum_length (acc : Z) (deltas : list Z) :
  length (running_sum acc deltas) = length deltas.
Proof.
  revert acc. induction deltas as [|d ds IH]; intros acc; simpl; auto.
Qed.

Lemma running_sum_succ (acc : Z) (deltas : list Z) (k : nat) :
  (S k < length deltas)%nat ->
  nth (S k) (running_sum acc deltas) 0
  = nth k (running_sum acc deltas) 0 + nth (S k) deltas 0.
Proof.
  revert acc k. induction deltas as [|d ds IH]; intros acc k Hk.
  - simpl in Hk. lia.
  - destruct ds as [|d' ds']; [simpl in Hk; lia|].
    destruct k as [|k].
    + reflexivity.
    + change (nth (S (S k)) (running_sum acc (d :: d' :: ds')) 0)
        with (nth (S k) (running_sum (acc + d) (d' :: ds')) 0).
      change (nth (S k) (running_sum acc (d :: d' :: ds')) 0)
        with (nth k (running_sum (acc + d) (d' :: ds')) 0).
      change (nth (S (S k)) (d :: d' :: ds') 0) with (nth (S k) (d' :: ds') 0).
      apply IH. simpl in *. lia.
Qed.

Lemma tap_at_gap (deltas : list Z) (i : nat) (n : nat) :
  taps_ok deltas -> (i + n < 10)%nat ->
  nth i (mkTapTable deltas) 0 + 2 * Z.of_nat n
  <= nth (i + n) (mkTapTable deltas) 0.
Proof.
  intros [Hlen [H0 Hrest]] Hin. induction n as [|n IH].
  - rewrite Nat.add_0_r. lia.
  - replace (i + S n)%nat with (S (i + n)) by lia.
    unfold mkTapTable in *. rewrite running_sum_succ by lia.
    specialize (Hrest (S (i + n)) ltac:(lia)).
    specialize (IH ltac:(lia)). lia.
Qed.

Lemma tap_at_spaced (deltas : list Z) (i j : Z) :
  taps_ok deltas -> 0 <= i -> i <= j -> j < 10 ->
  tap_at (mkTapTable deltas) i + 2 * (j - i) <= tap_at (mkTapTable deltas) j.
Proof.
  intros Hok Hi Hij Hj. unfold tap_at.
  pose proof (tap_at_gap deltas (Z.to_nat i) (Z.to_nat (j - i)) Hok
                         ltac:(lia)) as H.
  replace (Z.to_nat i + Z.to_nat (j - i))%nat with (Z.to_nat j) in H by lia.
  lia.
Qed.

(** X4: in a tap table whose arguments pass the constructor's
    [static_assert], the first tap is on a frame that is not negative and
    two taps [i <= j] are at least [2 * (j - i)] frames apart; the table is
    strictly increasing. *)
Theorem TapTable_spaced (deltas : list Z) (i j : Z) :
  taps_ok deltas -> 0 <= i -> i <= j -> j < 10 ->
  0 <= tap_at (mkTapTable deltas) 0 /\
  tap_at (mkTapTable deltas) i + 2 * (j - i) <= tap_at (mkTapTable deltas) j.
Proof.
  intros Hok Hi Hij Hj. split.
  - apply tap_at_nonneg, Hok.
  - apply tap_at_spaced; assumption.
Qed.

Lemma TapTable_spaced_witness :
  0 <= tap_at (mkTapTable [0; 3; 3; 3; 3; 3; 3; 3; 3; 3]) 0 /\
  tap_at (mkTapTable [0; 3; 3; 3; 3; 3; 3; 3; 3; 3]) 2 + 2 * (7 - 2)
  <= tap_at (mkTapTable [0; 3; 3; 3; 3; 3; 3; 3; 3; 3]) 7.
Proof.
  apply (TapTable_spaced [0; 3; 3; 3; 3; 3; 3; 3; 3; 3] 2 7); try lia.
  split; [reflexivity|]. split; [simpl; lia|].
  intros i Hi.
  do 10 (destruct i as [|i]; [simpl; lia|]). lia.
Defined.

(** * Contains *)

Lemma Contains_bits (R : Z) (board mask : BoardArr) :
  Contains R board mask = true <->
  forall i n, 0 <= i < R ->
              Z.testbit (board_at mask i) n = true ->
              Z.testbit (board_at board i) n = true.
Proof.
  unfold Contains.
  rewrite (fold_andb
             (fun i => Board_eqb (Board_and (board_at board i) (board_at mask i))
                                 (board_at mask i))).
  cbn [andb]. rewrite forallb_forall. split.
  - intros H i n Hi Hbit.
    specialize (H i (proj2 (Zrange_In i 0 R) Hi)).
    unfold Board_eqb, Board_and in H. apply Z.eqb_eq in H.
    rewrite <- H, Z.land_spec in Hbit.
    apply andb_true_iff in Hbit. tauto.
  - intros H i Hi. apply Zrange_In in Hi.
    unfold Board_eqb, Board_and. apply Z.eqb_eq. apply Z.bits_inj'.
    intros n _. rewrite Z.land_spec.
    destruct (Z.testbit (board_at mask i) n) eqn:E.
    + rewrite (H i n Hi E). reflexivity.
    + apply andb_false_r.
Qed.

(** X5: [Contains<R>(board, mask)] is true exactly when, in each of the
    [R] rotations, every bit that is set in the mask is set in the
    board. *)
Theorem Contains_iff_every_mask_bit (R : Z) (board mask : BoardArr) :
  Contains R board mask = true <->
  forall i n, 0 <= i < R ->
              Z.testbit (board_at mask i) n = true ->
              Z.testbit (board_at board i) n = true.
Proof. apply Contains_bits. Qed.

(** * The lock row when the start row is blocked *)

Lemma FindLockRow_clear_start (c s : Z) :
  0 <= c < 2 ^ 32 -> 0 <= s < 31 -> Z.testbit c s = false ->
  FindLockRow c s = s - 1.
Proof.
  intros Hc Hs Hbit. unfold FindLockRow.
  rewrite (u32_small c) by lia. rewrite Z.shiftl_1_l.
  assert (Hland : Z.land c (2 ^ s) = 0).
  { apply Z.bits_inj'. intros n Hn. rewrite Z.land_spec, Z.bits_0.
    destruct (Z.eq_dec n s) as [->|Hne].
    - rewrite Hbit. reflexivity.
    - rewrite Z.pow2_bits_false by lia. apply andb_false_r. }
  assert (Hadd : c + 2 ^ s = Z.lxor c (2 ^ s))
    by (apply Z.add_nocarry_lxor, Hland).
  assert (Hlor : c + 2 ^ s = Z.lor c (2 ^ s)).
  { rewrite Hadd. apply Z.lxor_lor, Hland. }
  assert (Hpow : 0 < 2 ^ s < 2 ^ 32).
  { split; [apply Z.pow_pos_nonneg; lia|].
    apply Z.pow_lt_mono_r; lia. }
  assert (Hsum : 0 <= c + 2 ^ s < 2 ^ 32).
  { rewrite Hlor. apply lor_below; lia. }
  rewrite (u32_small (c + 2 ^ s)) by exact Hsum.
  rewrite Hadd, <- Z.lxor_assoc, Z.lxor_nilpotent, Z.lxor_0_l.
  unfold clz32. rewrite (u32_small (2 ^ s)) by lia.
  destruct (Z.eqb_spec (2 ^ s) 0) as [E|_]; [lia|].
  rewrite Z.log2_pow2 by lia. lia.
Qed.

(** X6: when the bit of the start row is clear (the piece does not fit on
    the row it starts from, which the caller is meant to exclude),
    [FindLockRow] returns the row above the start row, [start_row - 1]; on
    row 0 that is [-1]. *)
Theorem FindLockRow_blocked_start (c s : Z) :
  0 <= c < 2 ^ 32 -> 0 <= s < 31 -> Z.testbit c s = false ->
  FindLockRow c s = s - 1.
Proof. apply FindLockRow_clear_start. Qed.

Lemma FindLockRow_blocked_start_witness : FindLockRow 0xFFFF0 2 = 2 - 1.
Proof.
  apply (FindLockRow_blocked_start 0xFFFF0 2); [lia | lia | reflexivity].
Defined.

(** * The codec, bit by bit *)

Lemma testbit_split (b D k m : Z) :
  0 <= k -> 0 <= b < 2 ^ k -> 0 <= m ->
  Z.testbit (b + 2 ^ k * D) m
  = if m <? k then Z.testbit b m else Z.testbit D (m - k).
Proof.
  intros Hk Hb Hm.
  assert (Hpos : 0 < 2 ^ k) by (apply Z.pow_pos_nonneg; lia).
  destruct (Z.ltb_spec m k) as [Hlt|Hge].
  - rewrite <- (Z.mod_pow2_bits_low (b + 2 ^ k * D) k m) by lia.
    replace ((b + 2 ^ k * D) mod 2 ^ k) with b; [reflexivity|].
    symmetry. replace (b + 2 ^ k * D) with (b + D * 2 ^ k) by lia.
    rewrite Z.mod_add by lia. apply Z.mod_small. lia.
  - replace m with (m - k + k) at 1 by lia.
    rewrite <- Z.div_pow2_bits by lia.
    replace ((b + 2 ^ k * D) / 2 ^ k) with D; [reflexivity|].
    symmetry. replace (b + 2 ^ k * D) with (b + D * 2 ^ k) by lia.
    rewrite Z.div_add by lia. rewrite Z.div_small by lia. lia.
Qed.

Lemma deposit_bit (k : Z) (n : nat) (src q j : Z) :
  0 < k -> 0 <= q -> 0 <= j < k ->
  Z.testbit (deposit k n src) (k * q + j)
  = (j =? 0) && (q <? Z.of_nat n) && Z.testbit src q.
Proof.
  intros Hk. revert src q j.
  induction n as [|n IH]; intros src q j Hq Hj.
  - cbn [deposit]. rewrite Z.bits_0.
    change (Z.of_nat 0) with 0.
    destruct (Z.ltb_spec q 0); [lia|]. rewrite andb_false_r. reflexivity.
  - cbn [deposit].
    assert (Hb : 0 <= Z.b2z (Z.odd src) < 2 ^ k).
    { assert (2 ^ 1 <= 2 ^ k) by (apply Z.pow_le_mono_r; lia).
      destruct (Z.odd src); cbn; lia. }
    rewrite testbit_split by nia.
    destruct (Z.ltb_spec (k * q + j) k) as [Hlt|Hge].
    + assert (q = 0) by nia. subst q. rewrite Z.mul_0_r, Z.add_0_l.
      rewrite Z.bit0_odd.
      destruct (Z.eqb_spec j 0) as [->|Hne].
      * destruct (Z.odd src); cbn;
          destruct (Z.ltb_spec 0 (Z.of_nat (S n))); try lia; reflexivity.
      * cbn [andb]. destruct (Z.odd src); cbn [Z.b2z].
        -- apply Z.bits_above_log2; cbn; lia.
        -- apply Z.bits_0.
    + assert (1 <= q) by nia.
      replace (k * q + j - k) with (k * (q - 1) + j) by lia.
      rewrite IH by lia.
      assert (Hd : Z.testbit (Z.div2 src) (q - 1) = Z.testbit src q).
      { rewrite Z.div2_spec, Z.shiftr_spec by lia. f_equal. lia. }
      rewrite Hd.
      destruct (Z.ltb_spec (q - 1) (Z.of_nat n));
        destruct (Z.ltb_spec q (Z.of_nat (S n))); try lia; reflexivity.
Qed.

Lemma extract_bit (k : Z) (n : nat) (src m : Z) :
  0 <= k -> 0 <= m ->
  Z.testbit (extract k n src) m
  = (m <? Z.of_nat n) && Z.testbit src (k * m).
Proof.
  intros Hk. revert src m. induction n as [|n IH]; intros src m Hm.
  - cbn [extract]. rewrite Z.bits_0. change (Z.of_nat 0) with 0.
    destruct (Z.ltb_spec m 0); [lia|]. reflexivity.
  - cbn [extract]. destruct (Z.eq_dec m 0) as [->|Hne].
    + rewrite testbit_cons_0, Z.mul_0_r, Z.bit0_odd.
      destruct (Z.ltb_spec 0 (Z.of_nat (S n))); [reflexivity | lia].
    + replace m with (Z.succ (m - 1)) at 1 by lia.
      rewrite testbit_cons_succ by lia. rewrite IH by lia.
      rewrite Z.shiftr_spec by nia.
      replace (k * (m - 1) + k) with (k * m) by lia.
      destruct (Z.ltb_spec (m - 1) (Z.of_nat n));
        destruct (Z.ltb_spec m (Z.of_nat (S n))); try lia; reflexivity.
Qed.

Lemma bit_above (c n : Z) : 0 <= c < 2 ^ 20 -> 20 <= n -> Z.testbit c n = false.
Proof.
  intros Hc Hn. destruct (Z.testbit c n) eqn:E; [|reflexivity].
  apply (testbit_below c n Hc) in E. lia.
Qed.

Lemma Zrange_nil (lo hi : Z) : hi <= lo -> Zrange lo hi = [].
Proof.
  intros H. unfold Zrange. replace (Z.to_nat (hi - lo)) with O by lia.
  reflexivity.
Qed.

Lemma Zrange_cons (lo hi : Z) :
  lo < hi -> Zrange lo hi = lo :: Zrange (lo + 1) hi.
Proof.
  intros H. unfold Zrange.
  replace (Z.to_nat (hi - lo)) with (S (Z.to_nat (hi - (lo + 1)))) by lia.
  reflexivity.
Qed.

(** The frame masks of levels 18 and 19, as sums of shifted deposits. *)
Lemma Normal18_deposit (c : Z) :
  0 <= c < 2 ^ 20 ->
  ColumnToNormalFrameMask kLevel18 c
  = Z.lor (Z.lor (deposit 3 20 c) (Z.shiftl (deposit 3 20 c) 1))
          (Z.shiftl (deposit 3 20 c) 2).
Proof.
  intros Hc. unfold ColumnToNormalFrameMask, pdep64.
  rewrite (u64_small c) by lia.
  rewrite (u64_small kMask18) by (unfold kMask18; lia).
  change kMask18 with (stride_mask (Z.of_nat 3) 20).
  rewrite pdep_bits_stride by (simpl; lia). change (Z.of_nat 3) with 3.
  pose proof (deposit_bounds 3 20 c ltac:(lia)) as Hd.
  change (stride_mask 3 20) with 0x249249249249249 in Hd.
  set (e := deposit 3 20 c) in *.
  rewrite !u64_small; [reflexivity | |].
  - rewrite Z.shiftl_mul_pow2 by lia. lia.
  - rewrite Z.shiftl_mul_pow2 by lia. lia.
Qed.

Lemma Normal19_deposit (c : Z) :
  0 <= c < 2 ^ 20 ->
  ColumnToNormalFrameMask kLevel19 c
  = Z.lor (deposit 2 20 c) (Z.shiftl (deposit 2 20 c) 1).
Proof.
  intros Hc. unfold ColumnToNormalFrameMask, pdep64.
  rewrite (u64_small c) by lia.
  rewrite (u64_small kMask19) by (unfold kMask19; lia).
  change kMask19 with (stride_mask (Z.of_nat 2) 20).
  rewrite pdep_bits_stride by (simpl; lia). change (Z.of_nat 2) with 2.
  pose proof (deposit_bounds 2 20 c ltac:(lia)) as Hd.
  change (stride_mask 2 20) with 0x5555555555 in Hd.
  set (e := deposit 2 20 c) in *.
  rewrite u64_small; [reflexivity|].
  rewrite Z.shiftl_mul_pow2 by lia. lia.
Qed.

Lemma deposit_bit_at (k : Z) (n : nat) (src m : Z) :
  0 < k ->
  Z.testbit (deposit k n src) m
  = (0 <=? m) && (m mod k =? 0) && (m / k <? Z.of_nat n)
    && Z.testbit src (m / k).
Proof.
  intros Hk. destruct (Z.leb_spec 0 m) as [Hm|Hm].
  - pose proof (Z.div_mod m k ltac:(lia)) as Hdm.
    pose proof (Z.mod_pos_bound m k Hk) as Hb.
    rewrite Hdm at 1. rewrite deposit_bit; try lia.
    + reflexivity.
    + apply Z.div_pos; lia.
  - cbn [andb]. apply Z.testbit_neg_r. lia.
Qed.

Lemma below20_bit (c q : Z) :
  0 <= c < 2 ^ 20 -> (q <? 20) && Z.testbit c q = Z.testbit c q.
Proof.
  intros Hc. destruct (Z.ltb_spec q 20); [reflexivity|].
  rewrite bit_above by lia. reflexivity.
Qed.

Lemma Normal_bit (level : Level) (c f : Z) :
  0 <= c < 2 ^ 20 -> 0 <= f ->
  Z.testbit (ColumnToNormalFrameMask level c) f
  = Z.testbit c (GetRow f level).
Proof.
  intros Hc Hf. destruct level.
  - rewrite Normal18_deposit by exact Hc. unfold GetRow.
    rewrite Z.quot_div_nonneg by lia.
    rewrite !Z.lor_spec, !Z.shiftl_spec by lia.
    rewrite !deposit_bit_at by lia. change (Z.of_nat 20) with 20.
    pose proof (Z.div_mod f 3 ltac:(lia)) as Hdm.
    pose proof (Z.mod_pos_bound f 3 ltac:(lia)) as Hb.
    set (q := f / 3) in *. set (m := f mod 3) in *.
    assert (Hq : 0 <= q) by (apply Z.div_pos; lia).
    assert (Hm : m = 0 \/ m = 1 \/ m = 2) by lia.
    destruct Hm as [Hm|[Hm|Hm]].
    + replace ((f - 1) mod 3) with 2
        by (apply (Z.mod_unique (f - 1) 3 (q - 1) 2); lia).
      replace ((f - 2) mod 3) with 1
        by (apply (Z.mod_unique (f - 2) 3 (q - 1) 1); lia).
      rewrite Hm. destruct (Z.leb_spec 0 f); [|lia].
      change (2 =? 0) with false. change (1 =? 0) with false.
      change (0 =? 0) with true.
      rewrite !andb_false_r. cbn [andb orb]. rewrite !orb_false_r.
      apply below20_bit, Hc.
    + replace ((f - 1) mod 3) with 0
        by (apply (Z.mod_unique (f - 1) 3 q 0); lia).
      replace ((f - 1) / 3) with q
        by (apply (Z.div_unique (f - 1) 3 q 0); lia).
      replace ((f - 2) mod 3) with 2
        by (apply (Z.mod_unique (f - 2) 3 (q - 1) 2); lia).
      rewrite Hm. destruct (Z.leb_spec 0 (f - 1)); [|lia].
      change (2 =? 0) with false. change (1 =? 0) with false.
      change (0 =? 0) with true.
      rewrite !andb_false_r. cbn [andb orb]. rewrite !orb_false_r.
      apply below20_bit, Hc.
    + replace ((f - 1) mod 3) with 1
        by (apply (Z.mod_unique (f - 1) 3 q 1); lia).
      replace ((f - 2) mod 3) with 0
        by (apply (Z.mod_unique (f - 2) 3 q 0); lia).
      replace ((f - 2) / 3) with q
        by (apply (Z.div_unique (f - 2) 3 q 0); lia).
      rewrite Hm. destruct (Z.leb_spec 0 (f - 2)); [|lia].
      change (2 =? 0) with false. change (1 =? 0) with false.
      change (0 =? 0) with true.
      rewrite !andb_false_r. cbn [andb orb].
      apply below20_bit, Hc.
  - rewrite Normal19_deposit by exact Hc. unfold GetRow.
    rewrite Z.quot_div_nonneg by lia.
    rewrite !Z.lor_spec, !Z.shiftl_spec by lia.
    rewrite !deposit_bit_at by lia. change (Z.of_nat 20) with 20.
    pose proof (Z.div_mod f 2 ltac:(lia)) as Hdm.
    pose proof (Z.mod_pos_bound f 2 ltac:(lia)) as Hb.
    set (q := f / 2) in *. set (m := f mod 2) in *.
    assert (Hq : 0 <= q) by (apply Z.div_pos; lia).
    assert (Hm : m = 0 \/ m = 1) by lia.
    destruct Hm as [Hm|Hm].
    + replace ((f - 1) mod 2) with 1
        by (apply (Z.mod_unique (f - 1) 2 (q - 1) 1); lia).
      rewrite Hm. destruct (Z.leb_spec 0 f); [|lia].
      change (1 =? 0) with false. change (0 =? 0) with true.
      rewrite !andb_false_r. cbn [andb orb]. rewrite !orb_false_r.
      apply below20_bit, Hc.
    + replace ((f - 1) mod 2) with 0
        by (apply (Z.mod_unique (f - 1) 2 q 0); lia).
      replace ((f - 1) / 2) with q
        by (apply (Z.div_unique (f - 1) 2 q 0); lia).
      rewrite Hm. destruct (Z.leb_spec 0 (f - 1)); [|lia].
      change (1 =? 0) with false. change (0 =? 0) with true.
      rewrite !andb_false_r. cbn [andb orb].
      apply below20_bit, Hc.
  - unfold ColumnToNormalFrameMask, GetRow. rewrite u32_small by lia.
    reflexivity.
  - unfold ColumnToNormalFrameMask, GetRow, pext32.
    rewrite (u32_small c) by lia.
    rewrite (u32_small kMask39) by (unfold kMask39; lia).
    change kMask39 with (stride_mask (Z.of_nat 2) 10).
    rewrite pext_bits_stride by (simpl; lia). change (Z.of_nat 2) with 2.
    rewrite extract_bit by lia. change (Z.of_nat 10) with 10.
    replace (f * 2) with (2 * f) by lia.
    destruct (Z.ltb_spec f 10); [reflexivity|].
    rewrite bit_above by lia. reflexivity.
Qed.

(** X7: bit [f] of the normal frame mask of a column is the bit of the
    row the piece is in on frame [f]: for every level, every 20-bit column
    and every frame [f >= 0],
    [ColumnToNormalFrameMask(col) bit f = col bit GetRow(f)]. *)
Theorem ColumnToNormalFrameMask_bit (level : Level) (c f : Z) :
  0 <= c < 2 ^ 20 -> 0 <= f ->
  Z.testbit (ColumnToNormalFrameMask level c) f
  = Z.testbit c (GetRow f level).
Proof. apply Normal_bit. Qed.

Lemma ColumnToNormalFrameMask_bit_witness :
  Z.testbit (ColumnToNormalFrameMask kLevel18 0xF0F0F) 13
  = Z.testbit 0xF0F0F (GetRow 13 kLevel18).
Proof. apply (ColumnToNormalFrameMask_bit kLevel18 0xF0F0F 13); lia. Defined.

Lemma Drop_bit (level : Level) (c f : Z) :
  0 <= c < 2 ^ 20 -> 0 <= f ->
  Z.testbit (ColumnToDropFrameMask level c) f
  = forallb (Z.testbit c)
            (Zrange (GetRow f level) (GetRow (f + 1) level + 1)).
Proof.
  intros Hc Hf.
  assert (Hgen : level <> kLevel39 ->
                 Z.testbit (ColumnToDropFrameMask level c) f
                 = Z.testbit c (GetRow f level)
                   && Z.testbit c (GetRow (f + 1) level)).
  { intros Hl.
    assert (E : ColumnToDropFrameMask level c
                = Z.land (ColumnToNormalFrameMask level c)
                         (Z.shiftr (ColumnToNormalFrameMask level c) 1))
      by (destruct level; try reflexivity; congruence).
    rewrite E, Z.land_spec, Z.shiftr_spec by lia.
    rewrite !Normal_bit by lia. reflexivity. }
  assert (Hstep := GetRow_next f level Hf).
  destruct level.
  - rewrite Hgen by discriminate. rewrite Hstep.
    unfold NumDrops. destruct (IsDropFrame f kLevel18); cbn [negb].
    + rewrite Zrange_cons, Zrange_cons, Zrange_nil by lia.
      cbn [forallb]. rewrite andb_true_r. reflexivity.
    + rewrite Z.add_0_r, Zrange_cons, Zrange_nil by lia.
      cbn [forallb]. rewrite andb_true_r, andb_diag. reflexivity.
  - rewrite Hgen by discriminate. rewrite Hstep.
    unfold NumDrops. destruct (IsDropFrame f kLevel19); cbn [negb].
    + rewrite Zrange_cons, Zrange_cons, Zrange_nil by lia.
      cbn [forallb]. rewrite andb_true_r. reflexivity.
    + rewrite Z.add_0_r, Zrange_cons, Zrange_nil by lia.
      cbn [forallb]. rewrite andb_true_r, andb_diag. reflexivity.
  - rewrite Hgen by discriminate. unfold GetRow.
    rewrite Zrange_cons, Zrange_cons, Zrange_nil by lia.
    cbn [forallb]. rewrite andb_true_r. reflexivity.
  - unfold ColumnToDropFrameMask, GetRow, pext32.
    rewrite (u32_small c) by lia.
    rewrite (u32_small kMask39) by (unfold kMask39; lia).
    assert (Hs1 : 0 <= Z.shiftr c 1 < 2 ^ 20) by (apply shiftr_below; lia).
    assert (Hs2 : 0 <= Z.shiftr c 2 < 2 ^ 20) by (apply shiftr_below; lia).
    assert (Hl : 0 <= Z.land (Z.land c (Z.shiftr c 1)) (Z.shiftr c 2) < 2 ^ 20)
      by (apply land_below; lia).
    rewrite u32_small by lia.
    change kMask39 with (stride_mask (Z.of_nat 2) 10).
    rewrite pext_bits_stride by (simpl; lia). change (Z.of_nat 2) with 2.
    rewrite extract_bit by lia. change (Z.of_nat 10) with 10.
    rewrite !Z.land_spec, !Z.shiftr_spec by lia.
    rewrite Zrange_cons, Zrange_cons, Zrange_cons, Zrange_nil by lia.
    cbn [forallb]. rewrite andb_true_r.
    replace (f * 2) with (2 * f) by lia.
    replace (2 * f + 1 + 1) with (2 * f + 2) by lia.
    destruct (Z.ltb_spec f 10).
    + cbn [andb]. rewrite andb_assoc. reflexivity.
    + rewrite (bit_above c (2 * f)) by lia. reflexivity.
Qed.

(** X8: bit [f] of the drop frame mask of a column is the conjunction of
    the column's bits over all the rows the piece passes from frame [f] to
    frame [f + 1], the rows [GetRow(f) .. GetRow(f + 1)]. *)
Theorem ColumnToDropFrameMask_bit (level : Level) (c f : Z) :
  0 <= c < 2 ^ 20 -> 0 <= f ->
  Z.testbit (ColumnToDropFrameMask level c) f
  = forallb (Z.testbit c)
            (Zrange (GetRow f level) (GetRow (f + 1) level + 1)).
Proof. apply Drop_bit. Qed.

Lemma ColumnToDropFrameMask_bit_witness :
  Z.testbit (ColumnToDropFrameMask kLevel39 0xFFFF0) 2
  = forallb (Z.testbit 0xFFFF0)
            (Zrange (GetRow 2 kLevel39) (GetRow (2 + 1) kLevel39 + 1)).
Proof. apply (ColumnToDropFrameMask_bit kLevel39 0xFFFF0 2); lia. Defined.

Lemma FramesToColumn_row (level : Level) (fr row : Z) :
  0 <= fr < 2 ^ 64 -> 0 <= row < 20 ->
  Z.testbit (FramesToColumn level fr) row
  = existsb (Z.testbit fr)
            (Zrange (GetFirstFrameOnRow row level)
                    (GetLastFrameOnRow row level + 1)).
Proof.
  intros Hfr Hr. destruct level.
  - unfold FramesToColumn, GetFirstFrameOnRow, GetLastFrameOnRow, pext64.
    rewrite (u64_small kMask18) by (unfold kMask18; lia).
    rewrite u64_small
      by (repeat apply lor_below; try apply shiftr_below; lia).
    change kMask18 with (stride_mask (Z.of_nat 3) 20).
    rewrite pext_bits_stride by (simpl; lia). change (Z.of_nat 3) with 3.
    rewrite u32_small.
    + rewrite extract_bit by lia. change (Z.of_nat 20) with 20.
      destruct (Z.ltb_spec row 20); [|lia]. cbn [andb].
      rewrite !Z.lor_spec, !Z.shiftr_spec by lia.
      rewrite Zrange_cons, Zrange_cons, Zrange_cons, Zrange_nil by lia.
      cbn [existsb]. rewrite orb_false_r.
      replace (row * 3) with (3 * row) by lia.
      replace (3 * row + 1 + 1) with (3 * row + 2) by lia.
      rewrite orb_assoc. reflexivity.
    + pose proof (extract_bounds 3 20
                    (Z.lor (Z.lor fr (Z.shiftr fr 1)) (Z.shiftr fr 2))).
      change (Z.of_nat 20) with 20 in *. lia.
  - unfold FramesToColumn, GetFirstFrameOnRow, GetLastFrameOnRow, pext64.
    rewrite (u64_small kMask19) by (unfold kMask19; lia).
    rewrite u64_small
      by (repeat apply lor_below; try apply shiftr_below; lia).
    change kMask19 with (stride_mask (Z.of_nat 2) 20).
    rewrite pext_bits_stride by (simpl; lia). change (Z.of_nat 2) with 2.
    rewrite u32_small.
    + rewrite extract_bit by lia. change (Z.of_nat 20) with 20.
      destruct (Z.ltb_spec row 20); [|lia]. cbn [andb].
      rewrite !Z.lor_spec, !Z.shiftr_spec by lia.
      rewrite Zrange_cons, Zrange_cons, Zrange_nil by lia.
      cbn [existsb]. rewrite orb_false_r.
      replace (row * 2) with (2 * row) by lia. reflexivity.
    + pose proof (extract_bounds 2 20 (Z.lor fr (Z.shiftr fr 1))).
      change (Z.of_nat 20) with 20 in *. lia.
  - unfold FramesToColumn, GetFirstFrameOnRow, GetLastFrameOnRow, u32.
    rewrite Z.mod_pow2_bits_low by lia.
    rewrite Zrange_cons, Zrange_nil by lia.
    cbn [existsb]. rewrite orb_false_r. reflexivity.
  - unfold FramesToColumn, GetFirstFrameOnRow, GetLastFrameOnRow, pdep32.
    rewrite (u32_small kMask39) by (unfold kMask39; lia).
    change kMask39 with (stride_mask (Z.of_nat 2) 10).
    rewrite pdep_bits_stride by (simpl; lia). change (Z.of_nat 2) with 2.
    rewrite deposit_bit_at by lia. change (Z.of_nat 10) with 10.
    rewrite !Z.quot_div_nonneg by lia.
    pose proof (Z.div_mod row 2 ltac:(lia)) as Hdm.
    pose proof (Z.mod_pos_bound row 2 ltac:(lia)) as Hb.
    set (q := row / 2) in *. set (m := row mod 2) in *.
    destruct (Z.leb_spec 0 row); [|lia].
    destruct (Z.ltb_spec q 10); [|lia]. cbn [andb].
    unfold u32. rewrite Z.mod_pow2_bits_low by lia.
    assert (Hm : m = 0 \/ m = 1) by lia. destruct Hm as [Hm|Hm].
    + replace ((row + 1) / 2) with q
        by (apply (Z.div_unique (row + 1) 2 q 1); lia).
      rewrite Hm, Zrange_cons, Zrange_nil by lia.
      cbn. rewrite orb_false_r. reflexivity.
    + replace ((row + 1) / 2) with (q + 1)
        by (apply (Z.div_unique (row + 1) 2 (q + 1) 0); lia).
      rewrite Hm, Zrange_nil by lia. reflexivity.
Qed.

(** X9: bit [row] of the column that [FramesToColumn] returns is set
    exactly when some frame on which the piece is in that row, one of
    [GetFirstFrameOnRow(row) .. GetLastFrameOnRow(row)], is set in the
    frames; at level 39, where odd rows are passed without a frame, that
    range is empty and the bit is clear. *)
Theorem FramesToColumn_bit (level : Level) (fr row : Z) :
  0 <= fr < 2 ^ 64 -> 0 <= row < 20 ->
  Z.testbit (FramesToColumn level fr) row
  = existsb (Z.testbit fr)
            (Zrange (GetFirstFrameOnRow row level)
                    (GetLastFrameOnRow row level + 1)).
Proof. apply FramesToColumn_row. Qed.

Lemma FramesToColumn_bit_witness :
  Z.testbit (FramesToColumn kLevel18 0x1000) 4
  = existsb (Z.testbit 0x1000)
            (Zrange (GetFirstFrameOnRow 4 kLevel18)
                    (GetLastFrameOnRow 4 kLevel18 + 1)).
Proof. apply (FramesToColumn_bit kLevel18 0x1000 4); lia. Defined.

(** * The generator's arrays, cell by cell *)

Lemma fold_once {S K : Type} (body : S -> K -> S) (k : K) (I Q : S -> Prop)
      (l : list K) :
  NoDup l -> In k l ->
  (forall s k', In k' l -> k' <> k -> I s -> I (body s k')) ->
  (forall s, I s -> Q (body s k)) ->
  (forall s k', In k' l -> k' <> k -> Q s -> Q (body s k')) ->
  forall s, I s -> Q (fold_left body l s).
Proof.
  intros Hnd Hin HI Hself HQ.
  induction l as [|h t IH]; intros s Hs; [contradiction|].
  cbn [fold_left]. inversion Hnd as [|? ? Hnotin Hnd']; subst.
  destruct Hin as [->|Hin].
  - apply fold_keeps.
    + intros s' k' Hk' Hq. apply HQ; [right; exact Hk'| |exact Hq].
      intros ->. contradiction.
    + apply Hself, Hs.
  - apply IH; try assumption.
    + intros s' k' Hk' Hne. apply HI; [right; exact Hk'|exact Hne].
    + intros s' k' Hk' Hne. apply HQ; [right; exact Hk'|exact Hne].
    + apply HI; [left; reflexivity| |exact Hs]. intros ->. contradiction.
Qed.

Section GenLocal.

Variable level : Level.
Variable R : Z.
Variable taps : TapTable.
Variables f0 r0 c0 : Z.
Hypothesis R_ok : R = 1 \/ R = 2 \/ R = 4.
Hypothesis r0_ok : 0 <= r0 < R.
Hypothesis c0_ok : 0 <= c0 < 10.

Local Abbreviation body := (gen_body level R taps f0 r0 c0).
Local Abbreviation g := (gen_arrays level R taps f0 r0 c0).

Lemma gen_body_other_cell (a : GenArrays) (cl' dr rt cl : Z) :
  ((R =? 1) && negb (dr =? 0) = true) \/ ((R =? 2) && (dr >=? 2) = true)
  \/ cl <> cl' \/ rt <> Z.rem (r0 + dr) R ->
  same_cell (body a cl' dr) a rt cl.
Proof.
  intros H. unfold same_cell, gen_body.
  destruct ((R =? 1) && negb (dr =? 0)) eqn:E1; [auto|].
  destruct ((R =? 2) && (dr >=? 2)) eqn:E2; [auto|].
  destruct H as [H|[H|H]]; try discriminate.
  assert (Hoth : rt <> Z.rem (r0 + dr) R \/ cl <> cl') by tauto.
  cbv zeta.
  destruct (GetRow _ level >=? 20); [|destruct (GetRow _ level >=? 20)];
    cbn [ga_cannot_reach ga_cannot_finish ga_masks_nodrop ga_masks];
    rewrite ?(aset2_other _ _ _ _ _ _ Hoth); auto.
Qed.

Lemma same_cell_trans (a b c : GenArrays) (rt cl : Z) :
  same_cell a b rt cl -> same_cell b c rt cl -> same_cell a c rt cl.
Proof.
  unfold same_cell. intros [H1 [H2 [H3 H4]]] [H5 [H6 [H7 H8]]].
  repeat split; congruence.
Qed.

(** The iteration of a cell reads nothing but that cell. *)
Lemma gen_body_self_cell (a b : GenArrays) (cl dr : Z) :
  same_cell a b (Z.rem (r0 + dr) R) cl ->
  same_cell (body a cl dr) (body b cl dr) (Z.rem (r0 + dr) R) cl.
Proof.
  intros [H1 [H2 [H3 H4]]]. unfold same_cell, gen_body.
  destruct ((R =? 1) && negb (dr =? 0)); [tauto|].
  destruct ((R =? 2) && (dr >=? 2)); [tauto|].
  cbv zeta. rewrite H3.
  destruct (GetRow _ level >=? 20); [|destruct (GetRow _ level >=? 20)];
    cbn [ga_cannot_reach ga_cannot_finish ga_masks_nodrop ga_masks];
    rewrite ?aset2_same; auto.
Qed.

(** Each cell is written by one iteration of the first loop, the one of
    its column and of its rotation step, and that iteration finds the cell
    as it was initialised. *)
Lemma gen_arrays_local (rt cl : Z) :
  0 <= rt < R -> 0 <= cl < 10 ->
  same_cell g (gen_cell level R taps f0 r0 c0 rt cl) rt cl.
Proof.
  intros Hrt Hcl. unfold gen_arrays, gen_cell.
  pose proof (delta_rot_of_range R r0 R_ok rt Hrt) as Hdr.
  pose proof (rot_of_delta R r0 R_ok r0_ok rt Hrt) as Hrot.
  set (dr := delta_rot_of R r0 rt) in *.
  assert (Hoth : forall a cl' dr',
             0 <= dr' < 4 -> cl' <> cl \/ dr' <> dr ->
             same_cell (body a cl' dr') a rt cl).
  { intros a cl' dr' Hdr' Hne. apply gen_body_other_cell.
    destruct (Z.eq_dec cl cl') as [->|Hc]; [|tauto].
    destruct Hne as [?|Hd]; [contradiction|].
    destruct (other_delta R r0 R_ok r0_ok dr dr' Hdr Hdr' Hd) as [?|[?|?]];
      auto.
    right. right. right. rewrite <- Hrot. assumption. }
  set (fin := body gen_init cl dr).
  apply (fold_once
           (fun a cl' => fold_left (fun b dr' => body b cl' dr') (Zrange 0 4) a)
           cl
           (fun a => same_cell a gen_init rt cl)
           (fun a => same_cell a fin rt cl)).
  - apply Zseq_NoDup.
  - apply Zrange_In. lia.
  - intros a cl' _ Hne Ha.
    apply (fold_keeps (fun b dr' => body b cl' dr')
                      (fun a => same_cell a gen_init rt cl)); [|exact Ha].
    intros b dr' Hin Hb. apply Zrange_In in Hin.
    eapply same_cell_trans; [apply Hoth; [lia|left; exact Hne]|exact Hb].
  - intros a Ha.
    apply (fold_once (fun b dr' => body b cl dr') dr
                     (fun a => same_cell a gen_init rt cl)
                     (fun a => same_cell a fin rt cl)).
    + apply Zseq_NoDup.
    + apply Zrange_In. lia.
    + intros b dr' Hin Hne Hb. apply Zrange_In in Hin.
      eapply same_cell_trans; [apply Hoth; [lia|right; exact Hne]|exact Hb].
    + intros b Hb. unfold fin. rewrite <- Hrot.
      apply gen_body_self_cell. rewrite Hrot. exact Hb.
    + intros b dr' Hin Hne Hb. apply Zrange_In in Hin.
      eapply same_cell_trans; [apply Hoth; [lia|right; exact Hne]|exact Hb].
    + exact Ha.
  - intros a cl' _ Hne Ha.
    apply (fold_keeps (fun b dr' => body b cl' dr')
                      (fun a => same_cell a fin rt cl)); [|exact Ha].
    intros b dr' Hin Hb. apply Zrange_In in Hin.
    eapply same_cell_trans; [apply Hoth; [lia|left; exact Hne]|exact Hb].
  - repeat split.
Qed.

(** What the iteration of a cell leaves in the two flags. *)
Lemma gen_cell_flags (rt cl : Z) :
  0 <= rt < R -> 0 <= cl < 10 ->
  let nt := num_tap_of R r0 c0 rt cl in
  ga_cannot_reach g rt cl = (start_row_of level taps f0 nt >=? 20) /\
  ga_cannot_finish g rt cl
  = negb (start_row_of level taps f0 nt >=? 20)
    && (end_row_of level taps f0 nt >=? 20).
Proof.
  intros Hrt Hcl nt.
  destruct (gen_arrays_local rt cl Hrt Hcl) as [H1 [H2 _]].
  rewrite H1, H2. unfold gen_cell, gen_body.
  pose proof (delta_rot_of_range R r0 R_ok rt Hrt) as Hdr.
  pose proof (rot_of_delta R r0 R_ok r0_ok rt Hrt) as Hrot.
  destruct (delta_not_skipped R r0 R_ok r0_ok _ Hdr) as [E1 E2].
  rewrite E1, E2. cbv zeta. rewrite Hrot.
  fold (num_tap_of R r0 c0 rt cl). fold nt.
  fold (start_row_of level taps f0 nt). fold (end_row_of level taps f0 nt).
  destruct (start_row_of level taps f0 nt >=? 20);
    [|destruct (end_row_of level taps f0 nt >=? 20)];
    cbn [ga_cannot_reach ga_cannot_finish negb andb];
    rewrite ?aset2_same; auto.
Qed.

End GenLocal.

(** * The table, entry by entry *)

Section TableFacts.

Variable level : Level.
Variable R : Z.
Variable taps : TapTable.
Variables f0 r0 c0 : Z.
Hypothesis R_ok : R = 1 \/ R = 2 \/ R = 4.
Hypothesis r0_ok : 0 <= r0 < R.
Hypothesis c0_ok : 0 <= c0 < 10.

Local Abbreviation g := (gen_arrays level R taps f0 r0 c0).
Local Abbreviation gen := (Phase1TableGen level R taps f0 r0 c0).
Local Abbreviation inv := (table_inv R r0 c0 g).

(** The loop over [cur], as an induction principle: what holds of the
    start and is kept by the loop body holds of the table when the loop
    leaves, which it does with [cur = sz]. *)
Lemma bfs_run (P : list TableEntry -> Z -> Prop) :
  (forall es cur,
      0 <= cur < Z.of_nat (length es) -> inv es cur [] -> P es cur ->
      P (expand R g es cur) (cur + 1)) ->
  forall (n : nat) (es : list TableEntry) (cur : Z),
    0 <= cur <= Z.of_nat (length es) -> inv es cur [] -> P es cur ->
    10 * R - cur < Z.of_nat n ->
    P (bfs R n g es cur) (Z.of_nat (length (bfs R n g es cur))) /\
    inv (bfs R n g es cur) (Z.of_nat (length (bfs R n g es cur))) [].
Proof.
  intros Hstep. induction n as [|n IH]; intros es cur Hcur Hinv HP Hn.
  - pose proof (table_length level R taps f0 r0 c0 R_ok _ _ _ Hinv). lia.
  - cbn [bfs]. destruct (Z.ltb_spec cur (Z.of_nat (length es))) as [Hlt|Hge].
    + destruct (expand_inv level R taps f0 r0 c0 R_ok r0_ok c0_ok es cur
                           ltac:(lia) Hinv) as [Hinv' Hlen].
      apply IH; [lia|exact Hinv'| |lia].
      apply Hstep; [lia|exact Hinv|exact HP].
    + replace (Z.of_nat (length es)) with cur by lia. auto.
Qed.

Lemma gen_run (P : list TableEntry -> Z -> Prop) :
  P (Push R g [] r0 c0 0 0) 0 ->
  (forall es cur,
      0 <= cur < Z.of_nat (length es) -> inv es cur [] -> P es cur ->
      P (expand R g es cur) (cur + 1)) ->
  P gen (Z.of_nat (length gen)) /\ inv gen (Z.of_nat (length gen)) [].
Proof.
  intros H0 Hstep. unfold Phase1TableGen. cbv zeta.
  apply (bfs_run P Hstep).
  - lia.
  - apply root_inv; assumption.
  - exact H0.
  - lia.
Qed.

Lemma fold_Push_shape (cur nt : Z) (l : list (Z * Z)) (es : list TableEntry) :
  0 <= cur < 256 -> 0 <= nt < 256 ->
  (forall k, In k l -> 0 <= fst k < 256 /\ 0 <= snd k < 256) ->
  fold_left (fun acc k => Push R g acc (fst k) (snd k) cur nt) l es
  = es ++ map (fun k => entry_of R g (fst k) (snd k) cur nt)
              (filter (fun k => negb (ga_cannot_reach g (fst k) (snd k))) l).
Proof.
  intros Hcur Hnt. revert es. induction l as [|k l IH]; intros es Hl.
  - cbn. rewrite app_nil_r. reflexivity.
  - cbn [fold_left filter]. rewrite IH by (intros k' Hk'; apply Hl; right; exact Hk').
    destruct (Hl k (or_introl eq_refl)) as [Hk1 Hk2].
    unfold Push at 1.
    rewrite (u8_small (fst k)), (u8_small (snd k)), (u8_small cur),
      (u8_small nt) by lia.
    destruct (negb (ga_cannot_reach g (fst k) (snd k))); [|reflexivity].
    cbn [map]. rewrite <- app_assoc. reflexivity.
Qed.

(** One turn of the loop appends the entries of the cells that the
    current entry pushes and that can be reached, in the order of the
    pushes. *)
Lemma expand_shape (es : list TableEntry) (cur : Z) (ec : TableEntry) :
  inv es cur [] -> 0 <= cur ->
  nth_error es (Z.to_nat cur) = Some ec ->
  expand R g es cur
  = es ++ map (fun k => entry_of R g (fst k) (snd k) cur (num_taps ec + 1))
              (filter (fun k => negb (ga_cannot_reach g (fst k) (snd k)))
                      (pushes_of R r0 c0 (key ec))).
Proof.
  intros Hinv Hcur Hec.
  assert (Hat : entry_at es cur = ec).
  { unfold entry_at. apply nth_error_nth. exact Hec. }
  assert (Hecin : In ec es) by (eapply nth_error_In; eassumption).
  assert (Hlt : cur < Z.of_nat (length es)).
  { assert (Z.to_nat cur < length es)%nat by (apply nth_error_Some; congruence).
    lia. }
  pose proof (table_length level R taps f0 r0 c0 R_ok _ _ _ Hinv) as Hlen.
  destruct (inv_entries _ _ _ _ _ _ _ Hinv ec Hecin) as [Hcell [Hnt _]].
  pose proof (num_tap_of_bound R r0 c0 R_ok c0_ok _ Hcell) as Hb.
  rewrite expand_pushes. cbv zeta. rewrite Hat.
  rewrite (entry_pushes level R taps f0 r0 c0 es cur [] ec Hinv Hecin).
  apply fold_Push_shape.
  - lia.
  - simpl in Hb. lia.
  - intros k Hk.
    destruct (pushes_of_ok R r0 c0 R_ok r0_ok c0_ok _ _ Hcell Hk) as [Hkc _].
    apply cells_In in Hkc. lia.
Qed.

Lemma entry_fields (e : TableEntry) :
  In e gen ->
  (0 <= rot e < R /\ 0 <= col e < 10) /\
  num_taps e = num_tap_of R r0 c0 (rot e) (col e) /\
  0 <= num_taps e <= 9 /\
  ga_cannot_reach g (rot e) (col e) = false /\
  cannot_finish e = ga_cannot_finish g (rot e) (col e) /\
  masks e = map (ga_masks g (rot e) (col e)) (Zrange 0 R) /\
  masks_nodrop e = map (ga_masks_nodrop g (rot e) (col e)) (Zrange 0 R).
Proof.
  intros Hin.
  destruct (Phase1TableGen_entry level R taps f0 r0 c0 R_ok r0_ok c0_ok e Hin)
    as [Hcell [Hnt [Hreach He]]].
  pose proof (num_tap_of_bound R r0 c0 R_ok c0_ok _ Hcell) as Hb.
  apply cells_In in Hcell. simpl in Hcell, Hb.
  split; [exact Hcell|]. split; [exact Hnt|]. split; [lia|].
  split; [exact Hreach|].
  pose proof (f_equal cannot_finish He) as H1.
  pose proof (f_equal masks He) as H2.
  pose proof (f_equal masks_nodrop He) as H3.
  cbn in H1, H2, H3. auto.
Qed.

End TableFacts.

(** * Properties of the generated table *)

Lemma pushes_near (R last rt cl nt : Z) (k : Z * Z) :
  In k (pushes R last rt cl nt) ->
  (fst k = rt \/ fst k = Z.rem (rt + 1) R \/ fst k = Z.rem (rt + 3) R) /\
  (snd k = cl \/ snd k = cl - 1 \/ snd k = cl + 1).
Proof.
  unfold pushes. cbv zeta.
  destruct ((cl >? 0) && _); destruct ((cl <? 9) && _);
    destruct ((R >? 1) && _ || _); destruct ((R =? 4) && (nt =? 0));
    cbn [app In];
    intros H; repeat (destruct H as [<-|H]; [cbn; tauto|]); contradiction.
Qed.

Section TableProps.

Variable level : Level.
Variable R : Z.
Variable taps : TapTable.
Variables f0 r0 c0 : Z.
Hypothesis R_ok : R = 1 \/ R = 2 \/ R = 4.
Hypothesis r0_ok : 0 <= r0 < R.
Hypothesis c0_ok : 0 <= c0 < 10.

Local Abbreviation g := (gen_arrays level R taps f0 r0 c0).
Local Abbreviation gen := (Phase1TableGen level R taps f0 r0 c0).
Local Abbreviation inv := (table_inv R r0 c0 g).

Lemma root_reach : ga_cannot_reach g r0 c0 = (GetRow f0 level >=? 20).
Proof.
  destruct (gen_cell_flags level R taps f0 r0 c0 R_ok r0_ok c0_ok r0 c0
                           r0_ok c0_ok) as [H _].
  rewrite H, (root_num_tap R r0 c0 R_ok r0_ok c0_ok).
  unfold start_row_of. rewrite Z.eqb_refl, Z.add_0_l. reflexivity.
Qed.

Lemma expand_prefix (es : list TableEntry) (cur : Z) (j : nat)
      (e : TableEntry) :
  0 <= cur < Z.of_nat (length es) -> inv es cur [] ->
  nth_error es j = Some e -> nth_error (expand R g es cur) j = Some e.
Proof.
  intros Hcur Hinv Hj.
  destruct (nth_error es (Z.to_nat cur)) as [ec|] eqn:Hec;
    [|apply nth_error_None in Hec; lia].
  rewrite (expand_shape level R taps f0 r0 c0 R_ok r0_ok c0_ok es cur ec
                        Hinv ltac:(lia) Hec).
  rewrite nth_error_app1; [exact Hj|]. apply nth_error_Some. congruence.
Qed.

Lemma gen_blocked : 20 <= GetRow f0 level -> gen = [].
Proof.
  intros Hge. unfold Phase1TableGen. cbv zeta. unfold Push.
  rewrite (u8_small r0), (u8_small c0) by lia. rewrite root_reach.
  destruct (Z.geb_spec (GetRow f0 level) 20); [|lia]. cbn [negb].
  replace (Z.to_nat (10 * R) + 1)%nat with (S (Z.to_nat (10 * R))) by lia.
  reflexivity.
Qed.

Lemma gen_root :
  GetRow f0 level < 20 ->
  exists e, nth_error gen 0 = Some e /\
            rot e = r0 /\ col e = c0 /\ prev e = 0 /\ num_taps e = 0.
Proof.
  intros Hlt. exists (entry_of R g r0 c0 0 0).
  split; [|cbn; auto].
  apply (gen_run level R taps f0 r0 c0 R_ok r0_ok c0_ok
                 (fun es _ => nth_error es 0 = Some (entry_of R g r0 c0 0 0))).
  - unfold Push. rewrite (u8_small r0), (u8_small c0), (u8_small 0) by lia.
    rewrite root_reach.
    destruct (Z.geb_spec (GetRow f0 level) 20); [lia|]. reflexivity.
  - intros es cur Hcur Hinv H. apply expand_prefix; assumption.
Qed.

(** The entry of a cell with [nt + 1] taps starts on the frame on which
    the entry with [nt] taps ends. *)
Lemma start_row_succ (nt : Z) :
  0 <= nt ->
  start_row_of level taps f0 (nt + 1) = end_row_of level taps f0 nt.
Proof.
  intros Hnt. unfold start_row_of, end_row_of.
  destruct (Z.eqb_spec (nt + 1) 0); [lia|].
  replace (nt + 1 - 1) with nt by lia. reflexivity.
Qed.

Lemma gen_prev_link (j : nat) (e : TableEntry) :
  nth_error gen j = Some e -> j <> O ->
  exists ep,
    nth_error gen (Z.to_nat (prev e)) = Some ep /\
    cannot_finish ep = false /\
    num_taps e = num_taps ep + 1 /\
    (col e = col ep \/ col e = col ep - 1 \/ col e = col ep + 1) /\
    (rot e = rot ep \/ rot e = Z.rem (rot ep + 1) R
     \/ rot e = Z.rem (rot ep + 3) R).
Proof.
  intros Hj Hj0.
  destruct (Phase1TableGen_inv level R taps f0 r0 c0 R_ok r0_ok c0_ok)
    as [cur Hinv].
  destruct (inv_child _ _ _ _ _ _ _ Hinv j e Hj Hj0)
    as [_ [_ [ep [Hep Hpush]]]].
  assert (Hein : In e gen) by (eapply nth_error_In; eassumption).
  assert (Hepin : In ep gen) by (eapply nth_error_In; eassumption).
  destruct (entry_fields level R taps f0 r0 c0 R_ok r0_ok c0_ok e Hein)
    as [[Hr Hc] [Hnt [Hb [Hreach _]]]].
  destruct (entry_fields level R taps f0 r0 c0 R_ok r0_ok c0_ok ep Hepin)
    as [[Hr' Hc'] [Hnt' [Hb' [_ [Hfin _]]]]].
  assert (Hcell : In (key ep) (cells R)) by (apply cells_In; cbn; lia).
  destruct (pushes_of_ok R r0 c0 R_ok r0_ok c0_ok _ _ Hcell Hpush)
    as [_ Hstep].
  cbn [key fst snd] in Hstep. rewrite <- Hnt, <- Hnt' in Hstep.
  exists ep. split; [exact Hep|]. split; [|split; [exact Hstep|]].
  - rewrite Hfin.
    destruct (gen_cell_flags level R taps f0 r0 c0 R_ok r0_ok c0_ok
                             (rot ep) (col ep) Hr' Hc') as [_ ->].
    destruct (gen_cell_flags level R taps f0 r0 c0 R_ok r0_ok c0_ok
                             (rot e) (col e) Hr Hc) as [Hre _].
    rewrite Hreach in Hre. rewrite <- Hnt, Hstep in Hre.
    rewrite start_row_succ in Hre by lia.
    rewrite <- Hnt', <- Hre. apply andb_false_r.
  - unfold pushes_of in Hpush. apply pushes_near in Hpush.
    cbn [key fst snd] in Hpush. tauto.
Qed.

(** The tap counts go up along the table. *)
Lemma gen_ascending :
  forall (i j : nat) (ei ej : TableEntry),
    nth_error gen i = Some ei -> nth_error gen j = Some ej -> (i <= j)%nat ->
    num_taps ei <= num_taps ej.
Proof.
  set (P := fun (es : list TableEntry) (cur : Z) =>
              (forall (i j : nat) (ei ej : TableEntry),
                  nth_error es i = Some ei -> nth_error es j = Some ej ->
                  (i <= j)%nat -> num_taps ei <= num_taps ej) /\
              (forall ec e,
                  nth_error es (Z.to_nat cur) = Some ec -> In e es ->
                  num_taps e <= num_taps ec + 1)).
  assert (H : P gen (Z.of_nat (length gen))).
  { apply (gen_run level R taps f0 r0 c0 R_ok r0_ok c0_ok P).
    - unfold P, Push.
      destruct (negb _);
        [set (e0 := mkTableEntry _ _ _ _ _ _ _); change ([] ++ [e0]) with [e0]|];
        split.
      + intros [|[|i]] [|[|j]] ei ej Hi Hj; cbn [nth_error] in Hi, Hj;
          try discriminate.
        injection Hi as <-. injection Hj as <-. lia.
      + intros ec e Hec [<-|[]]. change (Z.to_nat 0) with O in Hec.
        cbn [nth_error] in Hec. injection Hec as <-. lia.
      + intros [|i] j ei ej Hi; discriminate.
      + intros ec e _ [].
    - intros es cur Hcur Hinv [Hsorted Hbound].
      destruct (nth_error es (Z.to_nat cur)) as [ec|] eqn:Hec;
        [|apply nth_error_None in Hec; lia].
      rewrite (expand_shape level R taps f0 r0 c0 R_ok r0_ok c0_ok es cur ec
                            Hinv ltac:(lia) Hec).
      set (added := map _ _).
      assert (Hadded : forall e, In e added -> num_taps e = num_taps ec + 1).
      { intros e He. unfold added in He. apply in_map_iff in He.
        destruct He as [k [<- _]]. reflexivity. }
      assert (Hall : forall e, In e (es ++ added) ->
                               num_taps e <= num_taps ec + 1).
      { intros e He. apply in_app_or in He. destruct He as [He|He].
        - apply (Hbound ec e eq_refl He).
        - rewrite (Hadded e He). lia. }
      assert (Hsorted' :
                forall (i j : nat) (ei ej : TableEntry),
                  nth_error (es ++ added) i = Some ei ->
                  nth_error (es ++ added) j = Some ej ->
                  (i <= j)%nat -> num_taps ei <= num_taps ej).
      { intros i j ei ej Hi Hj Hij.
        destruct (Nat.lt_ge_cases j (length es)) as [Hjl|Hjl].
        - rewrite nth_error_app1 in Hi by lia.
          rewrite nth_error_app1 in Hj by lia.
          apply (Hsorted i j ei ej Hi Hj Hij).
        - rewrite nth_error_app2 in Hj by lia.
          apply nth_error_In in Hj. rewrite (Hadded ej Hj).
          apply Hall. eapply nth_error_In. exact Hi. }
      split; [exact Hsorted'|].
      intros ec' e Hec' He.
      assert (Hle : num_taps ec <= num_taps ec').
      { apply (Hsorted' (Z.to_nat cur) (Z.to_nat (cur + 1)) ec ec').
        - rewrite nth_error_app1; [exact Hec|].
          apply nth_error_Some. congruence.
        - exact Hec'.
        - lia. }
      specialize (Hall e He). lia. }
  exact (proj1 H).
Qed.

End TableProps.

(** X10: the table starts with the start cell, and is empty when the
    piece is already below the board on the initial frame:
    [Phase1TableGen] returns no entry when [GetRow(initial_frame) >= 20],
    and otherwise entry 0 is [(initial_rot, initial_col)] with [prev = 0]
    and no tap. *)
Theorem Phase1TableGen_first_entry (level : Level) (R : Z) (taps : TapTable)
        (initial_frame initial_rot initial_col : Z) :
  R = 1 \/ R = 2 \/ R = 4 ->
  0 <= initial_rot < R -> 0 <= initial_col < 10 ->
  let entries :=
    Phase1TableGen level R taps initial_frame initial_rot initial_col in
  (20 <= GetRow initial_frame level -> entries = []) /\
  (GetRow initial_frame level < 20 ->
   exists e, nth_error entries 0 = Some e /\
             rot e = initial_rot /\ col e = initial_col /\
             prev e = 0 /\ num_taps e = 0).
Proof.
  intros HR Hr Hc entries. split.
  - apply gen_blocked; assumption.
  - apply gen_root; assumption.
Qed.

Lemma Phase1TableGen_first_entry_witness :
  (20 <= GetRow 70 kLevel18 -> Phase1TableGen kLevel18 4 Tap30Hz 70 2 3 = []) /\
  (GetRow 70 kLevel18 < 20 ->
   exists e, nth_error (Phase1TableGen kLevel18 4 Tap30Hz 70 2 3) 0 = Some e /\
             rot e = 2 /\ col e = 3 /\ prev e = 0 /\ num_taps e = 0).
Proof.
  apply (Phase1TableGen_first_entry kLevel18 4 Tap30Hz 70 2 3); lia.
Defined.

(** X11: every entry but the first is one tap away from its [prev]
    entry: [prev] is the index of an entry of the table that has one tap
    less, that can finish ([cannot_finish] is false, so that its [masks]
    may be used), whose column differs by at most one and whose rotation
    is the same or one rotation step (A or B) away. *)
Theorem Phase1TableGen_prev_one_tap (level : Level) (R : Z) (taps : TapTable)
        (initial_frame initial_rot initial_col : Z) (j : nat)
        (e : TableEntry) :
  R = 1 \/ R = 2 \/ R = 4 ->
  0 <= initial_rot < R -> 0 <= initial_col < 10 ->
  let entries :=
    Phase1TableGen level R taps initial_frame initial_rot initial_col in
  nth_error entries j = Some e -> j <> O ->
  exists ep,
    nth_error entries (Z.to_nat (prev e)) = Some ep /\
    cannot_finish ep = false /\
    num_taps e = num_taps ep + 1 /\
    (col e = col ep \/ col e = col ep - 1 \/ col e = col ep + 1) /\
    (rot e = rot ep \/ rot e = Z.rem (rot ep + 1) R
     \/ rot e = Z.rem (rot ep + 3) R).
Proof.
  intros HR Hr Hc entries. apply gen_prev_link; assumption.
Qed.

Lemma Phase1TableGen_prev_one_tap_witness :
  exists ep,
    nth_error (Phase1TableGen kLevel18 4 Tap30Hz 0 0 5)
              (Z.to_nat (prev (entry_at (Phase1TableGen kLevel18 4 Tap30Hz 0 0 5)
                                        12)))
    = Some ep /\
    cannot_finish ep = false /\
    num_taps (entry_at (Phase1TableGen kLevel18 4 Tap30Hz 0 0 5) 12)
    = num_taps ep + 1.
Proof.
  destruct (Phase1TableGen_prev_one_tap
              kLevel18 4 Tap30Hz 0 0 5 12
              (entry_at (Phase1TableGen kLevel18 4 Tap30Hz 0 0 5) 12))
    as [ep [H1 [H2 [H3 _]]]]; try lia.
  - vm_compute. reflexivity.
  - exists ep. auto.
Defined.

(** X12: the tap count of an entry is the closed form that the first
    loop computes for its cell, the larger of the column distance
    [|col - initial_col|] and of the rotation taps (0, 1, 2, 1 for the
    rotation steps 0, 1, 2, 3), and it is at most 9: the depth of the
    entry in the breadth-first order is the minimum number of taps. *)
Theorem Phase1TableGen_num_taps (level : Level) (R : Z) (taps : TapTable)
        (initial_frame initial_rot initial_col : Z) (e : TableEntry) :
  R = 1 \/ R = 2 \/ R = 4 ->
  0 <= initial_rot < R -> 0 <= initial_col < 10 ->
  In e (Phase1TableGen level R taps initial_frame initial_rot initial_col) ->
  let delta_rot := (rot e - initial_rot) mod R in
  Z.rem (initial_rot + delta_rot) R = rot e /\
  num_taps e
  = Z.max (if delta_rot =? 3 then 1 else delta_rot)
          (abs (col e - initial_col)) /\
  0 <= num_taps e <= 9.
Proof.
  intros HR Hr Hc Hin delta_rot.
  destruct (entry_fields level R taps initial_frame initial_rot initial_col
                         HR Hr Hc e Hin) as [[Hre Hce] [Hnt [Hb _]]].
  split; [|split; [exact Hnt|exact Hb]].
  apply (rot_of_delta R initial_rot HR Hr (rot e) Hre).
Qed.

Lemma Phase1TableGen_num_taps_witness :
  num_taps (entry_at (Phase1TableGen kLevel18 4 Tap30Hz 0 0 5) 12)
  = Z.max (if (rot (entry_at (Phase1TableGen kLevel18 4 Tap30Hz 0 0 5) 12) - 0)
                mod 4 =? 3
           then 1
           else (rot (entry_at (Phase1TableGen kLevel18 4 Tap30Hz 0 0 5) 12) - 0)
                  mod 4)
          (abs (col (entry_at (Phase1TableGen kLevel18 4 Tap30Hz 0 0 5) 12) - 5)).
Proof.
  refine (proj1 (proj2 (Phase1TableGen_num_taps
                          kLevel18 4 Tap30Hz 0 0 5
                          (entry_at (Phase1TableGen kLevel18 4 Tap30Hz 0 0 5) 12)
                          _ _ _ _))); try lia.
  vm_compute. do 12 right. left. reflexivity.
Defined.

(** X13: the entries are built in ascending tap count: an entry never has
    fewer taps than an entry before it in the table. *)
Theorem Phase1TableGen_ascending_taps (level : Level) (R : Z)
        (taps : TapTable) (initial_frame initial_rot initial_col : Z)
        (i j : nat) (ei ej : TableEntry) :
  R = 1 \/ R = 2 \/ R = 4 ->
  0 <= initial_rot < R -> 0 <= initial_col < 10 ->
  let entries :=
    Phase1TableGen level R taps initial_frame initial_rot initial_col in
  nth_error entries i = Some ei -> nth_error entries j = Some ej ->
  (i <= j)%nat ->
  num_taps ei <= num_taps ej.
Proof.
  intros HR Hr Hc entries. apply gen_ascending; assumption.
Qed.

Lemma Phase1TableGen_ascending_taps_witness :
  num_taps (entry_at (Phase1TableGen kLevel18 4 Tap30Hz 0 0 5) 3)
  <= num_taps (entry_at (Phase1TableGen kLevel18 4 Tap30Hz 0 0 5) 12).
Proof.
  apply (Phase1TableGen_ascending_taps kLevel18 4 Tap30Hz 0 0 5 3 12);
    try lia; vm_compute; reflexivity.
Defined.

(** * The masks of an entry *)

Ltac bool_cases :=
  repeat match goal with
         | |- context [Z.eqb ?a ?b] => destruct (Z.eqb_spec a b)
         | |- context [Z.leb ?a ?b] => destruct (Z.leb_spec a b)
         | |- context [Z.ltb ?a ?b] => destruct (Z.ltb_spec a b)
         end;
  cbn [andb orb negb]; try reflexivity; try lia.

Lemma Board_Set_test (b : Board) (row cl n : Z) :
  0 <= 20 * cl + row ->
  Z.testbit (Board_Set b row cl) n = Z.testbit b n || (n =? 20 * cl + row).
Proof.
  intros H. unfold Board_Set.
  rewrite Z.lor_spec, Z.shiftl_1_l, Z.pow2_bits_eqb by lia.
  f_equal. apply Z.eqb_sym.
Qed.

Lemma aset_Set_test (cur : Z -> Board) (i row cl k n : Z) :
  0 <= 20 * cl + row ->
  Z.testbit (aset cur i (Board_Set (cur i) row cl) k) n
  = Z.testbit (cur k) n || ((k =? i) && (n =? 20 * cl + row)).
Proof.
  intros H. unfold aset. destruct (Z.eqb_spec k i) as [->|Hne].
  - rewrite Board_Set_test by exact H. reflexivity.
  - cbn [andb]. rewrite orb_false_r. reflexivity.
Qed.

(** One frame of the inner loop stamps the rows from the row of the frame
    to the row of the next frame. *)
Lemma stamp_frame_test (level : Level) (rt cl : Z) (cur : Z -> Board)
      (f k n : Z) :
  0 <= f -> 0 <= cl ->
  Z.testbit (stamp_frame level rt cl cur f k) n
  = Z.testbit (cur k) n
    || ((k =? rt) && (20 * cl + GetRow f level <=? n)
        && (n <=? 20 * cl + GetRow (f + 1) level)).
Proof.
  intros Hf Hcl.
  pose proof (GetRow_nonneg f level Hf) as Hrow.
  pose proof (GetRow_next f level Hf) as Hnext.
  unfold stamp_frame. cbv zeta. unfold NumDrops in Hnext.
  destruct (IsDropFrame f level) eqn:Ed; cbn [negb] in Hnext.
  - destruct level; rewrite !aset_Set_test by lia; rewrite Hnext;
      destruct (Z.testbit (cur k) n); cbn [orb]; try reflexivity;
      destruct (Z.eqb_spec k rt); cbn [andb orb]; try reflexivity;
      bool_cases.
  - assert (Hl : level = kLevel18 \/ level = kLevel19)
      by (destruct level; auto; discriminate).
    rewrite !aset_Set_test by lia. rewrite Hnext.
    destruct (Z.testbit (cur k) n); cbn [orb]; try reflexivity.
    destruct (Z.eqb_spec k rt); cbn [andb orb]; try reflexivity.
    destruct Hl as [->| ->]; bool_cases.
Qed.

Lemma stamp_frames_test (level : Level) (rt cl : Z) (m : nat) (a : Z)
      (cur : Z -> Board) (k n : Z) :
  0 <= a -> 0 <= cl ->
  Z.testbit (fold_left (stamp_frame level rt cl) (Zseq a m) cur k) n
  = Z.testbit (cur k) n
    || ((k =? rt) && (0 <? Z.of_nat m) && (20 * cl + GetRow a level <=? n)
        && (n <=? 20 * cl + GetRow (a + Z.of_nat m) level)).
Proof.
  revert a cur. induction m as [|m IH]; intros a cur Ha Hcl.
  - cbn [Zseq fold_left]. change (0 <? Z.of_nat 0) with false.
    rewrite andb_false_r. cbn [andb]. rewrite orb_false_r. reflexivity.
  - cbn [Zseq fold_left]. rewrite IH by lia.
    rewrite stamp_frame_test by lia.
    replace (a + 1 + Z.of_nat m) with (a + Z.of_nat (S m)) by lia.
    pose proof (GetRow_mono a (a + 1) level ltac:(lia)).
    pose proof (GetRow_mono (a + 1) (a + Z.of_nat (S m)) level ltac:(lia)).
    destruct (Z.testbit (cur k) n); cbn [orb]; try reflexivity.
    destruct (Z.eqb_spec k rt); cbn [andb orb]; try reflexivity.
    destruct m as [|m].
    + replace (a + Z.of_nat 1) with (a + 1) by lia.
      change (0 <? Z.of_nat 0) with false. change (0 <? Z.of_nat 1) with true.
      cbn [andb]. rewrite orb_false_r. reflexivity.
    + assert (H1 : (0 <? Z.of_nat (S m)) = true) by (apply Z.ltb_lt; lia).
      assert (H2 : (0 <? Z.of_nat (S (S m))) = true) by (apply Z.ltb_lt; lia).
      rewrite H1, H2. cbn [andb]. bool_cases.
Qed.

Lemma shift_back_range (c0 cl : Z) (b : bool) :
  0 <= c0 < 10 -> 0 <= cl < 10 ->
  0 <= (if b then cl - sgn (cl - c0) else cl) < 10.
Proof.
  intros Hc0 Hcl. destruct b; [|lia]. unfold sgn.
  destruct (Z.eqb_spec (cl - c0) 0); [lia|].
  rewrite Z.gtb_ltb. destruct (Z.ltb_spec 0 (cl - c0)); lia.
Qed.

Lemma rot_back_range (R r0 rt : Z) (b c : bool) :
  0 < R -> 0 <= r0 -> 0 <= rt < R ->
  0 <= (if b then Z.rem ((if c then 1 else 0) + r0) R else rt) < R.
Proof.
  intros HR Hr0 Hrt. destruct b; [|exact Hrt].
  apply Z.rem_bound_pos; [|lia]. destruct c; lia.
Qed.

Section CellMasks.

Variable level : Level.
Variable R : Z.
Variable taps : TapTable.
Variables f0 r0 c0 : Z.
Hypothesis R_ok : R = 1 \/ R = 2 \/ R = 4.
Hypothesis r0_ok : 0 <= r0 < R.
Hypothesis c0_ok : 0 <= c0 < 10.

Local Abbreviation g := (gen_arrays level R taps f0 r0 c0).

Variables rt cl : Z.
Hypothesis rt_ok : 0 <= rt < R.
Hypothesis cl_ok : 0 <= cl < 10.

Local Abbreviation delta_rot := (delta_rot_of R r0 rt).
Local Abbreviation num_lr_tap := (abs (cl - c0)).
Local Abbreviation num_ab_tap := (if delta_rot =? 3 then 1 else delta_rot).
Local Abbreviation num_tap := (Z.max num_ab_tap num_lr_tap).
Local Abbreviation start_frame :=
  ((if num_tap =? 0 then 0 else tap_at taps (num_tap - 1)) + f0).
Local Abbreviation end_frame := (tap_at taps num_tap + f0).
Local Abbreviation start_row := (GetRow start_frame level).
Local Abbreviation start_col :=
  (if num_tap =? num_lr_tap then cl - sgn (cl - c0) else cl).
Local Abbreviation start_rot :=
  (if num_tap =? num_ab_tap
   then Z.rem ((if delta_rot =? 2 then 1 else 0) + r0) R
   else rt).
Local Abbreviation nodrop :=
  (aset (aset (aset (fun _ : Z => Board_zero) start_rot
                    (Board_Set Board_zero start_row start_col))
              start_rot
              (Board_Set (aset (fun _ : Z => Board_zero) start_rot
                               (Board_Set Board_zero start_row start_col)
                               start_rot)
                         start_row cl))
        rt
        (Board_Set
           (aset (aset (fun _ : Z => Board_zero) start_rot
                       (Board_Set Board_zero start_row start_col))
                 start_rot
                 (Board_Set (aset (fun _ : Z => Board_zero) start_rot
                                  (Board_Set Board_zero start_row start_col)
                                  start_rot)
                            start_row cl)
                 rt)
           start_row cl)).

(** The two mask cells of a cell of the board, as the iteration of the
    cell computes them. *)
Lemma cell_masks_value :
  ga_cannot_reach g rt cl = false ->
  ga_masks_nodrop g rt cl = nodrop /\
  ga_masks g rt cl
  = if ga_cannot_finish g rt cl then nodrop
    else fold_left (stamp_frame level rt cl) (Zrange start_frame end_frame)
                   nodrop.
Proof.
  destruct (gen_arrays_local level R taps f0 r0 c0 R_ok r0_ok c0_ok rt cl
                             rt_ok cl_ok) as [H1 [H2 [H3 H4]]].
  rewrite H1, H2, H3, H4. unfold gen_cell, gen_body.
  pose proof (delta_rot_of_range R r0 R_ok rt rt_ok) as Hdr.
  pose proof (rot_of_delta R r0 R_ok r0_ok rt rt_ok) as Hrot.
  destruct (delta_not_skipped R r0 R_ok r0_ok _ Hdr) as [E1 E2].
  rewrite E1, E2. cbv zeta. rewrite Hrot.
  destruct (start_row >=? 20);
    [|destruct (GetRow end_frame level >=? 20)];
    cbn [ga_cannot_reach ga_cannot_finish ga_masks ga_masks_nodrop gen_init];
    rewrite ?aset2_same; try discriminate; intros _; split; reflexivity.
Qed.

Lemma nodrop_test (k n : Z) :
  0 <= start_row ->
  Z.testbit (nodrop k) n
  = ((k =? start_rot) && (n =? 20 * start_col + start_row))
    || ((k =? start_rot) && (n =? 20 * cl + start_row))
    || ((k =? rt) && (n =? 20 * cl + start_row)).
Proof.
  intros Hrow.
  assert (Hsc : 0 <= start_col).
  { apply (proj1 (shift_back_range c0 cl _ c0_ok cl_ok)). }
  rewrite !aset_Set_test by lia.
  unfold Board_zero. rewrite Z.bits_0. reflexivity.
Qed.

End CellMasks.

Section EntryMasks.

Variable level : Level.
Variable R : Z.
Variable deltas : list Z.
Variables f0 r0 c0 : Z.
Hypothesis R_ok : R = 1 \/ R = 2 \/ R = 4.
Hypothesis r0_ok : 0 <= r0 < R.
Hypothesis c0_ok : 0 <= c0 < 10.
Hypothesis f0_ok : 0 <= f0.
Hypothesis deltas_ok : taps_ok deltas.

Local Abbreviation taps := (mkTapTable deltas).
Local Abbreviation g := (gen_arrays level R taps f0 r0 c0).
Local Abbreviation gen := (Phase1TableGen level R taps f0 r0 c0).

Lemma tap_frames_ordered (nt : Z) :
  0 <= nt <= 9 ->
  0 <= (if nt =? 0 then 0 else tap_at taps (nt - 1)) + f0
  <= tap_at taps nt + f0.
Proof.
  intros Hnt. pose proof (tap_at_nonneg deltas nt deltas_ok).
  destruct (Z.eqb_spec nt 0) as [->|Hne]; [lia|].
  pose proof (tap_at_nonneg deltas (nt - 1) deltas_ok).
  pose proof (tap_at_spaced deltas (nt - 1) nt deltas_ok ltac:(lia) ltac:(lia)
                            ltac:(lia)).
  lia.
Qed.

Lemma entry_masks_nodrop (e : TableEntry) (k n : Z) :
  In e gen -> 0 <= k < R ->
  let delta_rot := (rot e - r0) mod R in
  let num_lr_tap := abs (col e - c0) in
  let num_ab_tap := if delta_rot =? 3 then 1 else delta_rot in
  let start_frame :=
    (if num_taps e =? 0 then 0 else tap_at taps (num_taps e - 1)) + f0 in
  let start_row := GetRow start_frame level in
  let start_col :=
    if num_taps e =? num_lr_tap then col e - sgn (col e - c0) else col e in
  let start_rot :=
    if num_taps e =? num_ab_tap
    then Z.rem ((if delta_rot =? 2 then 1 else 0) + r0) R
    else rot e in
  (0 <= start_row < 20 /\ 0 <= start_col < 10 /\ 0 <= start_rot < R) /\
  (Z.testbit (board_at (masks_nodrop e) k) n = true <->
   (k = start_rot /\
    (n = 20 * start_col + start_row \/ n = 20 * col e + start_row))
   \/ (k = rot e /\ n = 20 * col e + start_row)).
Proof.
  intros Hin Hk.
  destruct (entry_fields level R taps f0 r0 c0 R_ok r0_ok c0_ok e Hin)
    as [[Hr Hc] [Hnt [Hb [Hreach [_ [_ Hnd]]]]]].
  pose proof (tap_frames_ordered (num_taps e) Hb) as Hfr.
  pose proof (GetRow_nonneg _ level (proj1 Hfr)) as Hrow.
  destruct (gen_cell_flags level R taps f0 r0 c0 R_ok r0_ok c0_ok
                           (rot e) (col e) Hr Hc) as [Hcr _].
  rewrite Hreach, <- Hnt in Hcr. unfold start_row_of in Hcr.
  destruct (cell_masks_value level R taps f0 r0 c0 R_ok r0_ok c0_ok
                             (rot e) (col e) Hr Hc Hreach) as [Hval _].
  unfold num_tap_of, delta_rot_of in Hnt. unfold delta_rot_of in Hval.
  rewrite <- Hnt in Hval.
  cbv zeta. split.
  - split; [|split].
    + destruct (Z.geb_spec
                  (GetRow ((if num_taps e =? 0 then 0
                            else tap_at taps (num_taps e - 1)) + f0) level)
                  20); [discriminate|lia].
    + apply shift_back_range; assumption.
    + apply rot_back_range; [lia|lia|exact Hr].
  - rewrite Hnd, board_at_map by exact Hk. rewrite Hval.
    pose proof (nodrop_test level R taps f0 r0 c0 c0_ok (rot e) (col e) Hc k n)
      as Htest.
    unfold delta_rot_of in Htest. rewrite <- Hnt in Htest.
    rewrite Htest by exact Hrow. clear Htest.
    rewrite !orb_true_iff, !andb_true_iff, !Z.eqb_eq. tauto.
Qed.

Lemma entry_masks_sub (e : TableEntry) :
  In e gen ->
  Contains R (masks e) (masks_nodrop e) = true /\
  (cannot_finish e = true -> masks e = masks_nodrop e).
Proof.
  intros Hin.
  destruct (entry_fields level R taps f0 r0 c0 R_ok r0_ok c0_ok e Hin)
    as [[Hr Hc] [Hnt [Hb [Hreach [Hfin [Hm Hnd]]]]]].
  destruct (cell_masks_value level R taps f0 r0 c0 R_ok r0_ok c0_ok
                             (rot e) (col e) Hr Hc Hreach) as [Hv1 Hv2].
  split.
  - apply Contains_bits. intros k n Hk.
    rewrite Hm, Hnd, !board_at_map by exact Hk. rewrite Hv1, Hv2.
    destruct (ga_cannot_finish _ _ _); [auto|].
    apply stamp_frames_keep.
  - intros Hcf. rewrite Hfin in Hcf. rewrite Hcf in Hv2.
    rewrite Hm, Hnd, Hv1, Hv2. reflexivity.
Qed.

Lemma entry_masks_path (e : TableEntry) (k n : Z) :
  In e gen -> 0 <= k < R -> cannot_finish e = false ->
  let start_frame :=
    (if num_taps e =? 0 then 0 else tap_at taps (num_taps e - 1)) + f0 in
  let end_frame := tap_at taps (num_taps e) + f0 in
  GetRow end_frame level < 20 /\
  (Z.testbit (board_at (masks e) k) n = true <->
   Z.testbit (board_at (masks_nodrop e) k) n = true
   \/ (k = rot e /\
       20 * col e + GetRow start_frame level <= n
       <= 20 * col e + GetRow end_frame level)).
Proof.
  intros Hin Hk Hcf.
  destruct (entry_masks_nodrop e k n Hin Hk) as [_ Hnodrop].
  cbv zeta in Hnodrop.
  destruct (entry_fields level R taps f0 r0 c0 R_ok r0_ok c0_ok e Hin)
    as [[Hr Hc] [Hnt [Hb [Hreach [Hfin [Hm Hnd]]]]]].
  pose proof (tap_frames_ordered (num_taps e) Hb) as Hfr.
  destruct (gen_cell_flags level R taps f0 r0 c0 R_ok r0_ok c0_ok
                           (rot e) (col e) Hr Hc) as [Hcr Hcfin].
  rewrite Hreach in Hcr. rewrite <- Hfin, Hcf, <- Hcr, <- Hnt in Hcfin.
  cbn [negb andb] in Hcfin. unfold end_row_of in Hcfin.
  destruct (cell_masks_value level R taps f0 r0 c0 R_ok r0_ok c0_ok
                             (rot e) (col e) Hr Hc Hreach) as [Hv1 Hv2].
  rewrite <- Hfin, Hcf in Hv2.
  unfold num_tap_of, delta_rot_of in Hnt. unfold delta_rot_of in Hv1, Hv2.
  rewrite <- Hnt in Hv1, Hv2.
  cbv zeta. split.
  - destruct (Z.geb_spec (GetRow (tap_at taps (num_taps e) + f0) level) 20);
      [discriminate|lia].
  - rewrite Hnodrop.
    rewrite Hm, board_at_map by exact Hk. rewrite Hv2.
    unfold Zrange. rewrite stamp_frames_test by lia.
    replace ((if num_taps e =? 0 then 0 else tap_at taps (num_taps e - 1)) + f0
             + Z.of_nat
                 (Z.to_nat
                    (tap_at taps (num_taps e) + f0
                     - ((if num_taps e =? 0 then 0
                         else tap_at taps (num_taps e - 1)) + f0))))
      with (tap_at taps (num_taps e) + f0) by lia.
    rewrite <- Hv1, <- (board_at_map (ga_masks_nodrop g (rot e) (col e)) R k Hk).
    rewrite <- Hnd, orb_true_iff, Hnodrop.
    rewrite !andb_true_iff, Z.eqb_eq, Z.ltb_lt, !Z.leb_le.
    pose proof (GetRow_mono _ _ level Hfr) as Hmono.
    split.
    + intros [H|[[[Hkr Hpos] Hlo] Hhi]]; [left; exact H|right; lia].
    + intros [H|[Hkr Hrange]]; [left; exact H|].
      destruct (Z.eq_dec
                  ((if num_taps e =? 0 then 0
                    else tap_at taps (num_taps e - 1)) + f0)
                  (tap_at taps (num_taps e) + f0)) as [E|E].
      * left. right. rewrite E in *. split; [exact Hkr|lia].
      * right. repeat split; try lia; exact Hkr.
Qed.

End EntryMasks.

Ltac taps_ok_tac :=
  split; [reflexivity|]; split; [simpl; lia|];
  let i := fresh "i" in
  let Hi := fresh "Hi" in
  intros i Hi; do 10 (destruct i as [|i]; [simpl; lia|]); lia.

(** X14: in every entry of the table [masks_nodrop] is a subset of
    [masks]: [Contains(masks, masks_nodrop)] holds; and when
    [cannot_finish] is set the two are equal, the cells of the fall after
    the tap not being stamped. *)
Theorem TableEntry_nodrop_within_masks (level : Level) (R : Z)
        (deltas : list Z) (initial_frame initial_rot initial_col : Z)
        (e : TableEntry) :
  R = 1 \/ R = 2 \/ R = 4 ->
  0 <= initial_rot < R -> 0 <= initial_col < 10 ->
  In e (Phase1TableGen level R (mkTapTable deltas) initial_frame initial_rot
                       initial_col) ->
  Contains R (masks e) (masks_nodrop e) = true /\
  (cannot_finish e = true -> masks e = masks_nodrop e).
Proof.
  intros HR Hr Hc. apply entry_masks_sub; assumption.
Qed.

Lemma TableEntry_nodrop_within_masks_witness :
  let e := entry_at (Phase1TableGen kLevel18 4 Tap30Hz 0 0 5) 12 in
  Contains 4 (masks e) (masks_nodrop e) = true.
Proof.
  intros e.
  refine (proj1 (TableEntry_nodrop_within_masks
                   kLevel18 4 [0; 2; 2; 2; 2; 2; 2; 2; 2; 2] 0 0 5 e
                   _ _ _ _)); try lia.
  vm_compute. do 12 right. left. reflexivity.
Defined.

(** X15: [masks_nodrop] of an entry holds exactly the cells of its tap:
    the cell before the tap [(start_rot, start_row, start_col)], the cell
    after the shift [(start_rot, start_row, col)] and the cell after the
    rotation [(rot, start_row, col)], where [start_row] is the row of the
    frame of the tap; all three are on the board. *)
Theorem TableEntry_masks_nodrop_cells (level : Level) (R : Z)
        (deltas : list Z) (initial_frame initial_rot initial_col : Z)
        (e : TableEntry) (k n : Z) :
  R = 1 \/ R = 2 \/ R = 4 ->
  0 <= initial_rot < R -> 0 <= initial_col < 10 -> 0 <= initial_frame ->
  taps_ok deltas ->
  In e (Phase1TableGen level R (mkTapTable deltas) initial_frame initial_rot
                       initial_col) ->
  0 <= k < R ->
  let taps := mkTapTable deltas in
  let delta_rot := (rot e - initial_rot) mod R in
  let num_lr_tap := abs (col e - initial_col) in
  let num_ab_tap := if delta_rot =? 3 then 1 else delta_rot in
  let start_frame :=
    (if num_taps e =? 0 then 0 else tap_at taps (num_taps e - 1))
    + initial_frame in
  let start_row := GetRow start_frame level in
  let start_col :=
    if num_taps e =? num_lr_tap
    then col e - sgn (col e - initial_col)
    else col e in
  let start_rot :=
    if num_taps e =? num_ab_tap
    then Z.rem ((if delta_rot =? 2 then 1 else 0) + initial_rot) R
    else rot e in
  (0 <= start_row < 20 /\ 0 <= start_col < 10 /\ 0 <= start_rot < R) /\
  (Z.testbit (board_at (masks_nodrop e) k) n = true <->
   (k = start_rot /\
    (n = 20 * start_col + start_row \/ n = 20 * col e + start_row))
   \/ (k = rot e /\ n = 20 * col e + start_row)).
Proof.
  intros HR Hr Hc Hf Hd Hin Hk.
  apply (entry_masks_nodrop level R deltas initial_frame initial_rot
                            initial_col HR Hr Hc Hf Hd e k n Hin Hk).
Qed.

Lemma TableEntry_masks_nodrop_cells_witness :
  let e := entry_at (Phase1TableGen kLevel18 4 Tap30Hz 0 0 5) 12 in
  0 <= GetRow ((if num_taps e =? 0 then 0
                else tap_at Tap30Hz (num_taps e - 1)) + 0) kLevel18 < 20.
Proof.
  intros e.
  refine (proj1 (proj1 (TableEntry_masks_nodrop_cells
                          kLevel18 4 [0; 2; 2; 2; 2; 2; 2; 2; 2; 2] 0 0 5 e
                          0 0 _ _ _ _ _ _ _))); try lia.
  - taps_ok_tac.
  - vm_compute. do 12 right. left. reflexivity.
Defined.

(** X16: [masks] of an entry that can finish holds the cells of
    [masks_nodrop] and, in the rotation and the column of the entry, the
    rows from the row of the tap to the row of the frame on which the next
    input is allowed, [GetRow(start_frame) .. GetRow(end_frame)], and
    nothing else; the last of these rows is on the board. *)
Theorem TableEntry_masks_cells (level : Level) (R : Z)
        (deltas : list Z) (initial_frame initial_rot initial_col : Z)
        (e : TableEntry) (k n : Z) :
  R = 1 \/ R = 2 \/ R = 4 ->
  0 <= initial_rot < R -> 0 <= initial_col < 10 -> 0 <= initial_frame ->
  taps_ok deltas ->
  In e (Phase1TableGen level R (mkTapTable deltas) initial_frame initial_rot
                       initial_col) ->
  0 <= k < R -> cannot_finish e = false ->
  let taps := mkTapTable deltas in
  let start_frame :=
    (if num_taps e =? 0 then 0 else tap_at taps (num_taps e - 1))
    + initial_frame in
  let end_frame := tap_at taps (num_taps e) + initial_frame in
  GetRow end_frame level < 20 /\
  (Z.testbit (board_at (masks e) k) n = true <->
   Z.testbit (board_at (masks_nodrop e) k) n = true
   \/ (k = rot e /\
       20 * col e + GetRow start_frame level <= n
       <= 20 * col e + GetRow end_frame level)).
Proof.
  intros HR Hr Hc Hf Hd Hin Hk Hcf.
  apply (entry_masks_path level R deltas initial_frame initial_rot
                          initial_col HR Hr Hc Hf Hd e k n Hin Hk Hcf).
Qed.

Lemma TableEntry_masks_cells_witness :
  let e := entry_at (Phase1TableGen kLevel18 4 Tap30Hz 0 0 5) 12 in
  GetRow (tap_at Tap30Hz (num_taps e) + 0) kLevel18 < 20.
Proof.
  intros e.
  refine (proj1 (TableEntry_masks_cells
                   kLevel18 4 [0; 2; 2; 2; 2; 2; 2; 2; 2; 2] 0 0 5 e
                   0 0 _ _ _ _ _ _ _ _)); try lia.
  - taps_ok_tac.
  - vm_compute. do 12 right. left. reflexivity.
  - vm_compute. reflexivity.
Defined.

(** * The table holds every cell that can be reached *)

Lemma trees_cover_true : trees_cover = true.
Proof. vm_compute. reflexivity. Qed.

Lemma existsb_key (k : Z * Z) (l : list (Z * Z)) :
  existsb (key_eqb k) l = true -> In k l.
Proof.
  intros H. apply existsb_exists in H. destruct H as [k' [Hin Heq]].
  apply key_eqb_eq in Heq. subst k'. exact Hin.
Qed.

Lemma tree_parent (R r0 c0 : Z) (k : Z * Z) :
  R = 1 \/ R = 2 \/ R = 4 -> 0 <= r0 < R -> 0 <= c0 < 10 ->
  In k (cells R) -> k <> (r0, c0) ->
  exists p, In p (cells R) /\ In k (pushes_of R r0 c0 p).
Proof.
  intros HR Hr Hc Hk Hne.
  pose proof trees_cover_true as H. unfold trees_cover in H.
  rewrite forallb_forall in H.
  assert (HRin : In R [1; 2; 4]) by (destruct HR as [->|[->| ->]]; simpl; auto).
  specialize (H R HRin). rewrite forallb_forall in H.
  specialize (H r0 (proj2 (Zrange_In r0 0 R) Hr)).
  rewrite forallb_forall in H.
  specialize (H c0 (proj2 (Zrange_In c0 0 10) Hc)).
  unfold tree_covers in H. cbv zeta in H. rewrite forallb_forall in H.
  specialize (H k Hk). apply orb_true_iff in H. destruct H as [H|H].
  - apply key_eqb_eq in H. contradiction.
  - apply existsb_key in H. apply in_flat_map in H. exact H.
Qed.

Section Complete.

Variable level : Level.
Variable R : Z.
Variable deltas : list Z.
Variables f0 r0 c0 : Z.
Hypothesis R_ok : R = 1 \/ R = 2 \/ R = 4.
Hypothesis r0_ok : 0 <= r0 < R.
Hypothesis c0_ok : 0 <= c0 < 10.
Hypothesis f0_ok : 0 <= f0.
Hypothesis deltas_ok : taps_ok deltas.

Local Abbreviation taps := (mkTapTable deltas).
Local Abbreviation g := (gen_arrays level R taps f0 r0 c0).
Local Abbreviation gen := (Phase1TableGen level R taps f0 r0 c0).
Local Abbreviation inv := (table_inv R r0 c0 g).

(** When the loop leaves, the cells that an entry pushes and that can be
    reached are all in the table. *)
Lemma gen_pushed (ep : TableEntry) (k : Z * Z) :
  In ep gen -> In k (pushes_of R r0 c0 (key ep)) ->
  ga_cannot_reach g (fst k) (snd k) = false ->
  In k (map key gen).
Proof.
  set (P := fun (es : list TableEntry) (cur : Z) =>
              forall (i : nat) (ei : TableEntry) (k : Z * Z),
                Z.of_nat i < cur -> nth_error es i = Some ei ->
                In k (pushes_of R r0 c0 (key ei)) ->
                ga_cannot_reach g (fst k) (snd k) = false ->
                In k (map key es)).
  assert (H : P gen (Z.of_nat (length gen))).
  { apply (gen_run level R taps f0 r0 c0 R_ok r0_ok c0_ok P).
    - unfold P. intros i ei k' Hi. lia.
    - unfold P. intros es cur Hcur Hinv IH i ei k' Hi Hei Hpush Hreach.
      destruct (nth_error es (Z.to_nat cur)) as [ec|] eqn:Hec;
        [|apply nth_error_None in Hec; lia].
      rewrite (expand_shape level R taps f0 r0 c0 R_ok r0_ok c0_ok es cur ec
                            Hinv ltac:(lia) Hec) in Hei |- *.
      rewrite map_app. apply in_or_app.
      destruct (Z.eq_dec (Z.of_nat i) cur) as [E|E].
      + right. rewrite nth_error_app1 in Hei
          by (apply nth_error_Some; subst cur; rewrite Nat2Z.id in Hec;
              congruence).
        subst cur. rewrite Nat2Z.id in Hec. rewrite Hec in Hei.
        injection Hei as <-.
        rewrite map_map. apply in_map_iff. exists k'. split.
        * destruct k'; reflexivity.
        * apply filter_In. split; [exact Hpush|]. rewrite Hreach. reflexivity.
      + left. rewrite nth_error_app1 in Hei by lia.
        apply (IH i ei k' ltac:(lia) Hei Hpush Hreach). }
  intros Hin Hpush Hreach. apply In_nth_error in Hin.
  destruct Hin as [i Hi].
  apply (H i ep k); try assumption.
  assert (i < length gen)%nat by (apply nth_error_Some; congruence). lia.
Qed.

Lemma reach_parent (p k : Z * Z) :
  In p (cells R) -> In k (pushes_of R r0 c0 p) ->
  ga_cannot_reach g (fst k) (snd k) = false ->
  ga_cannot_reach g (fst p) (snd p) = false.
Proof.
  intros Hp Hpush Hreach.
  destruct (pushes_of_ok R r0 c0 R_ok r0_ok c0_ok _ _ Hp Hpush) as [Hk Hnt].
  pose proof (num_tap_of_bound R r0 c0 R_ok c0_ok _ Hp) as Hb.
  apply cells_In in Hp. apply cells_In in Hk.
  destruct (gen_cell_flags level R taps f0 r0 c0 R_ok r0_ok c0_ok
                           (fst k) (snd k) (proj1 Hk) (proj2 Hk)) as [Hck _].
  destruct (gen_cell_flags level R taps f0 r0 c0 R_ok r0_ok c0_ok
                           (fst p) (snd p) (proj1 Hp) (proj2 Hp)) as [Hcp _].
  rewrite Hreach, Hnt, start_row_succ in Hck by lia.
  rewrite Hcp. unfold start_row_of. unfold end_row_of in Hck.
  pose proof (tap_frames_ordered deltas f0 f0_ok deltas_ok _ Hb) as Hfr.
  pose proof (GetRow_mono _ _ level Hfr) as Hmono.
  destruct (Z.geb_spec
              (GetRow (tap_at taps (num_tap_of R r0 c0 (fst p) (snd p)) + f0)
                      level) 20); [discriminate|].
  rewrite Z.geb_leb. apply Z.leb_gt. lia.
Qed.

Lemma gen_reaches (n : nat) (k : Z * Z) :
  In k (cells R) ->
  num_tap_of R r0 c0 (fst k) (snd k) = Z.of_nat n ->
  ga_cannot_reach g (fst k) (snd k) = false ->
  In k (map key gen).
Proof.
  revert k. induction n as [|n IH]; intros k Hk Hnt Hreach.
  - destruct (Z.eq_dec (fst k) r0) as [E1|E1];
      [destruct (Z.eq_dec (snd k) c0) as [E2|E2]|].
    + assert (Hroot : GetRow f0 level < 20).
      { rewrite <- E1, <- E2 in *.
        pose proof (root_reach level R taps f0 (fst k) (snd k) R_ok r0_ok
                               c0_ok) as Hrr.
        rewrite Hreach in Hrr.
        destruct (Z.geb_spec (GetRow f0 level) 20); [discriminate|lia]. }
      destruct (gen_root level R taps f0 r0 c0 R_ok r0_ok c0_ok Hroot)
        as [e [He [Hr [Hc _]]]].
      apply in_map_iff. exists e. split.
      * destruct k as [a b]. cbn in E1, E2. subst a b.
        unfold key. rewrite Hr, Hc. reflexivity.
      * eapply nth_error_In. exact He.
    + destruct (tree_parent R r0 c0 k R_ok r0_ok c0_ok Hk) as [p [Hp Hpush]].
      { intros ->. apply E2. reflexivity. }
      destruct (pushes_of_ok R r0 c0 R_ok r0_ok c0_ok _ _ Hp Hpush) as [_ H].
      pose proof (num_tap_of_bound R r0 c0 R_ok c0_ok _ Hp). lia.
    + destruct (tree_parent R r0 c0 k R_ok r0_ok c0_ok Hk) as [p [Hp Hpush]].
      { intros ->. apply E1. reflexivity. }
      destruct (pushes_of_ok R r0 c0 R_ok r0_ok c0_ok _ _ Hp Hpush) as [_ H].
      pose proof (num_tap_of_bound R r0 c0 R_ok c0_ok _ Hp). lia.
  - destruct (tree_parent R r0 c0 k R_ok r0_ok c0_ok Hk) as [p [Hp Hpush]].
    { intros ->. cbn [fst snd] in Hnt.
      rewrite (root_num_tap R r0 c0 R_ok r0_ok c0_ok) in Hnt. lia. }
    destruct (pushes_of_ok R r0 c0 R_ok r0_ok c0_ok _ _ Hp Hpush) as [_ H].
    pose proof (reach_parent p k Hp Hpush Hreach) as Hpr.
    assert (Hpin : In p (map key gen)) by (apply IH; [exact Hp|lia|exact Hpr]).
    apply in_map_iff in Hpin. destruct Hpin as [ep [Hkey Hep]].
    apply (gen_pushed ep k Hep); [rewrite Hkey; exact Hpush|exact Hreach].
Qed.

Lemma gen_cells (rt cl : Z) :
  In (rt, cl) (map key gen) <->
  0 <= rt < R /\ 0 <= cl < 10 /\
  start_row_of level taps f0 (num_tap_of R r0 c0 rt cl) < 20.
Proof.
  split.
  - intros Hin. apply in_map_iff in Hin. destruct Hin as [e [Hkey He]].
    injection Hkey as <- <-.
    destruct (entry_fields level R taps f0 r0 c0 R_ok r0_ok c0_ok e He)
      as [[Hr Hc] [_ [_ [Hreach _]]]].
    destruct (gen_cell_flags level R taps f0 r0 c0 R_ok r0_ok c0_ok
                             (rot e) (col e) Hr Hc) as [Hcr _].
    rewrite Hreach in Hcr.
    destruct (Z.geb_spec
                (start_row_of level taps f0
                              (num_tap_of R r0 c0 (rot e) (col e))) 20);
      [discriminate|lia].
  - intros [Hr [Hc Hrow]].
    assert (Hk : In (rt, cl) (cells R)) by (apply cells_In; cbn; lia).
    pose proof (num_tap_of_bound R r0 c0 R_ok c0_ok _ Hk) as Hb.
    cbn [fst snd] in Hb.
    apply (gen_reaches (Z.to_nat (num_tap_of R r0 c0 rt cl)) (rt, cl) Hk).
    + cbn [fst snd]. lia.
    + cbn [fst snd].
      destruct (gen_cell_flags level R taps f0 r0 c0 R_ok r0_ok c0_ok
                               rt cl Hr Hc) as [-> _].
      rewrite Z.geb_leb. apply Z.leb_gt. lia.
Qed.

End Complete.

(** X17: the table holds exactly the cells that the piece can reach while
    it is on the board: [(rot, col)] has an entry if and only if it is a
    cell of the board and the tap that reaches it with the minimum number
    of taps is made on a frame whose row is above the floor,
    [GetRow(start_frame) < 20]; with [prev] and the pushes this makes the
    table the whole breadth-first tree. *)
Theorem Phase1TableGen_complete (level : Level) (R : Z) (deltas : list Z)
        (initial_frame initial_rot initial_col : Z) (rt cl : Z) :
  R = 1 \/ R = 2 \/ R = 4 ->
  0 <= initial_rot < R -> 0 <= initial_col < 10 -> 0 <= initial_frame ->
  taps_ok deltas ->
  let taps := mkTapTable deltas in
  let delta_rot := (rt - initial_rot) mod R in
  let num_tap :=
    Z.max (if delta_rot =? 3 then 1 else delta_rot) (abs (cl - initial_col)) in
  let start_frame :=
    (if num_tap =? 0 then 0 else tap_at taps (num_tap - 1)) + initial_frame in
  (exists e,
      In e (Phase1TableGen level R taps initial_frame initial_rot initial_col)
      /\ rot e = rt /\ col e = cl)
  <-> 0 <= rt < R /\ 0 <= cl < 10 /\ GetRow start_frame level < 20.
Proof.
  intros HR Hr Hc Hf Hd. cbv zeta.
  pose proof (gen_cells level R deltas initial_frame initial_rot initial_col
                        HR Hr Hc Hf Hd rt cl) as H.
  unfold start_row_of, num_tap_of, delta_rot_of in H.
  rewrite <- H. rewrite in_map_iff. split.
  - intros [e [He [H1 H2]]]. exists e. split; [|exact He].
    unfold key. rewrite H1, H2. reflexivity.
  - intros [e [Hkey He]]. exists e. injection Hkey as H1 H2. auto.
Qed.

Lemma Phase1TableGen_complete_witness :
  (exists e, In e (Phase1TableGen kLevel39 4 Tap30Hz 0 0 5)
             /\ rot e = 3 /\ col e = 1)
  <-> 0 <= 3 < 4 /\ 0 <= 1 < 10
      /\ GetRow ((if Z.max (if (3 - 0) mod 4 =? 3 then 1 else (3 - 0) mod 4)
                           (abs (1 - 5)) =? 0
                  then 0
                  else tap_at Tap30Hz
                         (Z.max (if (3 - 0) mod 4 =? 3 then 1
                                 else (3 - 0) mod 4)
                                (abs (1 - 5)) - 1)) + 0) kLevel39 < 20.
Proof.
  apply (Phase1TableGen_complete kLevel39 4 [0; 2; 2; 2; 2; 2; 2; 2; 2; 2]
                                 0 0 5 3 1); try lia.
  taps_ok_tac.
Defined.

(** * The two-level table *)

Section TwoLevel.

Variable level : Level.
Variable R : Z.
Variable adj_frame : Z.
Variable taps : TapTable.
Variable start_col : Z.
Hypothesis R_ok : R = 1 \/ R = 2 \/ R = 4.
Hypothesis start_col_ok : 0 <= start_col < 10.

Local Abbreviation tbl := (table level R adj_frame taps start_col).

Lemma initial_gen : initial tbl = Phase1TableGen level R taps 0 0 start_col.
Proof. reflexivity. Qed.

Lemma adj_at_entry (i : Z) :
  0 <= i < initial_N tbl ->
  adj_at tbl i
  = Phase1TableGen level R taps
      (Z.max adj_frame (tap_at taps (num_taps (entry_at (initial tbl) i))))
      (rot (entry_at (initial tbl) i)) (col (entry_at (initial tbl) i)).
Proof.
  intros Hi. unfold adj_at, table, mkTable. cbv zeta. cbn [adj initial].
  unfold initial_N in Hi. cbn [initial table mkTable] in Hi.
  set (l := Phase1TableGen level R taps 0 0 start_col) in *.
  rewrite (nth_indep _ [] (Phase1TableGen level R taps
                             (Z.max adj_frame (tap_at taps (num_taps dummy_entry)))
                             (rot dummy_entry) (col dummy_entry)))
    by (rewrite length_map; lia).
  rewrite (map_nth (fun e => Phase1TableGen level R taps
                               (Z.max adj_frame (tap_at taps (num_taps e)))
                               (rot e) (col e)) l dummy_entry).
  reflexivity.
Qed.

Lemma initial_entry_in (i : Z) :
  0 <= i < initial_N tbl -> In (entry_at (initial tbl) i) (initial tbl).
Proof.
  intros Hi. unfold entry_at. apply nth_In. unfold initial_N in Hi. lia.
Qed.

Lemma initial_root :
  exists e, nth_error (initial tbl) 0 = Some e /\
            rot e = 0 /\ col e = start_col /\ prev e = 0 /\ num_taps e = 0.
Proof.
  rewrite initial_gen.
  apply (gen_root level R taps 0 0 start_col R_ok ltac:(lia) start_col_ok).
  destruct level; cbn; lia.
Qed.

End TwoLevel.

(** X18: the table of a search has two levels.  The initial table starts
    with the spawn cell (rotation 0, column [Position::Start.y]) and is
    never empty.  For every entry [i] of the initial table there is one
    adjustment table; it is generated from the cell of entry [i] with the
    initial frame [max(adj_frame, taps[num_taps])], so it is empty when the
    row of that frame is below the board, and otherwise starts with the
    cell of entry [i], with no tap. *)
Theorem Phase1Table_levels (level : Level) (R adj_frame : Z) (taps : TapTable)
        (start_col : Z) (i : Z) :
  R = 1 \/ R = 2 \/ R = 4 -> 0 <= start_col < 10 ->
  let tbl := table level R adj_frame taps start_col in
  0 <= i < initial_N tbl ->
  let entry := entry_at (initial tbl) i in
  let frame_start := Z.max adj_frame (tap_at taps (num_taps entry)) in
  (exists e, nth_error (initial tbl) 0 = Some e /\
             rot e = 0 /\ col e = start_col /\ prev e = 0 /\ num_taps e = 0)
  /\ length (adj tbl) = length (initial tbl)
  /\ adj_at tbl i
     = Phase1TableGen level R taps frame_start (rot entry) (col entry)
  /\ (20 <= GetRow frame_start level -> adj_N tbl i = 0)
  /\ (GetRow frame_start level < 20 ->
      exists a, nth_error (adj_at tbl i) 0 = Some a /\
                rot a = rot entry /\ col a = col entry /\
                prev a = 0 /\ num_taps a = 0).
Proof.
  intros HR Hsc. cbv zeta. intros Hi.
  pose proof (initial_entry_in level R adj_frame taps start_col i Hi) as Hin.
  pose proof (initial_entry_cell level R adj_frame taps start_col HR Hsc
                                 _ Hin) as Hcell.
  apply cells_In in Hcell. cbn [key fst snd] in Hcell.
  pose proof (adj_at_entry level R adj_frame taps start_col i Hi) as Hadj.
  split; [apply initial_root; assumption|].
  split; [apply length_map|].
  split; [exact Hadj|]. split.
  - intros Hge. unfold adj_N. rewrite Hadj.
    rewrite (gen_blocked level R taps _ _ _ HR (proj1 Hcell) (proj2 Hcell) Hge).
    reflexivity.
  - intros Hlt. rewrite Hadj.
    apply (gen_root level R taps _ _ _ HR (proj1 Hcell) (proj2 Hcell) Hlt).
Qed.

Lemma Phase1Table_levels_witness :
  length (adj (table kLevel18 4 18 Tap30Hz 5))
  = length (initial (table kLevel18 4 18 Tap30Hz 5)).
Proof.
  refine (proj1 (proj2 (Phase1Table_levels kLevel18 4 18 Tap30Hz 5 3 _ _ _)));
    try lia.
  vm_compute. split; [discriminate|reflexivity].
Defined.

(** * Phase 2: the rows that are emitted *)

Lemma filter_none {A : Type} (f : A -> bool) (l : list A) :
  (forall a, In a l -> f a = false) -> filter f l = [].
Proof.
  induction l as [|h t IH]; intros H; [reflexivity|].
  cbn [filter]. rewrite (H h (or_introl eq_refl)).
  apply IH. intros a Ha. apply H. right. exact Ha.
Qed.

Lemma Zseq_app (lo : Z) (n m : nat) :
  Zseq lo (n + m) = Zseq lo n ++ Zseq (lo + Z.of_nat n) m.
Proof.
  revert lo. induction n as [|n IH]; intros lo.
  - cbn. replace (lo + 0) with lo by lia. reflexivity.
  - cbn [Nat.add Zseq app]. rewrite IH. do 3 f_equal. lia.
Qed.

Lemma Zrange_split (lo mid hi : Z) :
  lo <= mid < hi -> Zrange lo hi = Zrange lo mid ++ mid :: Zrange (mid + 1) hi.
Proof.
  intros H. unfold Zrange.
  replace (Z.to_nat (hi - lo))
    with (Z.to_nat (mid - lo) + S (Z.to_nat (hi - (mid + 1))))%nat by lia.
  rewrite Zseq_app. cbn [Zseq]. do 3 f_equal; lia.
Qed.

Lemma ctz_low_clear (v j : Z) :
  0 < v < 2 ^ 32 -> 0 <= j < ctz v -> Z.testbit v j = false.
Proof.
  intros Hv Hj. destruct (ctz_odd v Hv) as [q [Hq E]].
  rewrite E at 1. rewrite Z.mul_comm. apply Z.mul_pow2_bits_low. lia.
Qed.

Lemma set_rows_lowest (v : Z) :
  0 < v < 2 ^ 32 ->
  set_rows v = ctz v :: set_rows (Z.lxor v (2 ^ ctz v)).
Proof.
  intros Hv. destruct (ctz_bit v Hv) as [Hge Hbit].
  pose proof (testbit_below_32 v (ctz v) ltac:(lia) Hbit) as Hlt.
  unfold set_rows. rewrite (Zrange_split 0 (ctz v) 32) by lia.
  rewrite !filter_app. cbn [filter]. rewrite Hbit.
  assert (Hx : forall j, 0 <= j ->
                         Z.testbit (Z.lxor v (2 ^ ctz v)) j
                         = xorb (Z.testbit v j) (ctz v =? j)).
  { intros j Hj. rewrite Z.lxor_spec, Z.pow2_bits_eqb by lia. reflexivity. }
  rewrite (Hx (ctz v)), Hbit, Z.eqb_refl by lia. cbn [xorb].
  rewrite (filter_none (Z.testbit v) (Zrange 0 (ctz v))).
  2:{ intros j Hj. apply Zrange_In in Hj. apply ctz_low_clear; lia. }
  rewrite (filter_none (Z.testbit (Z.lxor v (2 ^ ctz v))) (Zrange 0 (ctz v))).
  2:{ intros j Hj. apply Zrange_In in Hj. rewrite Hx by lia.
      rewrite (ctz_low_clear v j) by lia.
      destruct (Z.eqb_spec (ctz v) j); [lia|reflexivity]. }
  cbn [app]. f_equal. apply filter_ext_in. intros j Hj.
  apply Zrange_In in Hj. rewrite Hx by lia.
  destruct (Z.eqb_spec (ctz v) j); [lia|]. rewrite xorb_false_r. reflexivity.
Qed.

Lemma set_rows_zero : set_rows 0 = [].
Proof.
  unfold set_rows. apply filter_none. intros j _. apply Z.bits_0.
Qed.

Lemma set_rows_In (v n : Z) :
  0 <= v < 2 ^ 32 -> (In n (set_rows v) <-> Z.testbit v n = true).
Proof.
  intros Hv. unfold set_rows. rewrite filter_In, Zrange_In. split.
  - tauto.
  - intros H. split; [|exact H]. split.
    + destruct (Z.neg_nonneg_cases n) as [Hn|Hn]; [|exact Hn].
      rewrite Z.testbit_neg_r in H by exact Hn. discriminate.
    + apply (testbit_below_32 v n Hv H).
Qed.

Lemma set_rows_NoDup (v : Z) : NoDup (set_rows v).
Proof.
  unfold set_rows. apply NoDup_filter. apply Zseq_NoDup.
Qed.

(** The [while] loop appends one placement for every set bit, lowest row
    first. *)
Lemma emit_rows_exact (fuel : nat) (v rt cl : Z) (acc : list Position) :
  0 <= v < 2 ^ 32 -> v = 0 \/ 32 <= Z.of_nat fuel + ctz v ->
  emit_rows fuel v rt cl acc
  = acc ++ map (fun row => mkPosition rt row cl) (set_rows v).
Proof.
  revert v acc. induction fuel as [|fuel IH]; intros v acc Hv Hm.
  - assert (Hz : v = 0).
    { destruct Hm as [?|Hm]; [assumption|].
      destruct (Z.eq_dec v 0) as [?|Hne]; [assumption|]. exfalso.
      destruct (ctz_bit v ltac:(lia)) as [_ Hbit].
      pose proof (testbit_below_32 v (ctz v) Hv Hbit). lia. }
    subst v. rewrite set_rows_zero. cbn. rewrite app_nil_r. reflexivity.
  - cbn [emit_rows]. destruct (Z.eqb_spec v 0) as [->|Hne].
    { rewrite set_rows_zero. cbn. rewrite app_nil_r. reflexivity. }
    destruct (ctz_bit v ltac:(lia)) as [Hge Hbit].
    pose proof (testbit_below_32 v (ctz v) Hv Hbit) as Hrow.
    assert (Hpow : 0 < 2 ^ ctz v < 2 ^ 32).
    { split; [apply Z.pow_pos_nonneg; lia|apply Z.pow_lt_mono_r; lia]. }
    rewrite Z.shiftl_mul_pow2, Z.mul_1_l, u32_small by lia.
    rewrite (set_rows_lowest v) by lia.
    pose proof (lxor_clear_bit v (ctz v) Hge Hbit) as Hclear.
    destruct (ctz_odd v ltac:(lia)) as [q [Hq E]].
    rewrite IH.
    + unfold Insert. rewrite <- app_assoc. reflexivity.
    + rewrite Hclear. nia.
    + rewrite Hclear.
      destruct (Z.eq_dec q 0) as [->|Hq0]; [left; lia|]. right.
      assert (Hv' : v - 2 ^ ctz v = 2 ^ Z.of_nat (Z.to_nat (ctz v + 1)) * q).
      { rewrite Z2Nat.id, Z.pow_add_r, Z.pow_1_r by lia. lia. }
      rewrite Hv'. rewrite ctz_shift by (rewrite <- ?Hv'; nia).
      assert (Hq32 : 0 < q < 2 ^ 32) by nia.
      pose proof (proj1 (ctz_bit q Hq32)). lia.
Qed.

Lemma emit_rows_32 (v rt cl : Z) (acc : list Position) :
  0 <= v < 2 ^ 32 ->
  emit_rows 32 v rt cl acc
  = acc ++ map (fun row => mkPosition rt row cl) (set_rows v).
Proof.
  intros Hv. apply emit_rows_exact; [exact Hv|].
  destruct (Z.eq_dec v 0) as [?|Hne]; [left; assumption|right].
  pose proof (proj1 (ctz_bit v ltac:(lia))). lia.
Qed.

Lemma fold_left_app_flat {K A : Type} (f : K -> list A) (l : list K)
      (acc : list A) :
  fold_left (fun acc k => acc ++ f k) l acc = acc ++ flat_map f l.
Proof.
  revert acc. induction l as [|k l IH]; intros acc; cbn.
  - rewrite app_nil_r. reflexivity.
  - rewrite IH, app_assoc. reflexivity.
Qed.

Lemma fold_left_ext_in {S K : Type} (f g : S -> K -> S) (l : list K) (s : S) :
  (forall s k, In k l -> f s k = g s k) ->
  fold_left f l s = fold_left g l s.
Proof.
  revert s. induction l as [|k l IH]; intros s H; [reflexivity|].
  cbn [fold_left]. rewrite (H s k (or_introl eq_refl)).
  apply IH. intros s' k' Hk'. apply H. right. exact Hk'.
Qed.

Lemma not32_test (v n : Z) :
  0 <= n -> Z.testbit (not32 v) n = (n <? 32) && negb (Z.testbit v n).
Proof.
  intros Hn. unfold not32, u32. destruct (Z.ltb_spec n 32).
  - rewrite Z.mod_pow2_bits_low, Z.lnot_spec by lia. reflexivity.
  - rewrite Z.mod_pow2_bits_high by lia. reflexivity.
Qed.

Section PhaseTwoRows.

Variable kDoubleTuckAllowed : bool.
Variable level : Level.
Variable R : Z.
Variable cols : Z -> Z -> Column.
Hypothesis cols_range :
  forall rt cl, 0 <= rt < R -> 0 <= cl < 10 -> 0 <= cols rt cl < 2 ^ 20.

Lemma tuck_lock_positions_test (lock : Z -> Z -> Column)
      (tuck_result : Z -> Z -> Frames) (rt cl n : Z) :
  0 <= rt < R -> 0 <= cl < 10 -> 0 <= n ->
  Z.testbit (tuck_lock_positions_of level cols lock tuck_result rt cl) n
  = Z.testbit (u32 (FramesToColumn level (tuck_result rt cl) + cols rt cl))
              (n + 1)
    && Z.testbit (cols rt cl) n
    && negb (Z.testbit (cols rt cl) (n + 1))
    && negb (Z.testbit (lock rt cl) n).
Proof.
  intros Hrt Hcl Hn. unfold tuck_lock_positions_of. cbv zeta.
  pose proof (cols_range rt cl Hrt Hcl) as Hc.
  rewrite !Z.land_spec, !Z.shiftr_spec, !not32_test by lia.
  destruct (Z.testbit (cols rt cl) n) eqn:Ebit.
  - pose proof (testbit_below _ _ Hc Ebit).
    destruct (Z.ltb_spec (n + 1) 32); [|lia].
    destruct (Z.ltb_spec n 32); [|lia].
    cbn [andb].
    repeat match goal with
           | |- context [Z.testbit ?a ?b] => destruct (Z.testbit a b)
           end; reflexivity.
  - cbn [andb]. rewrite !andb_false_r. reflexivity.
Qed.

Lemma tuck_lock_positions_range (lock : Z -> Z -> Column)
      (tuck_result : Z -> Z -> Frames) (rt cl : Z) :
  0 <= rt < R -> 0 <= cl < 10 ->
  0 <= tuck_lock_positions_of level cols lock tuck_result rt cl < 2 ^ 32.
Proof.
  intros Hrt Hcl. unfold tuck_lock_positions_of. cbv zeta.
  pose proof (cols_range rt cl Hrt Hcl) as Hc.
  set (c := cols rt cl) in *.
  set (A := Z.shiftr _ 1). set (B := Z.shiftr (not32 c) 1).
  set (C := not32 _).
  rewrite (Z.land_comm _ C).
  assert (H1 : 0 <= Z.land c B < 2 ^ 20).
  { rewrite Z.land_comm. apply land_below; lia. }
  assert (H2 : 0 <= Z.land A (Z.land c B) < 2 ^ 20)
    by (apply land_below; lia).
  pose proof (land_below 20 C _ ltac:(lia) H2). lia.
Qed.

(** [RunPhase2] keeps the placements it is given and appends, cell by
    cell, the set rows of [tuck_lock_positions]. *)
Lemma RunPhase2_exact (tuck_masks : TuckMasks) (lock : Z -> Z -> Column)
      (can_tuck : Z -> Z -> Frames) (acc : list Position) :
  RunPhase2 kDoubleTuckAllowed level R cols tuck_masks lock can_tuck acc
  = acc ++
    flat_map
      (fun rt =>
         flat_map
           (fun cl =>
              map (fun row => mkPosition rt row cl)
                  (set_rows
                     (tuck_lock_positions_of
                        level cols lock
                        (tuck_result_of kDoubleTuckAllowed R tuck_masks
                                        can_tuck)
                        rt cl)))
           (Zrange 0 10))
      (Zrange 0 R).
Proof.
  unfold RunPhase2, for_rot_col. cbv zeta.
  fold (tuck_result_of kDoubleTuckAllowed R tuck_masks can_tuck).
  set (res := tuck_result_of kDoubleTuckAllowed R tuck_masks can_tuck).
  rewrite <- (fold_left_app_flat
                (fun rt =>
                   flat_map
                     (fun cl =>
                        map (fun row => mkPosition rt row cl)
                            (set_rows
                               (tuck_lock_positions_of level cols lock res
                                                       rt cl)))
                     (Zrange 0 10))).
  apply fold_left_ext_in. intros ps rt Hrt. apply Zrange_In in Hrt.
  rewrite <- (fold_left_app_flat
                (fun cl =>
                   map (fun row => mkPosition rt row cl)
                       (set_rows
                          (tuck_lock_positions_of level cols lock res rt cl)))).
  apply fold_left_ext_in. intros ps' cl Hcl. apply Zrange_In in Hcl.
  apply emit_rows_32. apply tuck_lock_positions_range; lia.
Qed.

Lemma RunPhase2_In (tuck_masks : TuckMasks) (lock : Z -> Z -> Column)
      (can_tuck : Z -> Z -> Frames) (acc : list Position) (p : Position) :
  In p (RunPhase2 kDoubleTuckAllowed level R cols tuck_masks lock can_tuck
                  acc)
  <-> In p acc
      \/ ((0 <= r p < R /\ 0 <= y p < 10) /\
          Z.testbit
            (tuck_lock_positions_of
               level cols lock
               (tuck_result_of kDoubleTuckAllowed R tuck_masks can_tuck)
               (r p) (y p))
            (x p) = true).
Proof.
  rewrite RunPhase2_exact, in_app_iff.
  apply or_iff_compat_l. rewrite in_flat_map. split.
  - intros [rt [Hrt H]]. apply in_flat_map in H. destruct H as [cl [Hcl H]].
    apply in_map_iff in H. destruct H as [row [<- Hrow]]. cbn [r x y].
    apply Zrange_In in Hrt. apply Zrange_In in Hcl.
    split; [lia|].
    apply set_rows_In in Hrow; [exact Hrow|].
    apply tuck_lock_positions_range; lia.
  - intros [[Hr Hy] Hbit]. exists (r p). split; [apply Zrange_In; lia|].
    apply in_flat_map. exists (y p). split; [apply Zrange_In; lia|].
    apply in_map_iff. exists (x p). split; [destruct p; reflexivity|].
    apply set_rows_In; [apply tuck_lock_positions_range; lia|exact Hbit].
Qed.

End PhaseTwoRows.

(** * The tuck masks and the table of tuck types *)

Lemma aset3_cell {X : Type} (a : Z -> Z -> Z -> X) (idx rt cl : Z) (v : X)
      (i : Z) :
  aset3 a idx rt cl v i rt cl = if i =? idx then v else a i rt cl.
Proof.
  unfold aset3. rewrite !Z.eqb_refl, !andb_true_r. reflexivity.
Qed.

Lemma aset3_if_cell {X : Type} (g : bool) (a : Z -> Z -> Z -> X)
      (idx rt cl : Z) (v : X) (i : Z) :
  (if g then aset3 a idx rt cl v else a) i rt cl
  = if g && (i =? idx) then v else a i rt cl.
Proof.
  destruct g; [apply aset3_cell|reflexivity].
Qed.

Lemma aset3_other_cell {X : Type} (a : Z -> Z -> Z -> X) (idx r c : Z) (v : X)
      (i rt cl : Z) :
  rt <> r \/ cl <> c -> aset3 a idx r c v i rt cl = a i rt cl.
Proof.
  intros H. unfold aset3.
  destruct (Z.eqb_spec rt r); destruct (Z.eqb_spec cl c);
    rewrite ?andb_false_r; try reflexivity.
  exfalso. tauto.
Qed.

Section TuckCells.

Variable kDoubleTuckAllowed : bool.
Variable R : Z.
Variable m : FrameMasks.
Variables rt cl : Z.
Hypothesis rt_ok : 0 <= rt < R.
Hypothesis cl_ok : 0 <= cl < 10.

(** A loop nest over the cells whose body writes the cell it visits, and
    reads nothing of the array but that cell, leaves in each cell what its
    own turn computes. *)
Lemma for_rot_col_cell (body : TuckMasks -> Z -> Z -> TuckMasks)
      (s : TuckMasks) :
  (forall a r c i, rt <> r \/ cl <> c -> body a r c i rt cl = a i rt cl) ->
  (forall a b, (forall i, a i rt cl = b i rt cl) ->
               forall i, body a rt cl i rt cl = body b rt cl i rt cl) ->
  forall i, for_rot_col R body s i rt cl = body s rt cl i rt cl.
Proof.
  intros Hother Hself. unfold for_rot_col.
  apply (fold_once
           (fun a r => fold_left (fun a c => body a r c) (Zrange 0 10) a)
           rt
           (fun a => forall i, a i rt cl = s i rt cl)
           (fun a => forall i, a i rt cl = body s rt cl i rt cl)).
  - apply Zseq_NoDup.
  - apply Zrange_In. lia.
  - intros a r _ Hne Ha.
    apply (fold_keeps (fun a c => body a r c)
                      (fun a => forall i, a i rt cl = s i rt cl)); [|exact Ha].
    intros b c _ Hb i. rewrite Hother by (left; congruence). apply Hb.
  - intros a Ha.
    apply (fold_once (fun a c => body a rt c) cl
                     (fun a => forall i, a i rt cl = s i rt cl)
                     (fun a => forall i, a i rt cl = body s rt cl i rt cl)).
    + apply Zseq_NoDup.
    + apply Zrange_In. lia.
    + intros b c _ Hne Hb i. rewrite Hother by (right; congruence). apply Hb.
    + intros b Hb. apply Hself. exact Hb.
    + intros b c _ Hne Hb i. rewrite Hother by (right; congruence). apply Hb.
    + exact Ha.
  - intros a r _ Hne Ha.
    apply (fold_keeps (fun a c => body a r c)
                      (fun a => forall i, a i rt cl = body s rt cl i rt cl));
      [|exact Ha].
    intros b c _ Hb i. rewrite Hother by (left; congruence). apply Hb.
  - reflexivity.
Qed.

Lemma tuck_lr_other (a : TuckMasks) (r c i : Z) :
  rt <> r \/ cl <> c ->
  tuck_lr kDoubleTuckAllowed m a r c i rt cl = a i rt cl.
Proof.
  intros H. unfold tuck_lr.
  destruct (c >? 0); destruct (c <? 9); destruct kDoubleTuckAllowed;
    try destruct (c >? 1); try destruct (c <? 8);
    rewrite ?(aset3_other_cell _ _ _ _ _ _ _ _ H); reflexivity.
Qed.

Lemma tuck_rot_other (d b : Z) (a : TuckMasks) (r c i : Z) :
  rt <> r \/ cl <> c -> tuck_rot R m d b a r c i rt cl = a i rt cl.
Proof.
  intros H. unfold tuck_rot. cbv zeta.
  destruct (c >? 0); destruct (c <? 9);
    rewrite ?(aset3_other_cell _ _ _ _ _ _ _ _ H); reflexivity.
Qed.

Lemma tuck_lr_self (a b : TuckMasks) :
  (forall i, a i rt cl = b i rt cl) ->
  forall i, tuck_lr kDoubleTuckAllowed m a rt cl i rt cl
            = tuck_lr kDoubleTuckAllowed m b rt cl i rt cl.
Proof.
  intros H i. unfold tuck_lr.
  destruct (cl >? 0); destruct (cl <? 9); destruct kDoubleTuckAllowed;
    try destruct (cl >? 1); try destruct (cl <? 8);
    rewrite ?aset3_cell, ?H; reflexivity.
Qed.

Lemma tuck_rot_self (d b0 : Z) (a b : TuckMasks) :
  (forall i, a i rt cl = b i rt cl) ->
  forall i, tuck_rot R m d b0 a rt cl i rt cl
            = tuck_rot R m d b0 b rt cl i rt cl.
Proof.
  intros H i. unfold tuck_rot. cbv zeta.
  destruct (cl >? 0); destruct (cl <? 9);
    rewrite ?aset3_cell, ?H; reflexivity.
Qed.

(** The masks of a cell, as the turns of the cell in the three loop nests
    compute them on an array of zeros. *)
Lemma GetTuckMasks_cell (i : Z) :
  let x := if kDoubleTuckAllowed then 2 else 0 in
  let zero := fun _ _ _ : Z => 0 in
  let lr := tuck_lr kDoubleTuckAllowed m zero rt cl in
  GetTuckMasks kDoubleTuckAllowed R m i rt cl
  = if R =? 1 then lr i rt cl
    else if R =? 2 then tuck_rot R m 1 (x + 2) lr rt cl i rt cl
         else tuck_rot R m 3 (x + 7) (tuck_rot R m 1 (x + 2) lr rt cl) rt cl
                       i rt cl.
Proof.
  cbv zeta. unfold GetTuckMasks. cbv zeta.
  set (zero := fun _ _ _ : Z => 0).
  set (x := if kDoubleTuckAllowed then 2 else 0).
  assert (H1 : forall i, for_rot_col R (tuck_lr kDoubleTuckAllowed m) zero
                                     i rt cl
                         = tuck_lr kDoubleTuckAllowed m zero rt cl i rt cl).
  { apply for_rot_col_cell.
    - intros a r c j Hne. apply tuck_lr_other, Hne.
    - apply tuck_lr_self. }
  destruct (R =? 1); [apply H1|].
  set (s1 := for_rot_col R (tuck_lr kDoubleTuckAllowed m) zero) in *.
  assert (H2 : forall i, for_rot_col R (tuck_rot R m 1 (x + 2)) s1 i rt cl
                         = tuck_rot R m 1 (x + 2)
                                    (tuck_lr kDoubleTuckAllowed m zero rt cl)
                                    rt cl i rt cl).
  { intros j. rewrite for_rot_col_cell.
    - apply tuck_rot_self. exact H1.
    - intros a r c k Hne. apply tuck_rot_other, Hne.
    - apply tuck_rot_self. }
  destruct (R =? 2); [apply H2|].
  set (s2 := for_rot_col R (tuck_rot R m 1 (x + 2)) s1) in *.
  rewrite for_rot_col_cell.
  - apply tuck_rot_self. exact H2.
  - intros a r c k Hne. apply tuck_rot_other, Hne.
  - apply tuck_rot_self.
Qed.

End TuckCells.

Ltac tuck_case Hbit rt cl :=
  cbn [Z.add Pos.add Pos.succ Pos.add_carry Z.eqb Pos.eqb andb] in Hbit;
  rewrite ?andb_false_r, ?andb_true_r in Hbit; cbv iota in Hbit;
  repeat match type of Hbit with
         | context [if ?g then _ else _] =>
             let Eg := fresh "Eg" in
             destruct g eqn:Eg;
             [apply Z.ltb_lt in Eg|rewrite ?Z.bits_0 in Hbit; try discriminate]
         end;
  rewrite ?Z.bits_0 in Hbit; try discriminate;
  rewrite ?Z.land_spec, ?Z.lor_spec, ?Z.shiftr_spec in Hbit by lia;
  rewrite ?andb_true_iff in Hbit;
  match goal with
  | |- context [TuckTypeTable ?d ?r ?i] =>
      let t := eval vm_compute in (TuckTypeTable d r i) in
      change (TuckTypeTable d r i) with t
  end;
  cbv zeta; cbn [delta_rot delta_col delta_frame];
  rewrite ?Z.add_0_r;
  change (cl + -1) with (cl - 1); change (cl + -2) with (cl - 2);
  rewrite ?(Z.rem_small rt) by lia;
  repeat split; try lia; try tauto.

Lemma tuck_mask_bit (dt : bool) (R : Z) (m : FrameMasks) (i rt cl f : Z) :
  R = 1 \/ R = 2 \/ R = 4 ->
  0 <= i < TuckTypes dt R -> 0 <= rt < R -> 0 <= cl < 10 -> 0 <= f ->
  Z.testbit (GetTuckMasks dt R m i rt cl) f = true ->
  let tuck := TuckTypeTable dt R i in
  0 <= cl + delta_col tuck < 10 /\ 0 <= delta_frame tuck /\
  Z.testbit (frame m rt cl) f = true /\
  Z.testbit (frame m (Z.rem (rt + delta_rot tuck) R) (cl + delta_col tuck))
            (f + delta_frame tuck) = true.
Proof.
  intros HR Hi Hrt Hcl Hf Hbit.
  rewrite (GetTuckMasks_cell dt R m rt cl Hrt Hcl i) in Hbit.
  cbv zeta in Hbit. unfold tuck_rot, tuck_lr in Hbit. cbv zeta in Hbit.
  rewrite !Z.gtb_ltb in Hbit.
  destruct HR as [->|[->| ->]]; destruct dt; cbn [Z.eqb Pos.eqb] in Hbit;
    unfold TuckTypes in Hi; cbn in Hi;
    repeat (rewrite aset3_if_cell in Hbit || rewrite aset3_cell in Hbit).
  - assert (Hc : i = 0 \/ i = 1 \/ i = 2 \/ i = 3) by lia.
    destruct Hc as [->|[->|[->| ->]]]; tuck_case Hbit rt cl.
  - assert (Hc : i = 0 \/ i = 1) by lia.
    destruct Hc as [->| ->]; tuck_case Hbit rt cl.
  - assert (Hc : i = 0 \/ i = 1 \/ i = 2 \/ i = 3 \/ i = 4 \/ i = 5 \/ i = 6
                 \/ i = 7 \/ i = 8) by lia.
    destruct Hc as [->|[->|[->|[->|[->|[->|[->|[->| ->]]]]]]]];
      tuck_case Hbit rt cl.
  - assert (Hc : i = 0 \/ i = 1 \/ i = 2 \/ i = 3 \/ i = 4 \/ i = 5 \/ i = 6)
      by lia.
    destruct Hc as [->|[->|[->|[->|[->|[->| ->]]]]]]; tuck_case Hbit rt cl.
  - assert (Hc : i = 0 \/ i = 1 \/ i = 2 \/ i = 3 \/ i = 4 \/ i = 5 \/ i = 6
                 \/ i = 7 \/ i = 8 \/ i = 9 \/ i = 10 \/ i = 11 \/ i = 12
                 \/ i = 13) by lia.
    destruct Hc as [->|[->|[->|[->|[->|[->|[->|[->|[->|[->|[->|[->|[->| ->
                   ]]]]]]]]]]]]]; tuck_case Hbit rt cl.
  - assert (Hc : i = 0 \/ i = 1 \/ i = 2 \/ i = 3 \/ i = 4 \/ i = 5 \/ i = 6
                 \/ i = 7 \/ i = 8 \/ i = 9 \/ i = 10 \/ i = 11) by lia.
    destruct Hc as [->|[->|[->|[->|[->|[->|[->|[->|[->|[->|[->| ->
                   ]]]]]]]]]]]; tuck_case Hbit rt cl.
Qed.

(** X19: the tuck masks agree with the table of tuck types.  For every
    tuck type [i], if bit [f] of [GetTuckMasks(m)[i][rot][col]] is set,
    then the piece fits in the source cell on frame [f] (bit [f] of
    [m.frame[rot][col]] is set), the target cell
    [((rot + delta_rot) % R, col + delta_col)] of [TuckTypeTable[i]] is on
    the board, and the piece fits in the target cell on frame
    [f + delta_frame]. *)
Theorem GetTuckMasks_matches_TuckTypeTable (kDoubleTuckAllowed : bool)
        (R : Z) (m : FrameMasks) (i rot col f : Z) :
  R = 1 \/ R = 2 \/ R = 4 ->
  0 <= i < TuckTypes kDoubleTuckAllowed R ->
  0 <= rot < R -> 0 <= col < 10 -> 0 <= f ->
  Z.testbit (GetTuckMasks kDoubleTuckAllowed R m i rot col) f = true ->
  let tuck := TuckTypeTable kDoubleTuckAllowed R i in
  0 <= col + delta_col tuck < 10 /\ 0 <= delta_frame tuck /\
  Z.testbit (frame m rot col) f = true /\
  Z.testbit (frame m (Z.rem (rot + delta_rot tuck) R) (col + delta_col tuck))
            (f + delta_frame tuck) = true.
Proof. apply tuck_mask_bit. Qed.

Lemma GetTuckMasks_matches_TuckTypeTable_witness :
  let m := mkFrameMasks (fun _ _ => 7) (fun _ _ => 7) in
  Z.testbit (frame m (Z.rem (0 + delta_rot (TuckTypeTable false 2 5)) 2)
                   (3 + delta_col (TuckTypeTable false 2 5)))
            (0 + delta_frame (TuckTypeTable false 2 5)) = true.
Proof.
  intros m.
  refine (proj2 (proj2 (proj2 (GetTuckMasks_matches_TuckTypeTable
                                 false 2 m 5 0 3 0 _ _ _ _ _ _))));
    try lia; try reflexivity.
  vm_compute. split; [discriminate|reflexivity].
Defined.

(** * Phase 2: the frames reached by a tuck *)

Lemma or_fold {K : Type} (F : (Z -> Z -> Z) -> K -> Z -> Z -> Z)
      (S : K -> Z -> Z -> Z -> bool) (l : list K) :
  (forall k res rt cl n,
      In k l -> 0 <= n ->
      Z.testbit (F res k rt cl) n = Z.testbit (res rt cl) n || S k rt cl n) ->
  forall res rt cl n,
    0 <= n ->
    Z.testbit (fold_left F l res rt cl) n
    = Z.testbit (res rt cl) n || existsb (fun k => S k rt cl n) l.
Proof.
  induction l as [|k l IH]; intros HF res rt cl n Hn.
  - cbn. rewrite orb_false_r. reflexivity.
  - cbn [fold_left existsb]. rewrite IH.
    + rewrite HF by (auto; left; reflexivity). rewrite orb_assoc. reflexivity.
    + intros k' res' rt' cl' n' Hk'. apply HF. right. exact Hk'.
    + exact Hn.
Qed.

Lemma aset2_or_test (res : Z -> Z -> Z) (a b v rt cl n : Z) :
  Z.testbit (aset2 res a b (Z.lor (res a b) v) rt cl) n
  = Z.testbit (res rt cl) n || ((rt =? a) && (cl =? b) && Z.testbit v n).
Proof.
  unfold aset2.
  destruct (Z.eqb_spec rt a) as [->|?]; destruct (Z.eqb_spec cl b) as [->|?];
    cbn [andb]; rewrite ?orb_false_r; try reflexivity.
  apply Z.lor_spec.
Qed.

Lemma u64_shiftl_test (v k n : Z) :
  0 <= n -> 0 <= k ->
  Z.testbit (u64 (Z.shiftl v k)) n = (n <? 64) && Z.testbit v (n - k).
Proof.
  intros Hn Hk. unfold u64. destruct (Z.ltb_spec n 64).
  - rewrite Z.mod_pow2_bits_low, Z.shiftl_spec by lia. reflexivity.
  - rewrite Z.mod_pow2_bits_high by lia. reflexivity.
Qed.

Section TuckResult.

Variable kDoubleTuckAllowed : bool.
Variable R : Z.
Variable tuck_masks : TuckMasks.
Variable can_tuck : Z -> Z -> Frames.
Hypothesis R_ok : R = 1 \/ R = 2 \/ R = 4.

Local Abbreviation tucks := (TuckTypeTable kDoubleTuckAllowed R).
Local Abbreviation N := (TuckTypes kDoubleTuckAllowed R).

Lemma tuck_type_fields (i : Z) :
  0 <= i < N ->
  0 <= delta_frame (tucks i) <= 2 /\ -2 <= delta_col (tucks i) <= 2 /\
  0 <= delta_rot (tucks i) <= 3.
Proof.
  intros Hi. unfold TuckTypes in Hi.
  destruct R_ok as [->|[->| ->]]; destruct kDoubleTuckAllowed; cbn in Hi.
  - assert (Hc : i = 0 \/ i = 1 \/ i = 2 \/ i = 3) by lia.
    destruct Hc as [->|[->|[->| ->]]]; vm_compute; intuition discriminate.
  - assert (Hc : i = 0 \/ i = 1) by lia.
    destruct Hc as [->| ->]; vm_compute; intuition discriminate.
  - assert (Hc : i = 0 \/ i = 1 \/ i = 2 \/ i = 3 \/ i = 4 \/ i = 5 \/ i = 6
                 \/ i = 7 \/ i = 8) by lia.
    destruct Hc as [->|[->|[->|[->|[->|[->|[->|[->| ->]]]]]]]];
      vm_compute; intuition discriminate.
  - assert (Hc : i = 0 \/ i = 1 \/ i = 2 \/ i = 3 \/ i = 4 \/ i = 5 \/ i = 6)
      by lia.
    destruct Hc as [->|[->|[->|[->|[->|[->| ->]]]]]];
      vm_compute; intuition discriminate.
  - assert (Hc : i = 0 \/ i = 1 \/ i = 2 \/ i = 3 \/ i = 4 \/ i = 5 \/ i = 6
                 \/ i = 7 \/ i = 8 \/ i = 9 \/ i = 10 \/ i = 11 \/ i = 12
                 \/ i = 13) by lia.
    destruct Hc as [->|[->|[->|[->|[->|[->|[->|[->|[->|[->|[->|[->|[->| ->
                   ]]]]]]]]]]]]]; vm_compute; intuition discriminate.
  - assert (Hc : i = 0 \/ i = 1 \/ i = 2 \/ i = 3 \/ i = 4 \/ i = 5 \/ i = 6
                 \/ i = 7 \/ i = 8 \/ i = 9 \/ i = 10 \/ i = 11) by lia.
    destruct Hc as [->|[->|[->|[->|[->|[->|[->|[->|[->|[->|[->| ->
                   ]]]]]]]]]]]; vm_compute; intuition discriminate.
Qed.

(** One tuck type, one source cell: the frames it adds to the cell it
    leads to. *)
Local Abbreviation adds :=
  (fun (i rot col rt cl n : Z) =>
     (rt =? Z.rem (rot + delta_rot (tucks i)) R)
     && (cl =? col + delta_col (tucks i))
     && ((n <? 64)
         && Z.testbit (Z.land (tuck_masks i rot col) (can_tuck rot col))
                      (n - delta_frame (tucks i)))).

Lemma tuck_accumulate_test (i : Z) (res : Z -> Z -> Frames) (rt cl n : Z) :
  0 <= i < N -> 0 <= n ->
  Z.testbit (tuck_accumulate kDoubleTuckAllowed R tuck_masks can_tuck res i
                             rt cl) n
  = Z.testbit (res rt cl) n
    || existsb
         (fun rot =>
            existsb (fun col => adds i rot col rt cl n)
                    (Zrange (Z.max 0 (- delta_col (tucks i)))
                            (Z.min 10 (10 - delta_col (tucks i)))))
         (Zrange 0 R).
Proof.
  intros Hi Hn. unfold tuck_accumulate. cbv zeta.
  destruct (tuck_type_fields i Hi) as [Hdf _].
  apply (or_fold
           (fun res rot =>
              fold_left
                (fun res col =>
                   aset2 res (Z.rem (rot + delta_rot (tucks i)) R)
                         (col + delta_col (tucks i))
                         (Z.lor (res (Z.rem (rot + delta_rot (tucks i)) R)
                                     (col + delta_col (tucks i)))
                                (u64 (Z.shiftl
                                        (Z.land (tuck_masks i rot col)
                                                (can_tuck rot col))
                                        (delta_frame (tucks i))))))
                (Zrange (Z.max 0 (- delta_col (tucks i)))
                        (Z.min 10 (10 - delta_col (tucks i))))
                res)
           (fun rot rt cl n =>
              existsb (fun col => adds i rot col rt cl n)
                      (Zrange (Z.max 0 (- delta_col (tucks i)))
                              (Z.min 10 (10 - delta_col (tucks i))))));
    [|exact Hn].
  intros rot res' rt' cl' n' _ Hn'.
  apply (or_fold
           (fun res col =>
              aset2 res (Z.rem (rot + delta_rot (tucks i)) R)
                    (col + delta_col (tucks i))
                    (Z.lor (res (Z.rem (rot + delta_rot (tucks i)) R)
                                (col + delta_col (tucks i)))
                           (u64 (Z.shiftl
                                   (Z.land (tuck_masks i rot col)
                                           (can_tuck rot col))
                                   (delta_frame (tucks i))))))
           (fun col rt cl n => adds i rot col rt cl n));
    [|exact Hn'].
  intros col res'' rt'' cl'' n'' _ Hn''.
  rewrite aset2_or_test, u64_shiftl_test by lia. reflexivity.
Qed.

Lemma tuck_result_test (rt cl n : Z) :
  0 <= n ->
  Z.testbit (tuck_result_of kDoubleTuckAllowed R tuck_masks can_tuck rt cl) n
  = existsb
      (fun i =>
         existsb
           (fun rot =>
              existsb (fun col => adds i rot col rt cl n)
                      (Zrange (Z.max 0 (- delta_col (tucks i)))
                              (Z.min 10 (10 - delta_col (tucks i)))))
           (Zrange 0 R))
      (Zrange 0 N).
Proof.
  intros Hn. unfold tuck_result_of.
  rewrite (or_fold
             (tuck_accumulate kDoubleTuckAllowed R tuck_masks can_tuck)
             (fun i rt cl n =>
                existsb
                  (fun rot =>
                     existsb (fun col => adds i rot col rt cl n)
                             (Zrange (Z.max 0 (- delta_col (tucks i)))
                                     (Z.min 10 (10 - delta_col (tucks i)))))
                  (Zrange 0 R))).
  - rewrite Z.bits_0. reflexivity.
  - intros i res rt' cl' n' Hi Hn'. apply Zrange_In in Hi.
    apply tuck_accumulate_test; assumption.
  - exact Hn.
Qed.

(** A frame [n] is set in [tuck_result[rt][cl]] exactly when some tuck
    type, made from some cell on a frame of the cell's tuck window on
    which the tuck is possible, arrives in [(rt, cl)] on frame [n]. *)
Lemma tuck_result_iff (rt cl n : Z) :
  0 <= n ->
  (Z.testbit (tuck_result_of kDoubleTuckAllowed R tuck_masks can_tuck rt cl) n
   = true
   <-> exists i rot col,
      0 <= i < N /\ 0 <= rot < R /\
      (0 <= col < 10 /\ 0 <= col + delta_col (tucks i) < 10) /\
      rt = Z.rem (rot + delta_rot (tucks i)) R /\
      cl = col + delta_col (tucks i) /\
      n < 64 /\
      Z.testbit (tuck_masks i rot col) (n - delta_frame (tucks i)) = true /\
      Z.testbit (can_tuck rot col) (n - delta_frame (tucks i)) = true).
Proof.
  intros Hn. rewrite tuck_result_test by exact Hn.
  rewrite existsb_exists. split.
  - intros [i [Hi H]]. apply existsb_exists in H. destruct H as [rot [Hrot H]].
    apply existsb_exists in H. destruct H as [col [Hcol H]].
    apply Zrange_In in Hi. apply Zrange_In in Hrot. apply Zrange_In in Hcol.
    rewrite !andb_true_iff, !Z.eqb_eq, Z.ltb_lt, Z.land_spec, andb_true_iff in H.
    exists i, rot, col. repeat split; try tauto; lia.
  - intros [i [rot [col [Hi [Hrot [Hcol [Hrt [Hcl [Hn64 [H1 H2]]]]]]]]]].
    exists i. split; [apply Zrange_In; exact Hi|].
    apply existsb_exists. exists rot. split; [apply Zrange_In; exact Hrot|].
    apply existsb_exists. exists col. split; [apply Zrange_In; lia|].
    rewrite !andb_true_iff, !Z.eqb_eq, Z.ltb_lt, Z.land_spec, andb_true_iff.
    tauto.
Qed.

Lemma tuck_result_range (rt cl : Z) :
  0 <= tuck_result_of kDoubleTuckAllowed R tuck_masks can_tuck rt cl < 2 ^ 64.
Proof.
  set (v := tuck_result_of kDoubleTuckAllowed R tuck_masks can_tuck rt cl).
  assert (Hhigh : forall n, 64 <= n -> Z.testbit v n = false).
  { intros n Hn. destruct (Z.testbit v n) eqn:E; [|reflexivity].
    apply tuck_result_iff in E; [|lia].
    destruct E as [i [rot [col H]]]. lia. }
  assert (Hnn : 0 <= v).
  { destruct (Z.neg_nonneg_cases v) as [Hneg|?]; [|assumption].
    apply Z.bits_iff_neg_ex in Hneg. destruct Hneg as [k Hk].
    specialize (Hk (Z.max (k + 1) 64) ltac:(lia)).
    rewrite Hhigh in Hk by lia. discriminate. }
  split; [exact Hnn|].
  destruct (Z.eq_dec v 0) as [->|Hne]; [lia|].
  apply Z.log2_lt_pow2; [lia|].
  destruct (Z.lt_ge_cases (Z.log2 v) 64) as [?|Hge]; [assumption|].
  pose proof (Z.bit_log2 v ltac:(lia)) as Hb.
  rewrite Hhigh in Hb by lia. discriminate.
Qed.

End TuckResult.

(** * Phase 2: the carry that finds the lock rows *)

(** Adding [a] to a column [c] that contains it carries out of the low
    [n] bits exactly when a bit of [a] lies in a run of set bits of [c]
    that goes up to bit [n - 1]. *)
Lemma carry_run (a c : Z) (n : nat) :
  (forall j, 0 <= j -> Z.testbit a j = true -> Z.testbit c j = true) ->
  (2 ^ Z.of_nat n <= a mod 2 ^ Z.of_nat n + c mod 2 ^ Z.of_nat n
   <-> exists s, 0 <= s < Z.of_nat n /\ Z.testbit a s = true /\
                 forall j, s <= j < Z.of_nat n -> Z.testbit c j = true).
Proof.
  intros Hsub. induction n as [|n IH].
  - change (Z.of_nat 0) with 0. rewrite Z.pow_0_r, !Z.mod_1_r. split.
    + lia.
    + intros [s [Hs _]]. lia.
  - replace (Z.of_nat (S n)) with (Z.of_nat n + 1) by lia.
    rewrite !mod_pow2_succ by lia.
    pose proof (Z.mod_pos_bound a (2 ^ Z.of_nat n)
                                ltac:(apply Z.pow_pos_nonneg; lia)) as Ha.
    pose proof (Z.mod_pos_bound c (2 ^ Z.of_nat n)
                                ltac:(apply Z.pow_pos_nonneg; lia)) as Hc.
    rewrite Z.pow_add_r, Z.pow_1_r by lia.
    set (A := a mod 2 ^ Z.of_nat n) in *.
    set (C := c mod 2 ^ Z.of_nat n) in *.
    set (P := 2 ^ Z.of_nat n) in *.
    destruct (Z.testbit c (Z.of_nat n)) eqn:Ecn.
    + destruct (Z.testbit a (Z.of_nat n)) eqn:Ean; cbn [Z.b2z].
      * split; [|lia]. intros _. exists (Z.of_nat n).
        split; [lia|]. split; [exact Ean|].
        intros j Hj. replace j with (Z.of_nat n) by lia. exact Ecn.
      * split.
        -- intros H. assert (H' : P <= A + C) by lia.
           apply IH in H'. destruct H' as [s [Hs [Has Hrun]]].
           exists s. split; [lia|]. split; [exact Has|].
           intros j Hj. destruct (Z.eq_dec j (Z.of_nat n)) as [->|?];
             [exact Ecn|apply Hrun; lia].
        -- intros [s [Hs [Has Hrun]]].
           assert (Hsn : s <> Z.of_nat n) by congruence.
           assert (H' : P <= A + C).
           { apply IH. exists s. split; [lia|]. split; [exact Has|].
             intros j Hj. apply Hrun. lia. }
           lia.
    + assert (Ean : Z.testbit a (Z.of_nat n) = false).
      { destruct (Z.testbit a (Z.of_nat n)) eqn:E; [|reflexivity].
        apply Hsub in E; [congruence|lia]. }
      rewrite Ean. cbn [Z.b2z]. split; [lia|].
      intros [s [Hs [_ Hrun]]].
      rewrite (Hrun (Z.of_nat n)) in Ecn by lia. discriminate.
Qed.

(** The bit of the sum just below a run of set bits of the column is the
    carry out of the run. *)
Lemma carry_bit (a c n : Z) :
  0 <= n -> Z.testbit a n = false -> Z.testbit c n = false ->
  Z.testbit (a + c) n = (2 ^ n <=? a mod 2 ^ n + c mod 2 ^ n).
Proof.
  intros Hn Ha Hc.
  assert (Hp : 0 < 2 ^ n) by (apply Z.pow_pos_nonneg; lia).
  pose proof (Z.div_mod a (2 ^ n) ltac:(lia)) as Hda.
  pose proof (Z.div_mod c (2 ^ n) ltac:(lia)) as Hdc.
  pose proof (Z.mod_pos_bound a (2 ^ n) Hp) as Hba.
  pose proof (Z.mod_pos_bound c (2 ^ n) Hp) as Hbc.
  rewrite Z.testbit_odd, Z.shiftr_div_pow2 by lia.
  rewrite Z.testbit_odd, Z.shiftr_div_pow2 in Ha, Hc by lia.
  set (A := a mod 2 ^ n) in *. set (C := c mod 2 ^ n) in *.
  replace (a + c) with (A + C + (a / 2 ^ n + c / 2 ^ n) * 2 ^ n) by lia.
  rewrite Z.div_add by lia.
  rewrite !Z.odd_add, Ha, Hc. cbn [xorb]. rewrite xorb_false_r.
  destruct (Z.leb_spec (2 ^ n) (A + C)).
  - replace ((A + C) / 2 ^ n) with 1; [reflexivity|].
    apply (Z.div_unique (A + C) (2 ^ n) 1 (A + C - 2 ^ n)); lia.
  - rewrite Z.div_small by lia. reflexivity.
Qed.

Lemma subset_below (a c : Z) :
  0 <= a -> 0 <= c < 2 ^ 20 ->
  (forall j, 0 <= j -> Z.testbit a j = true -> Z.testbit c j = true) ->
  a < 2 ^ 20.
Proof.
  intros Ha Hc Hsub.
  destruct (Z.eq_dec a 0) as [->|Hne]; [lia|].
  apply Z.log2_lt_pow2; [lia|].
  pose proof (Z.bit_log2 a ltac:(lia)) as Hb.
  apply Hsub in Hb; [|apply Z.log2_nonneg].
  apply (testbit_below c _ Hc) in Hb. lia.
Qed.

(** The rows that the bit trick of phase 2 selects are the lock rows of
    the bits of [a]. *)
Lemma carry_lock_rows (a c row : Z) :
  0 <= a -> 0 <= c < 2 ^ 20 -> 0 <= row ->
  (forall j, 0 <= j -> Z.testbit a j = true -> Z.testbit c j = true) ->
  (Z.testbit (u32 (a + c)) (row + 1) && Z.testbit c row
   && negb (Z.testbit c (row + 1)) = true
   <-> exists s, 0 <= s /\ Z.testbit a s = true /\ FindLockRow c s = row).
Proof.
  intros Ha Hc Hrow Hsub.
  pose proof (subset_below a c Ha Hc Hsub) as Ha20.
  rewrite u32_small by lia.
  rewrite !andb_true_iff, negb_true_iff. split.
  - intros [[Hsum Hcr] Hcn].
    assert (Han : Z.testbit a (row + 1) = false).
    { destruct (Z.testbit a (row + 1)) eqn:E; [|reflexivity].
      apply Hsub in E; [congruence|lia]. }
    rewrite carry_bit in Hsum by (assumption || lia).
    apply Z.leb_le in Hsum.
    replace (row + 1) with (Z.of_nat (Z.to_nat (row + 1))) in Hsum by lia.
    apply (carry_run a c _ Hsub) in Hsum.
    destruct Hsum as [s [Hs [Has Hrun]]].
    exists s. split; [lia|]. split; [exact Has|].
    apply FindLockRow_set_run; [exact Hc|lia|].
    pose proof (testbit_below c row Hc Hcr).
    split; [lia|]. split; [|exact Hcn].
    intros j Hj. apply Hrun. lia.
  - intros [s [Hs [Has Hlock]]].
    assert (Hcs : Z.testbit c s = true) by (apply Hsub; assumption).
    pose proof (testbit_below c s Hc Hcs) as Hs20.
    destruct (FindLockRow_ends_run c s Hc Hs20 Hcs) as [[Hr [Hrun Hend]] _].
    rewrite Hlock in Hr, Hrun, Hend.
    assert (Han : Z.testbit a (row + 1) = false).
    { destruct (Z.testbit a (row + 1)) eqn:E; [|reflexivity].
      apply Hsub in E; [congruence|lia]. }
    split; [split|exact Hend].
    + rewrite carry_bit by (assumption || lia). apply Z.leb_le.
      replace (row + 1) with (Z.of_nat (Z.to_nat (row + 1))) by lia.
      apply (carry_run a c _ Hsub). exists s.
      split; [lia|]. split; [exact Has|].
      intros j Hj. apply Hrun. lia.
    + apply Hrun. lia.
Qed.

Lemma FramesToColumn_range (level : Level) (fr : Z) :
  level <> kLevel29 -> 0 <= fr < 2 ^ 64 ->
  0 <= FramesToColumn level fr < 2 ^ 20.
Proof.
  intros Hl Hfr. destruct level; [| |congruence|].
  - unfold FramesToColumn, pext64.
    rewrite (u64_small kMask18) by (unfold kMask18; lia).
    change kMask18 with (stride_mask (Z.of_nat 3) 20).
    rewrite pext_bits_stride by (simpl; lia).
    pose proof (extract_bounds (Z.of_nat 3) 20
                  (u64 (Z.lor (Z.lor fr (Z.shiftr fr 1)) (Z.shiftr fr 2)))) as H.
    change (Z.of_nat 20) with 20 in H. rewrite u32_small; lia.
  - unfold FramesToColumn, pext64.
    rewrite (u64_small kMask19) by (unfold kMask19; lia).
    change kMask19 with (stride_mask (Z.of_nat 2) 20).
    rewrite pext_bits_stride by (simpl; lia).
    pose proof (extract_bounds (Z.of_nat 2) 20
                  (u64 (Z.lor fr (Z.shiftr fr 1)))) as H.
    change (Z.of_nat 20) with 20 in H. rewrite u32_small; lia.
  - unfold FramesToColumn, pdep32.
    rewrite (u32_small kMask39) by (unfold kMask39; lia).
    change kMask39 with (stride_mask (Z.of_nat 2) 10).
    rewrite pdep_bits_stride by (simpl; lia).
    pose proof (deposit_bounds (Z.of_nat 2) 10 (u32 fr) ltac:(lia)) as H.
    change (stride_mask (Z.of_nat 2) 10) with 0x55555 in H. lia.
Qed.

Lemma FramesToColumn_nonneg (level : Level) (fr : Z) :
  0 <= fr < 2 ^ 64 -> 0 <= FramesToColumn level fr.
Proof.
  intros Hfr. destruct level;
    try (apply FramesToColumn_range; [discriminate|exact Hfr]).
  unfold FramesToColumn, u32. apply Z.mod_pos_bound. lia.
Qed.

Lemma Level_eq_29 (level : Level) : level = kLevel29 \/ level <> kLevel29.
Proof. destruct level; auto; right; discriminate. Qed.

(** * Phase 2: what is emitted *)

Lemma NoDup_flat_map {A B : Type} (f : A -> list B) (l : list A) :
  NoDup l ->
  (forall a, In a l -> NoDup (f a)) ->
  (forall a a' b, In a l -> In a' l -> In b (f a) -> In b (f a') -> a = a') ->
  NoDup (flat_map f l).
Proof.
  induction l as [|h t IH]; intros Hnd Heach Hdisj; [constructor|].
  cbn [flat_map]. inversion Hnd as [|? ? Hnotin Hnd']; subst.
  apply NoDup_app.
  - apply Heach. left. reflexivity.
  - apply IH; [exact Hnd'| |].
    + intros a Ha. apply Heach. right. exact Ha.
    + intros a a' b Ha Ha'. apply Hdisj; right; assumption.
  - intros b Hb Hin. apply in_flat_map in Hin. destruct Hin as [a [Ha Hba]].
    assert (h = a)
      by (apply (Hdisj h a b); [left; reflexivity|right; exact Ha|exact Hb
                                |exact Hba]).
    subst a. contradiction.
Qed.

Lemma NoDup_map_inj {A B : Type} (f : A -> B) (l : list A) :
  (forall a a', In a l -> In a' l -> f a = f a' -> a = a') ->
  NoDup l -> NoDup (map f l).
Proof.
  induction l as [|h t IH]; intros Hinj Hnd; [constructor|].
  cbn [map]. inversion Hnd as [|? ? Hnotin Hnd']; subst. constructor.
  - intros Hin. apply in_map_iff in Hin. destruct Hin as [a [Hfa Ha]].
    assert (a = h) by (apply Hinj; [right; exact Ha|left; reflexivity|exact Hfa]).
    subst a. contradiction.
  - apply IH; [|exact Hnd'].
    intros a a' Ha Ha'. apply Hinj; right; assumption.
Qed.

Section PhaseTwoMeaning.

Variable kDoubleTuckAllowed : bool.
Variable level : Level.
Variable R : Z.
Variable cols : Z -> Z -> Column.
Variable m : FrameMasks.
Hypothesis R_ok : R = 1 \/ R = 2 \/ R = 4.
Hypothesis cols_range :
  forall rt cl, 0 <= rt < R -> 0 <= cl < 10 -> 0 <= cols rt cl < 2 ^ 20.
Hypothesis frame_ok :
  forall rt cl, 0 <= rt < R -> 0 <= cl < 10 ->
                frame m rt cl = ColumnToNormalFrameMask level (cols rt cl).

Variable lock : Z -> Z -> Column.
Variable can_tuck : Z -> Z -> Frames.

Local Abbreviation tuck_masks := (GetTuckMasks kDoubleTuckAllowed R m).
Local Abbreviation tuck_result :=
  (tuck_result_of kDoubleTuckAllowed R tuck_masks can_tuck).

Lemma rem_in_range (a : Z) : 0 <= a -> 0 <= Z.rem a R < R.
Proof.
  intros Ha. apply Z.rem_bound_pos; lia.
Qed.

(** On every frame that a tuck reaches in a cell, the piece fits in the
    cell. *)
Lemma tuck_result_fits (rt cl n : Z) :
  0 <= n ->
  Z.testbit (tuck_result rt cl) n = true ->
  (0 <= rt < R /\ 0 <= cl < 10) /\
  Z.testbit (cols rt cl) (GetRow n level) = true.
Proof.
  intros Hn H. apply tuck_result_iff in H; [|exact R_ok|exact Hn].
  destruct H as [i [rot [col [Hi [Hrot [[Hcol Htc] [Hrt [Hcl [_ [Hm _]]]]]]]]]].
  destruct (tuck_type_fields kDoubleTuckAllowed R R_ok i Hi) as [Hdf [_ Hdr]].
  assert (Hnf : 0 <= n - delta_frame (TuckTypeTable kDoubleTuckAllowed R i)).
  { destruct (Z.neg_nonneg_cases
                (n - delta_frame (TuckTypeTable kDoubleTuckAllowed R i)))
      as [Hneg|?]; [|assumption].
    rewrite Z.testbit_neg_r in Hm by exact Hneg. discriminate. }
  destruct (tuck_mask_bit kDoubleTuckAllowed R m i rot col _ R_ok Hi Hrot Hcol
                          Hnf Hm) as [_ [_ [_ Hbit]]].
  cbv zeta in Hbit. rewrite <- Hrt, <- Hcl in Hbit.
  replace (n - delta_frame (TuckTypeTable kDoubleTuckAllowed R i)
           + delta_frame (TuckTypeTable kDoubleTuckAllowed R i))
    with n in Hbit by lia.
  assert (Hrange : 0 <= rt < R /\ 0 <= cl < 10).
  { split; [|lia]. rewrite Hrt. apply rem_in_range. lia. }
  split; [exact Hrange|].
  rewrite frame_ok, Normal_bit in Hbit;
    [exact Hbit|apply cols_range; tauto|exact Hn|tauto|tauto].
Qed.

(** The rows reached by a tuck in a cell are rows of the cell in which
    the piece fits. *)
Lemma after_tuck_within (rt cl row : Z) :
  0 <= rt < R -> 0 <= cl < 10 -> 0 <= row ->
  Z.testbit (FramesToColumn level (tuck_result rt cl)) row = true ->
  Z.testbit (cols rt cl) row = true.
Proof.
  intros Hrt Hcl Hrow H.
  pose proof (tuck_result_range kDoubleTuckAllowed R tuck_masks can_tuck R_ok
                                rt cl) as Hres.
  destruct (Z.lt_ge_cases row 20) as [Hlt|Hge].
  - rewrite FramesToColumn_row in H by lia.
    apply existsb_exists in H. destruct H as [f [Hf Hbit]].
    apply Zrange_In in Hf.
    assert (Hf0 : 0 <= f).
    { destruct (Z.neg_nonneg_cases f) as [Hneg|?]; [|assumption].
      rewrite Z.testbit_neg_r in Hbit by exact Hneg. discriminate. }
    destruct (tuck_result_fits rt cl f Hf0 Hbit) as [_ Hfit].
    replace row with (GetRow f level); [exact Hfit|].
    pose proof (proj2 (GetRow_ge_first f row level Hf0 Hrow) ltac:(lia)).
    pose proof (proj2 (GetRow_le_last f row level Hf0 Hrow) ltac:(lia)).
    lia.
  - exfalso. destruct (Level_eq_29 level) as [El|Hl].
    + rewrite El in H. unfold FramesToColumn, u32 in H.
      destruct (Z.lt_ge_cases row 32).
      * rewrite Z.mod_pow2_bits_low in H by lia.
        destruct (tuck_result_fits rt cl row Hrow H) as [_ Hfit].
        rewrite El in Hfit. unfold GetRow in Hfit.
        pose proof (testbit_below _ _ (cols_range rt cl Hrt Hcl) Hfit). lia.
      * rewrite Z.mod_pow2_bits_high in H by lia. discriminate.
    + pose proof (FramesToColumn_range level _ Hl Hres) as Hr.
      pose proof (testbit_below _ _ Hr H). lia.
Qed.

Lemma after_tuck_nonneg (rt cl : Z) :
  0 <= FramesToColumn level (tuck_result rt cl).
Proof.
  apply FramesToColumn_nonneg.
  apply (tuck_result_range kDoubleTuckAllowed R tuck_masks can_tuck R_ok).
Qed.

(** A row of a cell is emitted by phase 2 exactly when it is not locked
    without a tuck and is the lock row of a row reached by a tuck. *)
Lemma tuck_lock_rows (rt cl row : Z) :
  0 <= rt < R -> 0 <= cl < 10 ->
  (Z.testbit (tuck_lock_positions_of level cols lock tuck_result rt cl) row
   = true
   <-> 0 <= row /\ Z.testbit (lock rt cl) row = false /\
       exists a, 0 <= a /\
                 Z.testbit (FramesToColumn level (tuck_result rt cl)) a = true /\
                 FindLockRow (cols rt cl) a = row).
Proof.
  intros Hrt Hcl.
  pose proof (carry_lock_rows (FramesToColumn level (tuck_result rt cl))
                              (cols rt cl)) as Hcarry.
  split.
  - intros H.
    assert (Hrow : 0 <= row).
    { destruct (Z.neg_nonneg_cases row) as [Hneg|?]; [|assumption].
      rewrite Z.testbit_neg_r in H by exact Hneg. discriminate. }
    rewrite (tuck_lock_positions_test level R cols cols_range) in H
      by assumption.
    apply andb_true_iff in H. destruct H as [H Hlock].
    apply negb_true_iff in Hlock.
    split; [exact Hrow|]. split; [exact Hlock|].
    apply (Hcarry row); try assumption.
    + apply after_tuck_nonneg.
    + apply cols_range; assumption.
    + intros j Hj. apply after_tuck_within; assumption.
  - intros [Hrow [Hlock Hex]].
    rewrite (tuck_lock_positions_test level R cols cols_range) by assumption.
    apply andb_true_iff. split; [|rewrite Hlock; reflexivity].
    apply (Hcarry row); try assumption.
    + apply after_tuck_nonneg.
    + apply cols_range; assumption.
    + intros j Hj. apply after_tuck_within; assumption.
Qed.

Lemma RunPhase2_meaning (acc : list Position) (p : Position) :
  In p (RunPhase2 kDoubleTuckAllowed level R cols tuck_masks lock can_tuck
                  acc)
  <-> In p acc
      \/ ((0 <= r p < R /\ 0 <= y p < 10) /\ 0 <= x p /\
          Z.testbit (lock (r p) (y p)) (x p) = false /\
          exists a, 0 <= a /\
                    Z.testbit (FramesToColumn level (tuck_result (r p) (y p)))
                              a = true /\
                    FindLockRow (cols (r p) (y p)) a = x p).
Proof.
  rewrite (RunPhase2_In kDoubleTuckAllowed level R cols cols_range).
  apply or_iff_compat_l. split.
  - intros [Hrange H]. split; [exact Hrange|].
    apply tuck_lock_rows; tauto.
  - intros [Hrange H]. split; [exact Hrange|].
    apply tuck_lock_rows; tauto.
Qed.

End PhaseTwoMeaning.

(** * One search: the placements of phase 1 *)

Section SearchFacts.

Variable level : Level.
Variable R : Z.
Variable taps : TapTable.
Hypothesis R_ok : R = 1 \/ R = 2 \/ R = 4.
Hypothesis taps_nonneg : forall k, 0 <= tap_at taps k.
Variable adj_frame : Z.
Variable start_col : Z.
Hypothesis start_col_ok : 0 <= start_col < 10.
Variable is_adj : bool.
Variable initial_id : Z.
Variable board : BoardArr.
Variable cols : Z -> Z -> Column.
Hypothesis cols_ok :
  forall rt cl, 0 <= rt < R -> 0 <= cl < 10 ->
                cols rt cl = Board_Column (board_at board rt) cl.

Local Abbreviation entries :=
  (search_entries level R adj_frame taps start_col is_adj initial_id).
Local Abbreviation N :=
  (search_N level R adj_frame taps start_col is_adj initial_id).
Local Abbreviation reach :=
  (can_reach_of level R adj_frame taps start_col is_adj initial_id board).
Local Abbreviation lock_pos :=
  (lock_position level R adj_frame taps start_col is_adj initial_id cols).
Local Abbreviation outlives :=
  (survives level R adj_frame taps start_col is_adj initial_id cols).
Local Abbreviation start_row_at :=
  (fun i => entry_start_row level R adj_frame taps start_col is_adj
                            initial_id (entry_at entries i)).
Local Abbreviation lock_row_at :=
  (fun i => entry_lock_row level R adj_frame taps start_col is_adj
                           initial_id cols (entry_at entries i)).
Local Abbreviation phase1 :=
  (RunPhase1 level R adj_frame taps start_col is_adj initial_id board cols).

Lemma cols_in_range (rt cl : Z) :
  0 <= rt < R -> 0 <= cl < 10 -> 0 <= cols rt cl < 2 ^ 20.
Proof.
  intros Hrt Hcl. rewrite cols_ok by assumption. apply Board_Column_range.
Qed.

(** A reachable entry starts on a row of its column in which the piece
    fits, and its lock row ends the run of such rows. *)
Lemma reach_run (i : Z) :
  reach i = true ->
  0 <= i < N /\
  (0 <= rot (entry_at entries i) < R /\ 0 <= col (entry_at entries i) < 10) /\
  0 <= start_row_at i < 20 /\
  lock_row_of_set_run
    (cols (rot (entry_at entries i)) (col (entry_at entries i)))
    (start_row_at i) (lock_row_at i).
Proof.
  intros Hreach. unfold can_reach_of in Hreach.
  apply reach_fold in Hreach. cbn [snd] in Hreach.
  destruct Hreach as [?|[Hin Hcont]]; [discriminate|].
  apply Zrange_In in Hin.
  set (e := entry_at entries i) in *.
  assert (He : In e entries).
  { unfold e, entry_at. apply nth_In. unfold search_N in Hin. lia. }
  destruct (search_entry_start level R taps R_ok taps_nonneg adj_frame
                               start_col start_col_ok is_adj initial_id e He)
    as [Hcell [Hsr [Hm Hn]]].
  apply cells_In in Hcell. cbn [key fst snd] in Hcell.
  set (sr := entry_start_row level R adj_frame taps start_col is_adj
                             initial_id e) in *.
  assert (Hbit : Z.testbit (board_at board (rot e)) (20 * col e + sr) = true).
  { destruct Hcont as [Hc|Hc];
      apply (Contains_bit R board _ (rot e) _ Hc); (assumption || lia). }
  rewrite <- Board_Column_bit, <- cols_ok in Hbit by lia.
  pose proof (cols_in_range (rot e) (col e) (proj1 Hcell) (proj2 Hcell))
    as Hrange.
  destruct (FindLockRow_ends_run (cols (rot e) (col e)) sr Hrange Hsr Hbit)
    as [Hrun _].
  split; [exact Hin|]. split; [exact Hcell|]. split; [exact Hsr|].
  exact Hrun.
Qed.

Lemma lock_pos_rests (i : Z) :
  reach i = true ->
  in_play R board (lock_pos i) /\
  Z.testbit (cols (r (lock_pos i)) (y (lock_pos i))) (x (lock_pos i) + 1)
  = false.
Proof.
  intros Hreach.
  destruct (reach_run i Hreach) as [_ [Hcell [Hsr [Hr [Hrun Hend]]]]].
  unfold in_play, lock_position. cbv zeta. cbn [r x y].
  split; [|exact Hend].
  split; [lia|]. split; [lia|]. split; [lia|].
  rewrite <- cols_ok by lia. apply Hrun. lia.
Qed.

Lemma phase1_positions (can_adj0 : Z -> bool) :
  positions (phase1 can_adj0)
  = map lock_pos
        (filter (fun i => reach i && negb (outlives i)) (Zrange 0 N)).
Proof.
  unfold RunPhase1. rewrite lock_fold_positions. reflexivity.
Qed.

Lemma phase1_NoDup (can_adj0 : Z -> bool) : NoDup (positions (phase1 can_adj0)).
Proof.
  rewrite phase1_positions. apply NoDup_map_inj.
  - intros i j Hi Hj Heq.
    apply filter_In in Hi. destruct Hi as [Hi _]. apply Zrange_In in Hi.
    apply filter_In in Hj. destruct Hj as [Hj _]. apply Zrange_In in Hj.
    destruct (Z.eq_dec i j) as [?|Hne]; [assumption|]. exfalso.
    apply (entry_keys_differ level R adj_frame taps start_col R_ok
                             start_col_ok is_adj initial_id i j Hi Hj Hne).
    unfold lock_position in Heq. cbv zeta in Heq.
    injection Heq as H1 _ H3. unfold key. rewrite H1, H3. reflexivity.
  - apply NoDup_filter. apply Zseq_NoDup.
Qed.

(** The lock row of every reachable entry is recorded in
    [lock_positions_without_tuck]. *)
Lemma phase1_lock_bit (can_adj0 : Z -> bool) (i : Z) :
  reach i = true ->
  Z.testbit
    (lock_positions_without_tuck (phase1 can_adj0)
       (rot (entry_at entries i)) (col (entry_at entries i)))
    (lock_row_at i) = true.
Proof.
  intros Hreach.
  destruct (reach_run i Hreach) as [Hi [Hcell [Hsr [Hr _]]]].
  unfold RunPhase1.
  set (rt := rot (entry_at entries i)). set (cl := col (entry_at entries i)).
  set (lr := lock_row_at i) in *.
  apply (fold_establishes
           (lock_step level R adj_frame taps start_col is_adj initial_id cols
                      reach)
           (fun s => Z.testbit (lock_positions_without_tuck s rt cl) lr = true)
           (Zrange 0 N) i Z.eq_dec).
  - apply Zrange_In. exact Hi.
  - intros s. rewrite lock_step_visit by exact Hreach.
    cbn [lock_positions_without_tuck]. fold rt cl. rewrite aset2_same.
    rewrite Z.lor_spec. apply orb_true_iff. right.
    unfold u32. rewrite Z.mod_pow2_bits_low by lia.
    rewrite Z.shiftl_1_l. apply Z.pow2_bits_true. lia.
  - intros s j _ _ Hs. destruct (reach j) eqn:Hj.
    + rewrite lock_step_visit by exact Hj. cbn [lock_positions_without_tuck].
      unfold aset2.
      destruct ((rt =? _) && (cl =? _)) eqn:E; [|exact Hs].
      apply andb_true_iff in E. destruct E as [E1 E2].
      apply Z.eqb_eq in E1. apply Z.eqb_eq in E2. rewrite <- E1, <- E2.
      rewrite Z.lor_spec, Hs. reflexivity.
    + rewrite lock_step_skip by exact Hj. exact Hs.
Qed.

End SearchFacts.

(** * One search: the placements of both phases *)

Section OneSearch.

Variable kDoubleTuckAllowed : bool.
Variable level : Level.
Variable R : Z.
Variable taps : TapTable.
Hypothesis R_ok : R = 1 \/ R = 2 \/ R = 4.
Hypothesis taps_nonneg : forall k, 0 <= tap_at taps k.
Variable adj_frame : Z.
Variable start_col : Z.
Hypothesis start_col_ok : 0 <= start_col < 10.
Variable is_adj : bool.
Variable initial_id : Z.
Variable board : BoardArr.
Variable cols : Z -> Z -> Column.
Hypothesis cols_ok :
  forall rt cl, 0 <= rt < R -> 0 <= cl < 10 ->
                cols rt cl = Board_Column (board_at board rt) cl.
Variable tuck_masks : TuckMasks.

Local Abbreviation search :=
  (DoOneSearch kDoubleTuckAllowed level R adj_frame taps start_col is_adj
               initial_id board cols tuck_masks).
Local Abbreviation phase1 :=
  (RunPhase1 level R adj_frame taps start_col is_adj initial_id board cols).
Local Abbreviation reach :=
  (can_reach_of level R adj_frame taps start_col is_adj initial_id board).
Local Abbreviation lock_pos :=
  (lock_position level R adj_frame taps start_col is_adj initial_id cols).

Lemma cols_range_of :
  forall rt cl, 0 <= rt < R -> 0 <= cl < 10 -> 0 <= cols rt cl < 2 ^ 20.
Proof.
  intros rt cl Hrt Hcl.
  apply (cols_in_range R board cols cols_ok rt cl Hrt Hcl).
Qed.

(** The placements that phase 2 adds to those of phase 1. *)
Lemma phase2_new (lock : Z -> Z -> Column) (can_tuck : Z -> Z -> Frames)
      (acc : list Position) :
  exists new,
    RunPhase2 kDoubleTuckAllowed level R cols tuck_masks lock can_tuck acc
    = acc ++ new /\
    NoDup new /\
    forall p, In p new ->
              (0 <= r p < R /\ 0 <= y p < 10) /\ 0 <= x p /\
              Z.testbit (lock (r p) (y p)) (x p) = false /\
              Z.testbit (cols (r p) (y p)) (x p) = true /\
              Z.testbit (cols (r p) (y p)) (x p + 1) = false.
Proof.
  rewrite (RunPhase2_exact kDoubleTuckAllowed level R cols cols_range_of).
  set (res := tuck_result_of kDoubleTuckAllowed R tuck_masks can_tuck).
  set (rows := fun rt cl =>
                 set_rows (tuck_lock_positions_of level cols lock res rt cl)).
  exists (flat_map
            (fun rt =>
               flat_map (fun cl => map (fun row => mkPosition rt row cl)
                                       (rows rt cl))
                        (Zrange 0 10))
            (Zrange 0 R)).
  split; [reflexivity|]. split.
  - apply NoDup_flat_map.
    + apply Zseq_NoDup.
    + intros rt _. apply NoDup_flat_map.
      * apply Zseq_NoDup.
      * intros cl _. apply NoDup_map_inj; [|apply set_rows_NoDup].
        intros a a' _ _ H. apply (f_equal x) in H. exact H.
      * intros cl cl' p _ _ H1 H2.
        apply in_map_iff in H1. destruct H1 as [row [<- _]].
        apply in_map_iff in H2. destruct H2 as [row' [H2 _]].
        apply (f_equal y) in H2. cbn [y] in H2. congruence.
    + intros rt rt' p _ _ H1 H2.
      apply in_flat_map in H1. destruct H1 as [cl [_ H1]].
      apply in_map_iff in H1. destruct H1 as [row [<- _]].
      apply in_flat_map in H2. destruct H2 as [cl' [_ H2]].
      apply in_map_iff in H2. destruct H2 as [row' [H2 _]].
      apply (f_equal r) in H2. cbn [r] in H2. congruence.
  - intros p Hp.
    apply in_flat_map in Hp. destruct Hp as [rt [Hrt Hp]].
    apply in_flat_map in Hp. destruct Hp as [cl [Hcl Hp]].
    apply in_map_iff in Hp. destruct Hp as [row [<- Hrow]]. cbn [r x y].
    apply Zrange_In in Hrt. apply Zrange_In in Hcl.
    unfold rows in Hrow.
    apply set_rows_In in Hrow;
      [|apply (tuck_lock_positions_range level R cols cols_range_of); lia].
    assert (Hr0 : 0 <= row).
    { destruct (Z.neg_nonneg_cases row) as [Hneg|?]; [|assumption].
      rewrite Z.testbit_neg_r in Hrow by exact Hneg. discriminate. }
    rewrite (tuck_lock_positions_test level R cols cols_range_of) in Hrow
      by lia.
    rewrite !andb_true_iff, !negb_true_iff in Hrow.
    split; [lia|]. split; [exact Hr0|]. tauto.
Qed.

Lemma search_shape (can_adj0 : Z -> bool) :
  snd (search can_adj0) = []
  \/ exists new,
      snd (search can_adj0) = positions (phase1 can_adj0) ++ new /\
      NoDup new /\
      forall p, In p new ->
                (0 <= r p < R /\ 0 <= y p < 10) /\ 0 <= x p /\
                Z.testbit (lock_positions_without_tuck (phase1 can_adj0)
                                                       (r p) (y p)) (x p)
                = false /\
                Z.testbit (cols (r p) (y p)) (x p) = true /\
                Z.testbit (cols (r p) (y p)) (x p + 1) = false.
Proof.
  unfold DoOneSearch.
  destruct (_ >=? _); [left; reflexivity|].
  destruct (is_adj && negb (can_adj0 initial_id)); [left; reflexivity|].
  right. cbv zeta. destruct (phase_2_possible _); cbn [snd].
  - apply phase2_new.
  - exists []. rewrite app_nil_r. split; [reflexivity|].
    split; [constructor|]. intros p [].
Qed.

Lemma phase1_member (can_adj0 : Z -> bool) (p : Position) :
  In p (positions (phase1 can_adj0)) ->
  exists i, reach i = true /\ p = lock_pos i.
Proof.
  intros Hp.
  rewrite (phase1_positions level R taps adj_frame start_col is_adj initial_id
                            board cols) in Hp.
  apply in_map_iff in Hp. destruct Hp as [i [<- Hi]].
  apply filter_In in Hi. destruct Hi as [_ Hi].
  apply andb_true_iff in Hi. exists i. tauto.
Qed.

Lemma search_NoDup (can_adj0 : Z -> bool) : NoDup (snd (search can_adj0)).
Proof.
  destruct (search_shape can_adj0) as [->|[new [-> [Hnew Hprops]]]];
    [constructor|].
  apply NoDup_app.
  - apply (phase1_NoDup level R taps R_ok adj_frame start_col start_col_ok).
  - exact Hnew.
  - intros p Hp Hin.
    destruct (phase1_member can_adj0 p Hp) as [i [Hreach ->]].
    destruct (Hprops _ Hin) as [_ [_ [Hlock _]]].
    pose proof (phase1_lock_bit level R taps R_ok taps_nonneg adj_frame
                                start_col start_col_ok is_adj initial_id board
                                cols cols_ok can_adj0 i Hreach) as Hbit.
    unfold lock_position in Hlock. cbv zeta in Hlock. cbn [r x y] in Hlock.
    congruence.
Qed.

Lemma search_rests (can_adj0 : Z -> bool) (p : Position) :
  In p (snd (search can_adj0)) ->
  in_play R board p /\ Z.testbit (cols (r p) (y p)) (x p + 1) = false.
Proof.
  intros Hp.
  destruct (search_shape can_adj0) as [E|[new [E [_ Hprops]]]];
    rewrite E in Hp; [destruct Hp|].
  apply in_app_or in Hp. destruct Hp as [Hp|Hp].
  - destruct (phase1_member can_adj0 p Hp) as [i [Hreach ->]].
    apply (lock_pos_rests level R taps R_ok taps_nonneg adj_frame start_col
                          start_col_ok is_adj initial_id board cols cols_ok
                          i Hreach).
  - destruct (Hprops p Hp) as [Hrange [Hx [_ [Hbit Hnext]]]].
    split; [|exact Hnext].
    pose proof (cols_range_of (r p) (y p) (proj1 Hrange) (proj2 Hrange)) as Hc.
    pose proof (testbit_below _ _ Hc Hbit).
    unfold in_play. rewrite <- cols_ok by tauto. tauto.
Qed.

End OneSearch.

(** * The driver: what is returned *)

Lemma search_lists_non_adj (kDoubleTuckAllowed : bool) (level : Level)
      (R adj_frame : Z) (taps : TapTable) (start_col : Z) (board : BoardArr) :
  PossibleMoves.non_adj
    (search_lists kDoubleTuckAllowed level R adj_frame taps start_col board)
  = snd (DoOneSearch kDoubleTuckAllowed level R adj_frame taps start_col
                     false 0 board (columns_of level R board)
                     (tuck_masks_of kDoubleTuckAllowed level R board)
                     (fun _ => false)).
Proof. reflexivity. Qed.

(** Every list of placements that the driver returns comes from one
    search over the columns of the board. *)
Lemma search_lists_source (kDoubleTuckAllowed : bool) (level : Level)
      (R adj_frame : Z) (taps : TapTable) (start_col : Z) (board : BoardArr)
      (l : list Position) :
  l = PossibleMoves.non_adj
        (search_lists kDoubleTuckAllowed level R adj_frame taps start_col board)
  \/ (exists a,
         In a (PossibleMoves.adj
                 (search_lists kDoubleTuckAllowed level R adj_frame taps
                             start_col board)) /\ l = snd a) ->
  exists is_adj id can_adj0,
    l = snd (DoOneSearch kDoubleTuckAllowed level R adj_frame taps start_col
                         is_adj id board (columns_of level R board)
                         (tuck_masks_of kDoubleTuckAllowed level R board)
                         can_adj0).
Proof.
  intros [->|[a [Ha ->]]].
  - exists false, 0, (fun _ => false). apply search_lists_non_adj.
  - apply search_lists_adj_source in Ha. destruct Ha as [_ [id [_ [_ Hmoves]]]].
    exists true, id,
      (can_adj_of kDoubleTuckAllowed level R adj_frame taps start_col board).
    exact Hmoves.
Qed.

Lemma search_lists_NoDup_parts (kDoubleTuckAllowed : bool)
      (level : Level) (R adj_frame : Z) (deltas : list Z) (start_col : Z)
      (board : BoardArr) :
  R = 1 \/ R = 2 \/ R = 4 -> taps_ok deltas -> 0 <= start_col < 10 ->
  NoDup (PossibleMoves.non_adj
           (search_lists kDoubleTuckAllowed level R adj_frame
                       (mkTapTable deltas) start_col board))
  /\ forall a,
       In a (PossibleMoves.adj
               (search_lists kDoubleTuckAllowed level R adj_frame
                           (mkTapTable deltas) start_col board)) ->
       NoDup (snd a).
Proof.
  intros HR Htaps Hsc.
  assert (Hnonneg : forall k, 0 <= tap_at (mkTapTable deltas) k)
    by (intros k; apply tap_at_nonneg, Htaps).
  assert (Hlist : forall l,
             l = PossibleMoves.non_adj
                   (search_lists kDoubleTuckAllowed level R adj_frame
                               (mkTapTable deltas) start_col board)
             \/ (exists a,
                    In a (PossibleMoves.adj
                            (search_lists kDoubleTuckAllowed level R adj_frame
                                        (mkTapTable deltas) start_col board))
                    /\ l = snd a) ->
             NoDup l).
  { intros l Hl. apply search_lists_source in Hl.
    destruct Hl as [is_adj [id [ca ->]]].
    apply search_NoDup; try assumption. apply load_columns_cell. }
  split; [apply Hlist; left; reflexivity|].
  intros a Ha; apply Hlist; right; exists a; auto.
Qed.

(** No list of placements of the searches holds a placement twice, and
    no two anchors are the same. *)
Lemma search_lists_NoDup (kDoubleTuckAllowed : bool) (level : Level)
        (R adj_frame : Z) (deltas : list Z) (start_col : Z)
        (board : BoardArr) :
  R = 1 \/ R = 2 \/ R = 4 -> taps_ok deltas -> 0 <= start_col < 10 ->
  let m := search_lists kDoubleTuckAllowed level R adj_frame (mkTapTable deltas)
                      start_col board in
  NoDup (PossibleMoves.non_adj m)
  /\ (forall a, In a (PossibleMoves.adj m) -> NoDup (snd a))
  /\ NoDup (map fst (PossibleMoves.adj m)).
Proof.
  intros HR Htaps Hsc m.
  destruct (search_lists_NoDup_parts
              kDoubleTuckAllowed level R adj_frame deltas start_col board
              HR Htaps Hsc) as [Hnon Hadj].
  split; [exact Hnon|]. split; [exact Hadj|].
  unfold m. rewrite search_lists_adj, map_map. cbn [fst].
  apply NoDup_map_inj; [|apply NoDup_filter, Zseq_NoDup].
  intros i j Hi Hj Heq.
  apply filter_In in Hi. destruct Hi as [Hi _]. apply Zrange_In in Hi.
  apply filter_In in Hj. destruct Hj as [Hj _]. apply Zrange_In in Hj.
  destruct (Z.eq_dec i j) as [?|Hne]; [assumption|]. exfalso.
  apply (entry_keys_differ level R adj_frame (mkTapTable deltas) start_col HR
                           Hsc false 0 i j Hi Hj Hne).
  unfold anchor_of in Heq. cbv zeta in Heq.
  pose proof (f_equal r Heq) as H1. pose proof (f_equal y Heq) as H3.
  cbn [r y] in H1, H3. unfold key, search_entries.
  f_equal; assumption.
Qed.

(** No placement of the searches hangs in the air. *)
Lemma search_lists_rest (kDoubleTuckAllowed : bool)
        (level : Level) (R adj_frame : Z) (deltas : list Z) (start_col : Z)
        (board : BoardArr) (p : Position) :
  R = 1 \/ R = 2 \/ R = 4 -> taps_ok deltas -> 0 <= start_col < 10 ->
  let m := search_lists kDoubleTuckAllowed level R adj_frame (mkTapTable deltas)
                      start_col board in
  In p (PossibleMoves.non_adj m)
  \/ (exists a, In a (PossibleMoves.adj m) /\ In p (snd a)) ->
  Z.testbit (Board_Column (board_at board (r p)) (y p)) (x p + 1) = false.
Proof.
  intros HR Htaps Hsc m Hp.
  assert (Hnonneg : forall k, 0 <= tap_at (mkTapTable deltas) k)
    by (intros k; apply tap_at_nonneg, Htaps).
  assert (Hl : exists l,
             In p l /\
             (l = PossibleMoves.non_adj m
              \/ exists a, In a (PossibleMoves.adj m) /\ l = snd a)).
  { destruct Hp as [Hp|[a [Ha Hp]]].
    - exists (PossibleMoves.non_adj m). auto.
    - exists (snd a). split; [exact Hp|]. right. exists a. auto. }
  destruct Hl as [l [Hin Hl]]. apply search_lists_source in Hl.
  destruct Hl as [is_adj [id [ca ->]]].
  apply search_rests in Hin; try assumption; [|apply load_columns_cell].
  destruct Hin as [[Hx [Hy [Hr Hbit]]] Hnext].
  rewrite load_columns_cell in Hnext by assumption. exact Hnext.
Qed.

(** X20: when [MoveSearch] returns (no search overruns the 256 places of
    its buffer), no list of placements that it returns holds a placement
    twice, neither [non_adj] nor the moves of an element of [adj] (phase 2
    skips the rows that phase 1 has locked), and no two elements of [adj]
    have the same anchor. *)
Theorem MoveSearch_no_duplicates (kDoubleTuckAllowed : bool) (level : Level)
        (R adj_frame : Z) (deltas : list Z) (start_col : Z)
        (board : BoardArr) (m : PossibleMoves.t) :
  R = 1 \/ R = 2 \/ R = 4 -> taps_ok deltas -> 0 <= start_col < 10 ->
  MoveSearch kDoubleTuckAllowed level R adj_frame (mkTapTable deltas)
             start_col board = Some m ->
  NoDup (PossibleMoves.non_adj m)
  /\ (forall a, In a (PossibleMoves.adj m) -> NoDup (snd a))
  /\ NoDup (map fst (PossibleMoves.adj m)).
Proof.
  intros HR Htaps Hsc Hm. apply MoveSearch_Some in Hm. subst m.
  apply search_lists_NoDup; assumption.
Qed.

Lemma MoveSearch_no_duplicates_witness :
  exists m,
    MoveSearch false kLevel39 1 18 Tap30Hz 5 (free_boards 1) = Some m /\
    NoDup (PossibleMoves.non_adj m).
Proof.
  eexists. split; [vm_compute; reflexivity|].
  refine (proj1 (MoveSearch_no_duplicates
                   false kLevel39 1 18 [0; 2; 2; 2; 2; 2; 2; 2; 2; 2] 5
                   (free_boards 1) _ _ _ _ _)); try lia.
  - taps_ok_tac.
  - vm_compute. reflexivity.
Defined.

(** X21: when [MoveSearch] returns, no placement that it returns hangs in
    the air: the piece does not fit one row lower in the same rotation and
    column (bit [row + 1] of the column is clear; below row 19 is the
    floor). *)
Theorem MoveSearch_placements_rest (kDoubleTuckAllowed : bool)
        (level : Level) (R adj_frame : Z) (deltas : list Z) (start_col : Z)
        (board : BoardArr) (m : PossibleMoves.t) (p : Position) :
  R = 1 \/ R = 2 \/ R = 4 -> taps_ok deltas -> 0 <= start_col < 10 ->
  MoveSearch kDoubleTuckAllowed level R adj_frame (mkTapTable deltas)
             start_col board = Some m ->
  In p (PossibleMoves.non_adj m)
  \/ (exists a, In a (PossibleMoves.adj m) /\ In p (snd a)) ->
  Z.testbit (Board_Column (board_at board (r p)) (y p)) (x p + 1) = false.
Proof.
  intros HR Htaps Hsc Hm Hp. apply MoveSearch_Some in Hm. subst m.
  exact (search_lists_rest kDoubleTuckAllowed level R adj_frame deltas
                           start_col board p HR Htaps Hsc Hp).
Qed.

Lemma MoveSearch_placements_rest_witness :
  Z.testbit (Board_Column (board_at (free_boards 1) 0) 4) (19 + 1) = false.
Proof.
  eapply (MoveSearch_placements_rest
            false kLevel39 1 18 [0; 2; 2; 2; 2; 2; 2; 2; 2; 2] 5
            (free_boards 1) _ (mkPosition 0 19 4)).
  - lia.
  - taps_ok_tac.
  - lia.
  - vm_compute. reflexivity.
  - left. right. left. reflexivity.
Defined.

(** * Phase 2 on the columns of a board *)

Lemma load_columns_masks (level : Level) (R : Z) (board : BoardArr)
      (rt cl : Z) :
  0 <= rt < R -> 0 <= cl < 10 ->
  frame (snd (load_columns level R board)) rt cl
  = ColumnToNormalFrameMask level (Board_Column (board_at board rt) cl) /\
  drop (snd (load_columns level R board)) rt cl
  = ColumnToDropFrameMask level (Board_Column (board_at board rt) cl).
Proof.
  intros Hrt Hcl. unfold load_columns, for_rot_col.
  set (body := fun (s : (Z -> Z -> Column) * FrameMasks) (rot col : Z) =>
         let cols := aset2 (fst s) rot col
                           (Board_Column (board_at board rot) col) in
         (cols,
          mkFrameMasks
            (aset2 (frame (snd s)) rot col
                   (ColumnToNormalFrameMask level (cols rot col)))
            (aset2 (drop (snd s)) rot col
                   (ColumnToDropFrameMask level (cols rot col))))).
  set (Q := fun s : (Z -> Z -> Column) * FrameMasks =>
              frame (snd s) rt cl
              = ColumnToNormalFrameMask
                  level (Board_Column (board_at board rt) cl) /\
              drop (snd s) rt cl
              = ColumnToDropFrameMask
                  level (Board_Column (board_at board rt) cl)).
  assert (Hkeep : forall s rt' cl', rt' <> rt \/ cl' <> cl -> Q s ->
                                    Q (body s rt' cl')).
  { intros s rt' cl' Hne Hs. unfold Q, body in *. cbn [fst snd frame drop].
    rewrite !aset2_other by (destruct Hne; [left|right]; congruence).
    exact Hs. }
  apply (fold_establishes
           (fun s rot => fold_left (fun s col => body s rot col) (Zrange 0 10) s)
           Q (Zrange 0 R) rt Z.eq_dec); [apply Zrange_In; lia| |].
  - intros s.
    apply (fold_establishes (fun s col => body s rt col) Q (Zrange 0 10) cl
                            Z.eq_dec); [apply Zrange_In; lia| |].
    + intros s1. unfold Q, body. cbn [fst snd frame drop].
      rewrite !aset2_same. split; reflexivity.
    + intros s1 cl' _ Hne. apply Hkeep. right. exact Hne.
  - intros s rt' _ Hne Hs.
    apply (fold_keeps (fun s col => body s rt' col) Q); [|exact Hs].
    intros s1 cl' _. apply Hkeep. left. exact Hne.
Qed.

Lemma columns_of_range (level : Level) (R : Z) (board : BoardArr) (rt cl : Z) :
  0 <= rt < R -> 0 <= cl < 10 ->
  0 <= columns_of level R board rt cl < 2 ^ 20.
Proof.
  intros Hrt Hcl. rewrite load_columns_cell by assumption.
  apply Board_Column_range.
Qed.

Lemma load_columns_frame_ok (level : Level) (R : Z) (board : BoardArr)
      (rt cl : Z) :
  0 <= rt < R -> 0 <= cl < 10 ->
  frame (snd (load_columns level R board)) rt cl
  = ColumnToNormalFrameMask level (columns_of level R board rt cl).
Proof.
  intros Hrt Hcl. rewrite load_columns_cell by assumption.
  apply load_columns_masks; assumption.
Qed.

Lemma RunPhase2_keeps_acc (kDoubleTuckAllowed : bool) (level : Level) (R : Z)
      (board : BoardArr) (lock : Z -> Z -> Column)
      (can_tuck : Z -> Z -> Frames) (acc : list Position) (p : Position) :
  R = 1 \/ R = 2 \/ R = 4 -> In p acc ->
  In p (RunPhase2 kDoubleTuckAllowed level R (columns_of level R board)
                  (tuck_masks_of kDoubleTuckAllowed level R board) lock
                  can_tuck acc).
Proof.
  intros HR Hp. unfold tuck_masks_of. apply RunPhase2_meaning.
  - exact HR.
  - intros rt cl. apply columns_of_range.
  - intros rt cl. apply load_columns_frame_ok.
  - left. exact Hp.
Qed.

(** X22: on the columns and tuck masks of a board, phase 2 keeps the
    placements it is given and adds exactly the placements (rot, row, col)
    whose row is not marked in [lock_positions_without_tuck] and is the
    row where the piece comes to rest ([FindLockRow]) when it falls in this
    column from a row that [FramesToColumn] gives for the tuck result of
    the cell. *)
Theorem RunPhase2_adds_lock_rows (kDoubleTuckAllowed : bool) (level : Level)
        (R : Z) (board : BoardArr) (lock : Z -> Z -> Column)
        (can_tuck : Z -> Z -> Frames) (acc : list Position) (p : Position) :
  R = 1 \/ R = 2 \/ R = 4 ->
  let cols := columns_of level R board in
  let tuck_masks := tuck_masks_of kDoubleTuckAllowed level R board in
  In p (RunPhase2 kDoubleTuckAllowed level R cols tuck_masks lock can_tuck acc)
  <->
  In p acc \/
  ((0 <= r p < R /\ 0 <= y p < 10) /\ 0 <= x p /\
   Z.testbit (lock (r p) (y p)) (x p) = false /\
   exists a,
     0 <= a /\
     Z.testbit
       (FramesToColumn level
          (tuck_result_of kDoubleTuckAllowed R tuck_masks can_tuck
                          (r p) (y p))) a = true /\
     FindLockRow (cols (r p) (y p)) a = x p).
Proof.
  intros HR. cbv zeta. unfold tuck_masks_of.
  apply RunPhase2_meaning.
  - exact HR.
  - intros rt cl. apply columns_of_range.
  - intros rt cl. apply load_columns_frame_ok.
Qed.

Lemma RunPhase2_adds_lock_rows_witness :
  In (mkPosition 0 19 4)
     (RunPhase2 false kLevel39 1 (columns_of kLevel39 1 (free_boards 1))
                (tuck_masks_of false kLevel39 1 (free_boards 1))
                (fun _ _ => 0) (fun _ _ => 0) [mkPosition 0 19 4]).
Proof.
  apply (RunPhase2_adds_lock_rows false kLevel39 1 (free_boards 1)
                                  (fun _ _ => 0) (fun _ _ => 0)
                                  [mkPosition 0 19 4] (mkPosition 0 19 4)).
  - lia.
  - left. left. reflexivity.
Defined.

(** X23: the tuck result of phase 2.  Frame [n] is in the tuck result of
    the cell (rt, cl) exactly when [n < 64] and some tuck type [i] of
    [TuckTypeTable] leads to that cell from a cell (rot, col) of the board
    (rt = (rot + delta_rot) % R, cl = col + delta_col), with frame
    [n - delta_frame] both in the tuck mask of type [i] at (rot, col) and
    in the tuck window [can_tuck] of (rot, col). *)
Theorem RunPhase2_tuck_result (kDoubleTuckAllowed : bool) (R : Z)
        (tuck_masks : TuckMasks) (can_tuck : Z -> Z -> Frames)
        (rt cl n : Z) :
  R = 1 \/ R = 2 \/ R = 4 -> 0 <= n ->
  Z.testbit (tuck_result_of kDoubleTuckAllowed R tuck_masks can_tuck rt cl) n
  = true <->
  exists i rot col,
    let tuck := TuckTypeTable kDoubleTuckAllowed R i in
    0 <= i < TuckTypes kDoubleTuckAllowed R /\
    0 <= rot < R /\
    (0 <= col < 10 /\ 0 <= col + delta_col tuck < 10) /\
    rt = Z.rem (rot + delta_rot tuck) R /\
    cl = col + delta_col tuck /\
    n < 64 /\
    Z.testbit (tuck_masks i rot col) (n - delta_frame tuck) = true /\
    Z.testbit (can_tuck rot col) (n - delta_frame tuck) = true.
Proof.
  intros HR Hn. cbv zeta. apply tuck_result_iff; assumption.
Qed.

Lemma RunPhase2_tuck_result_witness :
  Z.testbit (tuck_result_of false 1 (fun _ _ _ => 1) (fun _ _ => 1) 0 4) 0
  = true.
Proof.
  apply (RunPhase2_tuck_result false 1 (fun _ _ _ => 1) (fun _ _ => 1) 0 4 0).
  - lia.
  - lia.
  - exists 0, 0, 5. vm_compute. repeat split; discriminate.
Defined.

(** * The first entry of a search: the spawn cell *)

Section RootEntry.

Variable level : Level.
Variable R : Z.
Variable deltas : list Z.
Variables f0 r0 c0 : Z.
Hypothesis R_ok : R = 1 \/ R = 2 \/ R = 4.
Hypothesis r0_ok : 0 <= r0 < R.
Hypothesis c0_ok : 0 <= c0 < 10.
Hypothesis f0_ok : 0 <= f0.
Hypothesis deltas_ok : taps_ok deltas.

Local Abbreviation gen :=
  (Phase1TableGen level R (mkTapTable deltas) f0 r0 c0).

(** The entry of the starting cell tests one cell: where the piece is at
    the initial frame. *)
Lemma root_nodrop (e : TableEntry) (k n : Z) :
  In e gen -> rot e = r0 -> col e = c0 -> num_taps e = 0 -> 0 <= k < R ->
  (Z.testbit (board_at (masks_nodrop e) k) n = true <->
   k = r0 /\ n = 20 * c0 + GetRow f0 level).
Proof.
  intros Hin Hr Hc Hn Hk.
  destruct (entry_masks_nodrop level R deltas f0 r0 c0 R_ok r0_ok c0_ok f0_ok
                               deltas_ok e k n Hin Hk) as [_ Hbit].
  cbv zeta in Hbit. rewrite Hr, Hc, Hn in Hbit.
  rewrite Z.sub_diag, Z.mod_0_l in Hbit by lia.
  unfold abs, sgn in Hbit. rewrite !Z.sub_diag in Hbit.
  cbn [Z.eqb Z.ltb Z.compare Z.opp] in Hbit.
  rewrite Z.sub_0_r, !Z.add_0_l, Z.rem_small in Hbit by lia.
  rewrite Hbit. tauto.
Qed.

Lemma root_contains (board : BoardArr) (e : TableEntry) :
  In e gen -> rot e = r0 -> col e = c0 -> num_taps e = 0 ->
  Contains R board (masks_nodrop e)
  = Z.testbit (board_at board r0) (20 * c0 + GetRow f0 level).
Proof.
  intros Hin Hr Hc Hn.
  destruct (Contains R board (masks_nodrop e)) eqn:E.
  - symmetry. rewrite Contains_bits in E. apply (E r0 _ r0_ok).
    apply (root_nodrop e r0 _ Hin Hr Hc Hn r0_ok). auto.
  - destruct (Z.testbit (board_at board r0) (20 * c0 + GetRow f0 level))
             eqn:Eb; [|reflexivity].
    rewrite <- E. apply Contains_bits. intros k n Hk Hbit.
    apply (root_nodrop e k n Hin Hr Hc Hn Hk) in Hbit.
    destruct Hbit as [-> ->]. exact Eb.
Qed.

Lemma masks_imply_nodrop (board : BoardArr) (e : TableEntry) :
  In e gen -> Contains R board (masks e) = true ->
  Contains R board (masks_nodrop e) = true.
Proof.
  intros Hin Hm.
  destruct (entry_masks_sub level R deltas f0 r0 c0 R_ok r0_ok c0_ok e Hin)
    as [Hsub _].
  rewrite Contains_bits in *. intros k n Hk Hbit.
  apply (Hm k n Hk), (Hsub k n Hk), Hbit.
Qed.

End RootEntry.

Section SearchRoot.

Variable kDoubleTuckAllowed : bool.
Variable level : Level.
Variable R : Z.
Variable deltas : list Z.
Variable adj_frame : Z.
Variable start_col : Z.
Hypothesis R_ok : R = 1 \/ R = 2 \/ R = 4.
Hypothesis deltas_ok : taps_ok deltas.
Hypothesis start_col_ok : 0 <= start_col < 10.
Variable is_adj : bool.
Variable initial_id : Z.
Variable board : BoardArr.

Local Abbreviation taps := (mkTapTable deltas).
Local Abbreviation entries :=
  (search_entries level R adj_frame taps start_col is_adj initial_id).
Local Abbreviation N :=
  (search_N level R adj_frame taps start_col is_adj initial_id).
Local Abbreviation reach :=
  (can_reach_of level R adj_frame taps start_col is_adj initial_id board).

(** The first entry of a search is reached exactly when the cell where
    the search starts is free. *)
Lemma reach_root (f0 r0 c0 : Z) :
  entries = Phase1TableGen level R taps f0 r0 c0 ->
  0 <= r0 < R -> 0 <= c0 < 10 -> 0 <= f0 -> GetRow f0 level < 20 ->
  reach 0 = Z.testbit (board_at board r0) (20 * c0 + GetRow f0 level) /\
  rot (entry_at entries 0) = r0 /\ col (entry_at entries 0) = c0 /\
  num_taps (entry_at entries 0) = 0.
Proof.
  intros Hent Hr0 Hc0 Hf0 Hrow.
  destruct (gen_root level R taps f0 r0 c0 R_ok Hr0 Hc0 Hrow)
    as [e [Hnth [Hr [Hc [_ Hn]]]]].
  rewrite <- Hent in Hnth.
  assert (He : entry_at entries 0 = e).
  { unfold entry_at. apply nth_error_nth. exact Hnth. }
  assert (Hin : In e (Phase1TableGen level R taps f0 r0 c0)).
  { rewrite <- Hent. eapply nth_error_In. exact Hnth. }
  assert (HN : 0 <= 0 < N).
  { unfold search_N. destruct entries; [discriminate|]. simpl length. lia. }
  rewrite He. split; [|auto].
  destruct (sweep_settles level R adj_frame taps start_col R_ok start_col_ok
                          is_adj initial_id board 0 HN) as [_ Hreach].
  cbv zeta in Hreach. unfold can_reach_of. rewrite Hreach, He.
  cbn [Z.eqb orb andb].
  rewrite (root_contains level R deltas f0 r0 c0 R_ok Hr0 Hc0 Hf0 deltas_ok
                         board e Hin Hr Hc Hn).
  destruct (Z.testbit (board_at board r0) (20 * c0 + GetRow f0 level)) eqn:Eb;
    [apply orb_true_r|].
  rewrite orb_false_r. apply andb_false_iff. right.
  destruct (Contains R board (masks e)) eqn:Em; [|reflexivity].
  apply (masks_imply_nodrop level R deltas f0 r0 c0 R_ok Hr0 Hc0) in Em;
    [|exact Hin].
  rewrite (root_contains level R deltas f0 r0 c0 R_ok Hr0 Hc0 Hf0 deltas_ok
                         board e Hin Hr Hc Hn) in Em.
  congruence.
Qed.

(** When the first entry is not reached no entry is. *)
Lemma reach_none (i : Z) : reach 0 = false -> reach i = false.
Proof.
  intros H0. unfold can_reach_of in *.
  destruct (Z_lt_le_dec 0 N) as [HN|HN].
  - destruct (sweep_settles level R adj_frame taps start_col R_ok start_col_ok
                            is_adj initial_id board 0 ltac:(lia)) as [_ Hreach].
    cbv zeta in Hreach. rewrite Hreach in H0. cbn [Z.eqb orb andb] in H0.
    apply orb_false_iff in H0. destruct H0 as [Hfull Hnd].
    assert (Hall : fold_left (reach_step level R adj_frame taps start_col
                                         is_adj initial_id board)
                             (Zrange 0 N) (fun _ => false, fun _ => false)
                   = (fun _ => false, fun _ => false)).
    { apply (fold_keeps (reach_step level R adj_frame taps start_col is_adj
                                     initial_id board)
                        (fun s => s = (fun _ : Z => false, fun _ : Z => false))).
      - intros s k _ ->. unfold reach_step.
        destruct (Z.eqb_spec k 0) as [->|Hk].
        + cbn [negb andb]. rewrite Hfull, Hnd. reflexivity.
        + reflexivity.
      - reflexivity. }
    rewrite Hall. reflexivity.
  - unfold Zrange. replace (Z.to_nat (N - 0)) with 0%nat by lia. reflexivity.
Qed.

Variable cols : Z -> Z -> Column.
Hypothesis cols_ok :
  forall rt cl, 0 <= rt < R -> 0 <= cl < 10 ->
                cols rt cl = Board_Column (board_at board rt) cl.
Variable tuck_masks : TuckMasks.

Local Abbreviation search :=
  (DoOneSearch kDoubleTuckAllowed level R adj_frame taps start_col is_adj
               initial_id board cols tuck_masks).
Local Abbreviation phase1 :=
  (RunPhase1 level R adj_frame taps start_col is_adj initial_id board cols).

(** A search that reaches no entry leaves [can_adj] alone and returns no
    placement. *)
Lemma search_nothing (can_adj0 : Z -> bool) :
  reach 0 = false -> search can_adj0 = (can_adj0, []).
Proof.
  intros H0. unfold DoOneSearch.
  destruct (_ >=? _); [reflexivity|].
  destruct (is_adj && negb (can_adj0 initial_id)); [reflexivity|].
  assert (Hs : phase1 can_adj0 = search_init can_adj0).
  { unfold RunPhase1.
    apply (fold_keeps
             (lock_step level R adj_frame taps start_col is_adj initial_id
                        cols reach)
             (fun s => s = search_init can_adj0)); [|reflexivity].
    intros s k _ ->. unfold lock_step. rewrite (reach_none k H0).
    reflexivity. }
  rewrite Hs. reflexivity.
Qed.

(** A search that runs returns the placements of phase 1, then those
    that phase 2 adds. *)
Lemma search_runs (can_adj0 : Z -> bool) :
  search_initial_frame level R adj_frame taps start_col is_adj initial_id
  < total_frames level ->
  is_adj = false \/ can_adj0 initial_id = true ->
  fst (search can_adj0) = can_adj (phase1 can_adj0) /\
  exists new, snd (search can_adj0) = positions (phase1 can_adj0) ++ new.
Proof.
  intros Hfr Hadj. unfold DoOneSearch.
  destruct (Z.geb_spec
              (search_initial_frame level R adj_frame taps start_col is_adj
                                    initial_id)
              (total_frames level)) as [Hge|_]; [lia|].
  replace (is_adj && negb (can_adj0 initial_id)) with false
    by (destruct Hadj as [->| ->]; [reflexivity|symmetry; apply andb_false_r]).
  destruct (phase_2_possible (phase1 can_adj0)); cbn [fst snd].
  - split; [reflexivity|].
    destruct (phase2_new kDoubleTuckAllowed level R R_ok start_col
                         start_col_ok board cols cols_ok tuck_masks
                         (lock_positions_without_tuck (phase1 can_adj0))
                         (can_tuck_frame_masks (phase1 can_adj0))
                         (positions (phase1 can_adj0))) as [new [Hnew _]].
    exists new. exact Hnew.
  - split; [reflexivity|]. exists []. symmetry. apply app_nil_r.
Qed.

End SearchRoot.

(** * The driver: anchors and the spawn cell *)

Lemma existsb_eqb_In (k : Z) (l : list Z) :
  existsb (Z.eqb k) l = true <-> In k l.
Proof.
  rewrite existsb_exists. split.
  - intros [z [Hz Heq]]. apply Z.eqb_eq in Heq. subst. exact Hz.
  - intros Hk. exists k. split; [exact Hk|apply Z.eqb_refl].
Qed.

Lemma total_frames_last (level : Level) :
  total_frames level = GetLastFrameOnRow 19 level + 1 /\
  0 < total_frames level.
Proof. split; [reflexivity|]. destruct level; reflexivity. Qed.

Section Anchors.

Variable kDoubleTuckAllowed : bool.
Variable level : Level.
Variable R : Z.
Variable deltas : list Z.
Variable adj_frame : Z.
Variable start_col : Z.
Variable board : BoardArr.
Hypothesis R_ok : R = 1 \/ R = 2 \/ R = 4.
Hypothesis deltas_ok : taps_ok deltas.
Hypothesis start_col_ok : 0 <= start_col < 10.

Local Abbreviation taps := (mkTapTable deltas).
Local Abbreviation tbl := (table level R adj_frame taps start_col).
Local Abbreviation cols := (columns_of level R board).
Local Abbreviation tm := (tuck_masks_of kDoubleTuckAllowed level R board).
Local Abbreviation ca :=
  (can_adj_of kDoubleTuckAllowed level R adj_frame taps start_col board).
Local Abbreviation search :=
  (DoOneSearch kDoubleTuckAllowed level R adj_frame taps start_col).
Local Abbreviation reach0 :=
  (can_reach_of level R adj_frame taps start_col false 0 board).
Local Abbreviation outlives0 :=
  (survives level R adj_frame taps start_col false 0 cols).
Local Abbreviation moves :=
  (adj_moves_of kDoubleTuckAllowed level R adj_frame taps start_col board).
Local Abbreviation anchor := (anchor_of level R adj_frame taps start_col).
Local Abbreviation frame_start id :=
  (Z.max adj_frame (tap_at taps (num_taps (entry_at (initial tbl) id)))).

Lemma taps_nonneg : forall k, 0 <= tap_at taps k.
Proof. intros k. apply tap_at_nonneg, deltas_ok. Qed.

Lemma cols_ok :
  forall rt cl, 0 <= rt < R -> 0 <= cl < 10 ->
                cols rt cl = Board_Column (board_at board rt) cl.
Proof. apply load_columns_cell. Qed.

Lemma initial_search :
  fst (search false 0 board cols tm (fun _ => false))
  = can_adj (RunPhase1 level R adj_frame taps start_col false 0 board cols
                       (fun _ => false)) /\
  exists new,
    snd (search false 0 board cols tm (fun _ => false))
    = positions (RunPhase1 level R adj_frame taps start_col false 0 board
                           cols (fun _ => false)) ++ new.
Proof.
  apply search_runs; try assumption.
  - apply cols_ok.
  - apply total_frames_last.
  - left. reflexivity.
Qed.

Lemma can_adj_of_iff (id : Z) :
  ca id = true <-> reach0 id = true /\ outlives0 id = true.
Proof.
  unfold can_adj_of. rewrite (proj1 initial_search).
  unfold RunPhase1. rewrite lock_fold_can_adj. cbn [search_init can_adj orb].
  rewrite !andb_true_iff, existsb_eqb_In. split; [tauto|].
  intros [Hr Hs]. split; [split|]; try assumption.
  apply Zrange_In.
  apply (reach_run level R taps R_ok taps_nonneg adj_frame start_col
                   start_col_ok false 0 board cols cols_ok id Hr).
Qed.

(** An entry that the initial search marks in [can_adj]: at the frame
    where its adjustment search starts the piece is on the board, in a
    free cell. *)
Lemma adjustable_anchor (id : Z) :
  ca id = true ->
  let e := entry_at (initial tbl) id in
  0 <= id < initial_N tbl /\
  (0 <= rot e < R /\ 0 <= col e < 10) /\
  0 <= frame_start id < total_frames level /\
  0 <= GetRow (frame_start id) level < 20 /\
  Z.testbit (cols (rot e) (col e)) (GetRow (frame_start id) level) = true.
Proof.
  intros Hca. cbv zeta. apply can_adj_of_iff in Hca. destruct Hca as [Hr Hs].
  destruct (reach_run level R taps R_ok taps_nonneg adj_frame start_col
                      start_col_ok false 0 board cols cols_ok id Hr)
    as [Hid [Hcell [Hstart [Hrun [Hset Hstop]]]]].
  unfold survives in Hs. cbn [negb andb] in Hs. apply Z.gtb_lt in Hs.
  unfold entry_lock_frame, entry_end_frame in Hs.
  unfold entry_start_row in Hstart, Hrun, Hset.
  change (search_entries level R adj_frame taps start_col false 0)
    with (initial tbl) in *.
  change (search_N level R adj_frame taps start_col false 0)
    with (initial_N tbl) in *.
  change (search_initial_frame level R adj_frame taps start_col false 0)
    with 0 in *.
  set (e := entry_at (initial tbl) id) in *.
  set (lock_row := entry_lock_row level R adj_frame taps start_col false 0
                                  cols e) in *.
  set (fs := Z.max adj_frame (tap_at taps (num_taps e))) in *.
  assert (Hin : In e (Phase1TableGen level R taps 0 0 start_col)).
  { rewrite <- (initial_gen level R adj_frame taps start_col).
    apply initial_entry_in; assumption. }
  destruct (entry_fields level R taps 0 0 start_col R_ok ltac:(lia)
                         start_col_ok e Hin) as [_ [_ [Hnt _]]].
  pose proof (tap_frames_ordered deltas 0 ltac:(lia) deltas_ok (num_taps e)
                                 Hnt) as Hord.
  rewrite !Z.add_0_r in *.
  set (sf := if num_taps e =? 0 then 0 else tap_at taps (num_taps e - 1)) in *.
  pose proof (taps_nonneg (num_taps e)) as Htap.
  assert (Hfs : tap_at taps (num_taps e) <= fs) by (apply Z.le_max_r).
  assert (Hlow : GetRow fs level <= lock_row)
    by (apply GetRow_le_last; lia).
  assert (Hup : GetRow sf level <= GetRow fs level)
    by (apply GetRow_mono; lia).
  split; [exact Hid|]. split; [exact Hcell|].
  split.
  { split; [lia|].
    rewrite (proj1 (total_frames_last level)).
    assert (fs <= GetLastFrameOnRow 19 level); [|lia].
    apply GetRow_le_last; lia. }
  split; [lia|].
  apply Hset. lia.
Qed.

Lemma adj_moves_none (id : Z) : ca id = false -> moves id = [].
Proof.
  intros Hca. unfold adj_moves_of, DoOneSearch.
  destruct (_ >=? _); [reflexivity|].
  rewrite Hca. reflexivity.
Qed.

(** The adjustment search of a marked entry finds the placement below
    its anchor at least. *)
Lemma adj_moves_some (id : Z) : ca id = true -> moves id <> [].
Proof.
  intros Hca.
  destruct (adjustable_anchor id Hca) as [Hid [[Hrt Hcl] [Hfs [Hrow Hbit]]]].
  cbv zeta in *.
  unfold adj_moves_of.
  destruct (search_runs kDoubleTuckAllowed level R deltas adj_frame start_col
                        R_ok start_col_ok true id board cols cols_ok tm ca)
    as [_ [new Hnew]].
  - apply Hfs.
  - right. exact Hca.
  - rewrite Hnew,
      (phase1_positions level R taps adj_frame start_col true id board cols).
    assert (Hent : search_entries level R adj_frame taps start_col true id
                   = Phase1TableGen level R taps (frame_start id)
                                    (rot (entry_at (initial tbl) id))
                                    (col (entry_at (initial tbl) id))).
    { unfold search_entries. apply adj_at_entry. exact Hid. }
    destruct (reach_root level R deltas adj_frame start_col R_ok deltas_ok
                         start_col_ok true id board (frame_start id)
                         (rot (entry_at (initial tbl) id))
                                    (col (entry_at (initial tbl) id)) Hent Hrt Hcl ltac:(lia) ltac:(lia))
      as [Hreach _].
    rewrite <- Board_Column_bit, <- cols_ok in Hreach by lia.
    rewrite Hbit in Hreach.
    destruct (reach_run level R taps R_ok taps_nonneg adj_frame start_col
                        start_col_ok true id board cols cols_ok 0 Hreach)
      as [HN _].
    assert (Hmem : In 0 (filter
                     (fun i =>
                        can_reach_of level R adj_frame taps start_col true id
                                     board i
                        && negb (survives level R adj_frame taps start_col
                                          true id cols i))
                     (Zrange 0 (search_N level R adj_frame taps start_col
                                         true id)))).
    { apply filter_In. split; [apply Zrange_In; exact HN|].
      rewrite Hreach. reflexivity. }
    destruct (filter _ _); [destruct Hmem|]. discriminate.
Qed.

Lemma adj_adjustable :
  PossibleMoves.adj
    (search_lists kDoubleTuckAllowed level R adj_frame taps start_col board)
  = map (fun id => (anchor id, moves id))
        (filter ca (Zrange 0 (initial_N tbl))).
Proof.
  rewrite search_lists_adj. f_equal.
  apply filter_ext. intros id.
  destruct (ca id) eqn:Hca.
  - pose proof (adj_moves_some id Hca) as Hne.
    destruct (moves id); [congruence|reflexivity].
  - rewrite (adj_moves_none id Hca). reflexivity.
Qed.

Lemma anchor_in_play (id : Z) : ca id = true -> in_play R board (anchor id).
Proof.
  intros Hca.
  destruct (adjustable_anchor id Hca) as [_ [[Hrt Hcl] [_ [Hrow Hbit]]]].
  cbv zeta in *. rewrite cols_ok in Hbit by assumption.
  unfold in_play, anchor_of. cbn [r x y]. auto.
Qed.

(** The first entry of the initial search is reached exactly when the
    spawn cell is free. *)
Lemma spawn_reach :
  reach0 0 = Z.testbit (Board_Column (board_at board 0) start_col) 0 /\
  rot (entry_at (initial tbl) 0) = 0 /\
  col (entry_at (initial tbl) 0) = start_col /\
  num_taps (entry_at (initial tbl) 0) = 0.
Proof.
  destruct (reach_root level R deltas adj_frame start_col R_ok deltas_ok
                       start_col_ok false 0 board 0 0 start_col)
    as [Hreach Hroot]; try lia.
  - apply initial_gen.
  - destruct level; reflexivity.
  - split; [|exact Hroot].
    rewrite Hreach, Board_Column_bit by lia.
    replace (GetRow 0 level) with 0 by (destruct level; reflexivity).
    reflexivity.
Qed.

Lemma spawn_blocked :
  Z.testbit (Board_Column (board_at board 0) start_col) 0 = false ->
  search_lists kDoubleTuckAllowed level R adj_frame taps start_col board
  = PossibleMoves.mk [] [] /\
  searches_fit kDoubleTuckAllowed level R adj_frame taps start_col board
  = true.
Proof.
  intros Hb.
  assert (H0 : reach0 0 = false) by (rewrite (proj1 spawn_reach); exact Hb).
  pose proof (search_nothing kDoubleTuckAllowed level R deltas adj_frame
                             start_col R_ok start_col_ok false 0 board cols
                             tm (fun _ => false) H0) as Hs.
  assert (Hca : forall id, ca id = false).
  { intros id. unfold can_adj_of. rewrite Hs. reflexivity. }
  assert (Hnon : non_adj_of kDoubleTuckAllowed level R adj_frame taps
                            start_col board = []).
  { unfold non_adj_of. rewrite Hs. reflexivity. }
  split.
  - unfold search_lists. rewrite Hnon, filter_none; [reflexivity|].
    intros id _. rewrite (adj_moves_none id (Hca id)). reflexivity.
  - unfold searches_fit. rewrite Hnon. cbn [fits_buf length andb].
    apply forallb_forall. intros id _.
    rewrite (adj_moves_none id (Hca id)). reflexivity.
Qed.

Lemma spawn_free :
  Z.testbit (Board_Column (board_at board 0) start_col) 0 = true ->
  PossibleMoves.non_adj
    (search_lists kDoubleTuckAllowed level R adj_frame taps start_col board)
  <> []
  \/ PossibleMoves.adj
       (search_lists kDoubleTuckAllowed level R adj_frame taps start_col board)
     <> [].
Proof.
  intros Hb.
  assert (H0 : reach0 0 = true) by (rewrite (proj1 spawn_reach); exact Hb).
  destruct (reach_run level R taps R_ok taps_nonneg adj_frame start_col
                      start_col_ok false 0 board cols cols_ok 0 H0)
    as [HN _].
  destruct (outlives0 0) eqn:Hs.
  - right. rewrite adj_adjustable.
    assert (Hmem : In 0 (filter ca (Zrange 0 (initial_N tbl)))).
    { apply filter_In. split; [apply Zrange_In; exact HN|].
      apply can_adj_of_iff. auto. }
    destruct (filter _ _); [destruct Hmem|]. discriminate.
  - left. rewrite search_lists_non_adj.
    destruct initial_search as [_ [new ->]].
    rewrite (phase1_positions level R taps adj_frame start_col false 0 board
                              cols).
    assert (Hmem : In 0 (filter (fun i => reach0 i && negb (outlives0 i))
                                (Zrange 0 (search_N level R adj_frame taps
                                                    start_col false 0)))).
    { apply filter_In. split; [apply Zrange_In; exact HN|].
      rewrite H0, Hs. reflexivity. }
    destruct (filter _ _); [destruct Hmem|]. discriminate.
Qed.

End Anchors.

(** * The driver: theorems on anchors and on the spawn cell *)

(** X24: when [MoveSearch] returns (no search overruns the 256 places of
    its buffer), every anchor that it returns in [adj] is in play: its
    rotation, row and column are on the board and the piece fits there. *)
Theorem MoveSearch_anchor_in_play (kDoubleTuckAllowed : bool) (level : Level)
        (R adj_frame : Z) (deltas : list Z) (start_col : Z)
        (board : BoardArr) (m : PossibleMoves.t)
        (a : Position * list Position) :
  R = 1 \/ R = 2 \/ R = 4 -> taps_ok deltas -> 0 <= start_col < 10 ->
  MoveSearch kDoubleTuckAllowed level R adj_frame (mkTapTable deltas)
             start_col board = Some m ->
  In a (PossibleMoves.adj m) ->
  in_play R board (fst a).
Proof.
  intros HR Htaps Hsc Hm Ha. apply MoveSearch_Some in Hm. subst m.
  apply search_lists_adj_source in Ha.
  destruct Ha as [Hne [id [_ [-> Hmoves]]]].
  apply anchor_in_play with (kDoubleTuckAllowed := kDoubleTuckAllowed);
    try assumption.
  destruct (can_adj_of kDoubleTuckAllowed level R adj_frame
                       (mkTapTable deltas) start_col board id) eqn:Hca;
    [reflexivity|].
  exfalso. apply Hne. rewrite Hmoves. apply adj_moves_none. exact Hca.
Qed.

Lemma MoveSearch_anchor_in_play_witness :
  in_play 1 (free_boards 1) (mkPosition 0 18 5).
Proof.
  eapply (MoveSearch_anchor_in_play
            false kLevel29 1 18 [0; 2; 2; 2; 2; 2; 2; 2; 2; 2] 5
            (free_boards 1) _
            (mkPosition 0 18 5,
             [mkPosition 0 19 5; mkPosition 0 19 4; mkPosition 0 19 6])).
  - lia.
  - taps_ok_tac.
  - lia.
  - vm_compute. reflexivity.
  - left. reflexivity.
Defined.

(** X25: when [MoveSearch] returns, [adj] holds, in the order of the
    initial table, one element for every entry that the initial search
    marks in [can_adj], and no other: the adjustment search of a marked
    entry always finds a placement, so the test of its size drops none. *)
Theorem MoveSearch_adj_per_marked_entry (kDoubleTuckAllowed : bool)
        (level : Level) (R adj_frame : Z) (deltas : list Z) (start_col : Z)
        (board : BoardArr) (m : PossibleMoves.t) :
  R = 1 \/ R = 2 \/ R = 4 -> taps_ok deltas -> 0 <= start_col < 10 ->
  let taps := mkTapTable deltas in
  let marked :=
    can_adj_of kDoubleTuckAllowed level R adj_frame taps start_col board in
  MoveSearch kDoubleTuckAllowed level R adj_frame taps start_col board
  = Some m ->
  PossibleMoves.adj m
  = map (fun id =>
           (anchor_of level R adj_frame taps start_col id,
            adj_moves_of kDoubleTuckAllowed level R adj_frame taps start_col
                         board id))
        (filter marked
                (Zrange 0 (initial_N (table level R adj_frame taps
                                            start_col))))
  /\ forall id, marked id = true ->
                adj_moves_of kDoubleTuckAllowed level R adj_frame taps
                             start_col board id <> [].
Proof.
  intros HR Htaps Hsc. cbv zeta. intros Hm.
  apply MoveSearch_Some in Hm. subst m. split.
  - apply adj_adjustable; assumption.
  - intros id. apply adj_moves_some; assumption.
Qed.

Lemma MoveSearch_adj_per_marked_entry_witness :
  exists m,
    MoveSearch false kLevel29 1 18 Tap30Hz 5 (free_boards 1) = Some m /\
    PossibleMoves.adj m
    = map (fun id =>
             (anchor_of kLevel29 1 18 Tap30Hz 5 id,
              adj_moves_of false kLevel29 1 18 Tap30Hz 5 (free_boards 1) id))
          (filter (can_adj_of false kLevel29 1 18 Tap30Hz 5 (free_boards 1))
                  (Zrange 0 (initial_N (table kLevel29 1 18 Tap30Hz 5)))).
Proof.
  eexists. split; [vm_compute; reflexivity|].
  refine (proj1 (MoveSearch_adj_per_marked_entry
                   false kLevel29 1 18 [0; 2; 2; 2; 2; 2; 2; 2; 2; 2] 5
                   (free_boards 1) _ _ _ _ _)); try lia.
  - taps_ok_tac.
  - vm_compute. reflexivity.
Defined.

(** X26: the spawn cell decides whether there is a move.  When the cell
    of row 0 and column [start_col] is occupied on the board of rotation 0,
    [MoveSearch] returns no placement and no anchor; when it is free and
    [MoveSearch] returns (no search overruns the 256 places of its buffer),
    it returns a placement or an anchor. *)
Theorem MoveSearch_spawn_cell (kDoubleTuckAllowed : bool) (level : Level)
        (R adj_frame : Z) (deltas : list Z) (start_col : Z)
        (board : BoardArr) :
  R = 1 \/ R = 2 \/ R = 4 -> taps_ok deltas -> 0 <= start_col < 10 ->
  let result := MoveSearch kDoubleTuckAllowed level R adj_frame
                           (mkTapTable deltas) start_col board in
  let spawn_free :=
    Z.testbit (Board_Column (board_at board 0) start_col) 0 in
  (spawn_free = false -> result = Some (PossibleMoves.mk [] [])) /\
  (spawn_free = true ->
   forall m, result = Some m ->
             PossibleMoves.non_adj m <> [] \/ PossibleMoves.adj m <> []).
Proof.
  intros HR Htaps Hsc. cbv zeta. split.
  - intros Hb. rewrite MoveSearch_searches.
    destruct (spawn_blocked kDoubleTuckAllowed level R deltas adj_frame
                            start_col board HR Htaps Hsc Hb) as [-> ->].
    reflexivity.
  - intros Hb m Hm. apply MoveSearch_Some in Hm. subst m.
    apply spawn_free; assumption.
Qed.

Lemma MoveSearch_spawn_cell_witness :
  MoveSearch true kLevel18 4 18 Tap30Hz 5 [0; 0; 0; 0]
  = Some (PossibleMoves.mk [] []).
Proof.
  refine (proj1 (MoveSearch_spawn_cell
                   true kLevel18 4 18 [0; 2; 2; 2; 2; 2; 2; 2; 2; 2] 5
                   [0; 0; 0; 0] _ _ _) _); try lia.
  - taps_ok_tac.
  - reflexivity.
Defined.

(** * The normal form keeps what a search returns *)

(** X27: [Normalize] loses nothing of what [MoveSearch] returns.  When
    [MoveSearch] returns (no search overruns the 256 places of its
    buffer), the normal form has the placements of [non_adj], as many as
    before, and it has as many anchors; for each anchor of the normal form,
    [MoveSearch] returned that anchor with the same placements, as many of
    them. *)
Theorem Normalize_keeps_MoveSearch (kDoubleTuckAllowed : bool)
        (level : Level) (R adj_frame : Z) (deltas : list Z) (start_col : Z)
        (board : BoardArr) (m : PossibleMoves.t) (unique : bool) :
  R = 1 \/ R = 2 \/ R = 4 -> taps_ok deltas -> 0 <= start_col < 10 ->
  MoveSearch kDoubleTuckAllowed level R adj_frame (mkTapTable deltas)
             start_col board = Some m ->
  let n := PossibleMoves.Normalize m unique in
  (forall p, In p (PossibleMoves.non_adj n) <-> In p (PossibleMoves.non_adj m))
  /\ length (PossibleMoves.non_adj n) = length (PossibleMoves.non_adj m)
  /\ length (PossibleMoves.adj n) = length (PossibleMoves.adj m)
  /\ forall b, In b (PossibleMoves.adj n) ->
               exists a, In a (PossibleMoves.adj m) /\ fst b = fst a /\
                         (forall p, In p (snd b) <-> In p (snd a)) /\
                         length (snd b) = length (snd a).
Proof.
  intros HR Htaps Hsc Hm n. apply MoveSearch_Some in Hm.
  destruct (search_lists_NoDup_parts
              kDoubleTuckAllowed level R adj_frame deltas start_col board
              HR Htaps Hsc) as [Hnon Hadj].
  rewrite <- Hm in Hnon, Hadj.
  unfold n, PossibleMoves.Normalize. cbn [PossibleMoves.non_adj
                                           PossibleMoves.adj].
  split; [intros p; apply UniqueVector_mem|].
  split; [apply UniqueVector_NoDup_length, Hnon|].
  split; [rewrite sort_by_length, length_map; reflexivity|].
  intros b Hb. apply sort_by_mem, in_map_iff in Hb.
  destruct Hb as [a [<- Ha]]. exists a. cbn [fst snd].
  split; [exact Ha|]. split; [reflexivity|].
  split; [intros p; apply UniqueVector_mem|].
  apply UniqueVector_NoDup_length, Hadj, Ha.
Qed.

Lemma Normalize_keeps_MoveSearch_witness :
  exists m,
    MoveSearch false kLevel39 4 18 Tap30Hz 5 (free_boards 4) = Some m /\
    length (PossibleMoves.non_adj (PossibleMoves.Normalize m true))
    = length (PossibleMoves.non_adj m).
Proof.
  eexists. split; [vm_compute; reflexivity|].
  refine (proj1 (proj2 (Normalize_keeps_MoveSearch
                          false kLevel39 4 18 [0; 2; 2; 2; 2; 2; 2; 2; 2; 2]
                          5 (free_boards 4) _ true _ _ _ _))); try lia.
  - taps_ok_tac.
  - vm_compute. reflexivity.
Defined.

(** * Every placement of phase 2 comes from a tuck *)

Lemma GetFirstFrameOnRow_nonneg (row : Z) (level : Level) :
  0 <= row -> 0 <= GetFirstFrameOnRow row level.
Proof.
  intros Hrow. destruct level; unfold GetFirstFrameOnRow; try lia.
  apply Z.quot_pos; lia.
Qed.

Lemma frame_on_row (n row : Z) (level : Level) :
  0 <= row ->
  GetFirstFrameOnRow row level <= n < GetLastFrameOnRow row level + 1 ->
  0 <= n /\ GetRow n level = row.
Proof.
  intros Hrow Hn.
  pose proof (GetFirstFrameOnRow_nonneg row level Hrow) as Hf.
  assert (H0 : 0 <= n) by lia. split; [exact H0|].
  pose proof (proj2 (GetRow_ge_first n row level H0 Hrow) ltac:(lia)).
  pose proof (proj2 (GetRow_le_last n row level H0 Hrow) ltac:(lia)).
  lia.
Qed.

(** X28: a placement that phase 2 adds is explained by a tuck.  There are
    a tuck type of [TuckTypeTable], a cell (rot, col) and a frame [f] of
    the tuck window [can_tuck] of that cell such that the piece fits in
    (rot, col) on the row of frame [f], the tuck leads to the rotation and
    column of the placement, the piece fits there on the row of frame
    [f + delta_frame], and the placement is where it comes to rest when it
    falls from that row. *)
Theorem RunPhase2_tuck_explained (kDoubleTuckAllowed : bool) (level : Level)
        (R : Z) (board : BoardArr) (lock : Z -> Z -> Column)
        (can_tuck : Z -> Z -> Frames) (acc : list Position) (p : Position) :
  R = 1 \/ R = 2 \/ R = 4 ->
  let cols := columns_of level R board in
  let tuck_masks := tuck_masks_of kDoubleTuckAllowed level R board in
  In p (RunPhase2 kDoubleTuckAllowed level R cols tuck_masks lock can_tuck acc)
  ->
  In p acc \/
  exists i rot col f,
    let tuck := TuckTypeTable kDoubleTuckAllowed R i in
    0 <= i < TuckTypes kDoubleTuckAllowed R /\
    (0 <= rot < R /\ 0 <= col < 10) /\ 0 <= f /\
    r p = Z.rem (rot + delta_rot tuck) R /\ y p = col + delta_col tuck /\
    Z.testbit (can_tuck rot col) f = true /\
    Z.testbit (cols rot col) (GetRow f level) = true /\
    Z.testbit (cols (r p) (y p)) (GetRow (f + delta_frame tuck) level) = true /\
    FindLockRow (cols (r p) (y p)) (GetRow (f + delta_frame tuck) level) = x p.
Proof.
  intros HR. cbv zeta. intros Hp.
  pose proof (columns_of_range level R board) as Hrange.
  pose proof (load_columns_frame_ok level R board) as Hframe.
  unfold tuck_masks_of in *.
  set (m := snd (load_columns level R board)) in *.
  apply (RunPhase2_meaning kDoubleTuckAllowed level R
                           (columns_of level R board) m HR Hrange Hframe)
    in Hp.
  destruct Hp as [Hp|[[Hrt Hcl] [Hx [Hlock [a [Ha [Hbit Hrow]]]]]]];
    [left; exact Hp|right].
  pose proof (after_tuck_within kDoubleTuckAllowed level R
                                (columns_of level R board) m HR Hrange Hframe
                                lock can_tuck (r p) (y p) a Hrt Hcl Ha Hbit)
    as Hfree.
  pose proof (testbit_below _ _ (Hrange (r p) (y p) Hrt Hcl) Hfree) as Ha20.
  rewrite FramesToColumn_row in Hbit
    by (try apply tuck_result_range; assumption).
  apply existsb_exists in Hbit. destruct Hbit as [n [Hn Hres]].
  apply Zrange_In in Hn.
  destruct (frame_on_row n a level Ha Hn) as [Hn0 Hna].
  apply (tuck_result_iff kDoubleTuckAllowed R
                         (GetTuckMasks kDoubleTuckAllowed R m) can_tuck HR
                         (r p) (y p) n Hn0) in Hres.
  destruct Hres as [i [rot [col [Hi [Hrot [[Hcol Hcol'] [Hr [Hy [_ [Hmask Hwin]]]]
                   ]]]]]].
  set (tuck := TuckTypeTable kDoubleTuckAllowed R i) in *.
  assert (Hf : 0 <= n - delta_frame tuck).
  { destruct (Z_lt_le_dec (n - delta_frame tuck) 0) as [Hneg|]; [|assumption].
    rewrite Z.testbit_neg_r in Hwin by exact Hneg. discriminate. }
  destruct (tuck_mask_bit kDoubleTuckAllowed R m i rot col
                          (n - delta_frame tuck) HR Hi Hrot Hcol Hf Hmask)
    as [_ [_ [Hsrc _]]].
  rewrite Hframe, Normal_bit in Hsrc by (try apply Hrange; assumption).
  exists i, rot, col, (n - delta_frame tuck). fold tuck.
  replace (n - delta_frame tuck + delta_frame tuck) with n by lia.
  rewrite Hna. repeat split; try assumption; lia.
Qed.

Lemma RunPhase2_tuck_explained_witness :
  In (mkPosition 0 18 4)
     (RunPhase2 false kLevel18 4 (columns_of kLevel18 4 T_empty)
                (tuck_masks_of false kLevel18 4 T_empty) (fun _ _ => 0)
                (fun rot col => if (rot =? 0) && (col =? 5) then 8 else 0)
                []) /\
  exists i rot col f,
    0 <= i < TuckTypes false 4 /\
    (0 <= rot < 4 /\ 0 <= col < 10) /\ 0 <= f /\
    0 = Z.rem (rot + delta_rot (TuckTypeTable false 4 i)) 4 /\
    4 = col + delta_col (TuckTypeTable false 4 i) /\
    Z.testbit (if (rot =? 0) && (col =? 5) then 8 else 0) f = true /\
    Z.testbit (columns_of kLevel18 4 T_empty rot col) (GetRow f kLevel18)
    = true /\
    Z.testbit (columns_of kLevel18 4 T_empty 0 4)
              (GetRow (f + delta_frame (TuckTypeTable false 4 i)) kLevel18)
    = true /\
    FindLockRow (columns_of kLevel18 4 T_empty 0 4)
                (GetRow (f + delta_frame (TuckTypeTable false 4 i)) kLevel18)
    = 18.
Proof.
  assert (Hin : In (mkPosition 0 18 4)
                   (RunPhase2 false kLevel18 4
                              (columns_of kLevel18 4 T_empty)
                              (tuck_masks_of false kLevel18 4 T_empty)
                              (fun _ _ => 0)
                              (fun rot col =>
                                 if (rot =? 0) && (col =? 5) then 8 else 0)
                              []))
    by (vm_compute; left; reflexivity).
  split; [exact Hin|].
  destruct (RunPhase2_tuck_explained
              false kLevel18 4 T_empty (fun _ _ => 0)
              (fun rot col => if (rot =? 0) && (col =? 5) then 8 else 0)
              [] (mkPosition 0 18 4) ltac:(lia) Hin)
    as [[]|Hex].
  exact Hex.
Defined.
